(** * biosim4-web: a shallow embedding of the evolution core

    The TypeScript sources under [src/lib/biosim4] are embedded function by
    function.  JavaScript numbers that hold integers are [Z]; the 32-bit
    operators ([&], [|], [^], [<<], [>>>], [Math.imul]) have their
    wrap-around written out; typed arrays are lists with the conversion
    applied at each store; doubles are the kernel's binary64 floats. *)

From Stdlib Require Import ZArith Lia Bool List Floats.
From stdpp Require Import base list.
Import ListNotations.

Local Open Scope Z_scope.

(* ================================================================== *)
(** * Part I: definitions                                              *)
(* ================================================================== *)

(** ** JavaScript integer operators *)

Module JS.

(** [x >>> 0] on an integer-valued number. *)
Definition ToUint32 (z : Z) : Z := z mod 2 ^ 32.

(** The conversion every bitwise operator applies to its operands. *)
Definition ToInt32 (z : Z) : Z := (z + 2 ^ 31) mod 2 ^ 32 - 2 ^ 31.

Definition ToUint16 (z : Z) : Z := z mod 2 ^ 16.
Definition ToUint8 (z : Z) : Z := z mod 2 ^ 8.

Definition band (a b : Z) : Z := Z.land (ToInt32 a) (ToInt32 b).
Definition bor (a b : Z) : Z := Z.lor (ToInt32 a) (ToInt32 b).
Definition bxor (a b : Z) : Z := Z.lxor (ToInt32 a) (ToInt32 b).

(** [a << k]: the count is taken modulo 32, the result is an int32. *)
Definition shl (a k : Z) : Z := ToInt32 (Z.shiftl (ToInt32 a) (k mod 32)).

(** [a >>> k]: zero-filling shift of the uint32 pattern. *)
Definition shru (a k : Z) : Z := Z.shiftr (ToUint32 a) (k mod 32).

(** [Math.imul(a, b)]. *)
Definition imul (a b : Z) : Z := ToInt32 (ToInt32 a * ToInt32 b).

End JS.

(** ** types.ts: the gene and its 32-bit packing *)

Definition NEURON : Z := 0.
Definition SENSOR : Z := 1.
Definition ACTION : Z := 1.

Record Gene : Type := mkGene {
  sourceType : Z;
  sourceId : Z;
  sinkType : Z;
  sinkId : Z;
  weightAsInt : Z
}.

Definition Genome : Type := list Gene.

Definition geneToUint32 (g : Gene) : Z :=
  JS.shru
    (JS.bor
       (JS.bor
          (JS.bor
             (JS.bor (JS.shl (JS.band (sourceType g) 1) 31)
                     (JS.shl (JS.band (sourceId g) 0x7F) 24))
             (JS.shl (JS.band (sinkType g) 1) 23))
          (JS.shl (JS.band (sinkId g) 0x7F) 16))
       (JS.band (weightAsInt g) 0xFFFF))
    0.

Definition uint32ToGene (val : Z) : Gene :=
  {| sourceType := JS.band (JS.shru val 31) 1;
     sourceId := JS.band (JS.shru val 24) 0x7F;
     sinkType := JS.band (JS.shru val 23) 1;
     sinkId := JS.band (JS.shru val 16) 0x7F;
     weightAsInt :=
       if JS.band val 0xFFFF >? 0x7FFF
       then JS.band val 0xFFFF - 0x10000
       else JS.band val 0xFFFF |}.

(** A structured gene whose fields fit the widths of the packed layout. *)
Definition gene_in_range (g : Gene) : Prop :=
  0 <= sourceType g < 2 /\ 0 <= sourceId g < 128 /\
  0 <= sinkType g < 2 /\ 0 <= sinkId g < 128 /\
  -32768 <= weightAsInt g < 32768.

(** ** random.ts: SplitMix32 seeding and the xoshiro128** step *)

Module PRNG.

(** The [Uint32Array(4)] held by a generator. *)
Record t : Type := mk { s0 : Z; s1 : Z; s2 : Z; s3 : Z }.

Definition rotl (x k : Z) : Z :=
  JS.shru (JS.bor (JS.shl x k) (JS.shru x (32 - k))) 0.

(** One round of the seeding loop: the new [z] and the word stored. *)
Definition splitmix (z : Z) : Z * Z :=
  let z := JS.shru (z + 0x9E3779B9) 0 in
  let t := JS.bxor z (JS.shru z 16) in
  let t := JS.imul t 0x21f0aaad in
  let t := JS.bxor t (JS.shru t 15) in
  let t := JS.imul t 0x735a2d97 in
  let t := JS.bxor t (JS.shru t 15) in
  (z, JS.shru t 0).

Definition create (seed : Z) : t :=
  let z := JS.shru seed 0 in
  let '(z, w0) := splitmix z in
  let '(z, w1) := splitmix z in
  let '(z, w2) := splitmix z in
  let '(_, w3) := splitmix z in
  mk w0 w1 w2 w3.

(** [nextUint32]: the value returned and the generator afterwards.  Each
    assignment to [s[i]] stores into a [Uint32Array], hence [ToUint32]. *)
Definition nextUint32 (g : t) : Z * t :=
  let result := JS.shru (JS.imul (rotl (JS.imul (s1 g) 5) 7) 9) 0 in
  let t := JS.shru (JS.shl (s1 g) 9) 0 in
  let a2 := JS.ToUint32 (JS.bxor (s2 g) (s0 g)) in
  let a3 := JS.ToUint32 (JS.bxor (s3 g) (s1 g)) in
  let a1 := JS.ToUint32 (JS.bxor (s1 g) a2) in
  let a0 := JS.ToUint32 (JS.bxor (s0 g) a3) in
  let b2 := JS.ToUint32 (JS.bxor a2 t) in
  let b3 := JS.ToUint32 (JS.shru (rotl a3 11) 0) in
  (result, mk a0 a1 b2 b3).

(** The first [n] values a generator returns. *)
Fixpoint outputs (n : nat) (g : t) : list Z :=
  match n with
  | O => []
  | S n' => let '(r, g') := nextUint32 g in r :: outputs n' g'
  end.

(** The generator after [n] calls. *)
Fixpoint after (n : nat) (g : t) : t :=
  match n with
  | O => g
  | S n' => after n' (snd (nextUint32 g))
  end.

(** Every word is a uint32, as a [Uint32Array] guarantees. *)
Definition wf (g : t) : Prop :=
  0 <= s0 g < 2 ^ 32 /\ 0 <= s1 g < 2 ^ 32 /\
  0 <= s2 g < 2 ^ 32 /\ 0 <= s3 g < 2 ^ 32.

End PRNG.

(** The generator of section 4.1 read word for word: the output, then the
    six assignments performed one after the other, each reading the current
    words. *)
Module PRNGSpec.

Definition rotl32 (x k : Z) : Z :=
  Z.lor (Z.shiftl x k mod 2 ^ 32) (Z.shiftr x (32 - k)).

Definition output (g : PRNG.t) : Z :=
  (rotl32 ((PRNG.s1 g * 5) mod 2 ^ 32) 7 * 9) mod 2 ^ 32.

Definition update_in_sequence (g : PRNG.t) : PRNG.t :=
  let '(PRNG.mk s0 s1 s2 s3) := g in
  let s2 := Z.lxor s2 s0 in
  let s3 := Z.lxor s3 s1 in
  let s1 := Z.lxor s1 s2 in
  let s0 := Z.lxor s0 s3 in
  let s2 := Z.lxor s2 (Z.shiftl s1 9 mod 2 ^ 32) in
  let s3 := rotl32 s3 11 in
  PRNG.mk s0 s1 s2 s3.

(** The same assignments with the shifted word taken from the state as it
    was when the call began. *)
Definition update_with_saved_shift (g : PRNG.t) : PRNG.t :=
  let '(PRNG.mk s0 s1 s2 s3) := g in
  let t := Z.shiftl s1 9 mod 2 ^ 32 in
  let s2 := Z.lxor s2 s0 in
  let s3 := Z.lxor s3 s1 in
  let s1 := Z.lxor s1 s2 in
  let s0 := Z.lxor s0 s3 in
  let s2 := Z.lxor s2 t in
  let s3 := rotl32 s3 11 in
  PRNG.mk s0 s1 s2 s3.

End PRNGSpec.

(** ** JavaScript numbers that are not integers

    A [number] is an IEEE 754 binary64 value, which is what the kernel's
    [float] is: [+], [-], [*], [/], [Math.sqrt], [Math.abs] and the
    comparisons are the primitive operations.  The functions below turn an
    integer into a number and back, exactly. *)

Module Num.

(** The number nearest to [m * 2^e] (ties to even). *)
Definition ofScaled (m e : Z) : float :=
  SF2Prim (SpecFloat.binary_normalize 53 1024 m e false).

(** An integer as a number (exact below [2^53] in magnitude). *)
Definition ofZ (z : Z) : float := ofScaled z 0.

(** The numerator [v] and exponent [e] of a finite number [v * 2^e]. *)
Definition finite_parts (x : float) : option (Z * Z) :=
  match Prim2SF x with
  | S754_zero _ => Some (0, 0)
  | S754_finite s m e => Some (if s then Zneg m else Zpos m, e)
  | _ => None
  end.

(** [Math.floor] of a finite number, as an integer; 0 where JavaScript has
    no integer ([NaN], the infinities). *)
Definition floorZ (x : float) : Z :=
  match finite_parts x with
  | Some (v, e) => if 0 <=? e then v * 2 ^ e else v / 2 ^ (- e)
  | None => 0
  end.

(** Truncation toward zero, the first step of [ToUint32] on a number. *)
Definition truncZ (x : float) : Z :=
  match finite_parts x with
  | Some (v, e) => if 0 <=? e then v * 2 ^ e else Z.quot v (2 ^ (- e))
  | None => 0
  end.

(** [Math.round] of a finite number: the nearest integer, halves upward. *)
Definition roundZ (x : float) : Z :=
  match finite_parts x with
  | Some (v, e) =>
      if 0 <=? e then v * 2 ^ e else (2 * v + 2 ^ (- e)) / 2 ^ (- e + 1)
  | None => 0
  end.

(** [Math.floor] as a number: not-a-number and the infinities are kept. *)
Definition floor (x : float) : float :=
  if PrimFloat.is_finite x then ofZ (floorZ x) else x.

(** [Math.round] as a number. *)
Definition round (x : float) : float :=
  if PrimFloat.is_finite x then ofZ (roundZ x) else x.

(** [a % b] on numbers: the exact remainder with the sign of [a]. *)
Definition rem (a b : float) : float :=
  match finite_parts a, finite_parts b with
  | Some (va, ea), Some (vb, eb) =>
      if vb =? 0 then nan
      else
        let e := Z.min ea eb in
        ofScaled (Z.rem (va * 2 ^ (ea - e)) (vb * 2 ^ (eb - e))) e
  | Some _, None => if PrimFloat.is_nan b then nan else a
  | None, _ => nan
  end.

(** [Math.fround]: the value a [Float32Array] keeps of a number. *)
Definition fround (x : float) : float :=
  match Prim2SF x with
  | S754_finite s m e =>
      SF2Prim (SpecFloat.binary_normalize 24 128 (if s then Zneg m else Zpos m) e s)
  | _ => x
  end.

(** [Math.PI]. *)
Definition PI : float := 0x1.921fb54442d18p+1%float.

(** [Math.max(a, b)] and [Math.min(a, b)]: not-a-number wins. *)
Definition max (a b : float) : float :=
  if PrimFloat.is_nan a then a
  else if PrimFloat.is_nan b then b
  else if PrimFloat.ltb a b then b else a.

Definition min (a b : float) : float :=
  if PrimFloat.is_nan a then a
  else if PrimFloat.is_nan b then b
  else if PrimFloat.ltb b a then b else a.

End Num.

(** ** Outcomes of a call: a value, an exception, or no answer within the
    iterations allowed to a loop whose bound is not syntactic *)

Inductive Outcome (A : Type) : Type :=
  | Returns (a : A)
  | Throws
  | Diverges.
Arguments Returns {A} a.
Arguments Throws {A}.
Arguments Diverges {A}.

#[global] Instance Outcome_ret : MRet Outcome := fun A a => Returns a.

#[global] Instance Outcome_bind : MBind Outcome := fun A B k m =>
  match m with
  | Returns a => k a
  | Throws => Throws
  | Diverges => Diverges
  end.

(** Reading a property of [arr[i]]: [undefined] has none, so the read throws. *)
Definition elem {A} (arr : list A) (i : Z) : Outcome A :=
  if i <? 0 then Throws
  else match arr !! Z.to_nat i with
       | Some a => Returns a
       | None => Throws
       end.

(** ** neural-net.ts: wiring a genome *)

Definition NUM_SENSES : Z := 21.
Definition NUM_ACTIONS : Z := 17.

Module Conn.
Record t : Type := mk {
  sourceType : Z;
  sourceId : Z;
  sinkType : Z;
  sinkId : Z;
  weight : float
}.
End Conn.

Record Neuron : Type := mkNeuron { output : float; driven : bool }.

Record NeuralNet : Type := mkNet {
  connections : list Conn.t;
  neurons : list Neuron
}.

Definition GENE_WEIGHT_DIVISOR : float := 8192%float.

Definition geneWeight (g : Gene) : float :=
  (Num.ofZ (weightAsInt g) / GENE_WEIGHT_DIVISOR)%float.

(** The connection pushed for one gene; [%] is JavaScript's remainder. *)
Definition connOfGene (numInternalNeurons : Z) (gene : Gene) : Conn.t :=
  {| Conn.sourceType := sourceType gene;
     Conn.sourceId :=
       if sourceType gene =? SENSOR
       then Z.rem (sourceId gene) NUM_SENSES
       else Z.rem (sourceId gene) numInternalNeurons;
     Conn.sinkType := sinkType gene;
     Conn.sinkId :=
       if sinkType gene =? ACTION
       then Z.rem (sinkId gene) NUM_ACTIONS
       else Z.rem (sinkId gene) numInternalNeurons;
     Conn.weight := geneWeight gene |}.

(** [neurons[i].driven = b]. *)
Definition setDriven (neurons : list Neuron) (i : Z) (b : bool)
  : Outcome (list Neuron) :=
  n ← elem neurons i;
  Returns (<[Z.to_nat i := mkNeuron (output n) b]> neurons).

(** [for (const conn of connections) if (conn.sinkType === NEURON)
    neurons[conn.sinkId].driven = true]. *)
Fixpoint markDriven (neurons : list Neuron) (conns : list Conn.t)
  : Outcome (list Neuron) :=
  match conns with
  | [] => Returns neurons
  | conn :: rest =>
      if Conn.sinkType conn =? NEURON
      then neurons' ← setDriven neurons (Conn.sinkId conn) true;
           markDriven neurons' rest
      else markDriven neurons rest
  end.

(** [for (const n of neurons) n.driven = false]. *)
Definition clearDriven (neurons : list Neuron) : list Neuron :=
  map (fun n => mkNeuron (output n) false) neurons.

(** The inner loop [for (let i = connections.length - 1; i >= 0; i--)]:
    [k] iterations remain, the next index is [k - 1]. *)
Fixpoint prunePass (k : nat) (neurons : list Neuron) (conns : list Conn.t)
    (changed : bool) : Outcome (list Conn.t * bool) :=
  match k with
  | O => Returns (conns, changed)
  | S i =>
      conn ← elem conns (Z.of_nat i);
      if Conn.sourceType conn =? NEURON
      then n ← elem neurons (Conn.sourceId conn);
           if negb (driven n)
           then prunePass i neurons (delete i conns) true
           else prunePass i neurons conns changed
      else prunePass i neurons conns changed
  end.

(** [while (changed)]: one pass, then the flags are recomputed. *)
Fixpoint pruneLoop (fuel : nat) (neurons : list Neuron) (conns : list Conn.t)
  : Outcome NeuralNet :=
  match fuel with
  | O => Diverges
  | S fuel' =>
      pass ← prunePass (length conns) neurons conns false;
      let '(pruned, changed) := (pass : list Conn.t * bool) in
      neurons' ← markDriven (clearDriven neurons) pruned;
      if changed then pruneLoop fuel' neurons' pruned
      else Returns (mkNet pruned neurons')
  end.

(** The loop runs one pass more than it removes connections, so the number
    of genes plus one bounds its passes. *)
Definition buildNeuralNet (genome : Genome) (numInternalNeurons : Z)
  : Outcome NeuralNet :=
  let connections := map (connOfGene numInternalNeurons) genome in
  let neurons :=
    replicate (Z.to_nat numInternalNeurons) (mkNeuron 0.5%float false) in
  neurons ← markDriven neurons connections;
  pruneLoop (S (length genome)) neurons connections.

(** What the wiring promises, as predicates on a finished network. *)

(** Some connection of [conns] feeds neuron [i]. *)
Definition isDrivenBy (conns : list Conn.t) (i : nat) : bool :=
  existsb (fun c => (Conn.sinkType c =? NEURON) && (Conn.sinkId c =? Z.of_nat i))
    conns.

(** The test of the pruning pass, negated: the connection stays. *)
Definition keepConn (neurons : list Neuron) (c : Conn.t) : bool :=
  negb (Conn.sourceType c =? NEURON) ||
  match neurons !! Z.to_nat (Conn.sourceId c) with
  | Some n => driven n
  | None => false
  end.

(** No connection leaves an internal neuron that is not driven. *)
Definition noUndrivenSource (net : NeuralNet) : Prop :=
  forall c, c ∈ connections net -> Conn.sourceType c = NEURON ->
    exists n, neurons net !! Z.to_nat (Conn.sourceId c) = Some n /\ driven n = true.

(** A neuron marked driven has an inbound connection among those left. *)
Definition drivenHasInput (net : NeuralNet) : Prop :=
  forall i n, neurons net !! i = Some n -> driven n = true ->
    exists c, c ∈ connections net /\ Conn.sinkType c = NEURON /\
              Conn.sinkId c = Z.of_nat i.

(** Endpoints that name a neuron name one of the [nn] that exist. *)
Definition sinkOk (nn : nat) (c : Conn.t) : Prop :=
  Conn.sinkType c = NEURON -> 0 <= Conn.sinkId c < Z.of_nat nn.
Definition sourceOk (nn : nat) (c : Conn.t) : Prop :=
  Conn.sourceType c = NEURON -> 0 <= Conn.sourceId c < Z.of_nat nn.

(** Identifiers as the codec produces them: never negative. *)
Definition gene_ids_nonneg (g : Gene) : Prop := 0 <= sourceId g /\ 0 <= sinkId g.

(** ** random.ts: the methods built on [nextUint32]

    The callers only ever ask a generator for its next word, so they are
    written against that one operation.  [PRNG_source] is the generator of
    the source; [Counted_source] is the same generator with a tally of the
    words drawn, used to state how often a caller draws. *)

Class RandomSource (R : Type) := drawUint32 : R -> Z * R.

#[global] Instance PRNG_source : RandomSource PRNG.t := PRNG.nextUint32.

Record Counted (R : Type) : Type := counted { source : R; draws : nat }.
Arguments counted {R} source draws.
Arguments source {R} c.
Arguments draws {R} c.

#[global] Instance Counted_source (R : Type) `{RandomSource R}
  : RandomSource (Counted R) := fun c =>
  let '(u, r) := drawUint32 (source c) in (u, counted r (S (draws c))).

Module Rng.
Section Methods.
Context {R : Type} `{RandomSource R}.

(** [next()]: a float in [0, 1). *)
Definition next (r : R) : float * R :=
  let '(u, r') := drawUint32 r in ((Num.ofZ u / 4294967296)%float, r').

(** [nextInt(max)]: [Math.floor(this.next() * max)].  [next()] is
    [u / 2^32] exactly, and its product with an integer [max] is exact in
    binary64 while [u * max < 2^53], that is for every [max] below [2^21]
    (lengths, sizes and counts here are far smaller); the floor of the
    exact product is the integer quotient. *)
Definition nextInt (max : Z) (r : R) : Z * R :=
  let '(u, r') := drawUint32 r in (u * max / 2 ^ 32, r').

(** The same method evaluated in binary64, as the source writes it. *)
Definition nextInt_binary64 (max : Z) (r : R) : Z * R :=
  let '(v, r') := next r in (Num.floorZ (v * Num.ofZ max)%float, r').

(** [nextRange(min, max)]: [min + Math.floor(this.next() * (max - min + 1))]. *)
Definition nextRange (min max : Z) (r : R) : Z * R :=
  let '(v, r') := next r in
  (min + Num.floorZ (v * Num.ofZ (max - min + 1))%float, r').

(** [chance(p)]: [this.next() < p]. *)
Definition chance (p : float) (r : R) : bool * R :=
  let '(v, r') := next r in (PrimFloat.ltb v p, r').

End Methods.
End Rng.

(** ** genome.ts: the genetic operators *)

Section GenomeOperators.
Context {R : Type} `{RandomSource R}.

(** [makeRandomGene(rng.bound())]. *)
Definition makeRandomGene (r : R) : Gene * R :=
  let '(v, r') := Rng.next r in
  (uint32ToGene (JS.shru (Num.truncZ (v * 4294967296)%float) 0), r').

Fixpoint makeRandomGenes (n : nat) (r : R) : Genome * R :=
  match n with
  | O => ([], r)
  | S n' =>
      let '(g, r1) := makeRandomGene r in
      let '(gs, r2) := makeRandomGenes n' r1 in
      (g :: gs, r2)
  end.

Definition makeRandomGenome (r : R) (length : Z) : Genome * R :=
  makeRandomGenes (Z.to_nat length) r.

(** The loop visits the genes in order and replaces the one it mutates. *)
Fixpoint applyPointMutations (genome : Genome) (r : R) (rate : float)
  : Genome * R :=
  match genome with
  | [] => ([], r)
  | gene :: rest =>
      let '(hit, r1) := Rng.chance rate r in
      let '(gene', r2) :=
        if hit
        then let val := geneToUint32 gene in
             let '(bit, r') := Rng.nextInt 32 r1 in
             let mutated := JS.bxor val (JS.shl 1 bit) in
             (uint32ToGene (JS.shru mutated 0), r')
        else (gene, r1) in
      let '(rest', r3) := applyPointMutations rest r2 rate in
      (gene' :: rest', r3)
  end.

(** [genome.splice(idx, 0, gene)]. *)
Definition spliceIn (idx : Z) (gene : Gene) (genome : Genome) : Genome :=
  take (Z.to_nat idx) genome ++ gene :: drop (Z.to_nat idx) genome.

Definition applyInsertionDeletion (genome : Genome) (r : R)
    (rate deletionRatio : float) (maxLength : Z) : Genome * R :=
  if (length genome =? 0)%nat then (genome, r)
  else
    let '(hit, r1) := Rng.chance rate r in
    if hit
    then
      let '(del, r2) := Rng.chance deletionRatio r1 in
      if del
      then
        if 1 <? Z.of_nat (length genome)
        then let '(idx, r3) := Rng.nextInt (Z.of_nat (length genome)) r2 in
             (delete (Z.to_nat idx) genome, r3)
        else (genome, r2)
      else
        if Z.of_nat (length genome) <? maxLength
        then let '(idx, r3) := Rng.nextInt (Z.of_nat (length genome) + 1) r2 in
             let '(gene, r4) := makeRandomGene r3 in
             (spliceIn idx gene genome, r4)
        else (genome, r2)
    else (genome, r1).

(** Single-point crossover.  The first loop copies [parent1[0..cross1]],
    the second [parent2[cross2+1..]]; [nextInt] keeps both cuts below the
    lengths. *)
Definition crossover (parent1 parent2 : Genome) (r : R) : Genome * R :=
  if (length parent1 =? 0)%nat then (parent2, r)
  else if (length parent2 =? 0)%nat then (parent1, r)
  else
    let '(cross1, r1) := Rng.nextInt (Z.of_nat (length parent1)) r in
    let '(cross2, r2) := Rng.nextInt (Z.of_nat (length parent2)) r1 in
    let child :=
      take (Z.to_nat (cross1 + 1)) parent1 ++ drop (Z.to_nat (cross2 + 1)) parent2 in
    if (0 <? length child)%nat then (child, r2)
    else let '(g, r3) := makeRandomGene r2 in ([g], r3).

End GenomeOperators.

(** ** types.ts: compass directions and coordinates *)

Module Compass.
Inductive t : Type := N | NE | E | SE | S | SW | W | NW | CENTER.

Definition toZ (d : t) : Z :=
  match d with
  | N => 0 | NE => 1 | E => 2 | SE => 3 | S => 4 | SW => 5 | W => 6 | NW => 7
  | CENTER => 8
  end.

(** A number read as a [Compass]; only 0..8 name a direction. *)
Definition ofZ (z : Z) : t :=
  match z with
  | 0 => N | 1 => NE | 2 => E | 3 => SE | 4 => S | 5 => SW | 6 => W | 7 => NW
  | _ => CENTER
  end.
End Compass.

Module Coord.
Record t : Type := mk { x : Z; y : Z }.
End Coord.

#[global] Instance Coord_eq_dec : EqDecision Coord.t.
Proof. solve_decision. Defined.

Definition coordAdd (a b : Coord.t) : Coord.t :=
  Coord.mk (Coord.x a + Coord.x b) (Coord.y a + Coord.y b).

Module Dir.
Definition t : Type := Compass.t.

(** [((dir9 + n) % 8 + 8) % 8], with JavaScript's remainder. *)
Definition rotate (d : t) (n : Z) : t :=
  match d with
  | Compass.CENTER => Compass.CENTER
  | _ => Compass.ofZ (Z.rem (Z.rem (Compass.toZ d + n) 8 + 8) 8)
  end.

Definition rotate90CW (d : t) : t := rotate d 2.
Definition rotate90CCW (d : t) : t := rotate d (-2).
Definition rotate180 (d : t) : t := rotate d 4.

(** The table [DIR_AS_COORD]. *)
Definition asNormalizedCoord (d : t) : Coord.t :=
  match d with
  | Compass.N => Coord.mk 0 (-1)
  | Compass.NE => Coord.mk 1 (-1)
  | Compass.E => Coord.mk 1 0
  | Compass.SE => Coord.mk 1 1
  | Compass.S => Coord.mk 0 1
  | Compass.SW => Coord.mk (-1) 1
  | Compass.W => Coord.mk (-1) 0
  | Compass.NW => Coord.mk (-1) (-1)
  | Compass.CENTER => Coord.mk 0 0
  end.

(** [Dir.random(rng)]: [Math.floor(rng() * 8)]. *)
Definition random {R : Type} `{RandomSource R} (r : R) : t * R :=
  let '(v, r') := Rng.next r in (Compass.ofZ (Num.floorZ (v * 8)%float), r').
End Dir.

(** ** config.ts: the parameters the core reads *)

Module SimParams.
Record t : Type := mk {
  population : Z;
  stepsPerGeneration : Z;
  maxGenerations : Z;
  sizeX : Z;
  sizeY : Z;
  genomeInitialLengthMin : Z;
  genomeInitialLengthMax : Z;
  genomeMaxLength : Z;
  maxNumberNeurons : Z;
  pointMutationRate : float;
  geneInsertionDeletionRate : float;
  deletionRatio : float;
  sexualReproduction : bool;
  chooseParentsByFitness : bool;
  responsivenessCurveKFactor : float;
  signalLayers : nat;
  signalSensorRadius : float;
  longProbeDistance : float;
  shortProbeBarrierDistance : Z;
  killEnable : bool;
  rngSeed : Z;
  populationSensorRadius : float
}.
End SimParams.

(** ** indiv.ts: an individual *)

Module Indiv.
Record t : Type := mk {
  index : Z;
  alive : bool;
  loc : Coord.t;
  birthLoc : Coord.t;
  lastMoveDir : Dir.t;
  genome : Genome;
  nnet : NeuralNet;
  age : Z;
  responsiveness : float;
  oscPeriod : float;
  longProbeDist : float;
  challengeBits : Z;
  lastDirection : Dir.t
}.

(** Assignments to one field of the object. *)
Definition set_alive (b : bool) (i : t) : t :=
  mk (index i) b (loc i) (birthLoc i) (lastMoveDir i) (genome i) (nnet i)
     (age i) (responsiveness i) (oscPeriod i) (longProbeDist i)
     (challengeBits i) (lastDirection i).
Definition set_loc (c : Coord.t) (i : t) : t :=
  mk (index i) (alive i) c (birthLoc i) (lastMoveDir i) (genome i) (nnet i)
     (age i) (responsiveness i) (oscPeriod i) (longProbeDist i)
     (challengeBits i) (lastDirection i).
Definition set_lastMoveDir (d : Dir.t) (i : t) : t :=
  mk (index i) (alive i) (loc i) (birthLoc i) d (genome i) (nnet i)
     (age i) (responsiveness i) (oscPeriod i) (longProbeDist i)
     (challengeBits i) (lastDirection i).
Definition set_nnet (n : NeuralNet) (i : t) : t :=
  mk (index i) (alive i) (loc i) (birthLoc i) (lastMoveDir i) (genome i) n
     (age i) (responsiveness i) (oscPeriod i) (longProbeDist i)
     (challengeBits i) (lastDirection i).
Definition set_age (a : Z) (i : t) : t :=
  mk (index i) (alive i) (loc i) (birthLoc i) (lastMoveDir i) (genome i) (nnet i)
     a (responsiveness i) (oscPeriod i) (longProbeDist i)
     (challengeBits i) (lastDirection i).
Definition set_responsiveness (v : float) (i : t) : t :=
  mk (index i) (alive i) (loc i) (birthLoc i) (lastMoveDir i) (genome i) (nnet i)
     (age i) v (oscPeriod i) (longProbeDist i)
     (challengeBits i) (lastDirection i).
Definition set_oscPeriod (v : float) (i : t) : t :=
  mk (index i) (alive i) (loc i) (birthLoc i) (lastMoveDir i) (genome i) (nnet i)
     (age i) (responsiveness i) v (longProbeDist i)
     (challengeBits i) (lastDirection i).
Definition set_longProbeDist (v : float) (i : t) : t :=
  mk (index i) (alive i) (loc i) (birthLoc i) (lastMoveDir i) (genome i) (nnet i)
     (age i) (responsiveness i) (oscPeriod i) v
     (challengeBits i) (lastDirection i).
End Indiv.

Definition createIndiv (index : Z) (genome : Genome) (loc : Coord.t)
    (params : SimParams.t) : Outcome Indiv.t :=
  nnet ← buildNeuralNet genome (SimParams.maxNumberNeurons params);
  Returns
    {| Indiv.index := index;
       Indiv.alive := true;
       Indiv.loc := loc;
       Indiv.birthLoc := loc;
       Indiv.lastMoveDir := Compass.CENTER;
       Indiv.genome := genome;
       Indiv.nnet := nnet;
       Indiv.age := 0;
       Indiv.responsiveness := 0.5%float;
       Indiv.oscPeriod := 34%float;
       Indiv.longProbeDist := SimParams.longProbeDistance params;
       Indiv.challengeBits := 0;
       Indiv.lastDirection := Compass.CENTER |}.

(** ** spawn.ts: the next generation's genomes *)

Section Spawn.
Context {R : Type} `{RandomSource R}.

(** [selectParent].  An index outside the list would yield [undefined],
    whose first use ([.loc], [.genome]) throws in every caller. *)
Definition selectParent (survivors : list Indiv.t) (params : SimParams.t) (r : R)
  : Outcome (Indiv.t * R) :=
  let n := Z.of_nat (length survivors) in
  if negb (SimParams.chooseParentsByFitness params) || (n <=? 1)
  then let '(i, r1) := Rng.nextInt n r in
       p ← elem survivors i; Returns (p, r1)
  else
    let '(i, r1) := Rng.nextInt n r in
    a ← elem survivors i;
    let '(j, r2) := Rng.nextInt n r1 in
    b ← elem survivors j;
    let centerX := (Num.ofZ (SimParams.sizeX params) / 2)%float in
    let centerY := (Num.ofZ (SimParams.sizeY params) / 2)%float in
    let dist (p : Indiv.t) : float :=
      (PrimFloat.abs (Num.ofZ (Coord.x (Indiv.loc p)) - centerX) +
       PrimFloat.abs (Num.ofZ (Coord.y (Indiv.loc p)) - centerY))%float in
    Returns (if PrimFloat.leb (dist a) (dist b) then a else b, r2).

(** [while (parent2 === parent1 && attempts < 10)]; two survivors are the
    same object exactly when they carry the same index. *)
Fixpoint retryPartner (attemptsLeft : nat) (survivors : list Indiv.t)
    (params : SimParams.t) (parent1 parent2 : Indiv.t) (r : R)
  : Outcome (Indiv.t * R) :=
  match attemptsLeft with
  | O => Returns (parent2, r)
  | S k =>
      if Indiv.index parent2 =? Indiv.index parent1
      then pr ← selectParent survivors params r;
           retryPartner k survivors params parent1 (fst pr) (snd pr)
      else Returns (parent2, r)
  end.

(** One turn of the offspring loop. *)
Definition spawnChild (survivors : list Indiv.t) (params : SimParams.t) (r : R)
  : Outcome (Genome * R) :=
  born ←
    (if SimParams.sexualReproduction params && (2 <=? Z.of_nat (length survivors))
     then
       p1 ← selectParent survivors params r;
       p2 ← selectParent survivors params (snd p1);
       p2' ← retryPartner 10 survivors params (fst p1) (fst p2) (snd p2);
       Returns (crossover (Indiv.genome (fst p1)) (Indiv.genome (fst p2')) (snd p2'))
     else
       p ← selectParent survivors params r;
       Returns (Indiv.genome (fst p), snd p));
  let '(g1, r1) := applyPointMutations (fst born) (snd born)
                     (SimParams.pointMutationRate params) in
  Returns (applyInsertionDeletion g1 r1
             (SimParams.geneInsertionDeletionRate params)
             (SimParams.deletionRatio params)
             (SimParams.genomeMaxLength params)).

Fixpoint spawnChildren (n : nat) (survivors : list Indiv.t)
    (params : SimParams.t) (r : R) : Outcome (list Genome * R) :=
  match n with
  | O => Returns ([], r)
  | S n' =>
      child ← spawnChild survivors params r;
      rest ← spawnChildren n' survivors params (snd child);
      Returns (fst child :: fst rest, snd rest)
  end.

Fixpoint spawnRandom (n : nat) (params : SimParams.t) (r : R)
  : list Genome * R :=
  match n with
  | O => ([], r)
  | S n' =>
      let '(len, r1) := Rng.nextRange (SimParams.genomeInitialLengthMin params)
                          (SimParams.genomeInitialLengthMax params) r in
      let '(g, r2) := makeRandomGenome r1 len in
      let '(gs, r3) := spawnRandom n' params r2 in
      (g :: gs, r3)
  end.

Definition spawnNewGeneration (survivors : list Indiv.t)
    (params : SimParams.t) (r : R) : Outcome (list Genome * R) :=
  if (length survivors =? 0)%nat
  then Returns (spawnRandom (Z.to_nat (SimParams.population params)) params r)
  else spawnChildren (Z.to_nat (SimParams.population params)) survivors params r.

End Spawn.

(** A run of the spawner used below: two survivors whose genomes have the
    greatest length allowed, sexual reproduction, no mutation. *)
Definition twoGeneParams : SimParams.t :=
  {| SimParams.population := 4;
     SimParams.stepsPerGeneration := 1;
     SimParams.maxGenerations := 1;
     SimParams.sizeX := 8;
     SimParams.sizeY := 8;
     SimParams.genomeInitialLengthMin := 2;
     SimParams.genomeInitialLengthMax := 2;
     SimParams.genomeMaxLength := 2;
     SimParams.maxNumberNeurons := 1;
     SimParams.pointMutationRate := 0%float;
     SimParams.geneInsertionDeletionRate := 0%float;
     SimParams.deletionRatio := 0.5%float;
     SimParams.sexualReproduction := true;
     SimParams.chooseParentsByFitness := false;
     SimParams.responsivenessCurveKFactor := 2%float;
     SimParams.signalLayers := 1%nat;
     SimParams.signalSensorRadius := 2%float;
     SimParams.longProbeDistance := 16%float;
     SimParams.shortProbeBarrierDistance := 4;
     SimParams.killEnable := false;
     SimParams.rngSeed := 1;
     SimParams.populationSensorRadius := 2%float |}.

Definition twoGeneSurvivors : Outcome (list Indiv.t) :=
  a ← createIndiv 1 [uint32ToGene 1; uint32ToGene 2] (Coord.mk 0 0) twoGeneParams;
  b ← createIndiv 2 [uint32ToGene 3; uint32ToGene 4] (Coord.mk 1 0) twoGeneParams;
  Returns [a; b].

(** ** grid.ts *)

Definition EMPTY : Z := 0.
Definition BARRIER : Z := 0xFFFF.

Module Grid.
(** [data] is the [Uint16Array]. *)
Record t : Type := mk { sizeX : Z; sizeY : Z; data : list Z }.

Definition create (sizeX sizeY : Z) : t :=
  mk sizeX sizeY (replicate (Z.to_nat (sizeX * sizeY)) 0).

Definition idx (g : t) (x y : Z) : Z := y * sizeX g + x.

Definition isInBounds (g : t) (loc : Coord.t) : bool :=
  (0 <=? Coord.x loc) && (Coord.x loc <? sizeX g) &&
  (0 <=? Coord.y loc) && (Coord.y loc <? sizeY g).

(** [this.data[i]]: [None] is [undefined]. *)
Definition at_ (g : t) (loc : Coord.t) : option Z :=
  let i := idx g (Coord.x loc) (Coord.y loc) in
  if i <? 0 then None else data g !! Z.to_nat i.

(** [this.data[i] = val]: converted to 16 bits; ignored outside the array. *)
Definition set (g : t) (loc : Coord.t) (val : Z) : t :=
  let i := idx g (Coord.x loc) (Coord.y loc) in
  if i <? 0 then g
  else mk (sizeX g) (sizeY g) (<[Z.to_nat i := JS.ToUint16 val]> (data g)).

Definition isEmptyAt (g : t) (loc : Coord.t) : bool :=
  match at_ g loc with Some v => v =? EMPTY | None => false end.

Definition isBarrierAt (g : t) (loc : Coord.t) : bool :=
  match at_ g loc with Some v => v =? BARRIER | None => false end.

Definition isOccupiedAt (g : t) (loc : Coord.t) : bool :=
  match at_ g loc with
  | Some v => negb (v =? EMPTY) && negb (v =? BARRIER)
  | None => true
  end.

Definition clear (g : t) : t :=
  mk (sizeX g) (sizeY g) (map (fun _ => EMPTY) (data g)).
End Grid.

(** The offsets the two nested loops [for dx] [for dy] run through, in the
    order of the loops. *)
Definition squareOffsets (iRadius : Z) : list (Z * Z) :=
  dx ← seqZ (- iRadius) (2 * iRadius + 1);
  dy ← seqZ (- iRadius) (2 * iRadius + 1);
  [(dx, dy)].

(** [Math.floor(radius)] as the bound of those loops.  With [NaN] or
    [-Infinity] the loops do not run.  With [Infinity] the loops of
    [visitNeighborhood], [emit] and [getSignalDensity] start at [-Infinity]
    and never end: a call with that radius does not return, and no list of
    offsets stands for it.  [loopRadius] gives [-1] there only to be total;
    every theorem that says a call returns assumes [endsLoops radius], and
    what is said of a value computed with [loopRadius] is said of a call
    that completes. *)
Definition loopRadius (radius : float) : Z :=
  if PrimFloat.is_finite radius then Num.floorZ radius else -1.

(** The radius is not [Infinity]: the neighbourhood loops end. *)
Definition endsLoops (radius : float) : bool :=
  negb (PrimFloat.eqb radius infinity).

(** [dx * dx + dy * dy <= radius * radius]. *)
Definition inCircle (radius : float) (dx dy : Z) : bool :=
  PrimFloat.leb (Num.ofZ (dx * dx + dy * dy)) (radius * radius)%float.

(** ** signals.ts *)

Module Signals.
(** [layers] holds one [Uint8Array] per layer. *)
Record t : Type := mk {
  sizeX : Z;
  sizeY : Z;
  numLayers : nat;
  layers : list (list Z)
}.

Definition create (sizeX sizeY : Z) (numLayers : nat) : t :=
  mk sizeX sizeY numLayers
     (replicate numLayers (replicate (Z.to_nat (sizeX * sizeY)) 0)).

Definition idx (s : t) (x y : Z) : Z := y * sizeX s + x.

Definition isInBounds (s : t) (loc : Coord.t) : bool :=
  (0 <=? Coord.x loc) && (Coord.x loc <? sizeX s) &&
  (0 <=? Coord.y loc) && (Coord.y loc <? sizeY s).

(** [this.layers[layerNum][i]] for a layer that exists; [None] is
    [undefined]. *)
Definition cell (s : t) (layerNum : nat) (i : Z) : option Z :=
  if i <? 0 then None
  else layer ← layers s !! layerNum; layer !! Z.to_nat i.

(** [this.layers[layerNum][i] = v] with [v] already an integer. *)
Definition store (s : t) (layerNum : nat) (i : Z) (v : Z) : t :=
  if i <? 0 then s
  else mk (sizeX s) (sizeY s) (numLayers s)
          (alter (fun layer => <[Z.to_nat i := JS.ToUint8 v]> layer)
             layerNum (layers s)).

Definition get (s : t) (layerNum : nat) (loc : Coord.t) : Z :=
  if negb (isInBounds s loc) || (numLayers s <=? layerNum)%nat then 0
  else default 0 (cell s layerNum (idx s (Coord.x loc) (Coord.y loc))).

(** The conversion a [Uint8Array] applies to a number stored into it. *)
Definition toUint8 (v : float) : Z :=
  if PrimFloat.is_finite v then JS.ToUint8 (Num.truncZ v) else 0.

(** [Math.min(255, Math.max(0, Math.round(old + amount)))], as stored. *)
Definition bump (old : Z) (amount : float) : Z :=
  toUint8 (Num.min 255 (Num.max 0 (Num.round (Num.ofZ old + amount))))%float.

Definition increment (s : t) (layerNum : nat) (loc : Coord.t) (amount : float)
  : t :=
  if negb (isInBounds s loc) || (numLayers s <=? layerNum)%nat then s
  else
    let i := idx s (Coord.x loc) (Coord.y loc) in
    match cell s layerNum i with
    | Some old => store s layerNum i (bump old amount)
    | None => s
    end.

(** [Math.max(1, Math.round(255 * (1 - dist / (radius + 1))))]. *)
Definition emitAmount (radius : float) (dx dy : Z) : float :=
  let dist := PrimFloat.sqrt (Num.ofZ (dx * dx + dy * dy)) in
  let strength := Num.round (255 * (1 - dist / (radius + 1)))%float in
  Num.max 1 strength.

(** The body of the two loops of [emit] at one offset. *)
Definition emitAt (layerNum : nat) (center : Coord.t) (radius : float)
    (s : t) (d : Z * Z) : t :=
  let '(dx, dy) := d in
  if inCircle radius dx dy
  then
    let loc := Coord.mk (Coord.x center + dx) (Coord.y center + dy) in
    if isInBounds s loc
    then increment s layerNum loc (emitAmount radius dx dy)
    else s
  else s.

Definition emit (s : t) (layerNum : nat) (center : Coord.t) (radius : float)
  : t :=
  fold_left (emitAt layerNum center radius) (squareOffsets (loopRadius radius)) s.

(** [if (layer[i] > 0) layer[i] = Math.max(0, layer[i] - 1)]. *)
Definition fadeCell (v : Z) : Z :=
  if 0 <? v then JS.ToUint8 (Z.max 0 (v - 1)) else v.

Definition fade (s : t) (layerNum : nat) : t :=
  if (numLayers s <=? layerNum)%nat then s
  else mk (sizeX s) (sizeY s) (numLayers s)
          (alter (map fadeCell) layerNum (layers s)).

Definition zeroFill (s : t) : t :=
  mk (sizeX s) (sizeY s) (numLayers s) (map (map (fun _ => 0)) (layers s)).

(** The body of the loops of [getSignalDensity]: running sum and count. *)
Definition densityAt (layerNum : nat) (center : Coord.t) (radius : float)
    (s : t) (acc : Z * Z) (d : Z * Z) : Z * Z :=
  let '(dx, dy) := d in
  if inCircle radius dx dy
  then
    let loc := Coord.mk (Coord.x center + dx) (Coord.y center + dy) in
    if isInBounds s loc
    then (fst acc +
            default 0 (cell s layerNum (idx s (Coord.x loc) (Coord.y loc))),
          snd acc + 1)
    else acc
  else acc.

Definition getSignalDensity (s : t) (layerNum : nat) (center : Coord.t)
    (radius : float) : float :=
  if (numLayers s <=? layerNum)%nat then 0%float
  else
    let '(sum, count) :=
      fold_left (densityAt layerNum center radius s)
        (squareOffsets (loopRadius radius)) (0, 0) in
    if 0 <? count then (Num.ofZ sum / (Num.ofZ count * 255))%float
    else 0%float.

Definition getLayerSnapshot (s : t) (layerNum : nat) : list Z :=
  if (numLayers s <=? layerNum)%nat then []
  else default [] (layers s !! layerNum).

(** What the constructor establishes and every method keeps. *)
Definition wf (s : t) : Prop :=
  0 <= sizeX s /\ 0 <= sizeY s /\ length (layers s) = numLayers s /\
  Forall (fun layer => length layer = Z.to_nat (sizeX s * sizeY s)) (layers s).

Definition bounded (s : t) : Prop :=
  Forall (Forall (fun v => 0 <= v <= 255)) (layers s).

(** The operations of claim C7. *)
Inductive op : Type :=
  | Emit (layerNum : nat) (center : Coord.t) (radius : float)
  | Fade (layerNum : nat).

Definition apply (s : t) (o : op) : t :=
  match o with
  | Emit layerNum center radius => emit s layerNum center radius
  | Fade layerNum => fade s layerNum
  end.

Definition run (ops : list op) (s : t) : t := fold_left apply ops s.

End Signals.

(** The cells an [emit] reaches: in bounds, in a layer that exists, inside
    the square the loops scan and inside the circle. *)
Definition inEmitArea (s : Signals.t) (layerNum : nat) (center : Coord.t)
    (radius : float) (loc : Coord.t) : bool :=
  let dx := Coord.x loc - Coord.x center in
  let dy := Coord.y loc - Coord.y center in
  let k := loopRadius radius in
  (layerNum <? Signals.numLayers s)%nat && Signals.isInBounds s loc &&
  (- k <=? dx) && (dx <=? k) && (- k <=? dy) && (dy <=? k) &&
  inCircle radius dx dy.

(** ** genome.ts: similarity *)

(** Jaccard similarity of the two sets of packed genes. *)
Definition genomeSimilarity (g1 g2 : Genome) : float :=
  if (length g1 =? 0)%nat && (length g2 =? 0)%nat then 1%float
  else if (length g1 =? 0)%nat || (length g2 =? 0)%nat then 0%float
  else
    let set1 := remove_dups (map geneToUint32 g1) in
    let set2 := remove_dups (map geneToUint32 g2) in
    let intersection :=
      Z.of_nat (length (List.filter (fun v => bool_decide (v ∈ set2)) set1)) in
    let union := Z.of_nat (length set1) + Z.of_nat (length set2) - intersection in
    if union =? 0 then 1%float
    else (Num.ofZ intersection / Num.ofZ union)%float.

(** ** peeps.ts: the population and its two queues *)

Module MoveRecord.
Record t : Type := mk { indivIndex : Z; newLoc : Coord.t }.
End MoveRecord.

Module DeathRecord.
Record t : Type := mk { indivIndex : Z }.
End DeathRecord.

Module Peeps.
(** [individuals[0]] is [null]; [None] stands for [null]. *)
Record t : Type := mk {
  individuals : list (option Indiv.t);
  deathQueue : list DeathRecord.t;
  moveQueue : list MoveRecord.t
}.

Definition empty : t := mk [] [] [].

(** [this.individuals[index]]: [None] for [null] and for [undefined]. *)
Definition get (p : t) (index : Z) : option Indiv.t :=
  if index <? 0 then None else mjoin (individuals p !! Z.to_nat index).

(** The object at [index] after its fields were assigned. *)
Definition put (p : t) (index : Z) (indiv : Indiv.t) : t :=
  if index <? 0 then p
  else mk (<[Z.to_nat index := Some indiv]> (individuals p))
          (deathQueue p) (moveQueue p).

Definition getPopulationSize (p : t) : Z := Z.of_nat (length (individuals p)) - 1.

Definition queueMove (p : t) (indivIndex : Z) (newLoc : Coord.t) : t :=
  mk (individuals p) (deathQueue p)
     (moveQueue p ++ [MoveRecord.mk indivIndex newLoc]).

Definition queueDeath (p : t) (indivIndex : Z) : t :=
  mk (individuals p) (deathQueue p ++ [DeathRecord.mk indivIndex]) (moveQueue p).

Definition kill (indiv : Indiv.t) : Indiv.t := Indiv.set_alive false indiv.

Definition moveTo (indiv : Indiv.t) (loc : Coord.t) : Indiv.t :=
  Indiv.set_loc loc indiv.

(** One record of the death queue: state is (deaths, individuals, grid). *)
Definition applyDeath (st : Z * list (option Indiv.t) * Grid.t)
    (record : DeathRecord.t) : Z * list (option Indiv.t) * Grid.t :=
  let '(deaths, inds, grid) := st in
  let i := DeathRecord.indivIndex record in
  if i <? 0 then st
  else
    match mjoin (inds !! Z.to_nat i) with
    | Some indiv =>
        if Indiv.alive indiv
        then (deaths + 1,
              <[Z.to_nat i := Some (kill indiv)]> inds,
              Grid.set grid (Indiv.loc indiv) 0)
        else st
    | None => st
    end.

(** [drainDeathQueue]: the number of deaths, the population, the grid. *)
Definition drainDeathQueue (p : t) (grid : Grid.t) : Z * t * Grid.t :=
  let '(deaths, inds, grid') :=
    fold_left applyDeath (deathQueue p) (0, individuals p, grid) in
  (deaths, mk inds [] (moveQueue p), grid').

(** One record of the move queue. *)
Definition applyMove (st : list (option Indiv.t) * Grid.t)
    (record : MoveRecord.t) : list (option Indiv.t) * Grid.t :=
  let '(inds, grid) := st in
  let i := MoveRecord.indivIndex record in
  if i <? 0 then st
  else
    match mjoin (inds !! Z.to_nat i) with
    | Some indiv =>
        if Indiv.alive indiv
        then
          if Grid.isInBounds grid (MoveRecord.newLoc record) &&
             Grid.isEmptyAt grid (MoveRecord.newLoc record)
          then
            let grid1 := Grid.set grid (Indiv.loc indiv) 0 in
            let grid2 := Grid.set grid1 (MoveRecord.newLoc record) i in
            (<[Z.to_nat i := Some (moveTo indiv (MoveRecord.newLoc record))]> inds,
             grid2)
          else st
        else st
    | None => st
    end.

Definition drainMoveQueue (p : t) (grid : Grid.t) : t * Grid.t :=
  let '(inds, grid') := fold_left applyMove (moveQueue p) (individuals p, grid) in
  (mk inds (deathQueue p) [], grid').

(** [getLiving]. *)
Definition getLiving (p : t) : list Indiv.t :=
  omap (fun o => match o with
                 | Some ind => if Indiv.alive ind then Some ind else None
                 | None => None
                 end)
       (drop 1 (individuals p)).

Section Placement.
Context {R : Type} `{RandomSource R}.

(** The [do ... while (!grid.isEmptyAt(loc) && attempts < 10000)] loop
    followed by [if (attempts >= 10000) break].  [more] is the number of
    attempts left after the one being made; [None] is the [break]. *)
Fixpoint findEmpty (more : nat) (grid : Grid.t) (r : R) : option Coord.t * R :=
  let '(x, r1) := Rng.nextInt (Grid.sizeX grid) r in
  let '(y, r2) := Rng.nextInt (Grid.sizeY grid) r1 in
  let loc := Coord.mk x y in
  match more with
  | O => (None, r2)
  | S more' =>
      if Grid.isEmptyAt grid loc then (Some loc, r2)
      else findEmpty more' grid r2
  end.

(** The loop of [init], [n] individuals still to come, the next one [i]. *)
Fixpoint initLoop (n : nat) (i : Z) (params : SimParams.t)
    (inds : list (option Indiv.t)) (grid : Grid.t) (r : R)
  : Outcome (list (option Indiv.t) * Grid.t * R) :=
  match n with
  | O => Returns (inds, grid, r)
  | S n' =>
      let '(genomeLength, r1) :=
        Rng.nextRange (SimParams.genomeInitialLengthMin params)
          (SimParams.genomeInitialLengthMax params) r in
      let '(genome, r2) := makeRandomGenome r1 genomeLength in
      let '(found, r3) := findEmpty (Z.to_nat 9999) grid r2 in
      match found with
      | None => Returns (inds, grid, r3)
      | Some loc =>
          indiv ← createIndiv i genome loc params;
          initLoop n' (i + 1) params (inds ++ [Some indiv])
            (Grid.set grid loc i) r3
      end
  end.

Definition init (params : SimParams.t) (grid : Grid.t) (r : R)
  : Outcome (t * Grid.t * R) :=
  res ← initLoop (Z.to_nat (SimParams.population params)) 1 params [None] grid r;
  let '(inds, grid', r') := (res : list (option Indiv.t) * Grid.t * R) in
  Returns (mk inds [] [], grid', r').

(** The loop of [initFromGenomes] over the genomes not yet placed. *)
Fixpoint initFromLoop (genomes : list Genome) (i : Z) (params : SimParams.t)
    (inds : list (option Indiv.t)) (grid : Grid.t) (r : R)
  : Outcome (list (option Indiv.t) * Grid.t * R) :=
  match genomes with
  | [] => Returns (inds, grid, r)
  | genome :: rest =>
      if i <? SimParams.population params
      then
        let '(found, r1) := findEmpty (Z.to_nat 9999) grid r in
        match found with
        | None => Returns (inds, grid, r1)
        | Some loc =>
            indiv ← createIndiv (i + 1) genome loc params;
            initFromLoop rest (i + 1) params (inds ++ [Some indiv])
              (Grid.set grid loc (i + 1)) r1
        end
      else Returns (inds, grid, r)
  end.

Definition initFromGenomes (genomes : list Genome) (params : SimParams.t)
    (grid : Grid.t) (r : R) : Outcome (t * Grid.t * R) :=
  res ← initFromLoop genomes 0 params [None] grid r;
  let '(inds, grid', r') := (res : list (option Indiv.t) * Grid.t * R) in
  Returns (mk inds [] [], grid', r').

End Placement.
End Peeps.

(** ** sensors.ts *)

Module Sensor.
Inductive t : Type :=
  | LOC_X | LOC_Y | BOUNDARY_DIST_X | BOUNDARY_DIST_Y | BOUNDARY_DIST
  | GENETIC_SIM_FWD | LAST_MOVE_DIR_X | LAST_MOVE_DIR_Y
  | LONGPROBE_POP_FWD | LONGPROBE_BARRIER_FWD | POPULATION | POPULATION_FWD
  | POPULATION_LR | OSC1 | AGE | BARRIER_FWD | BARRIER_LR | RANDOM
  | SIGNAL0 | SIGNAL0_FWD | SIGNAL0_LR.

(** The sensors in the order of the enumeration, [0 .. NUM_SENSES - 1]. *)
Definition all : list t :=
  [LOC_X; LOC_Y; BOUNDARY_DIST_X; BOUNDARY_DIST_Y; BOUNDARY_DIST;
   GENETIC_SIM_FWD; LAST_MOVE_DIR_X; LAST_MOVE_DIR_Y;
   LONGPROBE_POP_FWD; LONGPROBE_BARRIER_FWD; POPULATION; POPULATION_FWD;
   POPULATION_LR; OSC1; AGE; BARRIER_FWD; BARRIER_LR; RANDOM;
   SIGNAL0; SIGNAL0_FWD; SIGNAL0_LR].
End Sensor.

(** What a sensor reads besides the generator. *)
Module SensorContext.
Record t : Type := mk {
  grid : Grid.t;
  signals : Signals.t;
  peeps : Peeps.t;
  params : SimParams.t;
  simStep : Z;
  stepsPerGeneration : Z
}.
End SensorContext.

Definition coordScale (c : Coord.t) (d : Z) : Coord.t :=
  Coord.mk (Coord.x c * d) (Coord.y c * d).

Definition coordIsZero (c : Coord.t) : bool :=
  (Coord.x c =? 0) && (Coord.y c =? 0).

(** The loop of LONGPROBE_POP_FWD, [n] iterations left. *)
Fixpoint longProbePop (n : nat) (grid : Grid.t) (fwd loc : Coord.t) (count : Z)
  : Z :=
  match n with
  | O => count
  | S n' =>
      let loc' := coordAdd loc fwd in
      if negb (Grid.isInBounds grid loc') then count
      else if Grid.isBarrierAt grid loc' then count
      else longProbePop n' grid fwd loc'
             (if Grid.isOccupiedAt grid loc' then count + 1 else count)
  end.

(** The loop of LONGPROBE_BARRIER_FWD: the [d] it returns at, if any. *)
Fixpoint longProbeBarrier (n : nat) (grid : Grid.t) (fwd loc : Coord.t) (d : Z)
  : option Z :=
  match n with
  | O => None
  | S n' =>
      let loc' := coordAdd loc fwd in
      if negb (Grid.isInBounds grid loc') || Grid.isBarrierAt grid loc'
      then Some d
      else longProbeBarrier n' grid fwd loc' (d + 1)
  end.

(** The turns of [for (d = 1; d <= longProbeDist; d++)] that the two long
    probes can take.  Both leave the loop at the first location outside the
    grid, which a heading other than CENTER reaches within as many turns as
    the grid is long, and one more; so with [longProbeDist = Infinity], where
    [d <= longProbeDist] never fails, that many turns are all the loop takes
    ([longProbe_turns] below).  With [NaN] the loop takes none. *)
Definition probeSteps (grid : Grid.t) (dist : float) : nat :=
  if PrimFloat.eqb dist infinity
  then S (Z.to_nat (Z.max (Grid.sizeX grid) (Grid.sizeY grid)))
  else Z.to_nat (Num.floorZ dist).

(** The loop of POPULATION_FWD over [d = 1 .. shortProbeBarrierDistance]. *)
Fixpoint shortProbePop (ds : list Z) (grid : Grid.t) (fwd loc : Coord.t)
    (count : Z) : Z :=
  match ds with
  | [] => count
  | d :: rest =>
      let loc' := coordAdd loc (coordScale fwd d) in
      if negb (Grid.isInBounds grid loc') then count
      else shortProbePop rest grid fwd loc
             (if Grid.isOccupiedAt grid loc' then count + 1 else count)
  end.

(** The loop of BARRIER_FWD: the [d] it returns at, if any. *)
Fixpoint shortProbeBarrier (ds : list Z) (grid : Grid.t) (fwd loc : Coord.t)
  : option Z :=
  match ds with
  | [] => None
  | d :: rest =>
      let loc' := coordAdd loc (coordScale fwd d) in
      if negb (Grid.isInBounds grid loc') || Grid.isBarrierAt grid loc'
      then Some d
      else shortProbeBarrier rest grid fwd loc
  end.

(** How many of the cells [loc + dir * d] satisfy [test] and are in bounds. *)
Definition sideCount (ds : list Z) (grid : Grid.t) (dir loc : Coord.t)
    (test : Grid.t -> Coord.t -> bool) : Z :=
  Z.of_nat (length (List.filter
    (fun d => let c := coordAdd loc (coordScale dir d) in
              Grid.isInBounds grid c && test grid c) ds)).

(** [visitNeighborhood] with the visitor of POPULATION: (count, total). *)
Definition populationAt (grid : Grid.t) (center : Coord.t) (radius : float)
    (acc : Z * Z) (d : Z * Z) : Z * Z :=
  let '(dx, dy) := d in
  if inCircle radius dx dy
  then
    let loc := Coord.mk (Coord.x center + dx) (Coord.y center + dy) in
    if Grid.isInBounds grid loc
    then ((if Grid.isOccupiedAt grid loc then fst acc + 1 else fst acc),
          snd acc + 1)
    else acc
  else acc.

(** The occupant of a cell, as GENETIC_SIM_FWD and KILL_FORWARD look it up:
    [grid.at(loc)] then [peeps.get(idx)], kept if alive. *)
Definition livingAt (grid : Grid.t) (peeps : Peeps.t) (loc : Coord.t)
  : option (Z * Indiv.t) :=
  if Grid.isInBounds grid loc && Grid.isOccupiedAt grid loc
  then
    idx ← Grid.at_ grid loc;
    other ← Peeps.get peeps idx;
    if Indiv.alive other then Some (idx, other) else None
  else None.

Section Sensors.
Context {R : Type} `{RandomSource R}.
Variable Math_sin : float -> float.

(** The right-against-left reading of SIGNAL0_LR. *)
Definition signal0LR (indiv : Indiv.t) (ctx : SensorContext.t) : float :=
  let fwd := Indiv.lastMoveDir indiv in
  let right := Dir.asNormalizedCoord (Dir.rotate90CW fwd) in
  let left := Dir.asNormalizedCoord (Dir.rotate90CCW fwd) in
  let rLoc := coordAdd (Indiv.loc indiv) right in
  let lLoc := coordAdd (Indiv.loc indiv) left in
  let radius := SimParams.signalSensorRadius (SensorContext.params ctx) in
  let rSig :=
    if Grid.isInBounds (SensorContext.grid ctx) rLoc
    then Signals.getSignalDensity (SensorContext.signals ctx) 0 rLoc radius
    else 0%float in
  let lSig :=
    if Grid.isInBounds (SensorContext.grid ctx) lLoc
    then Signals.getSignalDensity (SensorContext.signals ctx) 0 lLoc radius
    else 0%float in
  let total := (rSig + lSig)%float in
  if PrimFloat.ltb 0 total then (rSig / total)%float else 0.5%float.

Definition getSensor (indiv : Indiv.t) (sensor : Sensor.t)
    (ctx : SensorContext.t) (r : R) : float * R :=
  let grid := SensorContext.grid ctx in
  let params := SensorContext.params ctx in
  let loc := Indiv.loc indiv in
  let sizeX := SimParams.sizeX params in
  let sizeY := SimParams.sizeY params in
  let short := SimParams.shortProbeBarrierDistance params in
  let fwd := Dir.asNormalizedCoord (Indiv.lastMoveDir indiv) in
  match sensor with
  | Sensor.LOC_X => ((Num.ofZ (Coord.x loc) / Num.ofZ (sizeX - 1))%float, r)
  | Sensor.LOC_Y => ((Num.ofZ (Coord.y loc) / Num.ofZ (sizeY - 1))%float, r)
  | Sensor.BOUNDARY_DIST_X =>
      let distX := Z.min (Coord.x loc) (sizeX - 1 - Coord.x loc) in
      ((Num.ofZ distX / (Num.ofZ sizeX / 2))%float, r)
  | Sensor.BOUNDARY_DIST_Y =>
      let distY := Z.min (Coord.y loc) (sizeY - 1 - Coord.y loc) in
      ((Num.ofZ distY / (Num.ofZ sizeY / 2))%float, r)
  | Sensor.BOUNDARY_DIST =>
      let distX := Z.min (Coord.x loc) (sizeX - 1 - Coord.x loc) in
      let distY := Z.min (Coord.y loc) (sizeY - 1 - Coord.y loc) in
      let closest := Z.min distX distY in
      let maxDist := (Num.ofZ (Z.min sizeX sizeY) / 2)%float in
      ((Num.ofZ closest / maxDist)%float, r)
  | Sensor.GENETIC_SIM_FWD =>
      match livingAt grid (SensorContext.peeps ctx) (coordAdd loc fwd) with
      | Some (_, other) =>
          (genomeSimilarity (Indiv.genome indiv) (Indiv.genome other), r)
      | None => (0%float, r)
      end
  | Sensor.LAST_MOVE_DIR_X => (((Num.ofZ (Coord.x fwd) + 1) / 2)%float, r)
  | Sensor.LAST_MOVE_DIR_Y => (((Num.ofZ (Coord.y fwd) + 1) / 2)%float, r)
  | Sensor.LONGPROBE_POP_FWD =>
      if coordIsZero fwd then (0%float, r)
      else
        let count :=
          longProbePop (probeSteps grid (Indiv.longProbeDist indiv))
            grid fwd loc 0 in
        (Num.min 1 (Num.ofZ count / Indiv.longProbeDist indiv)%float, r)
  | Sensor.LONGPROBE_BARRIER_FWD =>
      if coordIsZero fwd then (0%float, r)
      else
        match longProbeBarrier
                (probeSteps grid (Indiv.longProbeDist indiv))
                grid fwd loc 1 with
        | Some d => ((Num.ofZ d / Indiv.longProbeDist indiv)%float, r)
        | None => (1%float, r)
        end
  | Sensor.POPULATION =>
      let radius := SimParams.populationSensorRadius params in
      let '(count, total) :=
        fold_left (populationAt grid loc radius)
          (squareOffsets (loopRadius radius)) (0, 0) in
      (if 0 <? total then (Num.ofZ count / Num.ofZ total)%float else 0%float, r)
  | Sensor.POPULATION_FWD =>
      if coordIsZero fwd then (0%float, r)
      else
        let count := shortProbePop (seqZ 1 short) grid fwd loc 0 in
        (Num.min 1 (Num.ofZ count / Num.ofZ short)%float, r)
  | Sensor.POPULATION_LR =>
      let right := Dir.asNormalizedCoord (Dir.rotate90CW (Indiv.lastMoveDir indiv)) in
      let left := Dir.asNormalizedCoord (Dir.rotate90CCW (Indiv.lastMoveDir indiv)) in
      let rightCount := sideCount (seqZ 1 short) grid right loc Grid.isOccupiedAt in
      let leftCount := sideCount (seqZ 1 short) grid left loc Grid.isOccupiedAt in
      let total := rightCount + leftCount in
      (if 0 <? total then (Num.ofZ rightCount / Num.ofZ total)%float
       else 0.5%float, r)
  | Sensor.OSC1 =>
      let phase :=
        (Num.rem (Num.ofZ (SensorContext.simStep ctx)) (Indiv.oscPeriod indiv)
         / Indiv.oscPeriod indiv)%float in
      (((Math_sin (phase * 2 * Num.PI) + 1) / 2)%float, r)
  | Sensor.AGE =>
      ((Num.ofZ (Indiv.age indiv)
        / Num.ofZ (SensorContext.stepsPerGeneration ctx))%float, r)
  | Sensor.BARRIER_FWD =>
      if coordIsZero fwd then (1%float, r)
      else
        match shortProbeBarrier (seqZ 1 short) grid fwd loc with
        | Some d => ((1 - Num.ofZ d / Num.ofZ (short + 1))%float, r)
        | None => (0%float, r)
        end
  | Sensor.BARRIER_LR =>
      let right := Dir.asNormalizedCoord (Dir.rotate90CW (Indiv.lastMoveDir indiv)) in
      let left := Dir.asNormalizedCoord (Dir.rotate90CCW (Indiv.lastMoveDir indiv)) in
      let rightBarrier :=
        0 <? sideCount (seqZ 1 short) grid right loc Grid.isBarrierAt in
      let leftBarrier :=
        0 <? sideCount (seqZ 1 short) grid left loc Grid.isBarrierAt in
      (if rightBarrier && negb leftBarrier then 0%float
       else if negb rightBarrier && leftBarrier then 1%float
       else 0.5%float, r)
  | Sensor.RANDOM => Rng.next r
  | Sensor.SIGNAL0 =>
      (Signals.getSignalDensity (SensorContext.signals ctx) 0 loc
         (SimParams.signalSensorRadius params), r)
  | Sensor.SIGNAL0_FWD =>
      if coordIsZero fwd then (0%float, r)
      else
        let aheadLoc := coordAdd loc fwd in
        if Grid.isInBounds grid aheadLoc
        then (Signals.getSignalDensity (SensorContext.signals ctx) 0 aheadLoc
                (SimParams.signalSensorRadius params), r)
        else (0%float, r)
  | Sensor.SIGNAL0_LR => (signal0LR indiv ctx, r)
  end.

(** [getSensorValues]: the [Float32Array], filled in the order of the
    enumeration. *)
Fixpoint readSensors (sensors : list Sensor.t) (indiv : Indiv.t)
    (ctx : SensorContext.t) (r : R) : list float * R :=
  match sensors with
  | [] => ([], r)
  | s :: rest =>
      let '(v, r1) := getSensor indiv s ctx r in
      let '(vs, r2) := readSensors rest indiv ctx r1 in
      (Num.fround v :: vs, r2)
  end.

Definition getSensorValues (indiv : Indiv.t) (ctx : SensorContext.t) (r : R)
  : list float * R :=
  readSensors Sensor.all indiv ctx r.

End Sensors.

(** ** neural-net.ts: feed-forward *)

(** A [Float32Array]: reading outside it gives [undefined], which is [NaN]
    in the arithmetic that follows; writing outside it does nothing. *)
Definition f32get (arr : list float) (i : Z) : float :=
  if i <? 0 then nan else default nan (arr !! Z.to_nat i).

(** [arr[i] += v]. *)
Definition f32add (arr : list float) (i : Z) (v : float) : list float :=
  if i <? 0 then arr
  else <[Z.to_nat i := Num.fround (f32get arr i + v)%float]> arr.

Section FeedForward.
Variable Math_tanh : float -> float.

(** Phase 1, one connection: the two accumulators. *)
Definition propagate (nnet : NeuralNet) (sensorValues : list float)
    (acc : list float * list float) (conn : Conn.t)
  : Outcome (list float * list float) :=
  let '(actionLevels, neuronAccum) := acc in
  sourceOutput ←
    (if Conn.sourceType conn =? SENSOR
     then Returns (f32get sensorValues (Conn.sourceId conn))
     else n ← elem (neurons nnet) (Conn.sourceId conn); Returns (output n));
  let inputVal := (sourceOutput * Conn.weight conn)%float in
  if Conn.sinkType conn =? ACTION
  then Returns (f32add actionLevels (Conn.sinkId conn) inputVal, neuronAccum)
  else Returns (actionLevels, f32add neuronAccum (Conn.sinkId conn) inputVal).

Fixpoint propagateAll (nnet : NeuralNet) (sensorValues : list float)
    (conns : list Conn.t) (acc : list float * list float)
  : Outcome (list float * list float) :=
  match conns with
  | [] => Returns acc
  | conn :: rest =>
      acc' ← propagate nnet sensorValues acc conn;
      propagateAll nnet sensorValues rest acc'
  end.

(** Phase 2: driven neurons take the activation of what they received. *)
Definition activate (ns : list Neuron) (neuronAccum : list float) : list Neuron :=
  imap (fun i n =>
          if driven n
          then mkNeuron (Math_tanh (f32get neuronAccum (Z.of_nat i))) true
          else n) ns.

(** The action levels, and the network with its neuron outputs updated. *)
Definition feedForward (nnet : NeuralNet) (sensorValues : list float)
  : Outcome (list float * NeuralNet) :=
  let actionLevels := replicate (Z.to_nat NUM_ACTIONS) 0%float in
  let neuronAccum := replicate (length (neurons nnet)) 0%float in
  acc ← propagateAll nnet sensorValues (connections nnet)
          (actionLevels, neuronAccum);
  let '(actionLevels, neuronAccum) := (acc : list float * list float) in
  Returns (map (fun v => Num.fround (Math_tanh v)) actionLevels,
           mkNet (connections nnet) (activate (neurons nnet) neuronAccum)).

End FeedForward.

(** ** actions.ts *)

Module Action.
Inductive t : Type :=
  | MOVE_X | MOVE_Y | MOVE_FORWARD | MOVE_RL | MOVE_RANDOM
  | SET_OSCILLATOR_PERIOD | SET_LONGPROBE_DIST | SET_RESPONSIVENESS
  | EMIT_SIGNAL0 | KILL_FORWARD | MOVE_EAST | MOVE_WEST | MOVE_NORTH
  | MOVE_SOUTH | MOVE_LEFT | MOVE_RIGHT | MOVE_REVERSE.

(** The actions in the order of the enumeration, [0 .. NUM_ACTIONS - 1]. *)
Definition all : list t :=
  [MOVE_X; MOVE_Y; MOVE_FORWARD; MOVE_RL; MOVE_RANDOM;
   SET_OSCILLATOR_PERIOD; SET_LONGPROBE_DIST; SET_RESPONSIVENESS;
   EMIT_SIGNAL0; KILL_FORWARD; MOVE_EAST; MOVE_WEST; MOVE_NORTH;
   MOVE_SOUTH; MOVE_LEFT; MOVE_RIGHT; MOVE_REVERSE].
End Action.

(** What the action loop reads and writes: the two accumulated moves, the
    acting individual, and the parts of the context it can change.  The
    grid and the parameters are only read. *)
Module ActState.
Record t (R : Type) : Type := mk {
  moveX : float;
  moveY : float;
  self : Indiv.t;
  signals : Signals.t;
  peeps : Peeps.t;
  rng : R
}.
Arguments mk {R} moveX moveY self signals peeps rng.
Arguments moveX {R} _.
Arguments moveY {R} _.
Arguments self {R} _.
Arguments signals {R} _.
Arguments peeps {R} _.
Arguments rng {R} _.
End ActState.

(** [coordToCompass]. *)
Definition coordToCompass (dx dy : Z) : Compass.t :=
  if (dx =? 0) && (dy =? -1) then Compass.N
  else if (dx =? 1) && (dy =? -1) then Compass.NE
  else if (dx =? 1) && (dy =? 0) then Compass.E
  else if (dx =? 1) && (dy =? 1) then Compass.SE
  else if (dx =? 0) && (dy =? 1) then Compass.S
  else if (dx =? -1) && (dy =? 1) then Compass.SW
  else if (dx =? -1) && (dy =? 0) then Compass.W
  else if (dx =? -1) && (dy =? -1) then Compass.NW
  else Compass.CENTER.

Section Actions.
Context {R : Type} `{RandomSource R}.
Variable Math_exp : float -> float.

(** [responsivenessCurve]. *)
Definition responsivenessCurve (rawResponsiveness kFactor : float) : float :=
  (1 / (1 + Math_exp (- kFactor * (rawResponsiveness - 0.5) * 8)))%float.

(** [moveX += d.x; moveY += d.y]. *)
Definition addMove (st : ActState.t R) (d : Coord.t) : ActState.t R :=
  ActState.mk (ActState.moveX st + Num.ofZ (Coord.x d))%float
              (ActState.moveY st + Num.ofZ (Coord.y d))%float
              (ActState.self st) (ActState.signals st) (ActState.peeps st)
              (ActState.rng st).

Definition withSelf (st : ActState.t R) (indiv : Indiv.t) : ActState.t R :=
  ActState.mk (ActState.moveX st) (ActState.moveY st) indiv
              (ActState.signals st) (ActState.peeps st) (ActState.rng st).

(** One turn of the [switch] inside the loop over the actions. *)
Definition actionStep (params : SimParams.t) (grid : Grid.t) (threshold : float)
    (a : Action.t) (level : float) (st : ActState.t R) : ActState.t R :=
  let fires := PrimFloat.ltb (threshold * 0.5)%float (PrimFloat.abs level) in
  let indiv := ActState.self st in
  match a with
  | Action.MOVE_X =>
      ActState.mk (ActState.moveX st + level)%float (ActState.moveY st)
        indiv (ActState.signals st) (ActState.peeps st) (ActState.rng st)
  | Action.MOVE_Y =>
      ActState.mk (ActState.moveX st) (ActState.moveY st + level)%float
        indiv (ActState.signals st) (ActState.peeps st) (ActState.rng st)
  | Action.MOVE_FORWARD =>
      if fires
      then
        let fwd := Dir.asNormalizedCoord (Indiv.lastMoveDir indiv) in
        ActState.mk (ActState.moveX st + Num.ofZ (Coord.x fwd) * level)%float
                    (ActState.moveY st + Num.ofZ (Coord.y fwd) * level)%float
                    indiv (ActState.signals st) (ActState.peeps st)
                    (ActState.rng st)
      else st
  | Action.MOVE_RL =>
      if fires
      then
        let dir := if PrimFloat.ltb 0 level
                   then Dir.rotate90CW (Indiv.lastMoveDir indiv)
                   else Dir.rotate90CCW (Indiv.lastMoveDir indiv) in
        addMove st (Dir.asNormalizedCoord dir)
      else st
  | Action.MOVE_RANDOM =>
      if fires
      then
        let '(dir, r') := Dir.random (ActState.rng st) in
        addMove (ActState.mk (ActState.moveX st) (ActState.moveY st) indiv
                   (ActState.signals st) (ActState.peeps st) r')
                (Dir.asNormalizedCoord dir)
      else st
  | Action.SET_OSCILLATOR_PERIOD =>
      let newPeriod := (1 + Num.floor (PrimFloat.abs level * 100))%float in
      withSelf st (Indiv.set_oscPeriod (Num.max 2 newPeriod) indiv)
  | Action.SET_LONGPROBE_DIST =>
      let newDist :=
        (1 + Num.floor (PrimFloat.abs level * SimParams.longProbeDistance params))%float in
      withSelf st (Indiv.set_longProbeDist (Num.max 1 newDist) indiv)
  | Action.SET_RESPONSIVENESS =>
      withSelf st (Indiv.set_responsiveness ((level + 1) / 2)%float indiv)
  | Action.EMIT_SIGNAL0 =>
      if fires
      then ActState.mk (ActState.moveX st) (ActState.moveY st) indiv
             (Signals.emit (ActState.signals st) 0 (Indiv.loc indiv) 1.5%float)
             (ActState.peeps st) (ActState.rng st)
      else st
  | Action.KILL_FORWARD =>
      if SimParams.killEnable params && fires
      then
        let fwd := Dir.asNormalizedCoord (Indiv.lastMoveDir indiv) in
        match livingAt grid (ActState.peeps st) (coordAdd (Indiv.loc indiv) fwd) with
        | Some (targetIdx, _) =>
            ActState.mk (ActState.moveX st) (ActState.moveY st) indiv
              (ActState.signals st)
              (Peeps.queueDeath (ActState.peeps st) targetIdx)
              (ActState.rng st)
        | None => st
        end
      else st
  | Action.MOVE_EAST => if fires then addMove st (Coord.mk 1 0) else st
  | Action.MOVE_WEST =>
      if fires
      then ActState.mk (ActState.moveX st - 1)%float (ActState.moveY st)
             indiv (ActState.signals st) (ActState.peeps st) (ActState.rng st)
      else st
  | Action.MOVE_NORTH =>
      if fires
      then ActState.mk (ActState.moveX st) (ActState.moveY st - 1)%float
             indiv (ActState.signals st) (ActState.peeps st) (ActState.rng st)
      else st
  | Action.MOVE_SOUTH => if fires then addMove st (Coord.mk 0 1) else st
  | Action.MOVE_LEFT =>
      if fires
      then addMove st (Dir.asNormalizedCoord
                         (Dir.rotate90CCW (Indiv.lastMoveDir indiv)))
      else st
  | Action.MOVE_RIGHT =>
      if fires
      then addMove st (Dir.asNormalizedCoord
                         (Dir.rotate90CW (Indiv.lastMoveDir indiv)))
      else st
  | Action.MOVE_REVERSE =>
      if fires
      then addMove st (Dir.asNormalizedCoord
                         (Dir.rotate180 (Indiv.lastMoveDir indiv)))
      else st
  end.

(** [for (let a = 0; a < Action.NUM_ACTIONS; a++)]. *)
Fixpoint actionLoop (params : SimParams.t) (grid : Grid.t) (threshold : float)
    (actionLevels : list float) (actions : list Action.t) (a : Z)
    (st : ActState.t R) : ActState.t R :=
  match actions with
  | [] => st
  | act :: rest =>
      actionLoop params grid threshold actionLevels rest (a + 1)
        (actionStep params grid threshold act (f32get actionLevels a) st)
  end.

(** [executeActions]: the individual, the signals, the population with its
    queues and the generator afterwards.  The grid is not among them. *)
Definition executeActions (indiv : Indiv.t) (actionLevels : list float)
    (params : SimParams.t) (grid : Grid.t) (signals : Signals.t)
    (peeps : Peeps.t) (r : R) : ActState.t R :=
  let responsiveness :=
    responsivenessCurve (Indiv.responsiveness indiv)
      (SimParams.responsivenessCurveKFactor params) in
  let st := actionLoop params grid responsiveness actionLevels Action.all 0
              (ActState.mk 0%float 0%float indiv signals peeps r) in
  let moveX := ActState.moveX st in
  let moveY := ActState.moveY st in
  let dx := if PrimFloat.ltb 0.5 moveX then 1
            else if PrimFloat.ltb moveX (-0.5) then -1 else 0 in
  let dy := if PrimFloat.ltb 0.5 moveY then 1
            else if PrimFloat.ltb moveY (-0.5) then -1 else 0 in
  if negb (dx =? 0) || negb (dy =? 0)
  then
    let indiv' := ActState.self st in
    let newLoc := Coord.mk (Coord.x (Indiv.loc indiv') + dx)
                           (Coord.y (Indiv.loc indiv') + dy) in
    if Grid.isInBounds grid newLoc && Grid.isEmptyAt grid newLoc
    then ActState.mk moveX moveY
           (Indiv.set_lastMoveDir (coordToCompass dx dy) indiv')
           (ActState.signals st)
           (Peeps.queueMove (ActState.peeps st) (Indiv.index indiv') newLoc)
           (ActState.rng st)
    else st
  else st.

End Actions.

(** ** simulator.ts *)

Module Simulator.
Record t (R : Type) : Type := mk {
  params : SimParams.t;
  grid : Grid.t;
  peeps : Peeps.t;
  signals : Signals.t;
  rng : R;
  generation : Z;
  simStep : Z;
  killDeaths : Z
}.
Arguments mk {R} params grid peeps signals rng generation simStep killDeaths.
Arguments params {R} _.
Arguments grid {R} _.
Arguments peeps {R} _.
Arguments signals {R} _.
Arguments rng {R} _.
Arguments generation {R} _.
Arguments simStep {R} _.
Arguments killDeaths {R} _.
End Simulator.

Section Step.
Context {R : Type} `{RandomSource R}.
Variables Math_sin Math_tanh Math_exp : float -> float.

(** [simStepIndiv]: sensors, then the network. *)
Definition simStepIndiv (indiv : Indiv.t) (ctx : SensorContext.t) (r : R)
  : Outcome (list float * NeuralNet * R) :=
  let '(sensorValues, r') := getSensorValues Math_sin indiv ctx r in
  ff ← feedForward Math_tanh (Indiv.nnet indiv) sensorValues;
  Returns (fst ff, snd ff, r').

(** The body of the loop of [stepOnce] for the individual at index [i];
    [step] is the value of [simStep] when the step began. *)
Definition stepIndiv (step : Z) (sim : Simulator.t R) (i : Z)
  : Outcome (Simulator.t R) :=
  match Peeps.get (Simulator.peeps sim) i with
  | None => Returns sim
  | Some indiv =>
      if negb (Indiv.alive indiv) then Returns sim
      else
        let params := Simulator.params sim in
        let ctx :=
          SensorContext.mk (Simulator.grid sim) (Simulator.signals sim)
            (Simulator.peeps sim) params step
            (SimParams.stepsPerGeneration params) in
        thought ← simStepIndiv indiv ctx (Simulator.rng sim);
        let '(actionLevels, nnet', r1) :=
          (thought : list float * NeuralNet * R) in
        let st :=
          executeActions Math_exp (Indiv.set_nnet nnet' indiv) actionLevels
            params (Simulator.grid sim) (Simulator.signals sim)
            (Simulator.peeps sim) r1 in
        let indiv' := ActState.self st in
        let aged := Indiv.set_age (Indiv.age indiv' + 1) indiv' in
        Returns
          (Simulator.mk params (Simulator.grid sim)
             (Peeps.put (ActState.peeps st) i aged)
             (ActState.signals st) (ActState.rng st)
             (Simulator.generation sim) (Simulator.simStep sim)
             (Simulator.killDeaths sim))
  end.

Fixpoint stepAll (step : Z) (indices : list Z) (sim : Simulator.t R)
  : Outcome (Simulator.t R) :=
  match indices with
  | [] => Returns sim
  | i :: rest => sim' ← stepIndiv step sim i; stepAll step rest sim'
  end.

(** [for (layer = 0; layer < signalLayers; layer++) signals.fade(layer)]. *)
Definition fadeAll (signalLayers : nat) (signals : Signals.t) : Signals.t :=
  fold_left Signals.fade (seq 0 signalLayers) signals.

(** The end of a step: deaths, then moves, then the fading, then the
    counter. *)
Definition endOfStep (sim : Simulator.t R) : Simulator.t R :=
  let '(deaths, peeps1, grid1) :=
    Peeps.drainDeathQueue (Simulator.peeps sim) (Simulator.grid sim) in
  let '(peeps2, grid2) := Peeps.drainMoveQueue peeps1 grid1 in
  Simulator.mk (Simulator.params sim) grid2 peeps2
    (fadeAll (SimParams.signalLayers (Simulator.params sim)) (Simulator.signals sim))
    (Simulator.rng sim) (Simulator.generation sim)
    (Simulator.simStep sim + 1) (Simulator.killDeaths sim + deaths).

Definition stepOnce (sim : Simulator.t R) : Outcome (Simulator.t R) :=
  sim' ← stepAll (Simulator.simStep sim)
           (seqZ 1 (Peeps.getPopulationSize (Simulator.peeps sim))) sim;
  Returns (endOfStep sim').

End Step.

(** The components of the state the two drains fold over. *)
Definition applyDeath_inds (st : Z * list (option Indiv.t) * Grid.t)
  : list (option Indiv.t) := snd (fst st).
Definition applyDeath_grid (st : Z * list (option Indiv.t) * Grid.t) : Grid.t :=
  snd st.

(** ** The invariants of a step *)

(** The grid is the [Uint16Array] its constructor made. *)
Definition gridWf (g : Grid.t) : Prop :=
  0 <= Grid.sizeX g /\ 0 <= Grid.sizeY g /\
  length (Grid.data g) = Z.to_nat (Grid.sizeX g * Grid.sizeY g) /\
  Forall (fun v => 0 <= v < 2 ^ 16) (Grid.data g).

(** Every cell that holds the barrier sentinel in [g] holds it in [g']. *)
Definition keepsBarriers (g g' : Grid.t) : Prop :=
  forall k, Grid.data g !! k = Some BARRIER -> Grid.data g' !! k = Some BARRIER.

(** Grid and population agree: a living individual stands in bounds, on the
    cell that holds its index, and its index is neither the empty tag nor
    the barrier sentinel. *)
Definition agrees (inds : list (option Indiv.t)) (g : Grid.t) : Prop :=
  forall i indiv, inds !! i = Some (Some indiv) -> Indiv.alive indiv = true ->
    Grid.isInBounds g (Indiv.loc indiv) = true /\
    Grid.at_ g (Indiv.loc indiv) = Some (Z.of_nat i) /\
    0 < Z.of_nat i < BARRIER.

(** No two living individuals stand on the same cell. *)
Definition noSharedCell (inds : list (option Indiv.t)) : Prop :=
  forall i j a b,
    inds !! i = Some (Some a) -> inds !! j = Some (Some b) ->
    Indiv.alive a = true -> Indiv.alive b = true ->
    Indiv.loc a = Indiv.loc b -> i = j.

(** Every source that is not a sensor names a neuron of the network. *)
Definition wired (net : NeuralNet) : Prop :=
  Forall (fun c => Conn.sourceType c <> SENSOR ->
                   0 <= Conn.sourceId c < Z.of_nat (length (neurons net)))
         (connections net).

Definition allWired (inds : list (option Indiv.t)) : Prop :=
  forall i indiv, inds !! i = Some (Some indiv) -> wired (Indiv.nnet indiv).

(** The invariant of the simulation between steps. *)
Definition stepInvariant {R : Type} (sim : Simulator.t R) : Prop :=
  gridWf (Simulator.grid sim) /\
  agrees (Peeps.individuals (Simulator.peeps sim)) (Simulator.grid sim) /\
  allWired (Peeps.individuals (Simulator.peeps sim)).

(** What the actions leave alone: the individuals the population holds,
    and of the acting individual whether it lives, where it stands and how
    its network is wired. *)
Definition sameStanding {R : Type} (st st' : ActState.t R) : Prop :=
  Peeps.individuals (ActState.peeps st') = Peeps.individuals (ActState.peeps st) /\
  Indiv.alive (ActState.self st') = Indiv.alive (ActState.self st) /\
  Indiv.loc (ActState.self st') = Indiv.loc (ActState.self st) /\
  Indiv.nnet (ActState.self st') = Indiv.nnet (ActState.self st).

(** The states of a run within the range of the cell tags.  A generation
    starts from a grid, cleared and with its barriers drawn, on which [init]
    or [initFromGenomes] places the population; then come the steps.  Three
    conditions are added that the source does not check: the population is
    below the barrier sentinel, so that every index is a cell tag of its
    own; there is at least one internal neuron; and the genomes handed over
    are decoded genes.  The states of a run without these conditions are
    those of [Run] below; with 65535 individuals or more the grid no longer
    tells the individuals from the barriers and the empty cells, and what is
    proved of [Reachable] fails (Part IV). *)
Inductive Reachable (Math_sin Math_tanh Math_exp : float -> float)
  : Simulator.t PRNG.t -> Prop :=
  | reach_init params grid0 r peeps grid r' signals generation :
      gridWf grid0 ->
      SimParams.population params < BARRIER ->
      1 <= SimParams.maxNumberNeurons params ->
      Peeps.init params grid0 r = Returns (peeps, grid, r') ->
      Reachable Math_sin Math_tanh Math_exp
        (Simulator.mk params grid peeps signals r' generation 0 0)
  | reach_generation params genomes grid0 r peeps grid r' signals generation :
      gridWf grid0 ->
      SimParams.population params < BARRIER ->
      1 <= SimParams.maxNumberNeurons params ->
      Forall (Forall gene_in_range) genomes ->
      Peeps.initFromGenomes genomes params grid0 r = Returns (peeps, grid, r') ->
      Reachable Math_sin Math_tanh Math_exp
        (Simulator.mk params grid peeps signals r' generation 0 0)
  | reach_step sim sim' :
      Reachable Math_sin Math_tanh Math_exp sim ->
      stepOnce Math_sin Math_tanh Math_exp sim = Returns sim' ->
      Reachable Math_sin Math_tanh Math_exp sim'.

(** ** A step's end on two neighbours

    Two individuals side by side on a grid of two cells: the first is named
    in the death queue, the second is queued to move onto the first's
    cell. *)
Definition bareIndiv (index : Z) (loc : Coord.t) : Indiv.t :=
  {| Indiv.index := index;
     Indiv.alive := true;
     Indiv.loc := loc;
     Indiv.birthLoc := loc;
     Indiv.lastMoveDir := Compass.CENTER;
     Indiv.genome := [];
     Indiv.nnet := mkNet [] [];
     Indiv.age := 0;
     Indiv.responsiveness := 0.5%float;
     Indiv.oscPeriod := 34%float;
     Indiv.longProbeDist := 16%float;
     Indiv.challengeBits := 0;
     Indiv.lastDirection := Compass.CENTER |}.

Definition twoNeighbours : Simulator.t PRNG.t :=
  Simulator.mk twoGeneParams
    (Grid.mk 2 1 [1; 2])
    (Peeps.mk [None; Some (bareIndiv 1 (Coord.mk 0 0));
               Some (bareIndiv 2 (Coord.mk 1 0))]
              [DeathRecord.mk 1]
              [MoveRecord.mk 2 (Coord.mk 0 0)])
    (Signals.create 2 1 1) (PRNG.create 1) 0 0 0.

(** ** SIGNAL0_LR: what the sensor reads

    The cells [getSignalDensity] averages over: those of the square the
    loops scan that lie inside the circle and inside the grid. *)
Definition neighbourhood (s : Signals.t) (center : Coord.t) (radius : float)
  : list Coord.t :=
  List.filter (Signals.isInBounds s)
    (map (fun d : Z * Z => Coord.mk (Coord.x center + fst d) (Coord.y center + snd d))
       (List.filter (fun d : Z * Z => inCircle radius (fst d) (snd d))
          (squareOffsets (loopRadius radius)))).

Definition sumZ (l : list Z) : Z := fold_right Z.add 0 l.

(** The mean of the cells of the neighbourhood, over 255. *)
Definition neighbourhoodDensity (s : Signals.t) (layerNum : nat)
    (center : Coord.t) (radius : float) : float :=
  let cells := neighbourhood s center radius in
  let count := Z.of_nat (length cells) in
  if (Signals.numLayers s <=? layerNum)%nat then 0%float
  else if 0 <? count
       then (Num.ofZ (sumZ (map (Signals.get s layerNum) cells))
             / (Num.ofZ count * 255))%float
       else 0%float.

(** The reading from the two single cells beside the individual: the
    value right over the sum of right and left, one half when both are
    zero. *)
Definition signal0LR_single_cell (indiv : Indiv.t) (ctx : SensorContext.t)
  : float :=
  let fwd := Indiv.lastMoveDir indiv in
  let rLoc := coordAdd (Indiv.loc indiv)
                (Dir.asNormalizedCoord (Dir.rotate90CW fwd)) in
  let lLoc := coordAdd (Indiv.loc indiv)
                (Dir.asNormalizedCoord (Dir.rotate90CCW fwd)) in
  let right := Signals.get (SensorContext.signals ctx) 0 rLoc in
  let left := Signals.get (SensorContext.signals ctx) 0 lLoc in
  if (right =? 0) && (left =? 0) then 0.5%float
  else (Num.ofZ right / (Num.ofZ right + Num.ofZ left))%float.

(** An individual at (5, 5) that last moved north, on an empty grid of
    11 x 11 cells whose only signal is at (8, 5): two cells to the right of
    the cell on its right. *)
Definition northbound : Indiv.t :=
  Indiv.set_lastMoveDir Compass.N (bareIndiv 1 (Coord.mk 5 5)).

Definition signalToTheRight : SensorContext.t :=
  SensorContext.mk
    (Grid.set (Grid.create 11 11) (Coord.mk 5 5) 1)
    (Signals.increment (Signals.create 11 11 1) 0 (Coord.mk 8 5) 255%float)
    (Peeps.mk [None; Some northbound] [] [])
    twoGeneParams 0 1.

(** ** A first generation with a barrier

    Four individuals placed by [init] on a grid of 8 x 8 cells with a
    barrier at (3, 3). *)
Definition firstGeneration : Outcome (Simulator.t PRNG.t) :=
  res ← Peeps.init twoGeneParams
          (Grid.set (Grid.create 8 8) (Coord.mk 3 3) BARRIER) (PRNG.create 1);
  let '(peeps, grid, r) := (res : Peeps.t * Grid.t * PRNG.t) in
  Returns (Simulator.mk twoGeneParams grid peeps (Signals.create 8 8 1) r 0 0 0).

(* ================================================================== *)
(** * More of the source                                              *)
(* ================================================================== *)

(** ** types.ts: the remaining coordinate helpers *)

Definition coordSub (a b : Coord.t) : Coord.t :=
  Coord.mk (Coord.x a - Coord.x b) (Coord.y a - Coord.y b).

Definition coordEqual (a b : Coord.t) : bool :=
  (Coord.x a =? Coord.x b) && (Coord.y a =? Coord.y b).

(** [coordAsDir]: each coordinate is reduced to its sign, and the pair of
    signs is looked up in the table. *)
Definition coordAsDir (c : Coord.t) : Dir.t :=
  let nx := if Coord.x c =? 0 then 0 else if 0 <? Coord.x c then 1 else -1 in
  let ny := if Coord.y c =? 0 then 0 else if 0 <? Coord.y c then 1 else -1 in
  match nx, ny with
  | 0, -1 => Compass.N
  | 1, -1 => Compass.NE
  | 1, 0 => Compass.E
  | 1, 1 => Compass.SE
  | 0, 1 => Compass.S
  | -1, 1 => Compass.SW
  | -1, 0 => Compass.W
  | -1, -1 => Compass.NW
  | 0, 0 => Compass.CENTER
  | _, _ => Compass.CENTER
  end.

(** ** grid.ts: the remaining methods *)

(** [getBarrierCount]. *)
Definition getBarrierCount (g : Grid.t) : Z :=
  Z.of_nat (length (List.filter (fun v => v =? BARRIER) (Grid.data g))).

(** The offsets of the ring at distance [r]: those of the square with
    [Math.abs(dx) === r || Math.abs(dy) === r], in the order of the loops. *)
Definition ringOffsets (r : Z) : list (Z * Z) :=
  List.filter (fun d : Z * Z => (Z.abs (fst d) =? r) || (Z.abs (snd d) =? r))
    (squareOffsets r).

(** The two inner loops of [findEmptyLocation] at one radius: the first
    cell of the ring that is in bounds and empty. *)
Definition findInRing (g : Grid.t) (center : Coord.t) (r : Z) : option Coord.t :=
  List.find (fun loc => Grid.isInBounds g loc && Grid.isEmptyAt g loc)
    (map (fun d : Z * Z =>
            Coord.mk (Coord.x center + fst d) (Coord.y center + snd d))
       (ringOffsets r)).

(** The outer loop, [n] radii left, the next one [r]. *)
Fixpoint searchRings (n : nat) (r : Z) (g : Grid.t) (center : Coord.t)
  : option Coord.t :=
  match n with
  | O => None
  | S n' =>
      match findInRing g center r with
      | Some loc => Some loc
      | None => searchRings n' (r + 1) g center
      end
  end.

(** [findEmptyLocation(center, maxRadius)]; [None] is [undefined]. *)
Definition findEmptyLocation (g : Grid.t) (center : Coord.t) (maxRadius : Z)
  : option Coord.t :=
  searchRings (Z.to_nat maxRadius) 1 g center.

(** The distance in which the rings are measured. *)
Definition ringDistance (a b : Coord.t) : Z :=
  Z.max (Z.abs (Coord.x a - Coord.x b)) (Z.abs (Coord.y a - Coord.y b)).

(** ** simulator.ts: inspection *)

(** [getIndivAt]: [None] is [null].  A cell outside the array reads as
    [undefined], which is neither tag and indexes no individual. *)
Definition getIndivAt {R : Type} (sim : Simulator.t R) (loc : Coord.t)
  : option Indiv.t :=
  if negb (Grid.isInBounds (Simulator.grid sim) loc) then None
  else
    match Grid.at_ (Simulator.grid sim) loc with
    | Some idx =>
        if (idx =? 0) || (idx =? 0xFFFF) then None
        else
          match Peeps.get (Simulator.peeps sim) idx with
          | Some indiv => if Indiv.alive indiv then Some indiv else None
          | None => None
          end
    | None => None
    end.

(** ** Further invariants of a run *)

(** No cell holds the barrier sentinel in [g'] that did not hold it in
    [g]. *)
Definition noNewBarriers (g g' : Grid.t) : Prop :=
  forall k, Grid.data g' !! k = Some BARRIER -> Grid.data g !! k = Some BARRIER.

(** Every individual carries the index of the slot it is stored in. *)
Definition allIndexed (inds : list (option Indiv.t)) : Prop :=
  forall i indiv, inds !! i = Some (Some indiv) -> Indiv.index indiv = Z.of_nat i.

(** The words a sensor asks the generator for. *)
Definition sensorDraws (s : Sensor.t) : nat :=
  match s with Sensor.RANDOM => 1 | _ => 0 end.

(** An action state over a counted generator, with the tally forgotten. *)
Definition uncounted {R : Type} (st : ActState.t (Counted R)) : ActState.t R :=
  ActState.mk (ActState.moveX st) (ActState.moveY st) (ActState.self st)
    (ActState.signals st) (ActState.peeps st) (source (ActState.rng st)).

(** [Math.abs(level) > responsiveness * 0.5] for the action numbered [a]. *)
Definition actionFires (Math_exp : float -> float) (indiv : Indiv.t)
    (params : SimParams.t) (actionLevels : list float) (a : Z) : bool :=
  PrimFloat.ltb
    (responsivenessCurve Math_exp (Indiv.responsiveness indiv)
       (SimParams.responsivenessCurveKFactor params) * 0.5)%float
    (PrimFloat.abs (f32get actionLevels a)).

(** The parameters of the examples, with killing enabled. *)
Definition killingParams : SimParams.t :=
  {| SimParams.population := 4;
     SimParams.stepsPerGeneration := 1;
     SimParams.maxGenerations := 1;
     SimParams.sizeX := 8;
     SimParams.sizeY := 8;
     SimParams.genomeInitialLengthMin := 2;
     SimParams.genomeInitialLengthMax := 2;
     SimParams.genomeMaxLength := 2;
     SimParams.maxNumberNeurons := 1;
     SimParams.pointMutationRate := 0%float;
     SimParams.geneInsertionDeletionRate := 0%float;
     SimParams.deletionRatio := 0.5%float;
     SimParams.sexualReproduction := true;
     SimParams.chooseParentsByFitness := false;
     SimParams.responsivenessCurveKFactor := 2%float;
     SimParams.signalLayers := 1%nat;
     SimParams.signalSensorRadius := 2%float;
     SimParams.longProbeDistance := 16%float;
     SimParams.shortProbeBarrierDistance := 4;
     SimParams.killEnable := true;
     SimParams.rngSeed := 1;
     SimParams.populationSensorRadius := 2%float |}.

(** Action levels that are zero except for KILL_FORWARD. *)
Definition onlyKillForward : list float :=
  replicate 9 0%float ++ [1%float] ++ replicate 7 0%float.

(** [alive] individuals only, as the filter of [getLiving]. *)
Definition livingOnly (o : option Indiv.t) : option Indiv.t :=
  match o with
  | Some ind => if Indiv.alive ind then Some ind else None
  | None => None
  end.

(** Whoever is at index [i] is dead. *)
Definition deadAt (inds : list (option Indiv.t)) (i : Z) : Prop :=
  forall indiv, Peeps.get (Peeps.mk inds [] []) i = Some indiv ->
                Indiv.alive indiv = false.

(** ** grid.ts: [visitNeighborhood]

    The visitor is a callback that writes to variables of its caller; here
    it takes and returns what it writes. *)
Definition visitNeighborhood {A : Type} (g : Grid.t) (center : Coord.t)
    (radius : float) (visitor : Coord.t -> A -> A) (acc : A) : A :=
  fold_left
    (fun acc (d : Z * Z) =>
       if inCircle radius (fst d) (snd d)
       then
         let loc := Coord.mk (Coord.x center + fst d) (Coord.y center + snd d) in
         if Grid.isInBounds g loc then visitor loc acc else acc
       else acc)
    (squareOffsets (loopRadius radius)) acc.

(** ** survival.ts *)

Module SurvivalCriteria.
(** The nine criteria; [OTHER] is a number that names none of them, for
    which the [switch] takes its [default]. *)
Inductive t : Type :=
  | CIRCLE | RIGHT_EIGHTH | LEFT_EIGHTH | CENTER_WEIGHTED | CORNER_WEIGHTED
  | PAIRS | CONTACT | AGAINST_ANY_WALL | TOUCH_ANY_WALL
  | OTHER (n : Z).
End SurvivalCriteria.

Section Survival.
Variable Math_sqrt : float -> float.

Definition surviveCircle (indiv : Indiv.t) (params : SimParams.t) : bool :=
  let centerX := (Num.ofZ (SimParams.sizeX params) / 2)%float in
  let centerY := (Num.ofZ (SimParams.sizeY params) / 2)%float in
  let radius :=
    (Num.ofZ (Z.min (SimParams.sizeX params) (SimParams.sizeY params)) / 4)%float in
  let dx := (Num.ofZ (Coord.x (Indiv.loc indiv)) - centerX)%float in
  let dy := (Num.ofZ (Coord.y (Indiv.loc indiv)) - centerY)%float in
  PrimFloat.leb (dx * dx + dy * dy)%float (radius * radius)%float.

Definition surviveCenterWeighted (indiv : Indiv.t) (params : SimParams.t) : bool :=
  let centerX := (Num.ofZ (SimParams.sizeX params) / 2)%float in
  let centerY := (Num.ofZ (SimParams.sizeY params) / 2)%float in
  let maxDist := Math_sqrt (centerX * centerX + centerY * centerY)%float in
  let dx := (Num.ofZ (Coord.x (Indiv.loc indiv)) - centerX)%float in
  let dy := (Num.ofZ (Coord.y (Indiv.loc indiv)) - centerY)%float in
  let dist := Math_sqrt (dx * dx + dy * dy)%float in
  let prob := (1 - dist / maxDist)%float in
  PrimFloat.ltb 0.5 prob.

Definition surviveCornerWeighted (indiv : Indiv.t) (params : SimParams.t) : bool :=
  let sizeX := Num.ofZ (SimParams.sizeX params) in
  let sizeY := Num.ofZ (SimParams.sizeY params) in
  let corners : list (float * float) :=
    [(0, 0); (sizeX - 1, 0); (0, sizeY - 1); (sizeX - 1, sizeY - 1)]%float in
  let minDist :=
    fold_left
      (fun minDist (corner : float * float) =>
         let dx := (Num.ofZ (Coord.x (Indiv.loc indiv)) - fst corner)%float in
         let dy := (Num.ofZ (Coord.y (Indiv.loc indiv)) - snd corner)%float in
         let dist := Math_sqrt (dx * dx + dy * dy)%float in
         if PrimFloat.ltb dist minDist then dist else minDist)
      corners infinity in
  let maxDist := (Math_sqrt (sizeX * sizeX + sizeY * sizeY) / 2)%float in
  PrimFloat.ltb minDist (maxDist * 0.25)%float.

(** [hasNeighbor] is what the visitor writes. *)
Definition survivePairs (indiv : Indiv.t) (grid : Grid.t) (peeps : Peeps.t) : bool :=
  visitNeighborhood grid (Indiv.loc indiv) 1.5%float
    (fun loc hasNeighbor =>
       if negb (Coord.x loc =? Coord.x (Indiv.loc indiv)) ||
          negb (Coord.y loc =? Coord.y (Indiv.loc indiv))
       then if Grid.isOccupiedAt grid loc then true else hasNeighbor
       else hasNeighbor)
    false.

Definition surviveContact (indiv : Indiv.t) (grid : Grid.t) : bool :=
  existsb
    (fun offset : Z * Z =>
       let loc := Coord.mk (Coord.x (Indiv.loc indiv) + fst offset)
                           (Coord.y (Indiv.loc indiv) + snd offset) in
       Grid.isInBounds grid loc && Grid.isOccupiedAt grid loc)
    [(-1, 0); (1, 0); (0, -1); (0, 1)].

Definition surviveAgainstAnyWall (indiv : Indiv.t) (params : SimParams.t) : bool :=
  (Coord.x (Indiv.loc indiv) =? 0) ||
  (Coord.x (Indiv.loc indiv) =? SimParams.sizeX params - 1) ||
  (Coord.y (Indiv.loc indiv) =? 0) ||
  (Coord.y (Indiv.loc indiv) =? SimParams.sizeY params - 1).

Definition surviveTouchAnyWall (indiv : Indiv.t) (params : SimParams.t) : bool :=
  (Coord.x (Indiv.loc indiv) <=? 1) ||
  (SimParams.sizeX params - 2 <=? Coord.x (Indiv.loc indiv)) ||
  (Coord.y (Indiv.loc indiv) <=? 1) ||
  (SimParams.sizeY params - 2 <=? Coord.y (Indiv.loc indiv)).

Definition survives (indiv : Indiv.t) (criteria : SurvivalCriteria.t)
    (params : SimParams.t) (grid : Grid.t) (peeps : Peeps.t) : bool :=
  match criteria with
  | SurvivalCriteria.CIRCLE => surviveCircle indiv params
  | SurvivalCriteria.RIGHT_EIGHTH =>
      PrimFloat.ltb (Num.ofZ (SimParams.sizeX params) * 7 / 8)%float
                    (Num.ofZ (Coord.x (Indiv.loc indiv)))
  | SurvivalCriteria.LEFT_EIGHTH =>
      PrimFloat.ltb (Num.ofZ (Coord.x (Indiv.loc indiv)))
                    (Num.ofZ (SimParams.sizeX params) / 8)%float
  | SurvivalCriteria.CENTER_WEIGHTED => surviveCenterWeighted indiv params
  | SurvivalCriteria.CORNER_WEIGHTED => surviveCornerWeighted indiv params
  | SurvivalCriteria.PAIRS => survivePairs indiv grid peeps
  | SurvivalCriteria.CONTACT => surviveContact indiv grid
  | SurvivalCriteria.AGAINST_ANY_WALL => surviveAgainstAnyWall indiv params
  | SurvivalCriteria.TOUCH_ANY_WALL => surviveTouchAnyWall indiv params
  | SurvivalCriteria.OTHER _ => true
  end.

(** [criteriaList.length === 0 || criteriaList.some(...)], for each of the
    living in their order. *)
Definition getSurvivors (criteriaList : list SurvivalCriteria.t)
    (params : SimParams.t) (grid : Grid.t) (peeps : Peeps.t) : list Indiv.t :=
  List.filter
    (fun indiv =>
       (length criteriaList =? 0)%nat ||
       existsb (fun c => survives indiv c params grid peeps) criteriaList)
    (Peeps.getLiving peeps).

End Survival.

(** ** barriers.ts

    The sizes of a grid are integers, and [Math.floor] of an integer over
    2, 4, 6, 12, 20 or 50 is the integer quotient rounded down. *)

Module BarrierType.
(** The seven types; [OTHER] is a number that names none of them, for
    which the [switch] does nothing. *)
Inductive t : Type :=
  | NONE | VERTICAL_BAR_CONSTANT | VERTICAL_BAR_RANDOM | FIVE_BLOCKS
  | HORIZONTAL_BAR_CONSTANT | FLOATING_ISLANDS | SPOTS
  | OTHER (n : Z).
End BarrierType.

Definition setBarrier (grid : Grid.t) (loc : Coord.t) : Grid.t :=
  if Grid.isInBounds grid loc then Grid.set grid loc BARRIER else grid.

Definition createVerticalBarConstant (grid : Grid.t) : Grid.t :=
  let midX := Grid.sizeX grid / 2 in
  let startY := Grid.sizeY grid / 4 in
  let endY := Grid.sizeY grid - startY in
  fold_left (fun g y => setBarrier g (Coord.mk midX y))
    (seqZ startY (endY - startY)) grid.

Definition createHorizontalBarConstant (grid : Grid.t) : Grid.t :=
  let midY := Grid.sizeY grid / 2 in
  let startX := Grid.sizeX grid / 4 in
  let endX := Grid.sizeX grid - startX in
  fold_left (fun g x => setBarrier g (Coord.mk x midY))
    (seqZ startX (endX - startX)) grid.

(** The two loops [for dx] [for dy] over a rectangle of offsets. *)
Definition rectOffsets (halfWidth halfHeight : Z) : list (Z * Z) :=
  dx ← seqZ (- halfWidth) (2 * halfWidth + 1);
  dy ← seqZ (- halfHeight) (2 * halfHeight + 1);
  [(dx, dy)].

Definition createFiveBlocks (grid : Grid.t) : Grid.t :=
  let sizeX := Grid.sizeX grid in
  let sizeY := Grid.sizeY grid in
  let halfWidth := Z.max 1 (sizeX / 50) in
  let halfHeight := Z.max 4 (sizeY / 6) in
  let positions :=
    [(sizeX / 4, sizeY / 4); (3 * sizeX / 4, sizeY / 4); (sizeX / 2, sizeY / 2);
     (sizeX / 4, 3 * sizeY / 4); (3 * sizeX / 4, 3 * sizeY / 4)] in
  fold_left
    (fun g (pos : Z * Z) =>
       fold_left
         (fun g (d : Z * Z) =>
            setBarrier g (Coord.mk (fst pos + fst d) (snd pos + snd d)))
         (rectOffsets halfWidth halfHeight) g)
    positions grid.

(** The disc of barriers that the islands and the spots are made of. *)
Definition barrierDisc (radius cx cy : Z) (grid : Grid.t) : Grid.t :=
  fold_left
    (fun g (d : Z * Z) =>
       if fst d * fst d + snd d * snd d <=? radius * radius
       then setBarrier g (Coord.mk (cx + fst d) (cy + snd d))
       else g)
    (squareOffsets radius) grid.

(** The two loops of [createSpots].  [cx += spacing] need not reach the
    size of the grid: out of fuel, the loop is still running. *)
Fixpoint spotsColumn (fuel : nat) (spotRadius spacing cx cy : Z) (grid : Grid.t)
  : Outcome Grid.t :=
  match fuel with
  | O => Diverges
  | S fuel' =>
      if cy <? Grid.sizeY grid
      then spotsColumn fuel' spotRadius spacing cx (cy + spacing)
             (barrierDisc spotRadius cx cy grid)
      else Returns grid
  end.

Fixpoint spotsRows (fuel : nat) (spotRadius spacing cx : Z) (grid : Grid.t)
  : Outcome Grid.t :=
  match fuel with
  | O => Diverges
  | S fuel' =>
      if cx <? Grid.sizeX grid
      then
        grid' ← spotsColumn fuel spotRadius spacing cx spacing grid;
        spotsRows fuel' spotRadius spacing (cx + spacing) grid'
      else Returns grid
  end.

Definition createSpots (fuel : nat) (grid : Grid.t) : Outcome Grid.t :=
  let spotRadius := Z.max 1 (Z.min (Grid.sizeX grid) (Grid.sizeY grid) / 20) in
  let spacing := Z.min (Grid.sizeX grid) (Grid.sizeY grid) / 4 in
  spotsRows fuel spotRadius spacing spacing grid.

Section Barriers.
Context {R : Type} `{RandomSource R}.

Definition createVerticalBarRandom (grid : Grid.t) (r : R) : Grid.t * R :=
  let '(k, r') := Rng.nextInt (Grid.sizeX grid / 2) r in
  let x := Grid.sizeX grid / 4 + k in
  let startY := Grid.sizeY grid / 4 in
  let endY := Grid.sizeY grid - startY in
  (fold_left (fun g y => setBarrier g (Coord.mk x y))
     (seqZ startY (endY - startY)) grid, r').

(** [for (let i = 0; i < numIslands; i++)], [n] islands still to come.
    [0x1.6666666666666p-1] and [0x1.3333333333333p-3] are the binary64
    values of the literals [0.7] and [0.15]. *)
Fixpoint islands (n : nat) (islandRadius : Z) (grid : Grid.t) (r : R)
  : Grid.t * R :=
  match n with
  | O => (grid, r)
  | S n' =>
      let '(kx, r1) :=
        Rng.nextInt
          (Num.floorZ (Num.ofZ (Grid.sizeX grid) * 0x1.6666666666666p-1)%float) r in
      let cx :=
        Num.floorZ (Num.ofZ (Grid.sizeX grid) * 0x1.3333333333333p-3)%float + kx in
      let '(ky, r2) :=
        Rng.nextInt
          (Num.floorZ (Num.ofZ (Grid.sizeY grid) * 0x1.6666666666666p-1)%float) r1 in
      let cy :=
        Num.floorZ (Num.ofZ (Grid.sizeY grid) * 0x1.3333333333333p-3)%float + ky in
      islands n' islandRadius (barrierDisc islandRadius cx cy grid) r2
  end.

Definition createFloatingIslands (grid : Grid.t) (r : R) : Grid.t * R :=
  let islandRadius :=
    Z.max 2 (Z.min (Grid.sizeX grid) (Grid.sizeY grid) / 12) in
  islands 5 islandRadius grid r.

Definition createBarrier (fuel : nat) (grid : Grid.t)
    (barrierType : BarrierType.t) (r : R) : Outcome (Grid.t * R) :=
  match barrierType with
  | BarrierType.NONE => Returns (grid, r)
  | BarrierType.VERTICAL_BAR_CONSTANT => Returns (createVerticalBarConstant grid, r)
  | BarrierType.VERTICAL_BAR_RANDOM => Returns (createVerticalBarRandom grid r)
  | BarrierType.FIVE_BLOCKS => Returns (createFiveBlocks grid, r)
  | BarrierType.HORIZONTAL_BAR_CONSTANT =>
      Returns (createHorizontalBarConstant grid, r)
  | BarrierType.FLOATING_ISLANDS => Returns (createFloatingIslands grid r)
  | BarrierType.SPOTS => grid' ← createSpots fuel grid; Returns (grid', r)
  | BarrierType.OTHER _ => Returns (grid, r)
  end.

End Barriers.

(** What drawing barriers may do to a grid: the sizes and the length of the
    array stay, and a cell keeps its value or becomes a barrier. *)
Definition barriersAdded (g g' : Grid.t) : Prop :=
  Grid.sizeX g' = Grid.sizeX g /\ Grid.sizeY g' = Grid.sizeY g /\
  length (Grid.data g') = length (Grid.data g) /\
  forall k v, Grid.data g !! k = Some v ->
              Grid.data g' !! k = Some v \/ Grid.data g' !! k = Some BARRIER.

(** ** genome.ts: [geneticDiversity] *)

Section Diversity.
Context {R : Type} `{RandomSource R}.

(** The loop over the samples, [n] of them still to take.  [genomes[i]]
    outside the array is [undefined], whose [length] cannot be read. *)
Fixpoint diversityLoop (n : nat) (genomes : list Genome) (total : float) (r : R)
  : Outcome (float * R) :=
  match n with
  | O => Returns (total, r)
  | S n' =>
      let '(i, r1) := Rng.nextInt (Z.of_nat (length genomes)) r in
      let '(j0, r2) := Rng.nextInt (Z.of_nat (length genomes) - 1) r1 in
      let j := if i <=? j0 then j0 + 1 else j0 in
      a ← elem genomes i;
      b ← elem genomes j;
      diversityLoop n' genomes (total + (1 - genomeSimilarity a b))%float r2
  end.

(** [genomes.length * (genomes.length - 1)] is even, so its half is the
    integer quotient. *)
Definition geneticDiversity (genomes : list Genome) (r : R) (sampleSize : Z)
  : Outcome (float * R) :=
  let n := Z.of_nat (length genomes) in
  if n <? 2 then Returns (0%float, r)
  else
    let samples := Z.min sampleSize (n * (n - 1) / 2) in
    res ← diversityLoop (Z.to_nat samples) genomes 0%float r;
    Returns ((fst res / Num.ofZ samples)%float, snd res).

End Diversity.

(** ** analysis.ts: [computeGenerationStats] *)

Module GenerationStats.
Record t : Type := mk {
  generation : Z;
  population : Z;
  survivors : Z;
  survivalRate : float;
  geneticDiversity : float;
  avgGenomeLength : float;
  killDeaths : Z;
  maxGenomeLength : Z;
  minGenomeLength : Z
}.
End GenerationStats.

(** The body of the loop over the genomes: the total length, the greatest
    and the least; [None] is the [Infinity] that [minLen] starts from. *)
Definition genomeLengths (acc : Z * Z * option Z) (g : Genome) : Z * Z * option Z :=
  let '(totalLength, maxLen, minLen) := acc in
  let len := Z.of_nat (length g) in
  (totalLength + len,
   (if maxLen <? len then len else maxLen),
   match minLen with
   | None => Some len
   | Some m => if len <? m then Some len else Some m
   end).

Section Stats.
Context {R : Type} `{RandomSource R}.

Definition computeGenerationStats (generation : Z)
    (allIndividuals : list (option Indiv.t)) (survivors : list Indiv.t)
    (killDeaths : Z) (r : R) : Outcome (GenerationStats.t * R) :=
  let living := omap livingOnly allIndividuals in
  let genomes := map Indiv.genome living in
  let '(totalLength, maxLen, minLen) :=
    fold_left genomeLengths genomes (0, 0, None) in
  d ← geneticDiversity genomes r 100;
  Returns
    (GenerationStats.mk generation
       (Z.of_nat (length living))
       (Z.of_nat (length survivors))
       (if 0 <? Z.of_nat (length living)
        then (Num.ofZ (Z.of_nat (length survivors))
              / Num.ofZ (Z.of_nat (length living)))%float
        else 0%float)
       (fst d)
       (if 0 <? Z.of_nat (length genomes)
        then (Num.ofZ totalLength / Num.ofZ (Z.of_nat (length genomes)))%float
        else 0%float)
       killDeaths
       maxLen
       (match minLen with None => 0 | Some m => m end),
     snd d).

End Stats.

(** ** simulator.ts: a generation

    [barrierType] and [survivalCriteria] are fields of [params] in the
    source; the record [SimParams.t] holds the fields that the core reads,
    and these two are passed beside it.  The statistics are the value
    returned; the history and the colours kept for the display are left
    out. *)

Section Generation.
Context {R : Type} `{RandomSource R}.
Variables Math_sin Math_tanh Math_exp Math_sqrt : float -> float.

Definition endGeneration (fuel : nat) (barrierType : BarrierType.t)
    (survivalCriteria : list SurvivalCriteria.t) (sim : Simulator.t R)
  : Outcome (GenerationStats.t * Simulator.t R) :=
  let params := Simulator.params sim in
  let survivors :=
    getSurvivors Math_sqrt survivalCriteria params (Simulator.grid sim)
      (Simulator.peeps sim) in
  let allIndivs :=
    map (Peeps.get (Simulator.peeps sim))
        (seqZ 1 (Peeps.getPopulationSize (Simulator.peeps sim))) in
  st ← computeGenerationStats (Simulator.generation sim) allIndivs survivors
         (Simulator.killDeaths sim) (Simulator.rng sim);
  sp ← spawnNewGeneration survivors params (snd st);
  let grid0 := Grid.clear (Simulator.grid sim) in
  let signals0 := Signals.zeroFill (Simulator.signals sim) in
  gb ← createBarrier fuel grid0 barrierType (snd sp);
  res ← Peeps.initFromGenomes (fst sp) params (fst gb) (snd gb);
  let '(peeps', grid', r') := (res : Peeps.t * Grid.t * R) in
  Returns (fst st,
           Simulator.mk params grid' peeps' signals0 r'
             (Simulator.generation sim + 1) 0 (Simulator.killDeaths sim)).

(** [this.simStep = 0; this.killDeaths = 0]. *)
Definition resetCounters (sim : Simulator.t R) : Simulator.t R :=
  Simulator.mk (Simulator.params sim) (Simulator.grid sim) (Simulator.peeps sim)
    (Simulator.signals sim) (Simulator.rng sim) (Simulator.generation sim) 0 0.

(** [for (let step = 0; step < stepsPerGeneration; step++) this.stepOnce()]. *)
Fixpoint stepsOfGeneration (n : nat) (sim : Simulator.t R)
  : Outcome (Simulator.t R) :=
  match n with
  | O => Returns sim
  | S n' =>
      sim' ← stepOnce Math_sin Math_tanh Math_exp sim;
      stepsOfGeneration n' sim'
  end.

Definition runGeneration (fuel : nat) (barrierType : BarrierType.t)
    (survivalCriteria : list SurvivalCriteria.t) (sim : Simulator.t R)
  : Outcome (GenerationStats.t * Simulator.t R) :=
  sim' ← stepsOfGeneration
           (Z.to_nat (SimParams.stepsPerGeneration (Simulator.params sim)))
           (resetCounters sim);
  endGeneration fuel barrierType survivalCriteria sim'.

End Generation.

(** Every gene of every individual is a decoded gene. *)
Definition allInRange (inds : list (option Indiv.t)) : Prop :=
  forall i indiv, inds !! i = Some (Some indiv) ->
                  Forall gene_in_range (Indiv.genome indiv).

(* ================================================================== *)
(** * Runs without a condition on the parameters                      *)
(* ================================================================== *)

(** ** The radii of the sensors *)

(** Neither sensor radius of the parameters is [Infinity]: the loops of
    [visitNeighborhood] and [getSignalDensity] that the POPULATION and the
    three SIGNAL0 sensors run come to an end. *)
Definition sensorLoopsEnd (params : SimParams.t) : bool :=
  endsLoops (SimParams.populationSensorRadius params) &&
  endsLoops (SimParams.signalSensorRadius params).

(** No [emit] of the list has the radius [Infinity]. *)
Definition emitsEnd (ops : list Signals.op) : bool :=
  forallb (fun o => match o with
                    | Signals.Emit _ _ radius => endsLoops radius
                    | Signals.Fade _ => true
                    end) ops.

(** ** Every run

    The states of a run with nothing asked of the parameters, of the grid
    or of the genomes: whatever [init] or [initFromGenomes] returns, and
    whatever [stepOnce] returns from there.  [Reachable] holds of those of
    them whose population is below the sentinel, whose networks have a
    neuron and whose genomes are decoded genes. *)
Inductive Run (Math_sin Math_tanh Math_exp : float -> float)
  : Simulator.t PRNG.t -> Prop :=
  | run_init params grid0 r peeps grid r' signals generation :
      Peeps.init params grid0 r = Returns (peeps, grid, r') ->
      Run Math_sin Math_tanh Math_exp
        (Simulator.mk params grid peeps signals r' generation 0 0)
  | run_generation params genomes grid0 r peeps grid r' signals generation :
      Peeps.initFromGenomes genomes params grid0 r = Returns (peeps, grid, r') ->
      Run Math_sin Math_tanh Math_exp
        (Simulator.mk params grid peeps signals r' generation 0 0)
  | run_step sim sim' :
      Run Math_sin Math_tanh Math_exp sim ->
      stepOnce Math_sin Math_tanh Math_exp sim = Returns sim' ->
      Run Math_sin Math_tanh Math_exp sim'.

(** ** A first generation in which something happens

    Four individuals with genomes of four genes and two neurons, placed by
    [init] from the seed 5 on a grid of 8 x 8 cells with a barrier at
    (3, 3).  In their first step one of them moves and one is killed. *)
Definition fourGeneParams : SimParams.t :=
  {| SimParams.population := 4;
     SimParams.stepsPerGeneration := 1;
     SimParams.maxGenerations := 1;
     SimParams.sizeX := 8;
     SimParams.sizeY := 8;
     SimParams.genomeInitialLengthMin := 4;
     SimParams.genomeInitialLengthMax := 4;
     SimParams.genomeMaxLength := 4;
     SimParams.maxNumberNeurons := 2;
     SimParams.pointMutationRate := 0%float;
     SimParams.geneInsertionDeletionRate := 0%float;
     SimParams.deletionRatio := 0.5%float;
     SimParams.sexualReproduction := true;
     SimParams.chooseParentsByFitness := false;
     SimParams.responsivenessCurveKFactor := 2%float;
     SimParams.signalLayers := 1%nat;
     SimParams.signalSensorRadius := 2%float;
     SimParams.longProbeDistance := 16%float;
     SimParams.shortProbeBarrierDistance := 4;
     SimParams.killEnable := true;
     SimParams.rngSeed := 5;
     SimParams.populationSensorRadius := 2%float |}.

Definition busyGeneration : Outcome (Simulator.t PRNG.t) :=
  res ← Peeps.init fourGeneParams
          (Grid.set (Grid.create 8 8) (Coord.mk 3 3) BARRIER) (PRNG.create 5);
  let '(peeps, grid, r) := (res : Peeps.t * Grid.t * PRNG.t) in
  Returns (Simulator.mk fourGeneParams grid peeps (Signals.create 8 8 1) r 0 0 0).

(** A start and the step after it, with the identity for the three
    functions of [Math]. *)
Definition firstStep (start : Outcome (Simulator.t PRNG.t))
  : Outcome (Simulator.t PRNG.t * Simulator.t PRNG.t) :=
  sim ← start;
  sim' ← stepOnce (fun v => v) (fun v => v) (fun v => v) sim;
  Returns (sim, sim').

(** What the first step of the busy generation writes: individual 3 moves
    from (4, 5) to (4, 6), individual 4 is killed on (4, 7), and there is a
    barrier at (3, 3). *)
Definition busyWrites (o : Outcome (Simulator.t PRNG.t * Simulator.t PRNG.t))
  : Prop :=
  match o with
  | Returns (sim, sim') =>
      Grid.at_ (Simulator.grid sim) (Coord.mk 4 5) = Some 3 /\
      Grid.at_ (Simulator.grid sim') (Coord.mk 4 5) = Some 0 /\
      Grid.at_ (Simulator.grid sim') (Coord.mk 4 6) = Some 3 /\
      Grid.at_ (Simulator.grid sim) (Coord.mk 4 7) = Some 4 /\
      Grid.at_ (Simulator.grid sim') (Coord.mk 4 7) = Some 0 /\
      Simulator.killDeaths sim' = 1 /\
      Grid.isBarrierAt (Simulator.grid sim) (Coord.mk 3 3) = true
  | _ => False
  end.

(** After that step individual 3 is alive in its slot. *)
Definition busyMover (o : Outcome (Simulator.t PRNG.t * Simulator.t PRNG.t))
  : Prop :=
  match o with
  | Returns (_, sim') =>
      exists mover,
        Peeps.get (Simulator.peeps sim') 3 = Some mover /\
        Peeps.individuals (Simulator.peeps sim') !! 3%nat = Some (Some mover) /\
        Indiv.alive mover = true
  | _ => False
  end.

(** ** A network with a loop and a sink out of range

    Neuron 0 feeds itself and the action MOVE_RL; sensor 0 feeds an action
    number that does not exist; neuron 1 is fed by nothing. *)
Definition loopedNet : NeuralNet :=
  mkNet [Conn.mk NEURON 0 NEURON 0 0.5%float;
         Conn.mk SENSOR 0 ACTION 99 1%float;
         Conn.mk NEURON 0 ACTION 3 2%float]
        [mkNeuron 0.5%float true; mkNeuron 0.25%float false].

(** ** A population beyond the cell tags

    65536 individuals on a grid of 256 x 257 cells, as [init] places a
    population of that size: individual [i] was created by [createIndiv]
    on a cell that read empty, and [grid.set] stored its index there as the
    [Uint16Array] stores it.  Here individual [i] stands on cell [i - 1],
    counted along the rows.  Individual 65535 is stored as 0xFFFF, the
    barrier sentinel, and individual 65536 as 0, the empty tag.  All have
    the empty genome but individual 65535, whose one gene connects the
    sensor LOC_X to the action MOVE_EAST. *)
Definition crowdParams : SimParams.t :=
  {| SimParams.population := 65536;
     SimParams.stepsPerGeneration := 1;
     SimParams.maxGenerations := 1;
     SimParams.sizeX := 256;
     SimParams.sizeY := 257;
     SimParams.genomeInitialLengthMin := 0;
     SimParams.genomeInitialLengthMax := 1;
     SimParams.genomeMaxLength := 1;
     SimParams.maxNumberNeurons := 1;
     SimParams.pointMutationRate := 0%float;
     SimParams.geneInsertionDeletionRate := 0%float;
     SimParams.deletionRatio := 0.5%float;
     SimParams.sexualReproduction := true;
     SimParams.chooseParentsByFitness := false;
     SimParams.responsivenessCurveKFactor := 2%float;
     SimParams.signalLayers := 1%nat;
     SimParams.signalSensorRadius := 2%float;
     SimParams.longProbeDistance := 16%float;
     SimParams.shortProbeBarrierDistance := 4;
     SimParams.killEnable := false;
     SimParams.rngSeed := 1;
     SimParams.populationSensorRadius := 2%float |}.

Definition eastGene : Gene := mkGene SENSOR 0 ACTION 10 32767.

(** The location of cell [k] of a grid 256 cells wide. *)
Definition cellLoc (k : Z) : Coord.t := Coord.mk (k mod 256) (k / 256).

Definition crowdGenome (i : Z) : Genome :=
  if i =? 65535 then [eastGene] else [].

(** Individual [i] as [createIndiv] returns it ([crowdIndiv_created]). *)
Definition crowdIndiv (i : Z) : Indiv.t :=
  {| Indiv.index := i;
     Indiv.alive := true;
     Indiv.loc := cellLoc (i - 1);
     Indiv.birthLoc := cellLoc (i - 1);
     Indiv.lastMoveDir := Compass.CENTER;
     Indiv.genome := crowdGenome i;
     Indiv.nnet := mkNet (map (connOfGene 1) (crowdGenome i))
                         [mkNeuron 0.5%float false];
     Indiv.age := 0;
     Indiv.responsiveness := 0.5%float;
     Indiv.oscPeriod := 34%float;
     Indiv.longProbeDist := 16%float;
     Indiv.challengeBits := 0;
     Indiv.lastDirection := Compass.CENTER |}.

(** [i, i + 1, ..., i + n - 1]. *)
Fixpoint upFrom (i : Z) (n : nat) : list Z :=
  match n with
  | O => []
  | S n' => i :: upFrom (i + 1) n'
  end.

Definition crowdInds : list (option Indiv.t) :=
  None :: ((fun i => Some (crowdIndiv i)) <$> upFrom 1 (Z.to_nat 65536)).

(** Cell [k] holds [k + 1] as 16 bits for the 65536 cells that carry an
    individual; the last row is empty. *)
Definition crowdCells : list Z :=
  (JS.ToUint16 <$> upFrom 1 (Z.to_nat 65536)) ++ replicate (Z.to_nat 256) 0.

Definition crowdGrid : Grid.t := Grid.mk 256 257 crowdCells.

Definition crowd : Simulator.t PRNG.t :=
  Simulator.mk crowdParams crowdGrid (Peeps.mk crowdInds [] [])
    (Signals.create 256 257 1) (PRNG.create 1) 0 0 0.

(** The grid after individual 65535 has moved one cell east. *)
Definition movedGrid : Grid.t :=
  Grid.set (Grid.set crowdGrid (Coord.mk 254 255) 0) (Coord.mk 255 255) 65535.

(** [init]'s loop with the draws handed over: turn [i] is given the genome
    and the location the generator would have drawn for it.  The location
    is one on which the search of [findEmptyLocation] stops, a cell that
    reads empty; [None] says that the draws are not such. *)
Fixpoint placeAll (draws : list (Genome * Coord.t)) (i : Z) (params : SimParams.t)
    (inds : list (option Indiv.t)) (grid : Grid.t)
  : option (list (option Indiv.t) * Grid.t) :=
  match draws with
  | [] => Some (inds, grid)
  | (genome, loc) :: rest =>
      if Grid.isEmptyAt grid loc
      then match createIndiv i genome loc params with
           | Returns indiv =>
               placeAll rest (i + 1) params (inds ++ [Some indiv])
                 (Grid.set grid loc i)
           | _ => None
           end
      else None
  end.

(** The draws that place the crowd: the cells in order. *)
Definition crowdDraws : list (Genome * Coord.t) :=
  (fun i => (crowdGenome i, cellLoc (i - 1))) <$> upFrom 1 (Z.to_nat 65536).

(** What an individual is after a turn in which no action level is beyond
    the threshold: the three settings were assigned from the level 0. *)
Definition quietSelf (indiv : Indiv.t) : Indiv.t :=
  Indiv.set_responsiveness 0.5%float
    (Indiv.set_longProbeDist 1%float (Indiv.set_oscPeriod 2%float indiv)).

Definition zeroLevels : list float := replicate (Z.to_nat NUM_ACTIONS) 0%float.

(** A living individual with no connection and the responsiveness it was
    created with. *)
Definition idle (indiv : Indiv.t) : Prop :=
  Indiv.alive indiv = true /\ connections (Indiv.nnet indiv) = [] /\
  Indiv.responsiveness indiv = 0.5%float.

(** The network of individual 65535 and the action levels it computes from
    the value [v] of LOC_X. *)
Definition eastNet : NeuralNet :=
  mkNet [connOfGene 1 eastGene] [mkNeuron 0.5%float false].

Definition eastLevels (v : float) : list float :=
  map (fun l => Num.fround l)
      (f32add (replicate (Z.to_nat NUM_ACTIONS) 0%float) 10
              (v * geneWeight eastGene)%float).

(** The cell east of an individual. *)
Definition eastward (indiv : Indiv.t) : Coord.t :=
  Coord.mk (Coord.x (Indiv.loc indiv) + 1) (Coord.y (Indiv.loc indiv) + 0).

(** The location [j] steps ahead of [loc] along [fwd]. *)
Definition aheadBy (loc fwd : Coord.t) (j : Z) : Coord.t :=
  Coord.mk (Coord.x loc + j * Coord.x fwd) (Coord.y loc + j * Coord.y fwd).

(* ================================================================== *)
(** * Part II: lemmas and theorems                                     *)
(* ================================================================== *)

(** ** Bit-level facts about the JavaScript operators *)

Lemma ToInt32_range z : - 2 ^ 31 <= JS.ToInt32 z < 2 ^ 31.
Proof. unfold JS.ToInt32. pose proof (Z.mod_pos_bound (z + 2 ^ 31) (2 ^ 32)). lia. Qed.

Lemma ToUint32_range z : 0 <= JS.ToUint32 z < 2 ^ 32.
Proof. unfold JS.ToUint32. apply Z.mod_pos_bound. lia. Qed.

Lemma ToInt32_mod z : JS.ToInt32 z mod 2 ^ 32 = z mod 2 ^ 32.
Proof.
  unfold JS.ToInt32.
  rewrite Zminus_mod, Zmod_mod, <- Zminus_mod.
  f_equal. lia.
Qed.

Lemma testbit_ToUint32 z n :
  0 <= n -> Z.testbit (JS.ToUint32 z) n = (n <? 32) && Z.testbit z n.
Proof.
  intros Hn. unfold JS.ToUint32.
  destruct (Z.ltb_spec n 32).
  - rewrite Z.mod_pow2_bits_low by lia. reflexivity.
  - rewrite Z.mod_pow2_bits_high by lia. reflexivity.
Qed.

Lemma testbit_ToInt32 z n :
  0 <= n < 32 -> Z.testbit (JS.ToInt32 z) n = Z.testbit z n.
Proof.
  intros Hn.
  rewrite <- (Z.mod_pow2_bits_low (JS.ToInt32 z) 32 n) by lia.
  rewrite ToInt32_mod. apply Z.mod_pow2_bits_low. lia.
Qed.

Lemma ToUint32_ToInt32 z : JS.ToUint32 (JS.ToInt32 z) = JS.ToUint32 z.
Proof. apply ToInt32_mod. Qed.

Lemma ToUint32_small z : 0 <= z < 2 ^ 32 -> JS.ToUint32 z = z.
Proof. intros. unfold JS.ToUint32. apply Z.mod_small. lia. Qed.

Lemma ToInt32_small z : - 2 ^ 31 <= z < 2 ^ 31 -> JS.ToInt32 z = z.
Proof. intros. unfold JS.ToInt32. rewrite Z.mod_small; lia. Qed.

Lemma testbit_uint32_high z n :
  0 <= z < 2 ^ 32 -> 32 <= n -> Z.testbit z n = false.
Proof.
  intros Hz Hn. rewrite <- (Z.mod_small z (2 ^ 32)) by lia.
  apply Z.mod_pow2_bits_high. lia.
Qed.

(** Bits of the operators, at the positions a 32-bit word has. *)

Lemma testbit_band a b n :
  0 <= n < 32 -> Z.testbit (JS.band a b) n = Z.testbit a n && Z.testbit b n.
Proof.
  intros Hn. unfold JS.band.
  rewrite Z.land_spec, !testbit_ToInt32 by lia. reflexivity.
Qed.

Lemma testbit_bor a b n :
  0 <= n < 32 -> Z.testbit (JS.bor a b) n = Z.testbit a n || Z.testbit b n.
Proof.
  intros Hn. unfold JS.bor.
  rewrite Z.lor_spec, !testbit_ToInt32 by lia. reflexivity.
Qed.

Lemma testbit_bxor a b n :
  0 <= n < 32 -> Z.testbit (JS.bxor a b) n = xorb (Z.testbit a n) (Z.testbit b n).
Proof.
  intros Hn. unfold JS.bxor.
  rewrite Z.lxor_spec, !testbit_ToInt32 by lia. reflexivity.
Qed.

Lemma testbit_shl a k n :
  0 <= k < 32 -> 0 <= n < 32 ->
  Z.testbit (JS.shl a k) n = (k <=? n) && Z.testbit a (n - k).
Proof.
  intros Hk Hn. unfold JS.shl.
  rewrite Z.mod_small by lia.
  rewrite testbit_ToInt32, Z.shiftl_spec by lia.
  destruct (Z.leb_spec k n).
  - rewrite testbit_ToInt32 by lia. reflexivity.
  - apply Z.testbit_neg_r. lia.
Qed.

Lemma testbit_shru a k n :
  0 <= k < 32 -> 0 <= n ->
  Z.testbit (JS.shru a k) n = (n + k <? 32) && Z.testbit a (n + k).
Proof.
  intros Hk Hn. unfold JS.shru.
  rewrite Z.mod_small by lia.
  rewrite Z.shiftr_spec, testbit_ToUint32 by lia. reflexivity.
Qed.

Lemma shru_range a k : 0 <= k < 32 -> 0 <= JS.shru a k < 2 ^ 32.
Proof.
  intros Hk. unfold JS.shru. rewrite Z.mod_small by lia.
  pose proof (ToUint32_range a) as Hr.
  rewrite Z.shiftr_div_pow2 by lia.
  assert (0 < 2 ^ k) by (apply Z.pow_pos_nonneg; lia).
  split.
  - apply Z.div_pos; lia.
  - apply Z.le_lt_trans with (JS.ToUint32 a); [|lia].
    apply Z.div_le_upper_bound; nia.
Qed.

Lemma shru_0 a : JS.shru a 0 = JS.ToUint32 a.
Proof. unfold JS.shru. apply Z.shiftr_0_r. Qed.

(** Masking with [2^j - 1] keeps the low [j] bits of any integer. *)
Lemma band_ones a j :
  0 <= j < 32 -> JS.band a (Z.ones j) = a mod 2 ^ j.
Proof.
  intros Hj. unfold JS.band.
  assert (Hones : 0 <= Z.ones j < 2 ^ 31).
  { rewrite Z.ones_equiv.
    assert (0 < 2 ^ j <= 2 ^ 31).
    { split; [apply Z.pow_pos_nonneg; lia | apply Z.pow_le_mono_r; lia]. }
    lia. }
  rewrite (ToInt32_small (Z.ones j)) by lia.
  rewrite Z.land_ones by lia.
  apply Z.bits_inj'. intros n Hn.
  rewrite !Z.testbit_mod_pow2 by lia.
  destruct (Z.ltb_spec n j); [|reflexivity].
  cbn. apply testbit_ToInt32. lia.
Qed.

Lemma imul_mod a b : JS.ToUint32 (JS.imul a b) = (a * b) mod 2 ^ 32.
Proof.
  unfold JS.imul. rewrite ToUint32_ToInt32. unfold JS.ToUint32.
  rewrite Zmult_mod, !ToInt32_mod, <- Zmult_mod. reflexivity.
Qed.

Lemma bxor_uint32 a b :
  0 <= a < 2 ^ 32 -> 0 <= b < 2 ^ 32 -> JS.ToUint32 (JS.bxor a b) = Z.lxor a b.
Proof.
  intros Ha Hb. apply Z.bits_inj'. intros n Hn.
  rewrite testbit_ToUint32, Z.lxor_spec by lia.
  destruct (Z.ltb_spec n 32).
  - rewrite testbit_bxor by lia. reflexivity.
  - rewrite (testbit_uint32_high a), (testbit_uint32_high b) by lia. reflexivity.
Qed.

Lemma lxor_uint32_range a b :
  0 <= a < 2 ^ 32 -> 0 <= b < 2 ^ 32 -> 0 <= Z.lxor a b < 2 ^ 32.
Proof.
  intros Ha Hb. rewrite <- bxor_uint32 by lia. apply ToUint32_range.
Qed.

(** ** The gene codec *)

Lemma testbit_1 m : 0 <= m -> Z.testbit 1 m = (m <? 1).
Proof. intros. apply (Z.testbit_ones_nonneg 1); lia. Qed.

Lemma testbit_0x7F m : 0 <= m -> Z.testbit 0x7F m = (m <? 7).
Proof. intros. apply (Z.testbit_ones_nonneg 7); lia. Qed.

Lemma testbit_0xFFFF m : 0 <= m -> Z.testbit 0xFFFF m = (m <? 16).
Proof. intros. apply (Z.testbit_ones_nonneg 16); lia. Qed.

(** Comparisons between integers that linear arithmetic decides. *)
Ltac zbool :=
  repeat match goal with
  | |- context [?a <=? ?b] =>
      first [ rewrite (proj2 (Z.leb_le a b)) by lia
            | rewrite (proj2 (Z.leb_gt a b)) by lia ]
  | |- context [?a <? ?b] =>
      first [ rewrite (proj2 (Z.ltb_lt a b)) by lia
            | rewrite (proj2 (Z.ltb_ge a b)) by lia ]
  end.

Ltac bool_tidy :=
  cbn [andb orb xorb negb];
  rewrite ?andb_true_r, ?andb_false_r, ?orb_false_r, ?orb_false_l,
    ?andb_true_l, ?andb_false_l;
  cbn [andb orb xorb negb].

(** Each bit of a packed gene comes from exactly one field. *)
Lemma testbit_geneToUint32 g n :
  0 <= n < 32 ->
  Z.testbit (geneToUint32 g) n =
    if n <? 16 then Z.testbit (weightAsInt g) n
    else if n <? 23 then Z.testbit (sinkId g) (n - 16)
    else if n <? 24 then Z.testbit (sinkType g) (n - 23)
    else if n <? 31 then Z.testbit (sourceId g) (n - 24)
    else Z.testbit (sourceType g) (n - 31).
Proof.
  intros Hn. unfold geneToUint32.
  rewrite testbit_shru, Z.add_0_r by lia.
  rewrite !testbit_bor by lia.
  rewrite !testbit_shl by lia.
  assert (Hcase : n < 16 \/ 16 <= n < 23 \/ n = 23 \/ 24 <= n < 31 \/ n = 31)
    by lia.
  destruct Hcase as [H | [H | [H | [H | H]]]];
    zbool; bool_tidy;
    rewrite ?testbit_band by lia;
    rewrite ?testbit_0xFFFF, ?testbit_0x7F, ?testbit_1 by lia;
    zbool; bool_tidy; reflexivity.
Qed.

Lemma geneToUint32_range g : 0 <= geneToUint32 g < 2 ^ 32.
Proof. unfold geneToUint32. apply shru_range. lia. Qed.

Lemma testbit_small_high f j n :
  0 <= f < 2 ^ j -> 0 <= j <= n -> Z.testbit f n = false.
Proof.
  intros Hf Hn. rewrite <- (Z.mod_small f (2 ^ j)) by lia.
  apply Z.mod_pow2_bits_high. lia.
Qed.

(** Reading a [j]-bit field at offset [k] of a word. *)
Lemma field_extract W k j f :
  0 <= k < 32 -> 0 <= j < 32 -> k + j <= 32 -> 0 <= f < 2 ^ j ->
  (forall m, 0 <= m < j -> Z.testbit W (m + k) = Z.testbit f m) ->
  JS.band (JS.shru W k) (Z.ones j) = f.
Proof.
  intros Hk Hj Hkj Hf Hbits.
  rewrite band_ones by lia.
  apply Z.bits_inj'. intros n Hn.
  rewrite Z.testbit_mod_pow2 by lia.
  destruct (Z.ltb_spec n j).
  - rewrite testbit_shru by lia. zbool. cbn. apply Hbits. lia.
  - cbn. symmetry. apply (testbit_small_high f j); lia.
Qed.

Lemma low16_of_packed g : JS.band (geneToUint32 g) 0xFFFF = weightAsInt g mod 2 ^ 16.
Proof.
  rewrite (band_ones _ 16) by lia.
  apply Z.bits_inj'. intros n Hn.
  rewrite !Z.testbit_mod_pow2 by lia.
  destruct (Z.ltb_spec n 16); [|reflexivity].
  cbn. rewrite testbit_geneToUint32 by lia. zbool. reflexivity.
Qed.

Lemma uint32ToGene_in_range w : gene_in_range (uint32ToGene w).
Proof.
  unfold gene_in_range, uint32ToGene. cbn.
  rewrite !(band_ones _ 1), !(band_ones _ 7), !(band_ones _ 16) by lia.
  pose proof (Z.mod_pos_bound (JS.shru w 31) (2 ^ 1)).
  pose proof (Z.mod_pos_bound (JS.shru w 24) (2 ^ 7)).
  pose proof (Z.mod_pos_bound (JS.shru w 23) (2 ^ 1)).
  pose proof (Z.mod_pos_bound (JS.shru w 16) (2 ^ 7)).
  pose proof (Z.mod_pos_bound w (2 ^ 16)).
  destruct (Z.gtb_spec (w mod 2 ^ 16) 32767); lia.
Qed.

Lemma pack_unpack w : 0 <= w < 2 ^ 32 -> geneToUint32 (uint32ToGene w) = w.
Proof.
  intros Hw. apply Z.bits_inj'. intros n Hn.
  destruct (Z.ltb_spec n 32) as [Hlt | Hge].
  2:{ rewrite (testbit_uint32_high w), (testbit_uint32_high (geneToUint32 _));
        auto using geneToUint32_range. }
  rewrite testbit_geneToUint32 by lia. unfold uint32ToGene. cbn.
  assert (Hcase : n < 16 \/ 16 <= n < 23 \/ n = 23 \/ 24 <= n < 31 \/ n = 31)
    by lia.
  destruct Hcase as [H | [H | [H | [H | H]]]]; zbool.
  - rewrite (band_ones _ 16) by lia.
    assert (Hlow : forall x, Z.testbit (x mod 2 ^ 16 - 65536) n = Z.testbit x n).
    { intros x. rewrite <- (Z.mod_pow2_bits_low _ 16 n) by lia.
      replace ((x mod 2 ^ 16 - 65536) mod 2 ^ 16) with (x mod 2 ^ 16).
      - apply Z.mod_pow2_bits_low. lia.
      - replace (x mod 2 ^ 16 - 65536) with (x mod 2 ^ 16 + (-1) * 2 ^ 16) by lia.
        rewrite Z.mod_add, Zmod_mod by lia. reflexivity. }
    destruct (w mod 2 ^ 16 >? 32767).
    + apply Hlow.
    + apply Z.mod_pow2_bits_low. lia.
  - rewrite testbit_band, testbit_shru, testbit_0x7F by lia. zbool. bool_tidy.
    f_equal. lia.
  - rewrite testbit_band, testbit_shru, testbit_1 by lia. zbool. bool_tidy.
    f_equal. lia.
  - rewrite testbit_band, testbit_shru, testbit_0x7F by lia. zbool. bool_tidy.
    f_equal. lia.
  - rewrite testbit_band, testbit_shru, testbit_1 by lia. zbool. bool_tidy.
    f_equal. lia.
Qed.

Lemma unpack_pack g : gene_in_range g -> uint32ToGene (geneToUint32 g) = g.
Proof.
  intros (Hst & Hsid & Hkt & Hkid & Hw).
  destruct g as [st sid kt kid wt]. cbn in *.
  unfold uint32ToGene.
  rewrite low16_of_packed. cbn [weightAsInt].
  f_equal.
  - apply (field_extract _ 31 1); try lia. intros m Hm.
    rewrite testbit_geneToUint32 by lia. zbool. cbn. f_equal. lia.
  - apply (field_extract _ 24 7); try lia. intros m Hm.
    rewrite testbit_geneToUint32 by lia. zbool. cbn. f_equal. lia.
  - apply (field_extract _ 23 1); try lia. intros m Hm.
    rewrite testbit_geneToUint32 by lia. zbool. cbn. f_equal. lia.
  - apply (field_extract _ 16 7); try lia. intros m Hm.
    rewrite testbit_geneToUint32 by lia. zbool. cbn. f_equal. lia.
  - destruct (Z.le_gt_cases 0 wt).
    + rewrite Z.mod_small by lia.
      destruct (Z.gtb_spec wt 32767); lia.
    + replace (wt mod 2 ^ 16) with (wt + 65536).
      * destruct (Z.gtb_spec (wt + 65536) 32767); lia.
      * apply Z.mod_unique with (-1); lia.
Qed.

(** C2. The gene codec is a bijection between the 32-bit words and the
    structured genes whose fields are in range: unpacking a word gives an
    in-range gene that packs back to the word, packing an in-range gene
    gives a 32-bit word that unpacks back to the gene, and the low sixteen
    bits are read as a two's complement weight (0xFFFF is -1, 0x8000 is
    -32768, 0x7FFF is 32767). *)
Theorem gene_codec_bijection :
  (forall w, 0 <= w < 2 ^ 32 ->
     gene_in_range (uint32ToGene w) /\ geneToUint32 (uint32ToGene w) = w) /\
  (forall g, gene_in_range g ->
     0 <= geneToUint32 g < 2 ^ 32 /\ uint32ToGene (geneToUint32 g) = g) /\
  weightAsInt (uint32ToGene 0x0000FFFF) = -1 /\
  weightAsInt (uint32ToGene 0x00008000) = -32768 /\
  weightAsInt (uint32ToGene 0x00007FFF) = 32767.
Proof.
  split; [|split; [|repeat split]].
  - intros w Hw. split; [apply uint32ToGene_in_range | apply pack_unpack, Hw].
  - intros g Hg. split; [apply geneToUint32_range | apply unpack_pack, Hg].
Qed.

Lemma gene_codec_bijection_witness :
  geneToUint32 (uint32ToGene 0xFF7FFFFF) = 0xFF7FFFFF /\
  uint32ToGene (geneToUint32 (mkGene 1 0x7F 0 0x7F (-1))) = mkGene 1 0x7F 0 0x7F (-1).
Proof.
  split.
  - apply (proj1 gene_codec_bijection 0xFF7FFFFF). lia.
  - apply (proj1 (proj2 gene_codec_bijection) (mkGene 1 0x7F 0 0x7F (-1))).
    unfold gene_in_range. cbn. lia.
Defined.

(** ** The generator *)

Lemma testbit_mod32 x m :
  Z.testbit (x mod 2 ^ 32) m = (m <? 32) && Z.testbit x m.
Proof. apply Z.testbit_mod_pow2. lia. Qed.

(** The source's [rotl] rotates the 32-bit pattern of its argument. *)
Lemma rotl_rotl32 x k :
  0 < k < 32 -> PRNG.rotl x k = PRNGSpec.rotl32 (x mod 2 ^ 32) k.
Proof.
  intros Hk. unfold PRNG.rotl, PRNGSpec.rotl32.
  apply Z.bits_inj'. intros n Hn.
  rewrite testbit_shru, Z.add_0_r by lia.
  rewrite Z.lor_spec, testbit_mod32, Z.shiftl_spec, Z.shiftr_spec by lia.
  rewrite !testbit_mod32.
  destruct (Z.ltb_spec n 32) as [Hlt | Hge]; bool_tidy.
  - rewrite testbit_bor, testbit_shl, testbit_shru by lia.
    destruct (Z.leb_spec k n).
    + zbool. bool_tidy. reflexivity.
    + rewrite (Z.testbit_neg_r x (n - k)) by lia. zbool. bool_tidy.
      reflexivity.
  - zbool. reflexivity.
Qed.

Lemma rotl32_range x k : 0 <= x < 2 ^ 32 -> 0 < k < 32 -> 0 <= PRNGSpec.rotl32 x k < 2 ^ 32.
Proof.
  intros Hx Hk. rewrite <- (Z.mod_small x (2 ^ 32)) at 1 2 by lia.
  rewrite <- rotl_rotl32 by lia. unfold PRNG.rotl. apply shru_range. lia.
Qed.

Lemma shl_saved s k :
  0 <= k < 32 -> JS.shru (JS.shl s k) 0 = Z.shiftl s k mod 2 ^ 32.
Proof.
  intros Hk. apply Z.bits_inj'. intros n Hn.
  rewrite testbit_shru, Z.add_0_r, testbit_mod32, Z.shiftl_spec by lia.
  destruct (Z.ltb_spec n 32); bool_tidy; [|reflexivity].
  rewrite testbit_shl by lia.
  destruct (Z.leb_spec k n); bool_tidy; [reflexivity|].
  symmetry. apply Z.testbit_neg_r. lia.
Qed.

Lemma create_wf seed : PRNG.wf (PRNG.create seed).
Proof.
  unfold PRNG.create, PRNG.splitmix, PRNG.wf. cbn.
  repeat split; apply shru_range; lia.
Qed.

Lemma nextUint32_wf g : PRNG.wf (snd (PRNG.nextUint32 g)).
Proof.
  unfold PRNG.nextUint32, PRNG.wf. cbn.
  repeat split; apply ToUint32_range.
Qed.

Lemma after_wf n : forall g, PRNG.wf g -> PRNG.wf (PRNG.after n g).
Proof.
  induction n as [|n IH]; intros g Hg; cbn; [exact Hg|].
  apply IH, nextUint32_wf.
Qed.

(** On a well-formed state the call is the arithmetic of xoshiro128**: the
    output from the second word, and the update with the shifted word saved
    before the first assignment. *)
Lemma nextUint32_saved_shift g :
  PRNG.wf g ->
  PRNG.nextUint32 g = (PRNGSpec.output g, PRNGSpec.update_with_saved_shift g).
Proof.
  intros (H0 & H1 & H2 & H3). destruct g as [s0 s1 s2 s3]. cbn in *.
  unfold PRNG.nextUint32, PRNGSpec.output, PRNGSpec.update_with_saved_shift.
  cbn [PRNG.s0 PRNG.s1 PRNG.s2 PRNG.s3].
  assert (Ht : 0 <= Z.shiftl s1 9 mod 2 ^ 32 < 2 ^ 32)
    by (apply Z.mod_pos_bound; lia).
  pose proof (lxor_uint32_range s2 s0 H2 H0) as Ha2.
  pose proof (lxor_uint32_range s3 s1 H3 H1) as Ha3.
  rewrite shl_saved by lia.
  rewrite (bxor_uint32 s2 s0), (bxor_uint32 s3 s1) by lia.
  rewrite (bxor_uint32 s1), (bxor_uint32 s0), (bxor_uint32 (Z.lxor s2 s0)) by lia.
  f_equal.
  - rewrite shru_0, imul_mod, rotl_rotl32 by lia.
    fold (JS.ToUint32 (JS.imul s1 5)). rewrite imul_mod. reflexivity.
  - f_equal.
    rewrite shru_0, ToUint32_small.
    + rewrite ToUint32_small.
      * rewrite rotl_rotl32, Z.mod_small by lia. reflexivity.
      * unfold PRNG.rotl. apply shru_range. lia.
    + apply ToUint32_range.
Qed.

Lemma create_mod seed : PRNG.create (seed mod 2 ^ 32) = PRNG.create seed.
Proof.
  unfold PRNG.create. rewrite !shru_0. unfold JS.ToUint32.
  rewrite Zmod_mod. reflexivity.
Qed.

(** C3, as the specification words it, fails: read one after the other, the
    fifth assignment would shift the second word after it has been
    overwritten by the third assignment; the source shifts the word it saved
    when the call began.  First call after seeding with 1. *)
Lemma nextUint32_not_in_sequence :
  snd (PRNG.nextUint32 (PRNG.create 1)) <> PRNGSpec.update_in_sequence (PRNG.create 1).
Proof. vm_compute. intros H. discriminate H. Qed.

(** C3, amended.  For every seed and every call, the value returned is
    [rotl(s1 * 5, 7) * 9] modulo [2^32] computed from the state before the
    call, and the state is updated by [s2 ^= s0; s3 ^= s1; s1 ^= s2;
    s0 ^= s3; s2 ^= t; s3 = rotl(s3, 11)] where [t] is the second word of
    the state before the call shifted left by nine; generators seeded alike
    (indeed, with seeds equal modulo [2^32]) return the same sequence. *)
Theorem nextUint32_xoshiro :
  (forall seed n,
     let g := PRNG.after n (PRNG.create seed) in
     PRNG.nextUint32 g = (PRNGSpec.output g, PRNGSpec.update_with_saved_shift g)) /\
  (forall seed seed' n,
     seed mod 2 ^ 32 = seed' mod 2 ^ 32 ->
     PRNG.outputs n (PRNG.create seed) = PRNG.outputs n (PRNG.create seed')).
Proof.
  split.
  - intros seed n g. apply nextUint32_saved_shift.
    apply after_wf, create_wf.
  - intros seed seed' n Heq.
    rewrite <- (create_mod seed), <- (create_mod seed'), Heq. reflexivity.
Qed.

Lemma nextUint32_xoshiro_witness :
  PRNG.outputs 3 (PRNG.create 1) = PRNG.outputs 3 (PRNG.create (1 + 2 ^ 32)).
Proof.
  apply (proj2 nextUint32_xoshiro 1 (1 + 2 ^ 32) 3%nat). reflexivity.
Defined.

(** ** Wiring a genome: the pruning loop *)

Section Pruning.

Variable nn : nat.

Lemma elem_in_range {A} (arr : list A) i :
  0 <= i < Z.of_nat (length arr) ->
  exists a, arr !! Z.to_nat i = Some a /\ elem arr i = Returns a.
Proof.
  intros Hi. unfold elem.
  destruct (Z.ltb_spec i 0); [lia|].
  destruct (lookup_lt_is_Some_2 arr (Z.to_nat i)) as [a Ha]; [lia|].
  exists a. rewrite Ha. auto.
Qed.

Lemma markDriven_flags conns : forall ns,
  length ns = nn -> Forall (sinkOk nn) conns ->
  exists ns', markDriven ns conns = Returns ns' /\ length ns' = nn /\
    forall i n, ns !! i = Some n ->
      ns' !! i = Some (mkNeuron (output n) (driven n || isDrivenBy conns i)).
Proof.
  induction conns as [|c conns IH]; intros ns Hlen Hok.
  - exists ns. repeat split; auto.
    intros i [o d] Hi. cbn. rewrite orb_false_r. exact Hi.
  - apply Forall_cons in Hok as [Hc Hrest]. cbn [markDriven].
    destruct (Z.eqb_spec (Conn.sinkType c) NEURON) as [Hty | Hty].
    + destruct (elem_in_range ns (Conn.sinkId c)) as (n0 & Hn0 & He);
        [rewrite Hlen; auto|].
      unfold setDriven. rewrite He. cbn.
      destruct (IH (<[Z.to_nat (Conn.sinkId c) := mkNeuron (output n0) true]> ns))
        as (ns' & Hrun & Hlen' & Hflags); auto.
      { rewrite length_insert. exact Hlen. }
      exists ns'. repeat split; auto.
      intros i n Hi.
      destruct (decide (i = Z.to_nat (Conn.sinkId c))) as [-> | Hne].
      * rewrite (Hflags _ (mkNeuron (output n0) true)).
        2:{ apply list_lookup_insert_eq. eapply lookup_lt_Some, Hn0. }
        assert (n = n0) by congruence. subst n0.
        cbn. rewrite Hty. cbn.
        rewrite Z2Nat.id, Z.eqb_refl by (specialize (Hc Hty); lia).
        cbn. rewrite orb_true_r. reflexivity.
      * rewrite (Hflags _ n).
        2:{ rewrite list_lookup_insert_ne; auto. }
        cbn. rewrite Hty. cbn.
        destruct (Z.eqb_spec (Conn.sinkId c) (Z.of_nat i)) as [Heq | _];
          [exfalso; apply Hne; lia | reflexivity].
    + destruct (IH ns) as (ns' & Hrun & Hlen' & Hflags); auto.
      exists ns'. repeat split; auto.
      intros i n Hi. rewrite (Hflags _ _ Hi). cbn.
      rewrite (proj2 (Z.eqb_neq _ _) Hty). reflexivity.
Qed.

(** A pass removes exactly the connections that fail [keepConn], whatever
    the order in which it meets them, and reports whether it removed one. *)
Lemma prunePass_filter ns : forall k pre post changed,
  length ns = nn -> length pre = k -> Forall (sourceOk nn) pre ->
  prunePass k ns (pre ++ post) changed =
    Returns (List.filter (keepConn ns) pre ++ post,
             changed || negb (forallb (keepConn ns) pre)).
Proof.
  induction k as [|k IH]; intros pre post changed Hns Hlen Hok.
  - destruct pre; [|discriminate]. cbn. rewrite orb_false_r. reflexivity.
  - destruct pre as [|c pre' _] using rev_ind; [discriminate|].
    rewrite length_app in Hlen. cbn in Hlen.
    assert (Hk : length pre' = k) by lia. subst k.
    apply Forall_app in Hok as [Hok' Hc].
    apply Forall_cons in Hc as [Hc0 _].
    cbn [prunePass]. unfold elem.
    destruct (Z.ltb_spec (Z.of_nat (length pre')) 0); [lia|].
    rewrite Nat2Z.id, <- app_assoc. cbn [app].
    rewrite list_lookup_middle by reflexivity. cbn.
    rewrite List.filter_app, forallb_app. cbn [List.filter forallb].
    unfold keepConn at 2 4.
    destruct (Z.eqb_spec (Conn.sourceType c) NEURON) as [Hty | Hty]; cbn [negb orb].
    + destruct (elem_in_range ns (Conn.sourceId c)) as (n0 & Hn0 & He);
        [rewrite Hns; auto|].
      unfold elem in He. rewrite He. cbn. rewrite Hn0.
      destruct (driven n0); cbn [negb].
      * rewrite IH by auto. rewrite andb_true_r, <- app_assoc. reflexivity.
      * rewrite delete_middle, IH by auto.
        rewrite andb_false_r, app_nil_r. cbn. rewrite orb_true_r. reflexivity.
    + rewrite IH by auto. rewrite andb_true_r, <- app_assoc. reflexivity.
Qed.

Lemma filter_sublist {A} (f : A -> bool) l : List.filter f l `sublist_of` l.
Proof.
  induction l as [|x l IH]; cbn; [constructor|].
  destruct (f x); constructor; exact IH.
Qed.

Lemma filter_all {A} (f : A -> bool) l : forallb f l = true -> List.filter f l = l.
Proof.
  induction l as [|x l IH]; cbn; [reflexivity|].
  intros [Hx Hl]%andb_true_iff. rewrite Hx, IH; auto.
Qed.

Lemma filter_shrinks {A} (f : A -> bool) l :
  forallb f l = false -> (length (List.filter f l) < length l)%nat.
Proof.
  induction l as [|x l IH]; cbn; [discriminate|].
  destruct (f x) eqn:Hx; cbn.
  - intros H. specialize (IH H). lia.
  - intros _. pose proof (sublist_length _ _ (filter_sublist f l)). lia.
Qed.

Lemma Forall_filter_bool {A} (P : A -> Prop) (f : A -> bool) l :
  Forall P l -> Forall P (List.filter f l).
Proof.
  induction 1 as [|x l Hx Hl IH]; cbn; [constructor|].
  destruct (f x); [constructor|]; auto.
Qed.

Lemma isDrivenBy_witness conns i :
  isDrivenBy conns i = true ->
  exists c, c ∈ conns /\ Conn.sinkType c = NEURON /\ Conn.sinkId c = Z.of_nat i.
Proof.
  unfold isDrivenBy. intros (c & Hin & Hc)%existsb_exists.
  apply andb_true_iff in Hc as [H1 H2].
  exists c. repeat split; [apply list_elem_of_In, Hin | lia | lia].
Qed.

(** The loop, entered with the flags computed from the connections, ends
    within its allowance at a network that a further pass leaves alone. *)
Lemma pruneLoop_fixed_point : forall fuel conns ns,
  (length conns < fuel)%nat -> length ns = nn ->
  Forall (sourceOk nn) conns -> Forall (sinkOk nn) conns ->
  (forall i n, ns !! i = Some n -> driven n = isDrivenBy conns i) ->
  exists net, pruneLoop fuel ns conns = Returns net /\
    noUndrivenSource net /\ drivenHasInput net /\
    connections net `sublist_of` conns /\ length (neurons net) = nn /\
    forallb (keepConn (neurons net)) (connections net) = true.
Proof.
  induction fuel as [|fuel IH]; intros conns ns Hfuel Hns Hsrc Hsnk Hinv; [lia|].
  cbn [pruneLoop].
  pose proof (prunePass_filter ns (length conns) conns [] false Hns eq_refl Hsrc)
    as Hpass.
  rewrite !app_nil_r in Hpass. rewrite Hpass. cbn.
  set (pruned := List.filter (keepConn ns) conns).
  destruct (markDriven_flags pruned (clearDriven ns)) as (ns' & Hrun & Hlen' & Hflags).
  { unfold clearDriven. rewrite length_map. exact Hns. }
  { apply Forall_filter_bool, Hsnk. }
  rewrite Hrun. cbn.
  assert (Hflags' : forall i n, ns' !! i = Some n -> driven n = isDrivenBy pruned i).
  { intros i n Hi.
    assert (Hlt : (i < length ns)%nat)
      by (apply lookup_lt_Some in Hi; lia).
    destruct (lookup_lt_is_Some_2 ns i Hlt) as [n0 Hn0].
    specialize (Hflags i (mkNeuron (output n0) false)).
    unfold clearDriven in Hflags. rewrite list_lookup_fmap, Hn0 in Hflags.
    specialize (Hflags eq_refl). rewrite Hi in Hflags.
    injection Hflags as ->. reflexivity. }
  destruct (forallb (keepConn ns) conns) eqn:Hall; cbn.
  - assert (Hp : pruned = conns) by (apply filter_all, Hall).
    rewrite Hp in *. clear pruned Hp.
    assert (Hsame : forall c, keepConn ns' c = keepConn ns c).
    { intros c. unfold keepConn. f_equal.
      destruct (ns !! Z.to_nat (Conn.sourceId c)) as [n0|] eqn:Hn0.
      - assert (Hlt : (Z.to_nat (Conn.sourceId c) < length ns')%nat)
          by (apply lookup_lt_Some in Hn0; lia).
        destruct (lookup_lt_is_Some_2 ns' _ Hlt) as [n1 Hn1].
        rewrite Hn1, (Hflags' _ _ Hn1), (Hinv _ _ Hn0). reflexivity.
      - apply lookup_ge_None in Hn0.
        rewrite (lookup_ge_None_2 ns') by lia. reflexivity. }
    exists (mkNet conns ns'). cbn. repeat split; auto.
    + intros c Hin Hty. cbn in *.
      rewrite forallb_forall in Hall.
      specialize (Hall c (proj1 (list_elem_of_In _ _) Hin)).
      rewrite <- Hsame in Hall. unfold keepConn in Hall.
      rewrite Hty in Hall. cbn in Hall.
      destruct (ns' !! Z.to_nat (Conn.sourceId c)) as [n1|]; [|discriminate].
      exists n1. auto.
    + intros i n Hi Hd. cbn in *.
      apply isDrivenBy_witness. rewrite <- (Hflags' _ _ Hi). exact Hd.
    + apply forallb_forall. intros c Hin. rewrite Hsame.
      apply (proj1 (forallb_forall _ _) Hall c Hin).
  - destruct (IH pruned ns') as (net & Hnet & H1 & H2 & H3 & H4 & H5); auto.
    + pose proof (filter_shrinks _ _ Hall). unfold pruned. lia.
    + apply Forall_filter_bool, Hsrc.
    + apply Forall_filter_bool, Hsnk.
    + exists net. repeat split; auto.
      etransitivity; [exact H3 | apply filter_sublist].
Qed.

End Pruning.

Lemma gene_in_range_ids_nonneg g : gene_in_range g -> gene_ids_nonneg g.
Proof. unfold gene_in_range, gene_ids_nonneg. lia. Qed.

Lemma connOfGene_ok n g :
  1 <= n -> gene_ids_nonneg g ->
  sourceOk (Z.to_nat n) (connOfGene n g) /\ sinkOk (Z.to_nat n) (connOfGene n g).
Proof.
  intros Hn [Hsrc Hsnk]. unfold sourceOk, sinkOk, connOfGene. cbn.
  rewrite Z2Nat.id by lia. split; intros Hty; rewrite Hty; cbn.
  - apply Z.rem_bound_pos; lia.
  - apply Z.rem_bound_pos; lia.
Qed.

(** [buildNeuralNet] returns, and what it returns is pruned to a fixed
    point. *)
Lemma buildNeuralNet_prunes genome n :
  1 <= n -> Forall gene_ids_nonneg genome ->
  exists net, buildNeuralNet genome n = Returns net /\
    noUndrivenSource net /\ drivenHasInput net /\
    connections net `sublist_of` map (connOfGene n) genome /\
    length (neurons net) = Z.to_nat n /\
    forallb (keepConn (neurons net)) (connections net) = true.
Proof.
  intros Hn Hgenome. unfold buildNeuralNet.
  set (conns := map (connOfGene n) genome).
  assert (Hsrc : Forall (sourceOk (Z.to_nat n)) conns).
  { unfold conns. apply Forall_fmap. eapply Forall_impl; [exact Hgenome|].
    intros g Hg. apply connOfGene_ok; auto. }
  assert (Hsnk : Forall (sinkOk (Z.to_nat n)) conns).
  { unfold conns. apply Forall_fmap. eapply Forall_impl; [exact Hgenome|].
    intros g Hg. apply connOfGene_ok; auto. }
  destruct (markDriven_flags (Z.to_nat n) conns
              (replicate (Z.to_nat n) (mkNeuron 0.5%float false)))
    as (ns & Hrun & Hlen & Hflags); auto using length_replicate.
  rewrite Hrun.
  apply (pruneLoop_fixed_point (Z.to_nat n) (S (length genome)) conns ns); auto.
  - unfold conns. rewrite length_map. lia.
  - intros i m Hi.
    assert (Hlt : (i < Z.to_nat n)%nat) by (apply lookup_lt_Some in Hi; lia).
    rewrite (Hflags i (mkNeuron 0.5%float false)) in Hi
      by (apply lookup_replicate_2; exact Hlt).
    injection Hi as <-. reflexivity.
Qed.

(** C4. For every genome (identifiers non-negative, as every in-range gene
    has them) and every number of internal neurons that is at least one,
    [buildNeuralNet] returns a network in which no connection has an
    undriven internal neuron as its source, every neuron marked driven has
    an inbound connection among the connections that remain, the surviving
    connections are the genome's in their original order, and one more
    pruning pass would remove nothing. *)
Theorem buildNeuralNet_fixed_point genome n :
  1 <= n -> Forall gene_ids_nonneg genome ->
  exists net, buildNeuralNet genome n = Returns net /\
    noUndrivenSource net /\ drivenHasInput net /\
    connections net `sublist_of` map (connOfGene n) genome /\
    length (neurons net) = Z.to_nat n /\
    forallb (keepConn (neurons net)) (connections net) = true.
Proof. apply buildNeuralNet_prunes. Qed.

Lemma buildNeuralNet_fixed_point_witness :
  exists net,
    buildNeuralNet
      [mkGene 1 0 0 1 5; mkGene 0 1 0 2 5; mkGene 0 2 1 0 5; mkGene 0 0 1 3 8192] 3
    = Returns net /\
    noUndrivenSource net /\ drivenHasInput net /\
    connections net `sublist_of`
      map (connOfGene 3)
        [mkGene 1 0 0 1 5; mkGene 0 1 0 2 5; mkGene 0 2 1 0 5; mkGene 0 0 1 3 8192] /\
    length (neurons net) = Z.to_nat 3 /\
    forallb (keepConn (neurons net)) (connections net) = true.
Proof.
  apply buildNeuralNet_fixed_point.
  - lia.
  - repeat constructor; cbn; lia.
Defined.

(** ** The genetic operators and the random source *)

Section Counting.
Context {R : Type} `{RandomSource R}.

Lemma draw_counted (c : Counted R) :
  drawUint32 c =
    (fst (drawUint32 (source c)),
     counted (snd (drawUint32 (source c))) (S (draws c))).
Proof.
  unfold drawUint32 at 1, Counted_source.
  destruct (drawUint32 (source c)); reflexivity.
Qed.

Lemma next_counted (c : Counted R) :
  Rng.next c =
    (fst (Rng.next (source c)), counted (snd (Rng.next (source c))) (S (draws c))).
Proof.
  unfold Rng.next. rewrite draw_counted.
  destruct (drawUint32 (source c)); reflexivity.
Qed.

Lemma chance_counted p (c : Counted R) :
  Rng.chance p c =
    (fst (Rng.chance p (source c)),
     counted (snd (Rng.chance p (source c))) (S (draws c))).
Proof.
  unfold Rng.chance. rewrite next_counted.
  destruct (Rng.next (source c)); reflexivity.
Qed.

Lemma nextInt_counted m (c : Counted R) :
  Rng.nextInt m c =
    (fst (Rng.nextInt m (source c)),
     counted (snd (Rng.nextInt m (source c))) (S (draws c))).
Proof.
  unfold Rng.nextInt. rewrite draw_counted.
  destruct (drawUint32 (source c)); reflexivity.
Qed.

Lemma makeRandomGene_counted (c : Counted R) :
  makeRandomGene c =
    (fst (makeRandomGene (source c)),
     counted (snd (makeRandomGene (source c))) (S (draws c))).
Proof.
  unfold makeRandomGene. rewrite next_counted.
  destruct (Rng.next (source c)); reflexivity.
Qed.

(** Counting the draws changes neither the genome returned nor the
    generator underneath. *)
Lemma applyInsertionDeletion_counted genome (c : Counted R) rate dr maxLength :
  fst (applyInsertionDeletion genome c rate dr maxLength) =
    fst (applyInsertionDeletion genome (source c) rate dr maxLength) /\
  source (snd (applyInsertionDeletion genome c rate dr maxLength)) =
    snd (applyInsertionDeletion genome (source c) rate dr maxLength).
Proof.
  unfold applyInsertionDeletion.
  destruct (length genome =? 0)%nat; [auto|].
  rewrite chance_counted. cbn [fst snd source].
  destruct (Rng.chance rate (source c)) as [[|] r1]; cbn [fst snd source]; [|auto].
  rewrite chance_counted. cbn [fst snd source].
  destruct (Rng.chance dr r1) as [[|] r2]; cbn [fst snd source].
  - destruct (1 <? Z.of_nat (length genome)); [|auto].
    rewrite nextInt_counted. cbn [fst snd source].
    destruct (Rng.nextInt _ r2); auto.
  - destruct (Z.of_nat (length genome) <? maxLength); [|auto].
    rewrite nextInt_counted. cbn [fst snd source].
    destruct (Rng.nextInt _ r2) as [idx r3]. cbn [fst snd source].
    rewrite makeRandomGene_counted. cbn [fst snd source].
    destruct (makeRandomGene r3); auto.
Qed.

Lemma applyInsertionDeletion_draw_count genome (c : Counted R) rate dr maxLength :
  genome <> [] ->
  (draws c < draws (snd (applyInsertionDeletion genome c rate dr maxLength))
   <= draws c + 4)%nat.
Proof.
  intros Hne. unfold applyInsertionDeletion.
  destruct genome as [|g genome]; [contradiction|].
  cbn [length Nat.eqb].
  rewrite chance_counted. cbn [fst snd source draws].
  destruct (Rng.chance rate (source c)) as [[|] r1];
    cbn [fst snd source draws]; [|lia].
  rewrite chance_counted. cbn [fst snd source draws].
  destruct (Rng.chance dr r1) as [[|] r2]; cbn [fst snd source draws].
  - destruct (1 <? _); cbn [fst snd source draws]; [|lia].
    rewrite nextInt_counted. cbn [fst snd source draws]. lia.
  - destruct (_ <? maxLength); cbn [fst snd source draws]; [|lia].
    rewrite nextInt_counted. cbn [fst snd source draws].
    rewrite makeRandomGene_counted. cbn [fst snd source draws]. lia.
Qed.

End Counting.

(** C10. Applied to an empty genome, [applyInsertionDeletion] returns it
    unchanged and leaves the generator as it was, whatever the rate, the
    deletion ratio and the maximum length; applied to a non-empty genome it
    draws at least one (and at most four) random values.  The draws are
    counted by [Counted_source], which changes neither the result nor the
    generator underneath. *)
Theorem applyInsertionDeletion_empty_frame :
  (forall (R : Type) (src : RandomSource R) (r : R) rate dr maxLength,
     applyInsertionDeletion [] r rate dr maxLength = ([], r)) /\
  (forall (R : Type) (src : RandomSource R) genome (c : Counted R) rate dr maxLength,
     genome <> [] ->
     (draws c < draws (snd (applyInsertionDeletion genome c rate dr maxLength))
      <= draws c + 4)%nat /\
     fst (applyInsertionDeletion genome c rate dr maxLength) =
       fst (applyInsertionDeletion genome (source c) rate dr maxLength) /\
     source (snd (applyInsertionDeletion genome c rate dr maxLength)) =
       snd (applyInsertionDeletion genome (source c) rate dr maxLength)).
Proof.
  split.
  - intros. reflexivity.
  - intros R src genome c rate dr maxLength Hne. split.
    + apply applyInsertionDeletion_draw_count, Hne.
    + apply applyInsertionDeletion_counted.
Qed.

Lemma applyInsertionDeletion_empty_frame_witness :
  (0 < draws (snd (applyInsertionDeletion [uint32ToGene 1]
                     (counted (PRNG.create 1) 0) 0.5%float 0.5%float 300))
   <= 0 + 4)%nat.
Proof.
  apply (proj1 (proj2 applyInsertionDeletion_empty_frame PRNG.t PRNG_source
                  [uint32ToGene 1] (counted (PRNG.create 1) 0)
                  0.5%float 0.5%float 300 ltac:(discriminate))).
Defined.

(** ** The spawner and the maximum genome length *)

(** C6 fails on the source.  Two survivors with two genes each, the maximum
    allowed; sexual reproduction; no mutation; generator seeded with 1.
    The first child takes both genes of one parent and the last gene of the
    other: three genes. *)
Theorem spawnNewGeneration_exceeds_genomeMaxLength :
  SimParams.genomeMaxLength twoGeneParams = 2 /\
  (survivors ← twoGeneSurvivors;
   Returns (map (fun s => length (Indiv.genome s)) survivors))
    = Returns [2; 2]%nat /\
  (survivors ← twoGeneSurvivors;
   spawned ← spawnNewGeneration survivors twoGeneParams (PRNG.create 1);
   Returns (map length (fst spawned)))
    = Returns [3; 3; 2; 1]%nat.
Proof. repeat split; vm_compute; reflexivity. Qed.

(** ** The signal layers *)

Lemma squareOffsets_elem k dx dy :
  (dx, dy) ∈ squareOffsets k <-> (- k <= dx <= k /\ - k <= dy <= k).
Proof.
  unfold squareOffsets. rewrite list_elem_of_bind. split.
  - intros (a & Hin & Ha). apply list_elem_of_bind in Hin as (b & Hin & Hb).
    apply list_elem_of_singleton in Hin. injection Hin as -> ->.
    apply elem_of_seqZ in Ha, Hb. lia.
  - intros [Hx Hy]. exists dx. split; [|apply elem_of_seqZ; lia].
    apply list_elem_of_bind. exists dy. split; [|apply elem_of_seqZ; lia].
    apply list_elem_of_singleton. reflexivity.
Qed.

Lemma squareOffsets_NoDup k : NoDup (squareOffsets k).
Proof.
  unfold squareOffsets. apply NoDup_bind; [| |apply NoDup_seqZ].
  - intros a1 a2 [dx dy] _ _ H1 H2.
    apply list_elem_of_bind in H1 as (b1 & H1 & _).
    apply list_elem_of_bind in H2 as (b2 & H2 & _).
    apply list_elem_of_singleton in H1, H2. congruence.
  - intros a _. apply NoDup_bind; [| |apply NoDup_seqZ].
    + intros b1 b2 [dx dy] _ _ H1 H2.
      apply list_elem_of_singleton in H1, H2. congruence.
    + intros b _. apply NoDup_singleton.
Qed.

Lemma ToUint8_range v : 0 <= JS.ToUint8 v <= 255.
Proof. unfold JS.ToUint8. pose proof (Z.mod_pos_bound v (2 ^ 8)). lia. Qed.

Lemma ToUint8_small v : 0 <= v <= 255 -> JS.ToUint8 v = v.
Proof. intros. unfold JS.ToUint8. apply Z.mod_small. lia. Qed.

Lemma bump_range old amount : 0 <= Signals.bump old amount <= 255.
Proof.
  unfold Signals.bump, Signals.toUint8.
  destruct (is_finite _); [apply ToUint8_range | lia].
Qed.

(** Saturating addition, checked on every byte and every whole amount. *)
Lemma bump_saturates old a :
  0 <= old <= 255 -> 1 <= a <= 255 ->
  Signals.bump old (Num.ofZ a) = Z.min 255 (old + a).
Proof.
  intros Hold Ha.
  assert (Hall : forallb (fun o => forallb (fun b =>
                    Signals.bump o (Num.ofZ b) =? Z.min 255 (o + b))
                    (seqZ 1 255)) (seqZ 0 256) = true)
    by (vm_compute; reflexivity).
  rewrite forallb_forall in Hall.
  specialize (Hall old). rewrite forallb_forall in Hall.
  apply Z.eqb_eq, Hall; apply list_elem_of_In, elem_of_seqZ; lia.
Qed.

(** The three amounts of the radius the source emits with. *)
Lemma emitAmount_radius_1_5 dx dy :
  -1 <= dx <= 1 -> -1 <= dy <= 1 ->
  Signals.emitAmount 1.5 dx dy =
    Num.ofZ (if (dx =? 0) && (dy =? 0) then 255
             else if (dx =? 0) || (dy =? 0) then 153 else 111).
Proof.
  intros Hx Hy.
  assert (Hd : dx = -1 \/ dx = 0 \/ dx = 1) by lia.
  assert (He : dy = -1 \/ dy = 0 \/ dy = 1) by lia.
  destruct Hd as [-> | [-> | ->]], He as [-> | [-> | ->]];
    vm_compute; reflexivity.
Qed.

Lemma fadeCell_spec v : 0 <= v <= 255 -> Signals.fadeCell v = Z.max 0 (v - 1).
Proof.
  intros Hv. unfold Signals.fadeCell.
  destruct (Z.ltb_spec 0 v).
  - apply ToUint8_small. lia.
  - lia.
Qed.

Section SignalCells.

Lemma create_wf_signals sx sy n :
  0 <= sx -> 0 <= sy -> Signals.wf (Signals.create sx sy n).
Proof.
  intros Hx Hy. unfold Signals.wf, Signals.create. cbn.
  repeat split; auto using length_replicate.
  apply Forall_replicate, length_replicate.
Qed.

Lemma create_bounded sx sy n : Signals.bounded (Signals.create sx sy n).
Proof.
  unfold Signals.bounded, Signals.create. cbn.
  apply Forall_replicate, Forall_replicate. lia.
Qed.

(** An in-bounds cell of a layer that exists is in the array. *)
Lemma cell_in_bounds s l loc :
  Signals.wf s -> Signals.isInBounds s loc = true ->
  (l < Signals.numLayers s)%nat ->
  exists v, Signals.cell s l (Signals.idx s (Coord.x loc) (Coord.y loc)) = Some v.
Proof.
  intros (Hx & Hy & Hn & Hlen) Hb Hl.
  unfold Signals.isInBounds in Hb.
  apply andb_true_iff in Hb as [Hb Hb4].
  apply andb_true_iff in Hb as [Hb Hb3].
  apply andb_true_iff in Hb as [Hb1 Hb2].
  unfold Signals.cell, Signals.idx.
  destruct (Z.ltb_spec (Coord.y loc * Signals.sizeX s + Coord.x loc) 0); [nia|].
  destruct (lookup_lt_is_Some_2 (Signals.layers s) l) as [layer Hlayer]; [lia|].
  rewrite Hlayer. cbn.
  apply lookup_lt_is_Some_2.
  rewrite (Forall_lookup_1 _ _ _ _ Hlen Hlayer). nia.
Qed.

Lemma idx_inj s loc loc' :
  Signals.isInBounds s loc = true -> Signals.isInBounds s loc' = true ->
  Signals.idx s (Coord.x loc) (Coord.y loc) =
    Signals.idx s (Coord.x loc') (Coord.y loc') ->
  loc = loc'.
Proof.
  unfold Signals.isInBounds, Signals.idx. intros Hb Hb' Heq.
  apply andb_true_iff in Hb as [Hb Hb4].
  apply andb_true_iff in Hb as [Hb Hb3].
  apply andb_true_iff in Hb as [Hb1 Hb2].
  apply andb_true_iff in Hb' as [Hb' Hb4'].
  apply andb_true_iff in Hb' as [Hb' Hb3'].
  apply andb_true_iff in Hb' as [Hb1' Hb2'].
  destruct loc as [x y], loc' as [x' y']. cbn in *.
  assert (y = y') by nia. subst y'.
  f_equal. lia.
Qed.

Lemma cell_store s l i v l' j :
  0 <= i -> 0 <= j ->
  Signals.cell (Signals.store s l i v) l' j =
    if decide (l = l' /\ i = j)
    then (fun _ => JS.ToUint8 v) <$> Signals.cell s l' j
    else Signals.cell s l' j.
Proof.
  intros Hi Hj. unfold Signals.cell, Signals.store.
  destruct (Z.ltb_spec i 0); [lia|]. destruct (Z.ltb_spec j 0); [lia|]. cbn.
  destruct (decide (l = l')) as [<- | Hne].
  - rewrite list_lookup_alter_eq.
    destruct (Signals.layers s !! l) as [layer|]; cbn.
    + destruct (decide (i = j)) as [<- | Hne].
      * rewrite decide_True by auto.
        rewrite list_lookup_insert. case_decide as Hd.
        -- destruct Hd as [_ Hlt].
           destruct (lookup_lt_is_Some_2 layer (Z.to_nat i) Hlt) as [w ->].
           reflexivity.
        -- rewrite lookup_ge_None_2 by lia. reflexivity.
      * rewrite decide_False by tauto.
        rewrite list_lookup_insert_ne by lia. reflexivity.
    + case_decide; reflexivity.
  - rewrite decide_False by tauto.
    rewrite list_lookup_alter_ne by auto. reflexivity.
Qed.

Lemma store_frame s l i v :
  Signals.sizeX (Signals.store s l i v) = Signals.sizeX s /\
  Signals.sizeY (Signals.store s l i v) = Signals.sizeY s /\
  Signals.numLayers (Signals.store s l i v) = Signals.numLayers s.
Proof. unfold Signals.store. destruct (i <? 0); auto. Qed.

Lemma store_wf s l i v : Signals.wf s -> Signals.wf (Signals.store s l i v).
Proof.
  intros (Hx & Hy & Hn & Hlen). unfold Signals.store.
  destruct (i <? 0); [repeat split; auto|].
  unfold Signals.wf. cbn. repeat split; auto.
  - rewrite length_alter. exact Hn.
  - apply Forall_alter; [exact Hlen|].
    intros layer _ Hl. rewrite length_insert. exact Hl.
Qed.

Lemma store_bounded s l i v :
  Signals.bounded s -> Signals.bounded (Signals.store s l i v).
Proof.
  intros Hb. unfold Signals.store, Signals.bounded.
  destruct (i <? 0); [exact Hb|]. cbn.
  apply Forall_alter; [exact Hb|].
  intros layer _ Hl. apply Forall_insert; [exact Hl | apply ToUint8_range].
Qed.

Lemma increment_frame s l loc a :
  Signals.sizeX (Signals.increment s l loc a) = Signals.sizeX s /\
  Signals.sizeY (Signals.increment s l loc a) = Signals.sizeY s /\
  Signals.numLayers (Signals.increment s l loc a) = Signals.numLayers s.
Proof.
  unfold Signals.increment.
  destruct (_ || _); [auto|].
  destruct (Signals.cell _ _ _); [apply store_frame | auto].
Qed.

Lemma increment_wf s l loc a :
  Signals.wf s -> Signals.wf (Signals.increment s l loc a).
Proof.
  intros Hwf. unfold Signals.increment.
  destruct (_ || _); [auto|].
  destruct (Signals.cell _ _ _); [apply store_wf|]; auto.
Qed.

Lemma increment_bounded s l loc a :
  Signals.bounded s -> Signals.bounded (Signals.increment s l loc a).
Proof.
  intros Hb. unfold Signals.increment.
  destruct (_ || _); [auto|].
  destruct (Signals.cell _ _ _); [apply store_bounded|]; auto.
Qed.

Lemma isInBounds_frame s s' loc :
  Signals.sizeX s' = Signals.sizeX s -> Signals.sizeY s' = Signals.sizeY s ->
  Signals.isInBounds s' loc = Signals.isInBounds s loc.
Proof. unfold Signals.isInBounds. intros -> ->. reflexivity. Qed.

Lemma idx_frame s s' x y :
  Signals.sizeX s' = Signals.sizeX s -> Signals.idx s' x y = Signals.idx s x y.
Proof. unfold Signals.idx. intros ->. reflexivity. Qed.

(** The cell incremented holds the clamped sum. *)
Lemma get_increment_same s l loc a :
  Signals.wf s -> Signals.isInBounds s loc = true ->
  (l < Signals.numLayers s)%nat ->
  Signals.get (Signals.increment s l loc a) l loc =
    Signals.bump (Signals.get s l loc) a.
Proof.
  intros Hwf Hb Hl.
  destruct (cell_in_bounds s l loc Hwf Hb Hl) as [old Hold].
  unfold Signals.get.
  destruct (increment_frame s l loc a) as (Hsx & Hsy & Hnl).
  rewrite (isInBounds_frame s _ loc Hsx Hsy), Hnl, Hb.
  replace (Signals.numLayers s <=? l)%nat with false
    by (symmetry; apply Nat.leb_gt; lia).
  cbn [negb orb].
  unfold Signals.increment. rewrite Hb.
  replace (Signals.numLayers s <=? l)%nat with false
    by (symmetry; apply Nat.leb_gt; lia).
  cbn [negb orb]. rewrite Hold.
  assert (Hi : 0 <= Signals.idx s (Coord.x loc) (Coord.y loc)).
  { unfold Signals.cell in Hold.
    destruct (Z.ltb_spec (Signals.idx s (Coord.x loc) (Coord.y loc)) 0);
      [discriminate | lia]. }
  rewrite (idx_frame s (Signals.store s l _ _))
    by apply store_frame.
  rewrite cell_store by lia. rewrite decide_True by auto.
  rewrite Hold. cbn. apply ToUint8_small, bump_range.
Qed.

(** Every other cell, and every cell of the other layers, is untouched. *)
Lemma get_increment_other s l loc a l' loc' :
  Signals.wf s -> (l <> l' \/ loc <> loc') ->
  Signals.get (Signals.increment s l loc a) l' loc' = Signals.get s l' loc'.
Proof.
  intros Hwf Hne.
  unfold Signals.get.
  destruct (increment_frame s l loc a) as (Hsx & Hsy & Hnl).
  rewrite (isInBounds_frame s _ loc' Hsx Hsy), Hnl.
  destruct (Signals.isInBounds s loc') eqn:Hb'; [|reflexivity].
  destruct (Signals.numLayers s <=? l')%nat eqn:Hl'; [reflexivity|].
  cbn [negb orb]. f_equal.
  unfold Signals.increment.
  destruct (Signals.isInBounds s loc) eqn:Hb; [|reflexivity].
  destruct (Signals.numLayers s <=? l)%nat eqn:Hl; [reflexivity|].
  cbn [negb orb].
  destruct (Signals.cell s l _) as [old|] eqn:Hold; [|reflexivity].
  assert (Hi : 0 <= Signals.idx s (Coord.x loc) (Coord.y loc)).
  { unfold Signals.cell in Hold.
    destruct (Z.ltb_spec (Signals.idx s (Coord.x loc) (Coord.y loc)) 0);
      [discriminate | lia]. }
  apply Nat.leb_gt in Hl'.
  destruct (cell_in_bounds s l' loc' Hwf Hb' Hl') as [old' Hold'].
  assert (Hi' : 0 <= Signals.idx s (Coord.x loc') (Coord.y loc')).
  { unfold Signals.cell in Hold'.
    destruct (Z.ltb_spec (Signals.idx s (Coord.x loc') (Coord.y loc')) 0);
      [discriminate | lia]. }
  rewrite (idx_frame s (Signals.store s l _ _))
    by apply store_frame.
  rewrite cell_store by lia.
  rewrite decide_False; [reflexivity|].
  intros [-> Heq]. destruct Hne as [Hne | Hne]; [congruence|].
  apply Hne. eapply idx_inj; eauto.
Qed.

End SignalCells.

Section SignalEmit.

Variables (l : nat) (c : Coord.t) (r : float).

Lemma emitAt_frame s d :
  Signals.sizeX (Signals.emitAt l c r s d) = Signals.sizeX s /\
  Signals.sizeY (Signals.emitAt l c r s d) = Signals.sizeY s /\
  Signals.numLayers (Signals.emitAt l c r s d) = Signals.numLayers s.
Proof.
  unfold Signals.emitAt. destruct d as [dx dy].
  destruct (inCircle r dx dy); [|auto].
  destruct (Signals.isInBounds s _); [apply increment_frame | auto].
Qed.

Lemma emitAt_wf s d : Signals.wf s -> Signals.wf (Signals.emitAt l c r s d).
Proof.
  intros Hwf. unfold Signals.emitAt. destruct d as [dx dy].
  destruct (inCircle r dx dy); [|auto].
  destruct (Signals.isInBounds s _); [apply increment_wf|]; auto.
Qed.

Lemma emitAt_bounded s d :
  Signals.bounded s -> Signals.bounded (Signals.emitAt l c r s d).
Proof.
  intros Hb. unfold Signals.emitAt. destruct d as [dx dy].
  destruct (inCircle r dx dy); [|auto].
  destruct (Signals.isInBounds s _); [apply increment_bounded|]; auto.
Qed.

(** One offset of the loops, seen from a cell [loc'] of layer [l']. *)
Lemma get_emitAt s d l' loc' :
  Signals.wf s ->
  Signals.get (Signals.emitAt l c r s d) l' loc' =
    if decide (l = l' /\ (l < Signals.numLayers s)%nat /\
               Signals.isInBounds s loc' = true /\
               d = (Coord.x loc' - Coord.x c, Coord.y loc' - Coord.y c) /\
               inCircle r (Coord.x loc' - Coord.x c) (Coord.y loc' - Coord.y c) = true)
    then Signals.bump (Signals.get s l' loc')
           (Signals.emitAmount r (Coord.x loc' - Coord.x c) (Coord.y loc' - Coord.y c))
    else Signals.get s l' loc'.
Proof.
  intros Hwf. destruct d as [dx dy]. unfold Signals.emitAt.
  case_decide as Hd.
  - destruct Hd as (<- & Hl & Hb & Heq & Hc). injection Heq as -> ->.
    rewrite Hc.
    replace (Coord.mk (Coord.x c + (Coord.x loc' - Coord.x c))
                      (Coord.y c + (Coord.y loc' - Coord.y c))) with loc'
      by (destruct loc'; cbn; f_equal; lia).
    rewrite Hb. apply get_increment_same; auto.
  - destruct (inCircle r dx dy) eqn:Hc; [|reflexivity].
    destruct (Signals.isInBounds s (Coord.mk (Coord.x c + dx) (Coord.y c + dy)))
      eqn:Hb; [|reflexivity].
    destruct (decide (l = l')) as [<- | Hne].
    + destruct (decide (Coord.mk (Coord.x c + dx) (Coord.y c + dy) = loc'))
        as [<- | Hloc].
      * cbn in Hd.
        replace (Coord.x c + dx - Coord.x c) with dx in Hd by lia.
        replace (Coord.y c + dy - Coord.y c) with dy in Hd by lia.
        destruct (Nat.lt_ge_cases l (Signals.numLayers s)) as [Hl | Hl];
          [exfalso; apply Hd; auto|].
        unfold Signals.increment. rewrite Hb.
        replace (Signals.numLayers s <=? l)%nat with true
          by (symmetry; apply Nat.leb_le; lia).
        reflexivity.
      * apply get_increment_other; auto.
    + apply get_increment_other; auto.
Qed.

Lemma fold_emitAt_frame offs : forall s,
  Signals.sizeX (fold_left (Signals.emitAt l c r) offs s) = Signals.sizeX s /\
  Signals.sizeY (fold_left (Signals.emitAt l c r) offs s) = Signals.sizeY s /\
  Signals.numLayers (fold_left (Signals.emitAt l c r) offs s) = Signals.numLayers s.
Proof.
  induction offs as [|d offs IH]; intros s; cbn; [auto|].
  destruct (IH (Signals.emitAt l c r s d)) as (-> & -> & ->).
  apply emitAt_frame.
Qed.

Lemma fold_emitAt_wf offs : forall s,
  Signals.wf s -> Signals.wf (fold_left (Signals.emitAt l c r) offs s).
Proof.
  induction offs as [|d offs IH]; intros s Hwf; cbn; [auto|].
  apply IH, emitAt_wf, Hwf.
Qed.

Lemma fold_emitAt_bounded offs : forall s,
  Signals.bounded s -> Signals.bounded (fold_left (Signals.emitAt l c r) offs s).
Proof.
  induction offs as [|d offs IH]; intros s Hb; cbn; [auto|].
  apply IH, emitAt_bounded, Hb.
Qed.

(** The loops visit each offset once, so each cell is incremented at most
    once. *)
Lemma get_fold_emitAt offs : NoDup offs -> forall s l' loc',
  Signals.wf s ->
  Signals.get (fold_left (Signals.emitAt l c r) offs s) l' loc' =
    if decide (l = l' /\ (l < Signals.numLayers s)%nat /\
               Signals.isInBounds s loc' = true /\
               (Coord.x loc' - Coord.x c, Coord.y loc' - Coord.y c) ∈ offs /\
               inCircle r (Coord.x loc' - Coord.x c) (Coord.y loc' - Coord.y c) = true)
    then Signals.bump (Signals.get s l' loc')
           (Signals.emitAmount r (Coord.x loc' - Coord.x c) (Coord.y loc' - Coord.y c))
    else Signals.get s l' loc'.
Proof.
  induction 1 as [|d offs Hnotin Hnd IH]; intros s l' loc' Hwf.
  - cbn. rewrite decide_False; [reflexivity|].
    intros (_ & _ & _ & Hin & _). inversion Hin.
  - cbn [fold_left].
    rewrite IH by (apply emitAt_wf, Hwf).
    destruct (emitAt_frame s d) as (Hsx & Hsy & Hnl).
    rewrite Hnl, (isInBounds_frame s _ loc' Hsx Hsy).
    rewrite !get_emitAt by exact Hwf.
    set (t := (Coord.x loc' - Coord.x c, Coord.y loc' - Coord.y c)).
    destruct (decide (d = t)) as [-> | Hne].
    + rewrite (decide_False (P := _ /\ _ /\ _ /\ t ∈ offs /\ _)) by tauto.
      apply decide_ext. rewrite elem_of_cons. tauto.
    + rewrite (decide_False (P := _ /\ _ /\ _ /\ d = t /\ _)) by tauto.
      apply decide_ext. rewrite elem_of_cons. intuition congruence.
Qed.

End SignalEmit.

Lemma get_emit s l c r l' loc' :
  Signals.wf s ->
  Signals.get (Signals.emit s l c r) l' loc' =
    if (l =? l')%nat && inEmitArea s l c r loc'
    then Signals.bump (Signals.get s l' loc')
           (Signals.emitAmount r (Coord.x loc' - Coord.x c) (Coord.y loc' - Coord.y c))
    else Signals.get s l' loc'.
Proof.
  intros Hwf. unfold Signals.emit.
  rewrite get_fold_emitAt by (auto using squareOffsets_NoDup).
  unfold inEmitArea.
  set (dx := Coord.x loc' - Coord.x c). set (dy := Coord.y loc' - Coord.y c).
  set (k := loopRadius r).
  case_decide as Hd.
  - destruct Hd as (-> & Hl & Hb & Hin & Hc).
    apply squareOffsets_elem in Hin. fold k in Hin.
    rewrite Nat.eqb_refl, Hb, Hc.
    replace (l' <? Signals.numLayers s)%nat with true
      by (symmetry; apply Nat.ltb_lt; lia).
    zbool. reflexivity.
  - destruct ((l =? l')%nat && _) eqn:Hcond; [|reflexivity].
    exfalso. apply Hd.
    apply andb_true_iff in Hcond as [Heq Harea].
    apply Nat.eqb_eq in Heq.
    repeat (apply andb_true_iff in Harea as [Harea ?]).
    apply Nat.ltb_lt in Harea.
    repeat split; auto.
    apply squareOffsets_elem. fold k. lia.
Qed.

Lemma emit_wf s l c r : Signals.wf s -> Signals.wf (Signals.emit s l c r).
Proof. apply fold_emitAt_wf. Qed.

Lemma emit_bounded s l c r :
  Signals.bounded s -> Signals.bounded (Signals.emit s l c r).
Proof. apply fold_emitAt_bounded. Qed.

Lemma fadeCell_range v : 0 <= v <= 255 -> 0 <= Signals.fadeCell v <= 255.
Proof.
  intros Hv. unfold Signals.fadeCell.
  destruct (0 <? v); [apply ToUint8_range | exact Hv].
Qed.

Lemma fade_wf s l : Signals.wf s -> Signals.wf (Signals.fade s l).
Proof.
  intros (Hx & Hy & Hn & Hlen). unfold Signals.fade.
  destruct (_ <=? _)%nat; [repeat split; auto|].
  unfold Signals.wf. cbn. repeat split; auto.
  - rewrite length_alter. exact Hn.
  - apply Forall_alter; [exact Hlen|].
    intros layer _ Hl. rewrite length_map. exact Hl.
Qed.

Lemma fade_bounded s l : Signals.bounded s -> Signals.bounded (Signals.fade s l).
Proof.
  intros Hb. unfold Signals.fade, Signals.bounded.
  destruct (_ <=? _)%nat; [exact Hb|]. cbn.
  apply Forall_alter; [exact Hb|].
  intros layer _ Hl. apply Forall_fmap.
  eapply Forall_impl; [exact Hl|]. intros v Hv. apply fadeCell_range, Hv.
Qed.

Lemma get_fade s l l' loc :
  Signals.get (Signals.fade s l) l' loc =
    if decide (l = l') then Signals.fadeCell (Signals.get s l' loc)
    else Signals.get s l' loc.
Proof.
  unfold Signals.fade.
  destruct (Signals.numLayers s <=? l)%nat eqn:Hl.
  - case_decide as Hd; [|reflexivity]. subst l'.
    unfold Signals.get. rewrite Hl, orb_true_r. reflexivity.
  - unfold Signals.get, Signals.isInBounds, Signals.idx, Signals.cell. cbn.
    destruct (negb _ || _) eqn:Hguard.
    + case_decide; reflexivity.
    + destruct (_ <? 0); [case_decide; reflexivity|].
      case_decide as Hd.
      * subst l'. rewrite list_lookup_alter_eq.
        destruct (Signals.layers s !! l) as [layer|]; cbn; [|reflexivity].
        rewrite list_lookup_fmap.
        destruct (layer !! _); reflexivity.
      * rewrite list_lookup_alter_ne by auto. reflexivity.
Qed.

Lemma get_range s l loc :
  Signals.bounded s -> 0 <= Signals.get s l loc <= 255.
Proof.
  intros Hb. unfold Signals.get.
  destruct (_ || _); [lia|].
  unfold Signals.cell. destruct (_ <? 0); cbn; [lia|].
  destruct (Signals.layers s !! l) as [layer|] eqn:Hlayer; cbn; [|lia].
  destruct (layer !! _) as [v|] eqn:Hv; cbn; [|lia].
  eapply Forall_lookup_1 in Hlayer; [|exact Hb].
  eapply Forall_lookup_1 in Hv; [|exact Hlayer]. exact Hv.
Qed.

Lemma run_wf_bounded ops : forall s,
  Signals.wf s -> Signals.bounded s ->
  Signals.wf (Signals.run ops s) /\ Signals.bounded (Signals.run ops s).
Proof.
  induction ops as [|o ops IH]; intros s Hwf Hb; [auto|].
  unfold Signals.run. cbn [fold_left]. apply IH.
  - destruct o; [apply emit_wf | apply fade_wf]; exact Hwf.
  - destruct o; [apply emit_bounded | apply fade_bounded]; exact Hb.
Qed.

(** The cells an [emit] of a finite radius reaches, written out: the layer
    exists, the cell is inside the grid, both offsets are within
    [Math.floor(radius)] of the centre, and the squared distance is at most
    the squared radius. *)
Lemma inEmitArea_finite s l c r loc :
  PrimFloat.is_finite r = true ->
  inEmitArea s l c r loc =
    let dx := Coord.x loc - Coord.x c in
    let dy := Coord.y loc - Coord.y c in
    (l <? Signals.numLayers s)%nat && Signals.isInBounds s loc &&
    (- Num.floorZ r <=? dx) && (dx <=? Num.floorZ r) &&
    (- Num.floorZ r <=? dy) && (dy <=? Num.floorZ r) &&
    PrimFloat.leb (Num.ofZ (dx * dx + dy * dy)) (r * r)%float.
Proof.
  intros Hfinite. unfold inEmitArea, loopRadius, inCircle. rewrite Hfinite.
  reflexivity.
Qed.

(** At the radius 1.5 those are the cells of the square of side 3 around
    the centre. *)
Lemma inEmitArea_default s l c loc :
  inEmitArea s l c 1.5%float loc =
    (l <? Signals.numLayers s)%nat && Signals.isInBounds s loc &&
    (Z.abs (Coord.x loc - Coord.x c) <=? 1) &&
    (Z.abs (Coord.y loc - Coord.y c) <=? 1).
Proof.
  rewrite inEmitArea_finite by reflexivity. cbn zeta.
  set (dx := Coord.x loc - Coord.x c). set (dy := Coord.y loc - Coord.y c).
  change (Num.floorZ 1.5) with 1.
  destruct (l <? Signals.numLayers s)%nat; [|reflexivity].
  destruct (Signals.isInBounds s loc); [|reflexivity]. cbn [andb].
  destruct (Z.leb_spec (Z.abs dx) 1) as [Hx|Hx];
    [|destruct (Z.leb_spec (- (1)) dx), (Z.leb_spec dx 1); try lia;
      cbn [andb]; reflexivity].
  destruct (Z.leb_spec (Z.abs dy) 1) as [Hy|Hy];
    [|destruct (Z.leb_spec (- (1)) dx), (Z.leb_spec dx 1),
               (Z.leb_spec (- (1)) dy), (Z.leb_spec dy 1); try lia;
      cbn [andb]; reflexivity].
  assert (Hd : dx = -1 \/ dx = 0 \/ dx = 1) by lia.
  assert (He : dy = -1 \/ dy = 0 \/ dy = 1) by lia.
  destruct Hd as [-> | [-> | ->]], He as [-> | [-> | ->]];
    vm_compute; reflexivity.
Qed.

(** [emit] at the radius 1.5, cell by cell. *)
Lemma get_emit_default s l c l' loc' :
  Signals.wf s -> Signals.bounded s ->
  Signals.get (Signals.emit s l c 1.5%float) l' loc' =
    let dx := Coord.x loc' - Coord.x c in
    let dy := Coord.y loc' - Coord.y c in
    if (l =? l')%nat && (l <? Signals.numLayers s)%nat &&
       Signals.isInBounds s loc' && (Z.abs dx <=? 1) && (Z.abs dy <=? 1)
    then Z.min 255
           (Signals.get s l' loc' +
            (if (dx =? 0) && (dy =? 0) then 255
             else if (dx =? 0) || (dy =? 0) then 153 else 111))
    else Signals.get s l' loc'.
Proof.
  intros Hwf Hb. rewrite get_emit by exact Hwf.
  rewrite inEmitArea_default. cbn zeta.
  set (dx := Coord.x loc' - Coord.x c). set (dy := Coord.y loc' - Coord.y c).
  rewrite <- !andb_assoc.
  destruct (l =? l')%nat; [|reflexivity].
  destruct (l <? Signals.numLayers s)%nat; [|reflexivity].
  destruct (Signals.isInBounds s loc'); [|reflexivity].
  destruct (Z.leb_spec (Z.abs dx) 1) as [Hx|Hx]; [|reflexivity].
  destruct (Z.leb_spec (Z.abs dy) 1) as [Hy|Hy]; [|reflexivity].
  cbn [andb]. rewrite emitAmount_radius_1_5 by lia.
  apply bump_saturates; [apply get_range, Hb|].
  destruct (dx =? 0), (dy =? 0); cbn; lia.
Qed.

Lemma emit_numLayers s l c r :
  Signals.numLayers (Signals.emit s l c r) = Signals.numLayers s.
Proof.
  unfold Signals.emit. generalize (squareOffsets (loopRadius r)).
  intros ds. revert s.
  induction ds as [|d ds IH]; intros s; [reflexivity|].
  cbn [fold_left]. rewrite IH. apply emitAt_frame.
Qed.

Lemma run_numLayers ops : forall s,
  Signals.numLayers (Signals.run ops s) = Signals.numLayers s.
Proof.
  induction ops as [|o ops IH]; intros s; [reflexivity|].
  unfold Signals.run. cbn [fold_left]. fold (Signals.run ops (Signals.apply s o)).
  rewrite IH. destruct o as [l c r|l]; cbn [Signals.apply].
  - apply emit_numLayers.
  - unfold Signals.fade. destruct (_ <=? _)%nat; reflexivity.
Qed.



(** ** The grid *)

Lemma ToUint16_range v : 0 <= JS.ToUint16 v < 2 ^ 16.
Proof. unfold JS.ToUint16. apply Z.mod_pos_bound. lia. Qed.

Lemma ToUint16_small v : 0 <= v < 2 ^ 16 -> JS.ToUint16 v = v.
Proof. intros. unfold JS.ToUint16. apply Z.mod_small. lia. Qed.

Lemma grid_inBounds_iff g loc :
  Grid.isInBounds g loc = true <->
  0 <= Coord.x loc < Grid.sizeX g /\ 0 <= Coord.y loc < Grid.sizeY g.
Proof. unfold Grid.isInBounds. rewrite !andb_true_iff. lia. Qed.

Lemma grid_idx_range g loc :
  gridWf g -> Grid.isInBounds g loc = true ->
  0 <= Grid.idx g (Coord.x loc) (Coord.y loc) < Z.of_nat (length (Grid.data g)).
Proof.
  intros (Hx & Hy & Hlen & _) Hb. apply grid_inBounds_iff in Hb.
  rewrite Hlen. unfold Grid.idx. nia.
Qed.

Lemma grid_idx_inj g loc loc' :
  Grid.isInBounds g loc = true -> Grid.isInBounds g loc' = true ->
  Grid.idx g (Coord.x loc) (Coord.y loc) = Grid.idx g (Coord.x loc') (Coord.y loc') ->
  loc = loc'.
Proof.
  intros Hb Hb' Heq. apply grid_inBounds_iff in Hb, Hb'.
  unfold Grid.idx in Heq. destruct loc as [x y], loc' as [x' y']. cbn in *.
  assert (y = y') by nia. subst y'. f_equal. lia.
Qed.

Lemma grid_set_sizes g loc v :
  Grid.sizeX (Grid.set g loc v) = Grid.sizeX g /\
  Grid.sizeY (Grid.set g loc v) = Grid.sizeY g.
Proof. unfold Grid.set. destruct (_ <? 0); auto. Qed.

Lemma grid_set_inBounds g loc v loc' :
  Grid.isInBounds (Grid.set g loc v) loc' = Grid.isInBounds g loc'.
Proof.
  unfold Grid.isInBounds. destruct (grid_set_sizes g loc v) as [-> ->].
  reflexivity.
Qed.

Lemma grid_set_wf g loc v : gridWf g -> gridWf (Grid.set g loc v).
Proof.
  intros (Hx & Hy & Hlen & Hr). unfold Grid.set.
  destruct (_ <? 0); [repeat split; auto|].
  unfold gridWf. cbn. repeat split; auto.
  - rewrite length_insert. exact Hlen.
  - apply Forall_insert; [exact Hr | apply ToUint16_range].
Qed.

(** A cell of the array after a write at an in-bounds location. *)
Lemma grid_set_data g loc v k :
  gridWf g -> Grid.isInBounds g loc = true ->
  Grid.data (Grid.set g loc v) !! k =
    if decide (k = Z.to_nat (Grid.idx g (Coord.x loc) (Coord.y loc)))
    then Some (JS.ToUint16 v) else Grid.data g !! k.
Proof.
  intros Hwf Hb. pose proof (grid_idx_range g loc Hwf Hb) as Hi.
  unfold Grid.set.
  destruct (Z.ltb_spec (Grid.idx g (Coord.x loc) (Coord.y loc)) 0); [lia|].
  cbn. case_decide as Hk.
  - subst k. apply list_lookup_insert_eq. lia.
  - apply list_lookup_insert_ne. auto.
Qed.

Lemma grid_at_data g loc :
  gridWf g -> Grid.isInBounds g loc = true ->
  Grid.at_ g loc = Grid.data g !! Z.to_nat (Grid.idx g (Coord.x loc) (Coord.y loc)).
Proof.
  intros Hwf Hb. pose proof (grid_idx_range g loc Hwf Hb) as Hi.
  unfold Grid.at_.
  destruct (Z.ltb_spec (Grid.idx g (Coord.x loc) (Coord.y loc)) 0); [lia|].
  reflexivity.
Qed.

Lemma grid_at_set_same g loc v :
  gridWf g -> Grid.isInBounds g loc = true ->
  Grid.at_ (Grid.set g loc v) loc = Some (JS.ToUint16 v).
Proof.
  intros Hwf Hb.
  rewrite grid_at_data by (auto using grid_set_wf; rewrite grid_set_inBounds; auto).
  unfold Grid.idx. destruct (grid_set_sizes g loc v) as [-> _].
  fold (Grid.idx g (Coord.x loc) (Coord.y loc)).
  rewrite grid_set_data by auto. rewrite decide_True; auto.
Qed.

Lemma grid_at_set_other g loc v loc' :
  gridWf g -> Grid.isInBounds g loc = true -> Grid.isInBounds g loc' = true ->
  loc <> loc' ->
  Grid.at_ (Grid.set g loc v) loc' = Grid.at_ g loc'.
Proof.
  intros Hwf Hb Hb' Hne.
  rewrite grid_at_data by (auto using grid_set_wf; rewrite grid_set_inBounds; auto).
  unfold Grid.idx at 1. destruct (grid_set_sizes g loc v) as [-> _].
  fold (Grid.idx g (Coord.x loc') (Coord.y loc')).
  rewrite grid_set_data by auto.
  rewrite decide_False.
  - symmetry. apply grid_at_data; auto.
  - intros Heq. apply Hne. eapply grid_idx_inj; eauto.
    pose proof (grid_idx_range g loc Hwf Hb).
    pose proof (grid_idx_range g loc' Hwf Hb'). lia.
Qed.

(** A write over a cell that did not hold the sentinel keeps every barrier. *)
Lemma grid_set_keepsBarriers g loc v old :
  gridWf g -> Grid.isInBounds g loc = true ->
  Grid.at_ g loc = Some old -> old <> BARRIER ->
  keepsBarriers g (Grid.set g loc v).
Proof.
  intros Hwf Hb Hold Hne k Hk.
  rewrite grid_set_data by auto.
  case_decide as Hd; [|exact Hk].
  subst k. rewrite grid_at_data in Hold by auto. congruence.
Qed.

Lemma keepsBarriers_refl g : keepsBarriers g g.
Proof. intros k Hk. exact Hk. Qed.

Lemma keepsBarriers_trans g1 g2 g3 :
  keepsBarriers g1 g2 -> keepsBarriers g2 g3 -> keepsBarriers g1 g3.
Proof. intros H12 H23 k Hk. apply H23, H12, Hk. Qed.

Lemma agrees_noSharedCell inds g : agrees inds g -> noSharedCell inds.
Proof.
  intros Hagree i j a b Hi Hj Ha Hb Hloc.
  destruct (Hagree i a Hi Ha) as (_ & Hat & _).
  destruct (Hagree j b Hj Hb) as (_ & Hat' & _).
  rewrite Hloc, Hat' in Hat. injection Hat as Heq. lia.
Qed.

(** ** Draining the queues *)

Lemma mjoin_lookup_Some {A} (l : list (option A)) n a :
  mjoin (l !! n) = Some a <-> l !! n = Some (Some a).
Proof. destruct (l !! n) as [[b|]|]; cbn; split; congruence. Qed.

Lemma allWired_insert inds n indiv :
  allWired inds -> wired (Indiv.nnet indiv) ->
  allWired (<[n := Some indiv]> inds).
Proof.
  intros Hall Hw j other Hj.
  apply list_lookup_insert_Some in Hj as [(-> & Heq & _) | (_ & Hj)].
  - injection Heq as <-. exact Hw.
  - eapply Hall, Hj.
Qed.

(** One death keeps grid and population in agreement, and every barrier. *)
Lemma applyDeath_invariant deaths inds g record :
  gridWf g -> agrees inds g ->
  gridWf (applyDeath_grid (Peeps.applyDeath (deaths, inds, g) record)) /\
  agrees (applyDeath_inds (Peeps.applyDeath (deaths, inds, g) record))
         (applyDeath_grid (Peeps.applyDeath (deaths, inds, g) record)) /\
  keepsBarriers g (applyDeath_grid (Peeps.applyDeath (deaths, inds, g) record)).
Proof.
  intros Hwf Hagree. unfold Peeps.applyDeath, applyDeath_grid, applyDeath_inds.
  destruct (DeathRecord.indivIndex record <? 0);
    [cbn; auto using keepsBarriers_refl|].
  set (n := Z.to_nat (DeathRecord.indivIndex record)).
  destruct (mjoin (inds !! n)) as [indiv|] eqn:Hlook;
    [|cbn; auto using keepsBarriers_refl].
  apply mjoin_lookup_Some in Hlook.
  destruct (Indiv.alive indiv) eqn:Halive;
    [|cbn; auto using keepsBarriers_refl].
  destruct (Hagree n indiv Hlook Halive) as (Hb & Hat & Hn).
  cbn. split; [apply grid_set_wf, Hwf|]. split.
  - intros j other Hj Hother.
    apply list_lookup_insert_Some in Hj as [(-> & Heq & _) | (Hne & Hj)].
    + injection Heq as <-. discriminate Hother.
    + destruct (Hagree j other Hj Hother) as (Hb' & Hat' & Hj').
      rewrite grid_set_inBounds. repeat split; auto; try lia.
      rewrite grid_at_set_other; auto.
      intros Heq. rewrite Heq, Hat' in Hat. injection Hat as Hnj. lia.
  - eapply grid_set_keepsBarriers; eauto. unfold BARRIER in *. lia.
Qed.

Lemma applyDeath_wired deaths inds g record :
  allWired inds ->
  allWired (applyDeath_inds (Peeps.applyDeath (deaths, inds, g) record)).
Proof.
  intros Hwired. unfold Peeps.applyDeath, applyDeath_inds.
  destruct (DeathRecord.indivIndex record <? 0); [exact Hwired|].
  set (n := Z.to_nat (DeathRecord.indivIndex record)).
  destruct (mjoin (inds !! n)) as [indiv|] eqn:Hlook; [|exact Hwired].
  apply mjoin_lookup_Some in Hlook.
  destruct (Indiv.alive indiv); [|exact Hwired].
  cbn. apply allWired_insert; [exact Hwired|]. exact (Hwired n indiv Hlook).
Qed.

(** A move that is dropped changes nothing: the individual is missing or
    dead, or the destination is out of bounds or not empty. *)
Lemma applyMove_dropped inds g record :
  (forall indiv,
     inds !! Z.to_nat (MoveRecord.indivIndex record) = Some (Some indiv) ->
     Indiv.alive indiv = false \/
     Grid.isInBounds g (MoveRecord.newLoc record) = false \/
     Grid.isEmptyAt g (MoveRecord.newLoc record) = false) ->
  Peeps.applyMove (inds, g) record = (inds, g).
Proof.
  intros Hdrop. unfold Peeps.applyMove.
  destruct (_ <? 0); [reflexivity|].
  destruct (mjoin _) as [indiv|] eqn:Hlook; [|reflexivity].
  apply mjoin_lookup_Some in Hlook.
  destruct (Hdrop indiv Hlook) as [-> | [-> | ->]]; [reflexivity| |].
  - destruct (Indiv.alive indiv); reflexivity.
  - rewrite andb_false_r. destruct (Indiv.alive indiv); reflexivity.
Qed.

(** A move that is carried out. *)
Lemma applyMove_done inds g record indiv :
  0 <= MoveRecord.indivIndex record ->
  inds !! Z.to_nat (MoveRecord.indivIndex record) = Some (Some indiv) ->
  Indiv.alive indiv = true ->
  Grid.isInBounds g (MoveRecord.newLoc record) = true ->
  Grid.isEmptyAt g (MoveRecord.newLoc record) = true ->
  Peeps.applyMove (inds, g) record =
    (<[Z.to_nat (MoveRecord.indivIndex record) :=
         Some (Peeps.moveTo indiv (MoveRecord.newLoc record))]> inds,
     Grid.set (Grid.set g (Indiv.loc indiv) 0) (MoveRecord.newLoc record)
              (MoveRecord.indivIndex record)).
Proof.
  intros Hi Hlook Halive Hb He. unfold Peeps.applyMove.
  destruct (Z.ltb_spec (MoveRecord.indivIndex record) 0); [lia|].
  rewrite Hlook. cbn. rewrite Halive, Hb, He. reflexivity.
Qed.

Lemma isEmptyAt_iff g loc : Grid.isEmptyAt g loc = true <-> Grid.at_ g loc = Some EMPTY.
Proof.
  unfold Grid.isEmptyAt. destruct (Grid.at_ g loc) as [v|]; split; intros Hv;
    try discriminate.
  - apply Z.eqb_eq in Hv. congruence.
  - injection Hv as ->. reflexivity.
Qed.

(** One move keeps grid and population in agreement, and every barrier. *)
Lemma applyMove_invariant inds g record :
  gridWf g -> agrees inds g ->
  gridWf (snd (Peeps.applyMove (inds, g) record)) /\
  agrees (fst (Peeps.applyMove (inds, g) record))
         (snd (Peeps.applyMove (inds, g) record)) /\
  keepsBarriers g (snd (Peeps.applyMove (inds, g) record)).
Proof.
  intros Hwf Hagree. unfold Peeps.applyMove.
  destruct (Z.ltb_spec (MoveRecord.indivIndex record) 0) as [|Hi];
    [cbn; auto using keepsBarriers_refl|].
  set (n := Z.to_nat (MoveRecord.indivIndex record)).
  destruct (mjoin (inds !! n)) as [indiv|] eqn:Hlook;
    [|cbn; auto using keepsBarriers_refl].
  apply mjoin_lookup_Some in Hlook.
  destruct (Indiv.alive indiv) eqn:Halive;
    [|cbn; auto using keepsBarriers_refl].
  destruct (Grid.isInBounds g (MoveRecord.newLoc record)) eqn:Hnb;
    [|cbn; auto using keepsBarriers_refl].
  destruct (Grid.isEmptyAt g (MoveRecord.newLoc record)) eqn:Hne;
    [|cbn; auto using keepsBarriers_refl].
  apply isEmptyAt_iff in Hne.
  destruct (Hagree n indiv Hlook Halive) as (Hb & Hat & Hn).
  set (newLoc := MoveRecord.newLoc record) in *.
  set (g1 := Grid.set g (Indiv.loc indiv) 0).
  assert (Hwf1 : gridWf g1) by (apply grid_set_wf, Hwf).
  assert (Hnb1 : Grid.isInBounds g1 newLoc = true)
    by (unfold g1; rewrite grid_set_inBounds; exact Hnb).
  assert (Hdiff : Indiv.loc indiv <> newLoc).
  { intros Heq. rewrite Heq, Hne in Hat. injection Hat as Hz.
    unfold EMPTY in Hz. lia. }
  assert (Hid : Z.of_nat n = MoveRecord.indivIndex record)
    by (unfold n; lia).
  cbn [fst snd andb]. fold g1. split; [apply grid_set_wf, Hwf1|]. split.
  - intros j other Hj Hother.
    rewrite !grid_set_inBounds.
    apply list_lookup_insert_Some in Hj as [(<- & Heq & _) | (Hnj & Hj)].
    + injection Heq as <-. cbn [Peeps.moveTo Indiv.set_loc Indiv.loc].
      unfold BARRIER in *.
      split; [exact Hnb1|]. split; [|lia].
      rewrite grid_at_set_same by auto.
      rewrite ToUint16_small; [congruence | lia].
    + destruct (Hagree j other Hj Hother) as (Hb' & Hat' & Hj').
      assert (Hb1' : Grid.isInBounds g1 (Indiv.loc other) = true)
        by (unfold g1; rewrite grid_set_inBounds; exact Hb').
      split; [exact Hb1'|]. split; [|lia].
      rewrite grid_at_set_other; auto.
      * unfold g1. rewrite grid_at_set_other; auto.
        intros Heq. rewrite Heq, Hat' in Hat. injection Hat as Hnj'. lia.
      * intros Heq. rewrite <- Heq, Hne in Hat'. injection Hat' as Hz.
        unfold EMPTY in Hz. lia.
  - eapply keepsBarriers_trans.
    + eapply (grid_set_keepsBarriers g (Indiv.loc indiv)); eauto.
      unfold BARRIER in *. lia.
    + eapply (grid_set_keepsBarriers g1 newLoc _ EMPTY); auto.
      unfold g1. rewrite grid_at_set_other; auto.
Qed.

Lemma applyMove_wired inds g record :
  allWired inds -> allWired (fst (Peeps.applyMove (inds, g) record)).
Proof.
  intros Hwired. unfold Peeps.applyMove.
  destruct (_ <? 0); [exact Hwired|].
  set (n := Z.to_nat (MoveRecord.indivIndex record)).
  destruct (mjoin (inds !! n)) as [indiv|] eqn:Hlook; [|exact Hwired].
  apply mjoin_lookup_Some in Hlook.
  destruct (Indiv.alive indiv); [|exact Hwired].
  destruct (_ && _); [|exact Hwired].
  cbn. apply allWired_insert; [exact Hwired|]. exact (Hwired n indiv Hlook).
Qed.

Lemma fold_applyDeath_invariant queue : forall deaths inds g,
  gridWf g -> agrees inds g ->
  gridWf (applyDeath_grid (fold_left Peeps.applyDeath queue (deaths, inds, g))) /\
  agrees (applyDeath_inds (fold_left Peeps.applyDeath queue (deaths, inds, g)))
         (applyDeath_grid (fold_left Peeps.applyDeath queue (deaths, inds, g))) /\
  keepsBarriers g (applyDeath_grid (fold_left Peeps.applyDeath queue (deaths, inds, g))).
Proof.
  induction queue as [|record queue IH]; intros deaths inds g Hwf Hagree.
  - cbn. auto using keepsBarriers_refl.
  - cbn [fold_left].
    destruct (applyDeath_invariant deaths inds g record Hwf Hagree)
      as (Hwf1 & Hagree1 & Hkeep1).
    destruct (Peeps.applyDeath (deaths, inds, g) record) as [[d1 inds1] g1].
    unfold applyDeath_grid, applyDeath_inds in *. cbn [fst snd] in *.
    destruct (IH d1 inds1 g1 Hwf1 Hagree1) as (H1 & H2 & H3).
    split; [exact H1|]. split; [exact H2|].
    eapply keepsBarriers_trans; eauto.
Qed.

Lemma fold_applyDeath_wired queue : forall deaths inds g,
  allWired inds ->
  allWired (applyDeath_inds (fold_left Peeps.applyDeath queue (deaths, inds, g))).
Proof.
  induction queue as [|record queue IH]; intros deaths inds g Hwired.
  - exact Hwired.
  - cbn [fold_left].
    pose proof (applyDeath_wired deaths inds g record Hwired) as Hwired1.
    destruct (Peeps.applyDeath (deaths, inds, g) record) as [[d1 inds1] g1].
    apply IH. exact Hwired1.
Qed.

Lemma fold_applyMove_invariant queue : forall inds g,
  gridWf g -> agrees inds g ->
  gridWf (snd (fold_left Peeps.applyMove queue (inds, g))) /\
  agrees (fst (fold_left Peeps.applyMove queue (inds, g)))
         (snd (fold_left Peeps.applyMove queue (inds, g))) /\
  keepsBarriers g (snd (fold_left Peeps.applyMove queue (inds, g))).
Proof.
  induction queue as [|record queue IH]; intros inds g Hwf Hagree.
  - cbn. auto using keepsBarriers_refl.
  - cbn [fold_left].
    destruct (applyMove_invariant inds g record Hwf Hagree)
      as (Hwf1 & Hagree1 & Hkeep1).
    destruct (Peeps.applyMove (inds, g) record) as [inds1 g1].
    cbn [fst snd] in *.
    destruct (IH inds1 g1 Hwf1 Hagree1) as (H1 & H2 & H3).
    split; [exact H1|]. split; [exact H2|].
    eapply keepsBarriers_trans; eauto.
Qed.

Lemma fold_applyMove_wired queue : forall inds g,
  allWired inds -> allWired (fst (fold_left Peeps.applyMove queue (inds, g))).
Proof.
  induction queue as [|record queue IH]; intros inds g Hwired.
  - exact Hwired.
  - cbn [fold_left].
    pose proof (applyMove_wired inds g record Hwired) as Hwired1.
    destruct (Peeps.applyMove (inds, g) record) as [inds1 g1].
    apply IH. exact Hwired1.
Qed.

(** Both drains, deaths first, keep grid and population in agreement and
    every barrier, and leave both queues empty. *)
Lemma drains_invariant p g :
  gridWf g -> agrees (Peeps.individuals p) g ->
  let after_deaths := Peeps.drainDeathQueue p g in
  let after_moves :=
    Peeps.drainMoveQueue (snd (fst after_deaths)) (snd after_deaths) in
  gridWf (snd after_moves) /\
  agrees (Peeps.individuals (fst after_moves)) (snd after_moves) /\
  keepsBarriers g (snd after_moves) /\
  Peeps.deathQueue (fst after_moves) = [] /\
  Peeps.moveQueue (fst after_moves) = [].
Proof.
  intros Hwf Hagree. cbn zeta.
  unfold Peeps.drainDeathQueue.
  destruct (fold_applyDeath_invariant (Peeps.deathQueue p) 0
              (Peeps.individuals p) g Hwf Hagree)
    as (Hwf1 & Hagree1 & Hkeep1).
  destruct (fold_left Peeps.applyDeath _ _) as [[d1 inds1] g1].
  unfold applyDeath_grid, applyDeath_inds in *. cbn [fst snd] in *.
  unfold Peeps.drainMoveQueue. cbn [Peeps.moveQueue Peeps.individuals Peeps.deathQueue].
  destruct (fold_applyMove_invariant (Peeps.moveQueue p) inds1 g1
              Hwf1 Hagree1) as (Hwf2 & Hagree2 & Hkeep2).
  destruct (fold_left Peeps.applyMove _ _) as [inds2 g2].
  cbn [fst snd Peeps.individuals Peeps.deathQueue Peeps.moveQueue] in *.
  split; [exact Hwf2|]. split; [exact Hagree2|].
  split; [eapply keepsBarriers_trans; eauto|]. split; reflexivity.
Qed.

Lemma drains_wired p g :
  allWired (Peeps.individuals p) ->
  allWired (Peeps.individuals
    (fst (Peeps.drainMoveQueue (snd (fst (Peeps.drainDeathQueue p g)))
                               (snd (Peeps.drainDeathQueue p g))))).
Proof.
  intros Hwired. unfold Peeps.drainDeathQueue.
  pose proof (fold_applyDeath_wired (Peeps.deathQueue p) 0
                (Peeps.individuals p) g Hwired) as Hwired1.
  destruct (fold_left Peeps.applyDeath _ _) as [[d1 inds1] g1].
  unfold applyDeath_inds in Hwired1. cbn [fst snd] in *.
  unfold Peeps.drainMoveQueue. cbn [Peeps.moveQueue Peeps.individuals].
  pose proof (fold_applyMove_wired (Peeps.moveQueue p) inds1 g1 Hwired1)
    as Hwired2.
  destruct (fold_left Peeps.applyMove _ _) as [inds2 g2].
  exact Hwired2.
Qed.

(** ** A move into a cell a queued death vacates *)

Lemma applyDeath_inBounds deaths inds g record loc :
  Grid.isInBounds (applyDeath_grid (Peeps.applyDeath (deaths, inds, g) record)) loc
  = Grid.isInBounds g loc.
Proof.
  unfold Peeps.applyDeath, applyDeath_grid.
  destruct (_ <? 0); [reflexivity|].
  destruct (mjoin _) as [indiv|]; [|reflexivity].
  destruct (Indiv.alive indiv); [|reflexivity].
  cbn. apply grid_set_inBounds.
Qed.

(** A death changes no individual but the one it names. *)
Lemma applyDeath_other deaths inds g record m :
  DeathRecord.indivIndex record <> Z.of_nat m ->
  applyDeath_inds (Peeps.applyDeath (deaths, inds, g) record) !! m = inds !! m.
Proof.
  intros Hne. unfold Peeps.applyDeath, applyDeath_inds.
  destruct (Z.ltb_spec (DeathRecord.indivIndex record) 0); [reflexivity|].
  destruct (mjoin _) as [indiv|]; [|reflexivity].
  destruct (Indiv.alive indiv); [|reflexivity].
  cbn. apply list_lookup_insert_ne. lia.
Qed.

Lemma fold_applyDeath_other queue m : forall deaths inds g,
  Forall (fun record => DeathRecord.indivIndex record <> Z.of_nat m) queue ->
  applyDeath_inds (fold_left Peeps.applyDeath queue (deaths, inds, g)) !! m
  = inds !! m.
Proof.
  induction queue as [|record queue IH]; intros deaths inds g Hq.
  - reflexivity.
  - apply Forall_cons in Hq as [Hr Hq]. cbn [fold_left].
    pose proof (applyDeath_other deaths inds g record m Hr) as Hsame.
    destruct (Peeps.applyDeath (deaths, inds, g) record) as [[d1 inds1] g1].
    unfold applyDeath_inds in Hsame. cbn [fst snd] in Hsame.
    rewrite IH by exact Hq. exact Hsame.
Qed.

(** A death writes nothing but the empty tag. *)
Lemma applyDeath_keeps_empty deaths inds g record loc :
  gridWf g -> agrees inds g -> Grid.isInBounds g loc = true ->
  Grid.at_ g loc = Some EMPTY ->
  Grid.at_ (applyDeath_grid (Peeps.applyDeath (deaths, inds, g) record)) loc
  = Some EMPTY.
Proof.
  intros Hwf Hagree Hb Hempty. unfold Peeps.applyDeath, applyDeath_grid.
  destruct (_ <? 0); [exact Hempty|].
  destruct (mjoin _) as [indiv|] eqn:Hlook; [|exact Hempty].
  apply mjoin_lookup_Some in Hlook.
  destruct (Indiv.alive indiv) eqn:Halive; [|exact Hempty].
  destruct (Hagree _ indiv Hlook Halive) as (Hb' & Hat & Hn).
  cbn. rewrite grid_at_set_other; auto.
  intros Heq. rewrite Heq, Hempty in Hat. injection Hat as Hz.
  unfold EMPTY in Hz. lia.
Qed.

(** The death of a living individual empties its cell. *)
Lemma applyDeath_vacates deaths inds g v iv :
  gridWf g -> agrees inds g ->
  inds !! v = Some (Some iv) -> Indiv.alive iv = true ->
  Grid.at_ (applyDeath_grid
              (Peeps.applyDeath (deaths, inds, g) (DeathRecord.mk (Z.of_nat v))))
           (Indiv.loc iv) = Some EMPTY.
Proof.
  intros Hwf Hagree Hlook Halive.
  destruct (Hagree v iv Hlook Halive) as (Hb & _ & _).
  unfold Peeps.applyDeath, applyDeath_grid. cbn [DeathRecord.indivIndex].
  destruct (Z.ltb_spec (Z.of_nat v) 0); [lia|].
  rewrite Nat2Z.id, Hlook.
  change (mjoin (Some (Some iv))) with (Some iv). cbn match. rewrite Halive.
  cbn [snd].
  rewrite grid_at_set_same by auto. reflexivity.
Qed.

(** After the death queue, the cell of a living individual named in the
    queue is empty. *)
Lemma fold_applyDeath_vacates queue v loc : forall deaths inds g,
  gridWf g -> agrees inds g -> Grid.isInBounds g loc = true ->
  (exists iv, inds !! v = Some (Some iv) /\ Indiv.alive iv = true /\
              Indiv.loc iv = loc /\ In (DeathRecord.mk (Z.of_nat v)) queue) \/
  Grid.at_ g loc = Some EMPTY ->
  Grid.at_ (applyDeath_grid (fold_left Peeps.applyDeath queue (deaths, inds, g)))
           loc = Some EMPTY.
Proof.
  induction queue as [|record queue IH]; intros deaths inds g Hwf Hagree Hb Hcase.
  - destruct Hcase as [(iv & _ & _ & _ & []) | Hempty]. exact Hempty.
  - cbn [fold_left].
    destruct (applyDeath_invariant deaths inds g record Hwf Hagree)
      as (Hwf1 & Hagree1 & _).
    pose proof (applyDeath_inBounds deaths inds g record loc) as Hb1.
    rewrite Hb in Hb1.
    assert (Hnext :
      (exists iv,
         applyDeath_inds (Peeps.applyDeath (deaths, inds, g) record) !! v
           = Some (Some iv) /\ Indiv.alive iv = true /\
         Indiv.loc iv = loc /\ In (DeathRecord.mk (Z.of_nat v)) queue) \/
      Grid.at_ (applyDeath_grid (Peeps.applyDeath (deaths, inds, g) record)) loc
        = Some EMPTY).
    { destruct Hcase as [(iv & Hlook & Halive & Hloc & Hin) | Hempty].
      - destruct (decide (DeathRecord.indivIndex record = Z.of_nat v)) as [Hv|Hv].
        + right. destruct record as [i]. cbn in Hv. subst i loc.
          apply applyDeath_vacates; auto.
        + left. exists iv. rewrite applyDeath_other by exact Hv.
          repeat split; auto.
          destruct Hin as [Heq | Hin]; [|exact Hin].
          subst record. cbn in Hv. congruence.
      - right. apply applyDeath_keeps_empty; auto. }
    destruct (Peeps.applyDeath (deaths, inds, g) record) as [[d1 inds1] g1].
    unfold applyDeath_grid, applyDeath_inds in *. cbn [fst snd] in *.
    apply IH; auto.
Qed.

Lemma applyMove_inBounds inds g record loc :
  Grid.isInBounds (snd (Peeps.applyMove (inds, g) record)) loc
  = Grid.isInBounds g loc.
Proof.
  unfold Peeps.applyMove.
  destruct (_ <? 0); [reflexivity|].
  destruct (mjoin _) as [indiv|]; [|reflexivity].
  destruct (Indiv.alive indiv); [|reflexivity].
  destruct (_ && _); [|reflexivity].
  cbn. rewrite !grid_set_inBounds. reflexivity.
Qed.

(** A move leaves empty every empty cell but its destination. *)
Lemma applyMove_keeps_empty inds g record loc :
  gridWf g -> agrees inds g -> Grid.isInBounds g loc = true ->
  Grid.at_ g loc = Some EMPTY -> MoveRecord.newLoc record <> loc ->
  Grid.at_ (snd (Peeps.applyMove (inds, g) record)) loc = Some EMPTY.
Proof.
  intros Hwf Hagree Hb Hempty Hne. unfold Peeps.applyMove.
  destruct (_ <? 0); [exact Hempty|].
  destruct (mjoin _) as [indiv|] eqn:Hlook; [|exact Hempty].
  apply mjoin_lookup_Some in Hlook.
  destruct (Indiv.alive indiv) eqn:Halive; [|exact Hempty].
  destruct (Grid.isInBounds g (MoveRecord.newLoc record)) eqn:Hnb;
    [|exact Hempty].
  destruct (Grid.isEmptyAt g (MoveRecord.newLoc record)); [|exact Hempty].
  destruct (Hagree _ indiv Hlook Halive) as (Hb' & Hat & Hn).
  cbn [fst snd andb].
  rewrite grid_at_set_other;
    [| apply grid_set_wf, Hwf | rewrite grid_set_inBounds; auto
     | rewrite grid_set_inBounds; auto | exact Hne].
  rewrite grid_at_set_other; auto.
  intros Heq. rewrite Heq, Hempty in Hat. injection Hat as Hz.
  unfold EMPTY in Hz. lia.
Qed.

(** A move kills nobody. *)
Lemma applyMove_alive inds g record m im :
  inds !! m = Some (Some im) -> Indiv.alive im = true ->
  exists im', fst (Peeps.applyMove (inds, g) record) !! m = Some (Some im') /\
              Indiv.alive im' = true.
Proof.
  intros Hm Halive. unfold Peeps.applyMove.
  destruct (_ <? 0); [eauto|].
  set (n := Z.to_nat (MoveRecord.indivIndex record)).
  destruct (mjoin (inds !! n)) as [indiv|] eqn:Hlook; [|eauto].
  apply mjoin_lookup_Some in Hlook.
  destruct (Indiv.alive indiv) eqn:Hindiv; [|eauto].
  destruct (_ && _); [|eauto].
  cbn [fst]. destruct (decide (n = m)) as [->|Hnm].
  - exists (Peeps.moveTo indiv (MoveRecord.newLoc record)). split.
    + apply list_lookup_insert_eq. eapply lookup_lt_Some, Hm.
    + exact Hindiv.
  - exists im. rewrite list_lookup_insert_ne by exact Hnm. auto.
Qed.

(** The moves queued before one into an empty cell, none of them into that
    cell, leave the cell empty and the mover alive. *)
Lemma fold_applyMove_before queue m loc : forall inds g im,
  gridWf g -> agrees inds g -> Grid.isInBounds g loc = true ->
  Grid.at_ g loc = Some EMPTY ->
  inds !! m = Some (Some im) -> Indiv.alive im = true ->
  Forall (fun record => MoveRecord.newLoc record <> loc) queue ->
  let st := fold_left Peeps.applyMove queue (inds, g) in
  gridWf (snd st) /\ agrees (fst st) (snd st) /\
  Grid.isInBounds (snd st) loc = true /\ Grid.at_ (snd st) loc = Some EMPTY /\
  exists im', fst st !! m = Some (Some im') /\ Indiv.alive im' = true.
Proof.
  induction queue as [|record queue IH];
    intros inds g im Hwf Hagree Hb Hempty Hm Halive Hq; cbn zeta.
  - cbn. eauto 10.
  - apply Forall_cons in Hq as [Hr Hq]. cbn [fold_left].
    destruct (applyMove_invariant inds g record Hwf Hagree)
      as (Hwf1 & Hagree1 & _).
    pose proof (applyMove_inBounds inds g record loc) as Hb1. rewrite Hb in Hb1.
    pose proof (applyMove_keeps_empty inds g record loc Hwf Hagree Hb Hempty Hr)
      as Hempty1.
    destruct (applyMove_alive inds g record m im Hm Halive)
      as (im1 & Hm1 & Halive1).
    destruct (Peeps.applyMove (inds, g) record) as [inds1 g1].
    cbn [fst snd] in *.
    exact (IH inds1 g1 im1 Hwf1 Hagree1 Hb1 Hempty1 Hm1 Halive1 Hq).
Qed.

Lemma fold_applyDeath_inBounds queue loc : forall deaths inds g,
  Grid.isInBounds
    (applyDeath_grid (fold_left Peeps.applyDeath queue (deaths, inds, g))) loc
  = Grid.isInBounds g loc.
Proof.
  induction queue as [|record queue IH]; intros deaths inds g.
  - reflexivity.
  - cbn [fold_left].
    pose proof (applyDeath_inBounds deaths inds g record loc) as Hb.
    destruct (Peeps.applyDeath (deaths, inds, g) record) as [[d1 inds1] g1].
    unfold applyDeath_grid in Hb. cbn [snd] in Hb. rewrite IH. exact Hb.
Qed.

Lemma drainDeathQueue_inds p g :
  Peeps.individuals (snd (fst (Peeps.drainDeathQueue p g)))
  = applyDeath_inds
      (fold_left Peeps.applyDeath (Peeps.deathQueue p) (0, Peeps.individuals p, g)).
Proof.
  unfold Peeps.drainDeathQueue.
  destruct (fold_left Peeps.applyDeath _ _) as [[d1 inds1] g1]. reflexivity.
Qed.

Lemma drainDeathQueue_grid p g :
  snd (Peeps.drainDeathQueue p g)
  = applyDeath_grid
      (fold_left Peeps.applyDeath (Peeps.deathQueue p) (0, Peeps.individuals p, g)).
Proof.
  unfold Peeps.drainDeathQueue.
  destruct (fold_left Peeps.applyDeath _ _) as [[d1 inds1] g1]. reflexivity.
Qed.

(** The end of a step is the two drains, deaths first. *)
Lemma endOfStep_drains {R : Type} (sim : Simulator.t R) :
  let after_deaths :=
    Peeps.drainDeathQueue (Simulator.peeps sim) (Simulator.grid sim) in
  let after_moves :=
    Peeps.drainMoveQueue (snd (fst after_deaths)) (snd after_deaths) in
  Simulator.peeps (endOfStep sim) = fst after_moves /\
  Simulator.grid (endOfStep sim) = snd after_moves.
Proof.
  cbn zeta. unfold endOfStep.
  destruct (Peeps.drainDeathQueue _ _) as [[deaths peeps1] grid1].
  cbn [fst snd].
  destruct (Peeps.drainMoveQueue peeps1 grid1) as [peeps2 grid2].
  split; reflexivity.
Qed.

(** A move onto the cell of an individual the death queue names is carried
    out when its turn comes, if no earlier move took the cell. *)
Lemma move_into_vacated_cell p g v iv m im pre post :
  gridWf g -> agrees (Peeps.individuals p) g ->
  Peeps.individuals p !! v = Some (Some iv) -> Indiv.alive iv = true ->
  In (DeathRecord.mk (Z.of_nat v)) (Peeps.deathQueue p) ->
  Peeps.individuals p !! m = Some (Some im) -> Indiv.alive im = true ->
  ~ In (DeathRecord.mk (Z.of_nat m)) (Peeps.deathQueue p) ->
  Peeps.moveQueue p = pre ++ MoveRecord.mk (Z.of_nat m) (Indiv.loc iv) :: post ->
  Forall (fun record => MoveRecord.newLoc record <> Indiv.loc iv) pre ->
  let after_deaths := Peeps.drainDeathQueue p g in
  let before :=
    fold_left Peeps.applyMove pre
      (Peeps.individuals (snd (fst after_deaths)), snd after_deaths) in
  let after :=
    Peeps.applyMove before (MoveRecord.mk (Z.of_nat m) (Indiv.loc iv)) in
  Grid.at_ (snd after) (Indiv.loc iv) = Some (Z.of_nat m) /\
  exists im', fst after !! m = Some (Some im') /\
              Indiv.alive im' = true /\ Indiv.loc im' = Indiv.loc iv.
Proof.
  intros Hwf Hagree Hv Hvalive Hvin Hm Hmalive Hmnot Hq Hpre. cbn zeta.
  rewrite drainDeathQueue_inds, drainDeathQueue_grid.
  set (loc := Indiv.loc iv) in *.
  set (st1 := fold_left Peeps.applyDeath (Peeps.deathQueue p)
                (0, Peeps.individuals p, g)).
  destruct (Hagree v iv Hv Hvalive) as (Hb & _ & _). fold loc in Hb.
  destruct (fold_applyDeath_invariant (Peeps.deathQueue p) 0
              (Peeps.individuals p) g Hwf Hagree) as (Hwf1 & Hagree1 & _).
  fold st1 in Hwf1, Hagree1.
  assert (Hb1 : Grid.isInBounds (applyDeath_grid st1) loc = true).
  { unfold st1. rewrite fold_applyDeath_inBounds. exact Hb. }
  assert (Hempty1 : Grid.at_ (applyDeath_grid st1) loc = Some EMPTY).
  { unfold st1. apply (fold_applyDeath_vacates _ v); auto.
    left. exists iv. auto. }
  assert (Hm1 : applyDeath_inds st1 !! m = Some (Some im)).
  { unfold st1. rewrite fold_applyDeath_other; [exact Hm|].
    apply Forall_forall. intros [i] Hin Hi. cbn in Hi. subst i.
    apply Hmnot, list_elem_of_In, Hin. }
  destruct (fold_applyMove_before pre m loc (applyDeath_inds st1)
              (applyDeath_grid st1) im Hwf1 Hagree1 Hb1 Hempty1 Hm1 Hmalive Hpre)
    as (Hwf2 & Hagree2 & Hb2 & Hempty2 & im2 & Hm2 & Halive2).
  destruct (fold_left Peeps.applyMove pre _) as [inds2 g2].
  cbn [fst snd] in *.
  destruct (Hagree2 m im2 Hm2 Halive2) as (Hbm & _ & Hrange).
  rewrite (applyMove_done inds2 g2 _ im2); cbn [MoveRecord.indivIndex MoveRecord.newLoc];
    rewrite ?Nat2Z.id; auto; [|lia|apply isEmptyAt_iff, Hempty2].
  cbn [fst snd]. split.
  - rewrite grid_at_set_same;
      [| apply grid_set_wf, Hwf2 | rewrite grid_set_inBounds; exact Hb2].
    rewrite ToUint16_small; [reflexivity | unfold BARRIER in Hrange; lia].
  - exists (Peeps.moveTo im2 loc). split; [|split; [exact Halive2 | reflexivity]].
    apply list_lookup_insert_eq. eapply lookup_lt_Some, Hm2.
Qed.

(** A move changes no individual but the one it names. *)
Lemma applyMove_other inds g record m :
  MoveRecord.indivIndex record <> Z.of_nat m ->
  fst (Peeps.applyMove (inds, g) record) !! m = inds !! m.
Proof.
  intros Hne. unfold Peeps.applyMove.
  destruct (Z.ltb_spec (MoveRecord.indivIndex record) 0); [reflexivity|].
  destruct (mjoin _) as [indiv|]; [|reflexivity].
  destruct (Indiv.alive indiv); [|reflexivity].
  destruct (_ && _); [|reflexivity].
  cbn [fst]. apply list_lookup_insert_ne. lia.
Qed.

Lemma fold_applyMove_other queue m : forall inds g,
  Forall (fun record => MoveRecord.indivIndex record <> Z.of_nat m) queue ->
  fst (fold_left Peeps.applyMove queue (inds, g)) !! m = inds !! m.
Proof.
  induction queue as [|record queue IH]; intros inds g Hq.
  - reflexivity.
  - apply Forall_cons in Hq as [Hr Hq]. cbn [fold_left].
    pose proof (applyMove_other inds g record m Hr) as Hsame.
    destruct (Peeps.applyMove (inds, g) record) as [inds1 g1].
    cbn [fst] in Hsame. rewrite IH by exact Hq. exact Hsame.
Qed.

(** The move onto a cell that a death of the same step vacates, seen after
    both drains: the mover stands on the cell and the cell holds its
    index. *)
Lemma vacated_cell_after_drains p g v iv m im pre post :
  gridWf g -> agrees (Peeps.individuals p) g ->
  Peeps.individuals p !! v = Some (Some iv) -> Indiv.alive iv = true ->
  In (DeathRecord.mk (Z.of_nat v)) (Peeps.deathQueue p) ->
  Peeps.individuals p !! m = Some (Some im) -> Indiv.alive im = true ->
  ~ In (DeathRecord.mk (Z.of_nat m)) (Peeps.deathQueue p) ->
  Peeps.moveQueue p = pre ++ MoveRecord.mk (Z.of_nat m) (Indiv.loc iv) :: post ->
  Forall (fun record => MoveRecord.newLoc record <> Indiv.loc iv) pre ->
  Forall (fun record => MoveRecord.indivIndex record <> Z.of_nat m) post ->
  let after_deaths := Peeps.drainDeathQueue p g in
  let after_moves :=
    Peeps.drainMoveQueue (snd (fst after_deaths)) (snd after_deaths) in
  Grid.at_ (snd after_moves) (Indiv.loc iv) = Some (Z.of_nat m) /\
  exists im', Peeps.individuals (fst after_moves) !! m = Some (Some im') /\
              Indiv.alive im' = true /\ Indiv.loc im' = Indiv.loc iv.
Proof.
  intros Hwf Hagree Hv Hvalive Hvin Hm Hmalive Hmnot Hq Hpre Hpost.
  destruct (move_into_vacated_cell p g v iv m im pre post Hwf Hagree Hv Hvalive
              Hvin Hm Hmalive Hmnot Hq Hpre) as (_ & im' & Hm' & Halive' & Hloc').
  destruct (drains_invariant p g Hwf Hagree) as (_ & Hagree2 & _).
  cbn zeta in *.
  assert (Hfinal :
    Peeps.individuals
      (fst (Peeps.drainMoveQueue (snd (fst (Peeps.drainDeathQueue p g)))
              (snd (Peeps.drainDeathQueue p g)))) !! m = Some (Some im')).
  { rewrite <- Hm'. unfold Peeps.drainMoveQueue.
    assert (Hmq : Peeps.moveQueue (snd (fst (Peeps.drainDeathQueue p g)))
                  = Peeps.moveQueue p).
    { unfold Peeps.drainDeathQueue.
      destruct (fold_left Peeps.applyDeath _ _) as [[d1 inds1] g1]. reflexivity. }
    rewrite Hmq, Hq, fold_left_app. cbn [fold_left].
    match goal with
    | |- context [fold_left Peeps.applyMove post ?st] =>
        pose proof (fold_applyMove_other post m (fst st) (snd st) Hpost) as Hkeep;
        rewrite <- surjective_pairing in Hkeep;
        destruct (fold_left Peeps.applyMove post st) as [inds3 g3]
    end.
    cbn [fst Peeps.individuals] in *. exact Hkeep. }
  split.
  - destruct (Hagree2 m im' Hfinal Halive') as (_ & Hat & _).
    rewrite <- Hloc'. exact Hat.
  - exists im'. auto.
Qed.

(** C5, amended.  At the end of a step the death queue is drained and then
    the move queue.  When its turn comes, a move whose individual is dead,
    or whose destination is not empty, changes nothing.  The grid is a
    [Uint16Array], so what follows holds where every index is a cell tag of
    its own and fails beyond (Part IV).  From a grid and a population that
    agree (every living individual stands inside the grid on the cell that
    holds its index, an index above 0 and below 0xFFFF), both drains lead to
    a grid and a population that agree, and no two living individuals stand
    on the same cell.  A move onto the cell of a living
    individual the death queue names, by an individual the death queue does
    not name, succeeds, provided no move queued before it has the same
    destination and no move queued after it is by the same individual:
    after both drains the mover stands on that cell and the cell holds the
    mover's index. *)
Theorem deaths_drain_before_moves (sim : Simulator.t PRNG.t) :
  gridWf (Simulator.grid sim) ->
  agrees (Peeps.individuals (Simulator.peeps sim)) (Simulator.grid sim) ->
  let p := Simulator.peeps sim in
  let g := Simulator.grid sim in
  let after_deaths := Peeps.drainDeathQueue p g in
  let after_moves :=
    Peeps.drainMoveQueue (snd (fst after_deaths)) (snd after_deaths) in
  (Simulator.peeps (endOfStep sim) = fst after_moves /\
   Simulator.grid (endOfStep sim) = snd after_moves) /\
  (forall inds grid record,
     (forall indiv,
        inds !! Z.to_nat (MoveRecord.indivIndex record) = Some (Some indiv) ->
        Indiv.alive indiv = false) \/
     Grid.isEmptyAt grid (MoveRecord.newLoc record) = false ->
     Peeps.applyMove (inds, grid) record = (inds, grid)) /\
  agrees (Peeps.individuals (Simulator.peeps (endOfStep sim)))
         (Simulator.grid (endOfStep sim)) /\
  noSharedCell (Peeps.individuals (Simulator.peeps (endOfStep sim))) /\
  (forall v iv m im pre post,
     Peeps.individuals p !! v = Some (Some iv) -> Indiv.alive iv = true ->
     In (DeathRecord.mk (Z.of_nat v)) (Peeps.deathQueue p) ->
     Peeps.individuals p !! m = Some (Some im) -> Indiv.alive im = true ->
     ~ In (DeathRecord.mk (Z.of_nat m)) (Peeps.deathQueue p) ->
     Peeps.moveQueue p
       = pre ++ MoveRecord.mk (Z.of_nat m) (Indiv.loc iv) :: post ->
     Forall (fun record => MoveRecord.newLoc record <> Indiv.loc iv) pre ->
     Forall (fun record => MoveRecord.indivIndex record <> Z.of_nat m) post ->
     Grid.at_ (Simulator.grid (endOfStep sim)) (Indiv.loc iv) = Some (Z.of_nat m) /\
     exists im',
       Peeps.individuals (Simulator.peeps (endOfStep sim)) !! m = Some (Some im') /\
       Indiv.alive im' = true /\ Indiv.loc im' = Indiv.loc iv).
Proof.
  intros Hwf Hagree p g after_deaths after_moves.
  destruct (drains_invariant p g Hwf Hagree) as (_ & Hagree2 & _).
  destruct (endOfStep_drains sim) as [Hp Hg]. fold p g in Hp, Hg.
  fold after_deaths in Hp, Hg. fold after_moves in Hp, Hg.
  rewrite Hp, Hg.
  split; [split; reflexivity|].
  split.
  { intros inds grid record Hcase. apply applyMove_dropped.
    intros indiv Hlook. destruct Hcase as [Hdead | Hfull]; auto. }
  split; [exact Hagree2|].
  split; [eapply agrees_noSharedCell, Hagree2|].
  intros v iv m im pre post Hv Hvalive Hvin Hm Hmalive Hmnot Hq Hpre Hpost.
  eapply vacated_cell_after_drains; eauto.
Qed.

Lemma deaths_drain_before_moves_witness :
  Grid.data (Simulator.grid (endOfStep twoNeighbours)) = [2; 0] /\
  noSharedCell (Peeps.individuals (Simulator.peeps (endOfStep twoNeighbours))) /\
  Grid.at_ (Simulator.grid (endOfStep twoNeighbours)) (Coord.mk 0 0) = Some 2 /\
  exists mover,
    Peeps.individuals (Simulator.peeps (endOfStep twoNeighbours)) !! 2%nat
      = Some (Some mover) /\
    Indiv.alive mover = true /\ Indiv.loc mover = Coord.mk 0 0.
Proof.
  assert (Hwf : gridWf (Simulator.grid twoNeighbours)).
  { cbn. unfold gridWf. cbn. repeat split; try lia.
    repeat constructor; lia. }
  assert (Hagree : agrees (Peeps.individuals (Simulator.peeps twoNeighbours))
                          (Simulator.grid twoNeighbours)).
  { intros i indiv Hi _. cbn in Hi. unfold BARRIER.
    destruct i as [|[|[|i]]]; cbn in Hi; try discriminate;
      injection Hi as <-; cbn; repeat split; lia. }
  destruct (deaths_drain_before_moves twoNeighbours Hwf Hagree)
    as ((_ & Hgrid) & _ & _ & Hshared & Hvacated).
  split; [rewrite Hgrid; vm_compute; reflexivity|].
  split; [exact Hshared|].
  apply (Hvacated 1%nat (bareIndiv 1 (Coord.mk 0 0)) 2%nat
           (bareIndiv 2 (Coord.mk 1 0)) [] [] eq_refl eq_refl
           (or_introl eq_refl) eq_refl eq_refl).
  - intros [Heq|[]]. discriminate Heq.
  - reflexivity.
  - apply Forall_nil_2.
  - apply Forall_nil_2.
Defined.

(** ** The SIGNAL0_LR sensor *)

Lemma densityAt_get s layerNum loc :
  (layerNum < Signals.numLayers s)%nat -> Signals.isInBounds s loc = true ->
  default 0 (Signals.cell s layerNum (Signals.idx s (Coord.x loc) (Coord.y loc)))
  = Signals.get s layerNum loc.
Proof.
  intros Hl Hb. unfold Signals.get. rewrite Hb.
  destruct (Nat.leb_spec (Signals.numLayers s) layerNum); [lia|]. reflexivity.
Qed.

(** The loops of [getSignalDensity] sum and count the neighbourhood. *)
Lemma fold_densityAt s layerNum center radius offsets : forall acc,
  (layerNum < Signals.numLayers s)%nat ->
  let cells :=
    List.filter (Signals.isInBounds s)
      (map (fun d : Z * Z =>
              Coord.mk (Coord.x center + fst d) (Coord.y center + snd d))
         (List.filter (fun d : Z * Z => inCircle radius (fst d) (snd d))
            offsets)) in
  fold_left (Signals.densityAt layerNum center radius s) offsets acc
  = (fst acc + sumZ (map (Signals.get s layerNum) cells),
     snd acc + Z.of_nat (length cells)).
Proof.
  induction offsets as [|[dx dy] offsets IH]; intros [sum count] Hl; cbn zeta.
  - cbn. f_equal; lia.
  - cbn [fold_left]. rewrite IH by exact Hl. cbn zeta.
    unfold Signals.densityAt.
    cbn [List.filter]. cbv beta. cbn [fst snd].
    destruct (inCircle radius dx dy); [|reflexivity].
    cbn [map List.filter]. cbv beta. cbn [fst snd].
    destruct (Signals.isInBounds s _) eqn:Hb; [|reflexivity].
    rewrite densityAt_get by auto. cbn [Coord.x Coord.y] in *.
    cbn [map sumZ fold_right length fst snd].
    fold (sumZ (map (Signals.get s layerNum)
      (List.filter (Signals.isInBounds s)
        (map (fun d : Z * Z =>
                Coord.mk (Coord.x center + fst d) (Coord.y center + snd d))
           (List.filter (fun d : Z * Z => inCircle radius (fst d) (snd d))
              offsets))))).
    f_equal; lia.
Qed.

Lemma getSignalDensity_neighbourhood s layerNum center radius :
  Signals.getSignalDensity s layerNum center radius
  = neighbourhoodDensity s layerNum center radius.
Proof.
  unfold Signals.getSignalDensity, neighbourhoodDensity.
  destruct (Nat.leb_spec (Signals.numLayers s) layerNum) as [|Hl];
    [reflexivity|].
  rewrite (fold_densityAt s layerNum center radius _ (0, 0) Hl).
  cbn [fst snd]. rewrite !Z.add_0_l. reflexivity.
Qed.

(** The single-cell reading and the sensor differ: with no signal on the
    two cells beside the individual and a signal two cells further to the
    right, the single cells give one half and the sensor gives one. *)
Lemma signal0LR_not_single_cell :
  let right := Coord.mk 6 5 in
  let left := Coord.mk 4 5 in
  let s := SensorContext.signals signalToTheRight in
  coordAdd (Indiv.loc northbound)
    (Dir.asNormalizedCoord (Dir.rotate90CW (Indiv.lastMoveDir northbound)))
    = right /\
  coordAdd (Indiv.loc northbound)
    (Dir.asNormalizedCoord (Dir.rotate90CCW (Indiv.lastMoveDir northbound)))
    = left /\
  Signals.get s 0 right = 0 /\ Signals.get s 0 left = 0 /\
  signal0LR_single_cell northbound signalToTheRight = 0.5%float /\
  getSensor (fun x => x) northbound Sensor.SIGNAL0_LR signalToTheRight
    (PRNG.create 1) = (1%float, PRNG.create 1) /\
  fst (getSensor (fun x => x) northbound Sensor.SIGNAL0_LR signalToTheRight
         (PRNG.create 1))
    <> signal0LR_single_cell northbound signalToTheRight.
Proof.
  cbn zeta. repeat split; try (vm_compute; reflexivity).
  intros Heq.
  apply (f_equal (fun v => PrimFloat.eqb v 1)) in Heq.
  vm_compute in Heq. discriminate Heq.
Qed.

(** C9, amended.  The SIGNAL0_LR sensor returns right / (right + left),
    where right and left are the signal densities of layer 0 around the
    cells one step to the right and one step to the left of the last-move
    direction: the mean, over 255, of the cells of the grid within
    [signalSensorRadius] of that cell, and zero when that cell is outside
    the grid.  It returns one half when the sum of the two is not above
    zero, so when both are zero.  The generator is not used. *)
Theorem signal0LR_neighbourhood_densities (Math_sin : float -> float)
    (indiv : Indiv.t) (ctx : SensorContext.t) (r : PRNG.t) :
  let s := SensorContext.signals ctx in
  let radius := SimParams.signalSensorRadius (SensorContext.params ctx) in
  let side (dir : Dir.t) : float :=
    let c := coordAdd (Indiv.loc indiv) (Dir.asNormalizedCoord dir) in
    if Grid.isInBounds (SensorContext.grid ctx) c
    then neighbourhoodDensity s 0 c radius else 0%float in
  let right := side (Dir.rotate90CW (Indiv.lastMoveDir indiv)) in
  let left := side (Dir.rotate90CCW (Indiv.lastMoveDir indiv)) in
  getSensor Math_sin indiv Sensor.SIGNAL0_LR ctx r =
    (if PrimFloat.ltb 0 (right + left) then (right / (right + left))%float
     else 0.5%float, r) /\
  (right = 0%float -> left = 0%float ->
   getSensor Math_sin indiv Sensor.SIGNAL0_LR ctx r = (0.5%float, r)).
Proof.
  cbn zeta.
  assert (Heq : getSensor Math_sin indiv Sensor.SIGNAL0_LR ctx r =
    (signal0LR indiv ctx, r)) by reflexivity.
  rewrite Heq. unfold signal0LR. rewrite !getSignalDensity_neighbourhood.
  split; [reflexivity|].
  intros -> ->. reflexivity.
Qed.

Lemma signal0LR_neighbourhood_densities_witness :
  getSensor (fun x => x) (bareIndiv 1 (Coord.mk 0 0)) Sensor.SIGNAL0_LR
    (SensorContext.mk (Grid.create 2 1) (Signals.create 2 1 1) Peeps.empty
       twoGeneParams 0 1) (PRNG.create 1)
  = (0.5%float, PRNG.create 1).
Proof.
  apply (signal0LR_neighbourhood_densities (fun x => x)
           (bareIndiv 1 (Coord.mk 0 0))
           (SensorContext.mk (Grid.create 2 1) (Signals.create 2 1 1)
              Peeps.empty twoGeneParams 0 1) (PRNG.create 1));
    vm_compute; reflexivity.
Defined.

(** ** A step keeps the invariants *)

(** A genome wires a network whose neuron sources exist. *)
Lemma buildNeuralNet_wired genome n :
  1 <= n -> Forall gene_ids_nonneg genome ->
  exists net, buildNeuralNet genome n = Returns net /\ wired net.
Proof.
  intros Hn Hgenome.
  destruct (buildNeuralNet_prunes genome n Hn Hgenome)
    as (net & Hrun & _ & _ & Hsub & Hlen & _).
  exists net. split; [exact Hrun|].
  unfold wired. rewrite Hlen, Z2Nat.id by lia.
  apply Forall_forall. intros c Hc Hty.
  apply (elem_of_sublist _ _ _ Hc) in Hsub.
  apply list_elem_of_fmap in Hsub as (g & -> & Hg).
  rewrite Forall_forall in Hgenome. destruct (Hgenome g Hg) as [Hsrc _].
  unfold connOfGene in *. cbn [Conn.sourceType Conn.sourceId] in *.
  destruct (Z.eqb_spec (sourceType g) SENSOR); [contradiction|].
  apply Z.rem_bound_pos; lia.
Qed.

Lemma createIndiv_wired index genome loc params :
  1 <= SimParams.maxNumberNeurons params -> Forall gene_ids_nonneg genome ->
  exists indiv, createIndiv index genome loc params = Returns indiv /\
    Indiv.alive indiv = true /\ Indiv.loc indiv = loc /\
    wired (Indiv.nnet indiv).
Proof.
  intros Hn Hgenome. unfold createIndiv.
  destruct (buildNeuralNet_wired genome _ Hn Hgenome) as (net & -> & Hw).
  cbn. eexists. split; [reflexivity|]. cbn. auto.
Qed.

Lemma propagate_returns nnet sensorValues acc conn :
  (Conn.sourceType conn <> SENSOR ->
   0 <= Conn.sourceId conn < Z.of_nat (length (neurons nnet))) ->
  exists acc', propagate nnet sensorValues acc conn = Returns acc'.
Proof.
  intros Hsrc. unfold propagate. destruct acc as [actionLevels neuronAccum].
  destruct (Z.eqb_spec (Conn.sourceType conn) SENSOR) as [Hs|Hs].
  - cbn. destruct (Conn.sinkType conn =? ACTION); eauto.
  - specialize (Hsrc Hs). unfold elem.
    destruct (Z.ltb_spec (Conn.sourceId conn) 0); [lia|].
    destruct (lookup_lt_is_Some_2 (neurons nnet) (Z.to_nat (Conn.sourceId conn)))
      as [n Hn]; [lia|].
    rewrite Hn. cbn. destruct (Conn.sinkType conn =? ACTION); eauto.
Qed.

Lemma propagateAll_returns nnet sensorValues conns : forall acc,
  Forall (fun c => Conn.sourceType c <> SENSOR ->
            0 <= Conn.sourceId c < Z.of_nat (length (neurons nnet))) conns ->
  exists acc', propagateAll nnet sensorValues conns acc = Returns acc'.
Proof.
  induction conns as [|conn conns IH]; intros acc Hall.
  - cbn. eauto.
  - apply Forall_cons in Hall as [Hc Hall]. cbn [propagateAll].
    destruct (propagate_returns nnet sensorValues acc conn Hc) as [acc' ->].
    cbn. apply IH, Hall.
Qed.

(** A wired network answers, and stays wired. *)
Lemma feedForward_returns Math_tanh nnet sensorValues :
  wired nnet ->
  exists levels nnet',
    feedForward Math_tanh nnet sensorValues = Returns (levels, nnet') /\
    wired nnet'.
Proof.
  intros Hw. unfold feedForward.
  destruct (propagateAll_returns nnet sensorValues (connections nnet)
              (replicate (Z.to_nat NUM_ACTIONS) 0%float,
               replicate (length (neurons nnet)) 0%float) Hw)
    as [[actionLevels neuronAccum] ->].
  cbn. eexists _, _. split; [reflexivity|].
  unfold wired, activate. cbn [connections neurons].
  rewrite length_imap. exact Hw.
Qed.

Lemma sameStanding_refl {R : Type} (st : ActState.t R) : sameStanding st st.
Proof. repeat split. Qed.

Lemma sameStanding_trans {R : Type} (a b c : ActState.t R) :
  sameStanding a b -> sameStanding b c -> sameStanding a c.
Proof.
  intros (H1 & H2 & H3 & H4) (K1 & K2 & K3 & K4).
  repeat split; congruence.
Qed.

Section ActionsFrame.
Context {R : Type} `{RandomSource R}.
Variable Math_exp : float -> float.

(** No action touches the population's individuals, nor the life, the
    place or the wiring of the one that acts. *)
Lemma actionStep_frame params grid threshold a level (st : ActState.t R) :
  sameStanding st (actionStep params grid threshold a level st).
Proof.
  unfold actionStep.
  destruct a;
    repeat match goal with
           | |- context [if ?b then _ else _] => destruct b
           | |- context [Dir.random ?r] => destruct (Dir.random r)
           | |- context [livingAt ?g ?p ?l] =>
               destruct (livingAt g p l) as [[? ?]|]
           end;
    repeat split; reflexivity.
Qed.

Lemma actionLoop_frame params grid threshold actionLevels actions :
  forall a (st : ActState.t R),
  sameStanding st (actionLoop params grid threshold actionLevels actions a st).
Proof.
  induction actions as [|act actions IH]; intros a st.
  - apply sameStanding_refl.
  - cbn [actionLoop]. eapply sameStanding_trans; [|apply IH].
    apply actionStep_frame.
Qed.

Lemma executeActions_frame indiv actionLevels params grid signals peeps (r : R) :
  let st := executeActions Math_exp indiv actionLevels params grid signals peeps r in
  Peeps.individuals (ActState.peeps st) = Peeps.individuals peeps /\
  Indiv.alive (ActState.self st) = Indiv.alive indiv /\
  Indiv.loc (ActState.self st) = Indiv.loc indiv /\
  Indiv.nnet (ActState.self st) = Indiv.nnet indiv.
Proof.
  cbn zeta. unfold executeActions.
  match goal with
  | |- context [actionLoop ?p ?g ?t ?l ?acts ?a ?st0] =>
      pose proof (actionLoop_frame p g t l acts a st0) as Hloop;
      remember (actionLoop p g t l acts a st0) as st eqn:Hst
  end.
  clear Hst. destruct Hloop as (H1 & H2 & H3 & H4).
  cbn [ActState.peeps ActState.self] in H1, H2, H3, H4.
  destruct (negb _ || negb _); [|auto].
  destruct (_ && _); [|auto].
  cbn [ActState.peeps ActState.self Peeps.queueMove Peeps.individuals
       Indiv.set_lastMoveDir Indiv.alive Indiv.loc Indiv.nnet].
  auto.
Qed.

End ActionsFrame.

Section StepInvariant.
Context {R : Type} `{RandomSource R}.
Variables Math_sin Math_tanh Math_exp : float -> float.

(** The turn of one individual: it returns, leaves the grid alone and
    keeps the invariant. *)
Lemma stepIndiv_invariant step (sim : Simulator.t R) i :
  stepInvariant sim ->
  exists sim', stepIndiv Math_sin Math_tanh Math_exp step sim i = Returns sim' /\
    stepInvariant sim' /\ Simulator.grid sim' = Simulator.grid sim.
Proof.
  intros Hinv. unfold stepIndiv, Peeps.get.
  assert (Hsame : exists sim', Returns sim = Returns sim' /\
            stepInvariant sim' /\ Simulator.grid sim' = Simulator.grid sim)
    by (exists sim; auto).
  destruct Hinv as (Hwf & Hagree & Hwired).
  destruct (Z.ltb_spec i 0) as [|Hi]; [exact Hsame|].
  destruct (mjoin (Peeps.individuals (Simulator.peeps sim) !! Z.to_nat i))
    as [indiv|] eqn:Hlook; [|exact Hsame].
  apply mjoin_lookup_Some in Hlook.
  destruct (Indiv.alive indiv) eqn:Halive; cbn [negb]; [|exact Hsame].
  clear Hsame.
  unfold simStepIndiv.
  destruct (getSensorValues _ _ _ _) as [sensorValues r'].
  destruct (feedForward_returns Math_tanh (Indiv.nnet indiv) sensorValues
              (Hwired _ _ Hlook)) as (levels & nnet' & -> & Hw').
  cbn [mbind Outcome_bind fst snd].
  match goal with
  | |- context [executeActions ?e ?ind ?l ?p ?g ?s ?pp ?r] =>
      pose proof (executeActions_frame e ind l p g s pp r) as Hframe;
      remember (executeActions e ind l p g s pp r) as st eqn:Hst
  end.
  clear Hst. cbn zeta in Hframe. destruct Hframe as (H1 & H2 & H3 & H4).
  cbn [Indiv.set_nnet Indiv.alive Indiv.loc Indiv.nnet] in H2, H3, H4.
  eexists. split; [reflexivity|].
  cbn [Simulator.grid]. split; [|reflexivity].
  unfold stepInvariant. cbn [Simulator.grid Simulator.peeps].
  unfold Peeps.put. destruct (Z.ltb_spec i 0); [lia|].
  cbn [Peeps.individuals]. rewrite H1.
  split; [exact Hwf|]. split.
  - intros j other Hj Hother.
    apply list_lookup_insert_Some in Hj as [(<- & Heq & _) | (Hne & Hj)].
    + injection Heq as <-.
      cbn [Indiv.set_age Indiv.loc Indiv.alive] in *. rewrite H3.
      apply Hagree; [exact Hlook | exact Halive].
    + apply Hagree; auto.
  - apply allWired_insert; [exact Hwired|].
    cbn [Indiv.set_age Indiv.nnet]. rewrite H4. exact Hw'.
Qed.

Lemma stepAll_invariant step indices : forall (sim : Simulator.t R),
  stepInvariant sim ->
  exists sim', stepAll Math_sin Math_tanh Math_exp step indices sim = Returns sim' /\
    stepInvariant sim' /\ Simulator.grid sim' = Simulator.grid sim.
Proof.
  induction indices as [|i indices IH]; intros sim Hinv.
  - exists sim. auto.
  - cbn [stepAll].
    destruct (stepIndiv_invariant step sim i Hinv) as (sim1 & -> & Hinv1 & Hg1).
    cbn [mbind Outcome_bind].
    destruct (IH sim1 Hinv1) as (sim2 & -> & Hinv2 & Hg2).
    exists sim2. split; [reflexivity|]. split; [exact Hinv2|congruence].
Qed.

(** The end of a step keeps the invariant and every barrier. *)
Lemma endOfStep_invariant (sim : Simulator.t R) :
  stepInvariant sim ->
  stepInvariant (endOfStep sim) /\
  keepsBarriers (Simulator.grid sim) (Simulator.grid (endOfStep sim)).
Proof.
  intros (Hwf & Hagree & Hwired).
  destruct (endOfStep_drains sim) as [Hp Hg].
  destruct (drains_invariant (Simulator.peeps sim) (Simulator.grid sim)
              Hwf Hagree) as (Hwf2 & Hagree2 & Hkeep & _).
  pose proof (drains_wired (Simulator.peeps sim) (Simulator.grid sim) Hwired)
    as Hwired2.
  unfold stepInvariant. rewrite Hp, Hg. auto.
Qed.

(** A whole step returns, keeps the invariant and every barrier. *)
Lemma stepOnce_invariant (sim : Simulator.t R) :
  stepInvariant sim ->
  exists mid,
    stepAll Math_sin Math_tanh Math_exp (Simulator.simStep sim)
      (seqZ 1 (Peeps.getPopulationSize (Simulator.peeps sim))) sim = Returns mid /\
    Simulator.grid mid = Simulator.grid sim /\
    stepOnce Math_sin Math_tanh Math_exp sim = Returns (endOfStep mid) /\
    stepInvariant mid /\ stepInvariant (endOfStep mid) /\
    keepsBarriers (Simulator.grid sim) (Simulator.grid (endOfStep mid)).
Proof.
  intros Hinv. unfold stepOnce.
  destruct (stepAll_invariant (Simulator.simStep sim)
              (seqZ 1 (Peeps.getPopulationSize (Simulator.peeps sim))) sim Hinv)
    as (mid & Hrun & Hinv1 & Hg1).
  exists mid. rewrite Hrun. cbn [mbind Outcome_bind].
  destruct (endOfStep_invariant mid Hinv1) as [Hinv2 Hkeep].
  rewrite Hg1 in Hkeep. auto 10.
Qed.

End StepInvariant.

(** ** [nextInt] in exact arithmetic

    The integer quotient and the binary64 computation of the source agree
    on the first draws of a generator, for bounds up to [2^21 - 1]. *)
Lemma nextInt_exact_on_samples :
  forallb (fun max =>
    forallb (fun k =>
      let r := PRNG.after k (PRNG.create 1) in
      fst (Rng.nextInt max r) =? fst (Rng.nextInt_binary64 max r))
      (seq 0 40))
    [1; 2; 3; 8; 32; 100; 128; 256; 5000; 65535; 2 ^ 21 - 1] = true.
Proof. vm_compute. reflexivity. Qed.

(** ** Placing a population establishes the invariants *)

Lemma nextUint32_range (r : PRNG.t) : 0 <= fst (PRNG.nextUint32 r) < 2 ^ 32.
Proof. unfold PRNG.nextUint32. cbn [fst]. apply shru_range. lia. Qed.

(** [nextInt(max)] is below [max]. *)
Lemma nextInt_range max (r : PRNG.t) :
  0 < max -> 0 <= fst (Rng.nextInt max r) < max.
Proof.
  intros Hmax. unfold Rng.nextInt, drawUint32, PRNG_source.
  pose proof (nextUint32_range r) as Hu.
  destruct (PRNG.nextUint32 r) as [u r']. cbn [fst] in *. split.
  - apply Z.div_pos; nia.
  - apply Z.div_lt_upper_bound; nia.
Qed.

Lemma isEmptyAt_sizes g loc :
  gridWf g -> Grid.isEmptyAt g loc = true -> 0 < Grid.sizeX g /\ 0 < Grid.sizeY g.
Proof.
  intros (Hx & Hy & Hlen & _) He. apply isEmptyAt_iff in He.
  unfold Grid.at_ in He. destruct (_ <? 0); [discriminate|].
  apply lookup_lt_Some in He. rewrite Hlen in He.
  assert (Hpos : 0 < Grid.sizeX g * Grid.sizeY g) by lia.
  clear He Hlen. split.
  - destruct (Z.eq_dec (Grid.sizeX g) 0) as [Hz|]; [|lia].
    rewrite Hz in Hpos. lia.
  - destruct (Z.eq_dec (Grid.sizeY g) 0) as [Hz|]; [|lia].
    rewrite Hz in Hpos. lia.
Qed.

(** The search, one attempt unfolded. *)
Lemma findEmpty_eq {R : Type} `{RandomSource R} more grid (r : R) :
  Peeps.findEmpty more grid r =
  let xr := Rng.nextInt (Grid.sizeX grid) r in
  let yr := Rng.nextInt (Grid.sizeY grid) (snd xr) in
  match more with
  | O => (None, snd yr)
  | S more' =>
      if Grid.isEmptyAt grid (Coord.mk (fst xr) (fst yr))
      then (Some (Coord.mk (fst xr) (fst yr)), snd yr)
      else Peeps.findEmpty more' grid (snd yr)
  end.
Proof.
  destruct more; cbn [Peeps.findEmpty]; cbv zeta;
    destruct (Rng.nextInt (Grid.sizeX grid) r) as [x r1]; cbn [fst snd];
    destruct (Rng.nextInt (Grid.sizeY grid) r1) as [y r2]; reflexivity.
Qed.


(** A cell the search returns is an empty cell of the grid. *)
Lemma findEmpty_found more : forall grid (r : PRNG.t) loc r',
  gridWf grid ->
  Peeps.findEmpty more grid r = (Some loc, r') ->
  Grid.isInBounds grid loc = true /\ Grid.isEmptyAt grid loc = true.
Proof.
  induction more as [|more IH]; intros grid r loc r' Hwf Hfind;
    rewrite findEmpty_eq in Hfind; cbv zeta in Hfind.
  - apply pair_equal_spec in Hfind as [Hfind _]. discriminate Hfind.
  - destruct (Grid.isEmptyAt grid _) eqn:He.
    + apply pair_equal_spec in Hfind as [Hloc _].
      apply (inj Some) in Hloc.
      subst loc. split; [|exact He].
      destruct (isEmptyAt_sizes grid _ Hwf He) as [Hsx Hsy].
      apply grid_inBounds_iff. cbn [Coord.x Coord.y].
      pose proof (nextInt_range (Grid.sizeX grid) r Hsx).
      pose proof (nextInt_range (Grid.sizeY grid)
                    (snd (Rng.nextInt (Grid.sizeX grid) r)) Hsy).
      lia.
    + exact (IH grid _ loc r' Hwf Hfind).
Qed.

Lemma findEmpty_fst more grid (r : PRNG.t) loc :
  gridWf grid -> fst (Peeps.findEmpty more grid r) = Some loc ->
  Grid.isInBounds grid loc = true /\ Grid.isEmptyAt grid loc = true.
Proof.
  intros Hwf Hfind.
  apply (findEmpty_found more grid r loc (snd (Peeps.findEmpty more grid r)) Hwf).
  rewrite <- Hfind. apply surjective_pairing.
Qed.

Lemma makeRandomGene_in_range (r : PRNG.t) : gene_in_range (fst (makeRandomGene r)).
Proof.
  unfold makeRandomGene. destruct (Rng.next r) as [v r']. cbn [fst].
  apply uint32ToGene_in_range.
Qed.

Lemma makeRandomGenes_in_range n : forall (r : PRNG.t),
  Forall gene_in_range (fst (makeRandomGenes n r)).
Proof.
  induction n as [|n IH]; intros r; cbn [makeRandomGenes].
  - constructor.
  - pose proof (makeRandomGene_in_range r) as Hg.
    destruct (makeRandomGene r) as [g r1].
    specialize (IH r1). destruct (makeRandomGenes n r1) as [gs r2].
    constructor; assumption.
Qed.

Lemma Forall_ids_nonneg genome :
  Forall gene_in_range genome -> Forall gene_ids_nonneg genome.
Proof.
  intros Hall. eapply Forall_impl; [exact Hall|].
  exact gene_in_range_ids_nonneg.
Qed.

(** Placing a living, wired individual on an empty cell under the next
    index. *)
Lemma place_invariant inds grid indiv :
  gridWf grid -> agrees inds grid -> allWired inds ->
  Grid.isInBounds grid (Indiv.loc indiv) = true ->
  Grid.isEmptyAt grid (Indiv.loc indiv) = true ->
  wired (Indiv.nnet indiv) ->
  0 < Z.of_nat (length inds) < BARRIER ->
  gridWf (Grid.set grid (Indiv.loc indiv) (Z.of_nat (length inds))) /\
  agrees (inds ++ [Some indiv])
         (Grid.set grid (Indiv.loc indiv) (Z.of_nat (length inds))) /\
  allWired (inds ++ [Some indiv]).
Proof.
  intros Hwf Hagree Hwired Hb He Hw Hn. apply isEmptyAt_iff in He.
  split; [apply grid_set_wf, Hwf|]. split.
  - intros j other Hj Hother. rewrite grid_set_inBounds.
    apply lookup_snoc_Some in Hj as [[Hlt Hj] | [-> Heq]].
    + destruct (Hagree j other Hj Hother) as (Hb' & Hat' & Hj').
      split; [exact Hb'|]. split; [|exact Hj'].
      rewrite grid_at_set_other; auto.
      intros Heq. rewrite Heq, Hat' in He. injection He as Hz.
      unfold EMPTY in Hz. lia.
    + injection Heq as <-. split; [exact Hb|]. split; [|exact Hn].
      rewrite grid_at_set_same by auto.
      rewrite ToUint16_small; [reflexivity | unfold BARRIER in Hn; lia].
  - intros j other Hj.
    apply lookup_snoc_Some in Hj as [[Hlt Hj] | [-> Heq]].
    + eapply Hwired, Hj.
    + injection Heq as <-. exact Hw.
Qed.

Lemma Returns_triple {A B C : Type} (a a' : A) (b b' : B) (c c' : C) :
  Returns (a, b, c) = Returns (a', b', c') -> a = a' /\ b = b' /\ c = c'.
Proof. intros Heq. injection Heq as -> -> ->. auto. Qed.

(** The loop of [init], one turn unfolded. *)
Lemma initLoop_eq {R : Type} `{RandomSource R} n i params inds grid (r : R) :
  Peeps.initLoop (S n) i params inds grid r =
  let lr := Rng.nextRange (SimParams.genomeInitialLengthMin params)
              (SimParams.genomeInitialLengthMax params) r in
  let gr := makeRandomGenome (snd lr) (fst lr) in
  let fr := Peeps.findEmpty (Z.to_nat 9999) grid (snd gr) in
  match fst fr with
  | None => Returns (inds, grid, snd fr)
  | Some loc =>
      indiv ← createIndiv i (fst gr) loc params;
      Peeps.initLoop n (i + 1) params (inds ++ [Some indiv])
        (Grid.set grid loc i) (snd fr)
  end.
Proof.
  cbn [Peeps.initLoop]. cbv zeta.
  destruct (Rng.nextRange _ _ r) as [genomeLength r1]. cbn [fst snd].
  destruct (makeRandomGenome r1 genomeLength) as [genome r2]. cbn [fst snd].
  destruct (Peeps.findEmpty _ grid r2) as [[loc|] r3]; reflexivity.
Qed.

(** The loop of [initFromGenomes], one turn unfolded. *)
Lemma initFromLoop_eq {R : Type} `{RandomSource R} genome genomes i params inds
    grid (r : R) :
  Peeps.initFromLoop (genome :: genomes) i params inds grid r =
  if i <? SimParams.population params
  then
    let fr := Peeps.findEmpty (Z.to_nat 9999) grid r in
    match fst fr with
    | None => Returns (inds, grid, snd fr)
    | Some loc =>
        indiv ← createIndiv (i + 1) genome loc params;
        Peeps.initFromLoop genomes (i + 1) params (inds ++ [Some indiv])
          (Grid.set grid loc (i + 1)) (snd fr)
    end
  else Returns (inds, grid, r).
Proof.
  cbn [Peeps.initFromLoop]. cbv zeta.
  destruct (i <? SimParams.population params); [|reflexivity].
  destruct (Peeps.findEmpty _ grid r) as [[loc|] r3]; reflexivity.
Qed.

Lemma initLoop_invariant n : forall i params inds grid (r : PRNG.t) inds' grid' r',
  1 <= SimParams.maxNumberNeurons params ->
  gridWf grid -> agrees inds grid -> allWired inds ->
  i = Z.of_nat (length inds) -> 0 < i -> i + Z.of_nat n <= BARRIER ->
  Peeps.initLoop n i params inds grid r = Returns (inds', grid', r') ->
  gridWf grid' /\ agrees inds' grid' /\ allWired inds'.
Proof.
  induction n as [|n IH];
    intros i params inds grid r inds' grid' r' Hnn Hwf Hagree Hwired Hi Hpos Hmax Hrun.
  - cbn [Peeps.initLoop] in Hrun.
    apply Returns_triple in Hrun as (<- & <- & _). auto.
  - rewrite initLoop_eq in Hrun. cbv zeta in Hrun.
    set (lr := Rng.nextRange _ _ r) in Hrun.
    pose proof (makeRandomGenes_in_range (Z.to_nat (fst lr)) (snd lr)) as Hgenome.
    fold (makeRandomGenome (snd lr) (fst lr)) in Hgenome.
    set (gr := makeRandomGenome (snd lr) (fst lr)) in *.
    set (fr := Peeps.findEmpty _ grid (snd gr)) in *.
    destruct (fst fr) as [loc|] eqn:Hfind.
    + destruct (findEmpty_fst _ _ _ _ Hwf Hfind) as [Hb He].
      destruct (createIndiv_wired i (fst gr) loc params Hnn
                  (Forall_ids_nonneg _ Hgenome))
        as (indiv & Hcreate & Halive & Hloc & Hw).
      rewrite Hcreate in Hrun. cbn [mbind Outcome_bind] in Hrun.
      subst loc i.
      destruct (place_invariant inds grid indiv Hwf Hagree Hwired Hb He Hw)
        as (Hwf1 & Hagree1 & Hwired1); [lia|].
      apply (IH (Z.of_nat (length inds) + 1) params (inds ++ [Some indiv]) _
               (snd fr) inds' grid' r' Hnn Hwf1 Hagree1 Hwired1);
        [| lia | | exact Hrun].
      * rewrite length_app. cbn [length]. lia.
      * lia.
    + apply Returns_triple in Hrun as (<- & <- & _). auto.
Qed.

Lemma initFromLoop_invariant genomes :
  forall i params inds grid (r : PRNG.t) inds' grid' r',
  1 <= SimParams.maxNumberNeurons params ->
  SimParams.population params < BARRIER ->
  Forall (Forall gene_in_range) genomes ->
  gridWf grid -> agrees inds grid -> allWired inds ->
  0 <= i -> i + 1 = Z.of_nat (length inds) ->
  Peeps.initFromLoop genomes i params inds grid r = Returns (inds', grid', r') ->
  gridWf grid' /\ agrees inds' grid' /\ allWired inds'.
Proof.
  induction genomes as [|genome genomes IH];
    intros i params inds grid r inds' grid' r' Hnn Hpop Hgenomes Hwf Hagree
           Hwired Hpos Hi Hrun.
  - cbn [Peeps.initFromLoop] in Hrun.
    apply Returns_triple in Hrun as (<- & <- & _). auto.
  - apply Forall_cons in Hgenomes as [Hgenome Hgenomes].
    rewrite initFromLoop_eq in Hrun. cbv zeta in Hrun.
    destruct (Z.ltb_spec i (SimParams.population params)) as [Hlt|];
      [|apply Returns_triple in Hrun as (<- & <- & _); auto].
    set (fr := Peeps.findEmpty _ grid r) in *.
    destruct (fst fr) as [loc|] eqn:Hfind.
    + destruct (findEmpty_fst _ _ _ _ Hwf Hfind) as [Hb He].
      destruct (createIndiv_wired (i + 1) genome loc params Hnn
                  (Forall_ids_nonneg _ Hgenome))
        as (indiv & Hcreate & Halive & Hloc & Hw).
      rewrite Hcreate in Hrun. cbn [mbind Outcome_bind] in Hrun.
      subst loc.
      destruct (place_invariant inds grid indiv Hwf Hagree Hwired Hb He Hw)
        as (Hwf1 & Hagree1 & Hwired1); [lia|].
      rewrite <- Hi in Hwf1, Hagree1.
      apply (IH (i + 1) params (inds ++ [Some indiv]) _ (snd fr) inds' grid' r'
               Hnn Hpop Hgenomes Hwf1 Hagree1 Hwired1); [lia | | exact Hrun].
      rewrite length_app. cbn [length]. lia.
    + apply Returns_triple in Hrun as (<- & <- & _). auto.
Qed.

Lemma agrees_start g : agrees [None] g.
Proof. intros [|i] indiv Hi; cbn in Hi; discriminate. Qed.

Lemma allWired_start : allWired [None].
Proof. intros [|i] indiv Hi; cbn in Hi; discriminate. Qed.

(** Every state of a run satisfies the invariant. *)
Lemma Reachable_invariant Math_sin Math_tanh Math_exp sim :
  Reachable Math_sin Math_tanh Math_exp sim -> stepInvariant sim.
Proof.
  induction 1 as [params grid0 r peeps grid r' signals generation Hwf Hpop Hnn Hinit
                 |params genomes grid0 r peeps grid r' signals generation
                    Hwf Hpop Hnn Hgenomes Hinit
                 |sim sim' Hreach IH Hstep].
  - unfold Peeps.init in Hinit.
    destruct (Peeps.initLoop _ _ _ _ _ _) as [[[inds g] r1]| |] eqn:Hloop;
      try discriminate.
    cbn [mbind Outcome_bind] in Hinit.
    apply Returns_triple in Hinit as (<- & <- & _).
    unfold stepInvariant. cbn [Simulator.grid Simulator.peeps Peeps.individuals].
    apply (initLoop_invariant (Z.to_nat (SimParams.population params)) 1 params
             [None] grid0 r inds g r1 Hnn Hwf
             (agrees_start grid0) allWired_start); [reflexivity | lia | | exact Hloop].
    unfold BARRIER in *. lia.
  - unfold Peeps.initFromGenomes in Hinit.
    destruct (Peeps.initFromLoop _ _ _ _ _ _) as [[[inds g] r1]| |] eqn:Hloop;
      try discriminate.
    cbn [mbind Outcome_bind] in Hinit.
    apply Returns_triple in Hinit as (<- & <- & _).
    unfold stepInvariant. cbn [Simulator.grid Simulator.peeps Peeps.individuals].
    apply (initFromLoop_invariant genomes 0 params [None] grid0 r inds g r1
             Hnn Hpop Hgenomes Hwf (agrees_start grid0) allWired_start);
      [lia | reflexivity | exact Hloop].
  - destruct (stepOnce_invariant Math_sin Math_tanh Math_exp sim IH)
      as (mid & _ & _ & Hrun & _ & Hinv & _).
    rewrite Hrun in Hstep. apply (f_equal (fun o => match o with Returns s => s | _ => sim' end)) in Hstep.
    cbv beta iota in Hstep. subst sim'. exact Hinv.
Qed.

(** ** Barriers *)

Lemma grid_create_wf sizeX sizeY :
  0 <= sizeX -> 0 <= sizeY -> gridWf (Grid.create sizeX sizeY).
Proof.
  intros Hx Hy. unfold gridWf, Grid.create. cbn [Grid.sizeX Grid.sizeY Grid.data].
  split; [exact Hx|]. split; [exact Hy|]. split; [apply length_replicate|].
  apply Forall_replicate. lia.
Qed.

Lemma applyDeath_sizeX deaths inds g record :
  Grid.sizeX (applyDeath_grid (Peeps.applyDeath (deaths, inds, g) record))
  = Grid.sizeX g.
Proof.
  unfold Peeps.applyDeath, applyDeath_grid.
  destruct (_ <? 0); [reflexivity|].
  destruct (mjoin _) as [indiv|]; [|reflexivity].
  destruct (Indiv.alive indiv); [|reflexivity].
  cbn [snd]. apply grid_set_sizes.
Qed.

Lemma fold_applyDeath_sizeX queue : forall deaths inds g,
  Grid.sizeX (applyDeath_grid (fold_left Peeps.applyDeath queue (deaths, inds, g)))
  = Grid.sizeX g.
Proof.
  induction queue as [|record queue IH]; intros deaths inds g.
  - reflexivity.
  - cbn [fold_left].
    pose proof (applyDeath_sizeX deaths inds g record) as Hs.
    destruct (Peeps.applyDeath (deaths, inds, g) record) as [[d1 inds1] g1].
    unfold applyDeath_grid in Hs. cbn [snd] in Hs. rewrite IH. exact Hs.
Qed.

Lemma applyMove_sizeX inds g record :
  Grid.sizeX (snd (Peeps.applyMove (inds, g) record)) = Grid.sizeX g.
Proof.
  unfold Peeps.applyMove.
  destruct (_ <? 0); [reflexivity|].
  destruct (mjoin _) as [indiv|]; [|reflexivity].
  destruct (Indiv.alive indiv); [|reflexivity].
  destruct (_ && _); [|reflexivity].
  cbn [snd].
  rewrite (proj1 (grid_set_sizes _ _ _)). apply grid_set_sizes.
Qed.

Lemma fold_applyMove_sizeX queue : forall inds g,
  Grid.sizeX (snd (fold_left Peeps.applyMove queue (inds, g))) = Grid.sizeX g.
Proof.
  induction queue as [|record queue IH]; intros inds g.
  - reflexivity.
  - cbn [fold_left].
    pose proof (applyMove_sizeX inds g record) as Hs.
    destruct (Peeps.applyMove (inds, g) record) as [inds1 g1].
    cbn [snd] in Hs. rewrite IH. exact Hs.
Qed.

(** Each drain keeps every barrier and the width of the grid. *)
Lemma drains_keep_barriers p g :
  gridWf g -> agrees (Peeps.individuals p) g ->
  let after_deaths := Peeps.drainDeathQueue p g in
  let after_moves :=
    Peeps.drainMoveQueue (snd (fst after_deaths)) (snd after_deaths) in
  keepsBarriers g (snd after_deaths) /\
  keepsBarriers (snd after_deaths) (snd after_moves) /\
  Grid.sizeX (snd after_moves) = Grid.sizeX g.
Proof.
  intros Hwf Hagree. cbn zeta. unfold Peeps.drainDeathQueue.
  destruct (fold_applyDeath_invariant (Peeps.deathQueue p) 0
              (Peeps.individuals p) g Hwf Hagree)
    as (Hwf1 & Hagree1 & Hkeep1).
  pose proof (fold_applyDeath_sizeX (Peeps.deathQueue p) 0
                (Peeps.individuals p) g) as Hs1.
  destruct (fold_left Peeps.applyDeath _ _) as [[d1 inds1] g1].
  unfold applyDeath_grid, applyDeath_inds in *. cbn [fst snd] in *.
  unfold Peeps.drainMoveQueue. cbn [Peeps.moveQueue Peeps.individuals].
  destruct (fold_applyMove_invariant (Peeps.moveQueue p) inds1 g1
              Hwf1 Hagree1) as (_ & _ & Hkeep2).
  pose proof (fold_applyMove_sizeX (Peeps.moveQueue p) inds1 g1) as Hs2.
  destruct (fold_left Peeps.applyMove _ _) as [inds2 g2].
  cbn [fst snd] in *. split; [exact Hkeep1|]. split; [exact Hkeep2|]. congruence.
Qed.

Lemma keepsBarriers_isBarrierAt g g' loc :
  Grid.sizeX g' = Grid.sizeX g -> keepsBarriers g g' ->
  Grid.isBarrierAt g loc = true -> Grid.isBarrierAt g' loc = true.
Proof.
  intros Hs Hkeep. unfold Grid.isBarrierAt, Grid.at_, Grid.idx. rewrite Hs.
  destruct (_ <? 0); [discriminate|].
  destruct (Grid.data g !! _) as [v|] eqn:Hv; [|discriminate].
  intros Hb. apply Z.eqb_eq in Hb. subst v.
  rewrite (Hkeep _ Hv). reflexivity.
Qed.

(** The busy first generation is a state of a run. *)
Lemma busyGeneration_reachable :
  exists sim, busyGeneration = Returns sim /\
    Reachable (fun v => v) (fun v => v) (fun v => v) sim /\
    Simulator.params sim = fourGeneParams.
Proof.
  unfold busyGeneration.
  destruct (Peeps.init fourGeneParams
              (Grid.set (Grid.create 8 8) (Coord.mk 3 3) BARRIER) (PRNG.create 5))
    as [[[peeps grid] r]| |] eqn:Hinit;
    [| vm_compute in Hinit; discriminate Hinit
     | vm_compute in Hinit; discriminate Hinit].
  eexists. split; [reflexivity|]. split; [|reflexivity].
  apply (reach_init _ _ _ fourGeneParams
           (Grid.set (Grid.create 8 8) (Coord.mk 3 3) BARRIER) (PRNG.create 5)
           peeps grid r); [| vm_compute; reflexivity | vm_compute; discriminate
                          | exact Hinit].
  apply grid_set_wf, grid_create_wf; lia.
Qed.

Lemma firstStep_eq start sim sim' :
  start = Returns sim ->
  stepOnce (fun v => v) (fun v => v) (fun v => v) sim = Returns sim' ->
  firstStep start = Returns (sim, sim').
Proof.
  intros -> Hstep. unfold firstStep. cbn [mbind Outcome_bind].
  rewrite Hstep. reflexivity.
Qed.

Lemma busyStep_writes : busyWrites (firstStep busyGeneration).
Proof. vm_compute. repeat split. Qed.

Lemma busyStep_of sim sim' :
  busyGeneration = Returns sim ->
  stepOnce (fun v => v) (fun v => v) (fun v => v) sim = Returns sim' ->
  busyWrites (Returns (sim, sim')).
Proof.
  intros Hfirst Hstep.
  rewrite <- (firstStep_eq busyGeneration sim sim' Hfirst Hstep).
  exact busyStep_writes.
Qed.

(** After that step individual 3 is alive in its slot. *)
Lemma busyMover_lives : busyMover (firstStep busyGeneration).
Proof. vm_compute. eexists. repeat split. Qed.

Lemma busyMover_of sim sim' :
  busyGeneration = Returns sim ->
  stepOnce (fun v => v) (fun v => v) (fun v => v) sim = Returns sim' ->
  exists mover,
    Peeps.get (Simulator.peeps sim') 3 = Some mover /\
    Peeps.individuals (Simulator.peeps sim') !! 3%nat = Some (Some mover) /\
    Indiv.alive mover = true.
Proof.
  intros Hfirst Hstep.
  pose proof busyMover_lives as Hm.
  rewrite (firstStep_eq busyGeneration sim sim' Hfirst Hstep) in Hm.
  exact Hm.
Qed.



(* ================================================================== *)
(** * Part III: more of the source                                    *)
(* ================================================================== *)

(** ** Directions *)

Lemma rem_rem8 a : Z.rem (Z.rem a 8 + 8) 8 = a mod 8.
Proof. Z.to_euclidean_division_equations. lia. Qed.

Lemma rotate_mod d n :
  d <> Compass.CENTER -> Dir.rotate d n = Compass.ofZ ((Compass.toZ d + n) mod 8).
Proof. intros Hd. unfold Dir.rotate. rewrite rem_rem8. destruct d; congruence. Qed.

Lemma toZ_ofZ k :
  0 <= k < 8 -> Compass.toZ (Compass.ofZ k) = k /\ Compass.ofZ k <> Compass.CENTER.
Proof.
  intros Hk.
  assert (Hc : k = 0 \/ k = 1 \/ k = 2 \/ k = 3 \/ k = 4 \/ k = 5 \/ k = 6 \/ k = 7)
    by lia.
  destruct Hc as [-> | [-> | [-> | [-> | [-> | [-> | [-> | ->]]]]]]];
    cbn; split; congruence.
Qed.

Lemma ofZ_toZ d : Compass.ofZ (Compass.toZ d) = d.
Proof. destruct d; reflexivity. Qed.

Lemma center_or_not (d : Dir.t) : d = Compass.CENTER \/ d <> Compass.CENTER.
Proof. destruct d; (left; reflexivity) || (right; discriminate). Qed.

Lemma rotate_rotate d n m : Dir.rotate (Dir.rotate d n) m = Dir.rotate d (n + m).
Proof.
  destruct (center_or_not d) as [->|Hd]; [reflexivity|].
  rewrite (rotate_mod d n), (rotate_mod d (n + m)) by exact Hd.
  pose proof (Z.mod_pos_bound (Compass.toZ d + n) 8 ltac:(lia)) as Hk.
  destruct (toZ_ofZ _ Hk) as [Hto Hne].
  rewrite rotate_mod by exact Hne. rewrite Hto.
  rewrite Zplus_mod_idemp_l. f_equal. f_equal. lia.
Qed.

Lemma rotate_0 d : Dir.rotate d 0 = d.
Proof. destruct d; reflexivity. Qed.

(** X1. Rotations of a direction add up: turning by [n] and then by [m]
    eighths is turning by [n + m], for all integers, negative ones too.
    Turning by nothing or by eight eighths changes nothing, a quarter turn
    one way undoes a quarter turn the other way, a half turn undoes itself,
    and the centre is the only direction a turn leads to the centre from. *)
Theorem rotate_adds (d : Dir.t) (n m : Z) :
  Dir.rotate (Dir.rotate d n) m = Dir.rotate d (n + m) /\
  Dir.rotate d 0 = d /\
  Dir.rotate d (n + 8) = Dir.rotate d n /\
  Dir.rotate90CW (Dir.rotate90CCW d) = d /\
  Dir.rotate90CCW (Dir.rotate90CW d) = d /\
  Dir.rotate180 (Dir.rotate180 d) = d /\
  (Dir.rotate d n = Compass.CENTER <-> d = Compass.CENTER).
Proof.
  split; [apply rotate_rotate|]. split; [apply rotate_0|].
  split.
  { rewrite <- rotate_rotate. destruct (Dir.rotate d n); reflexivity. }
  split; [destruct d; reflexivity|]. split; [destruct d; reflexivity|].
  split; [destruct d; reflexivity|].
  split.
  - intros Hc. destruct (center_or_not d) as [|Hd]; [assumption|].
    rewrite rotate_mod in Hc by exact Hd.
    pose proof (Z.mod_pos_bound (Compass.toZ d + n) 8 ltac:(lia)) as Hk.
    destruct (toZ_ofZ _ Hk) as [_ Hne]. contradiction.
  - intros ->. reflexivity.
Qed.

(** X2. The table of unit offsets and [coordToCompass] are inverse to each
    other: every direction is read back from its offset, and every offset
    with coordinates in -1..1 from its direction.  In the offsets (x to the
    east, y to the south) a half turn negates both coordinates, a quarter
    turn clockwise takes (x, y) to (-y, x) and a quarter turn
    counter-clockwise takes it to (y, -x). *)
Theorem compass_offsets (d : Dir.t) :
  let c := Dir.asNormalizedCoord d in
  coordToCompass (Coord.x c) (Coord.y c) = d /\
  Dir.asNormalizedCoord (Dir.rotate180 d) = Coord.mk (- Coord.x c) (- Coord.y c) /\
  Dir.asNormalizedCoord (Dir.rotate90CW d) = Coord.mk (- Coord.y c) (Coord.x c) /\
  Dir.asNormalizedCoord (Dir.rotate90CCW d) = Coord.mk (Coord.y c) (- Coord.x c) /\
  (forall dx dy, -1 <= dx <= 1 -> -1 <= dy <= 1 ->
     Dir.asNormalizedCoord (coordToCompass dx dy) = Coord.mk dx dy).
Proof.
  cbn zeta. repeat split; try (destruct d; reflexivity).
  intros dx dy Hx Hy.
  assert (Hdx : dx = -1 \/ dx = 0 \/ dx = 1) by lia.
  assert (Hdy : dy = -1 \/ dy = 0 \/ dy = 1) by lia.
  destruct Hdx as [-> | [-> | ->]], Hdy as [-> | [-> | ->]]; reflexivity.
Qed.

(** X3. [coordAsDir] reads the direction of any vector off the signs of its
    coordinates: the offset of the direction it returns is the pair of
    signs, the zero vector gives the centre, and every direction is read
    back from its own offset. *)
Theorem coordAsDir_signs (c : Coord.t) :
  Dir.asNormalizedCoord (coordAsDir c) = Coord.mk (Z.sgn (Coord.x c)) (Z.sgn (Coord.y c)) /\
  (coordAsDir c = Compass.CENTER <-> c = Coord.mk 0 0) /\
  (forall d, coordAsDir (Dir.asNormalizedCoord d) = d).
Proof.
  destruct c as [x y]. unfold coordAsDir. cbn [Coord.x Coord.y].
  split; [|split].
  - destruct (Z.eqb_spec x 0) as [->|Hx], (Z.eqb_spec y 0) as [->|Hy];
      try destruct (Z.ltb_spec 0 x); try destruct (Z.ltb_spec 0 y);
      cbn [Dir.asNormalizedCoord]; f_equal; lia.
  - split.
    + destruct (Z.eqb_spec x 0) as [->|Hx], (Z.eqb_spec y 0) as [->|Hy];
        try destruct (Z.ltb_spec 0 x); try destruct (Z.ltb_spec 0 y);
        intros Hc; try discriminate Hc; reflexivity.
    + intros Heq. injection Heq as -> ->. reflexivity.
  - intros d. destruct d; reflexivity.
Qed.

(** ** The gene codec, beyond its range *)

(** X4. Packing accepts any gene: the result is a 32-bit word, unpacking it
    gives an in-range gene that packs to the same word, and that gene is
    the one packed exactly when the one packed was in range. *)
Theorem codec_normalises (g : Gene) :
  0 <= geneToUint32 g < 2 ^ 32 /\
  gene_in_range (uint32ToGene (geneToUint32 g)) /\
  geneToUint32 (uint32ToGene (geneToUint32 g)) = geneToUint32 g /\
  (uint32ToGene (geneToUint32 g) = g <-> gene_in_range g).
Proof.
  pose proof (geneToUint32_range g) as Hr.
  split; [exact Hr|]. split; [apply uint32ToGene_in_range|].
  split; [apply pack_unpack, Hr|]. split.
  - intros <-. apply uint32ToGene_in_range.
  - apply unpack_pack.
Qed.

(** ** The grid *)

Lemma grid_at_Some g loc :
  gridWf g -> Grid.isInBounds g loc = true ->
  exists v, Grid.at_ g loc = Some v /\ 0 <= v < 2 ^ 16.
Proof.
  intros Hwf Hb. rewrite grid_at_data by auto.
  pose proof (grid_idx_range g loc Hwf Hb) as Hi.
  destruct (lookup_lt_is_Some_2 (Grid.data g)
              (Z.to_nat (Grid.idx g (Coord.x loc) (Coord.y loc)))) as [v Hv];
    [lia|].
  exists v. split; [exact Hv|].
  destruct Hwf as (_ & _ & _ & Hall).
  rewrite Forall_forall in Hall. apply Hall. eapply list_elem_of_lookup_2, Hv.
Qed.

(** X5. A write to a cell of the grid is read back reduced to 16 bits, as
    the [Uint16Array] stores it, and no other cell of the grid changes; the
    dimensions stay.  So a value of 65536 or more does not stay what it
    was: 65536 reads back as the empty tag. *)
Theorem grid_set_then_at (g : Grid.t) (loc : Coord.t) (v : Z) :
  gridWf g -> Grid.isInBounds g loc = true ->
  Grid.at_ (Grid.set g loc v) loc = Some (v mod 2 ^ 16) /\
  (forall loc', Grid.isInBounds g loc' = true -> loc' <> loc ->
     Grid.at_ (Grid.set g loc v) loc' = Grid.at_ g loc') /\
  (forall loc', Grid.isInBounds (Grid.set g loc v) loc' = Grid.isInBounds g loc') /\
  gridWf (Grid.set g loc v) /\
  Grid.isEmptyAt (Grid.set g loc 65536) loc = true.
Proof.
  intros Hwf Hb. split; [apply grid_at_set_same; auto|].
  split; [intros loc' Hb' Hne; apply grid_at_set_other; auto|].
  split; [intros loc'; apply grid_set_inBounds|].
  split; [apply grid_set_wf, Hwf|].
  apply isEmptyAt_iff. rewrite grid_at_set_same by auto. reflexivity.
Qed.

Lemma grid_set_then_at_witness :
  Grid.at_ (Grid.set (Grid.create 2 2) (Coord.mk 1 1) 65537) (Coord.mk 1 1)
  = Some (65537 mod 2 ^ 16).
Proof.
  apply (grid_set_then_at (Grid.create 2 2) (Coord.mk 1 1) 65537).
  - apply grid_create_wf; lia.
  - reflexivity.
Defined.

(** X6. In a grid as its constructor makes it, a cell in bounds is exactly
    one of empty, barrier and occupied.  The reads themselves check no
    bounds: a location whose index falls outside the array reads as
    [undefined], which is neither empty nor a barrier and so counts as
    occupied; every location at or below the last row's end does; and a
    column past the right edge reads the cell of the next row. *)
Theorem grid_cell_kinds (g : Grid.t) :
  gridWf g ->
  (forall loc, Grid.isInBounds g loc = true ->
     (Grid.isEmptyAt g loc = true /\ Grid.isBarrierAt g loc = false /\
      Grid.isOccupiedAt g loc = false) \/
     (Grid.isEmptyAt g loc = false /\ Grid.isBarrierAt g loc = true /\
      Grid.isOccupiedAt g loc = false) \/
     (Grid.isEmptyAt g loc = false /\ Grid.isBarrierAt g loc = false /\
      Grid.isOccupiedAt g loc = true)) /\
  (forall loc, Grid.at_ g loc = None ->
     Grid.isEmptyAt g loc = false /\ Grid.isBarrierAt g loc = false /\
     Grid.isOccupiedAt g loc = true) /\
  (forall x y, 0 <= x -> Grid.sizeY g <= y -> Grid.at_ g (Coord.mk x y) = None) /\
  (forall x y, Grid.at_ g (Coord.mk (x + Grid.sizeX g) y)
               = Grid.at_ g (Coord.mk x (y + 1))).
Proof.
  intros Hwf. split; [|split; [|split]].
  - intros loc Hb. destruct (grid_at_Some g loc Hwf Hb) as (v & Hv & _).
    unfold Grid.isEmptyAt, Grid.isBarrierAt, Grid.isOccupiedAt. rewrite Hv.
    unfold EMPTY, BARRIER.
    destruct (Z.eqb_spec v 0), (Z.eqb_spec v 65535); cbn; try lia; auto.
  - intros loc Hnone.
    unfold Grid.isEmptyAt, Grid.isBarrierAt, Grid.isOccupiedAt. rewrite Hnone.
    auto.
  - intros x y Hx Hy. destruct Hwf as (Hsx & Hsy & Hlen & _).
    unfold Grid.at_, Grid.idx. cbn [Coord.x Coord.y].
    destruct (Z.ltb_spec (y * Grid.sizeX g + x) 0); [reflexivity|].
    apply lookup_ge_None. rewrite Hlen. nia.
  - intros x y. unfold Grid.at_, Grid.idx. cbn [Coord.x Coord.y].
    replace ((y + 1) * Grid.sizeX g + x) with (y * Grid.sizeX g + (x + Grid.sizeX g))
      by lia.
    reflexivity.
Qed.

Lemma grid_cell_kinds_witness :
  Grid.at_ (Grid.create 3 2) (Coord.mk 0 2) = None.
Proof.
  apply (grid_cell_kinds (Grid.create 3 2)); [apply grid_create_wf; lia | lia | cbn; lia].
Defined.

Lemma barrierCount_replicate n v :
  v <> BARRIER -> List.filter (fun v => v =? BARRIER) (replicate n v) = [].
Proof.
  intros Hv. induction n as [|n IH]; [reflexivity|].
  cbn [replicate List.filter]. destruct (Z.eqb_spec v BARRIER); [contradiction|].
  exact IH.
Qed.

(** X7. [clear] empties every cell, the barriers too: afterwards every cell
    in bounds is empty and the grid counts no barrier; the dimensions
    stay. *)
Theorem grid_clear_empties (g : Grid.t) :
  gridWf g ->
  gridWf (Grid.clear g) /\
  (forall loc, Grid.isInBounds (Grid.clear g) loc = Grid.isInBounds g loc) /\
  (forall loc, Grid.isInBounds g loc = true -> Grid.isEmptyAt (Grid.clear g) loc = true) /\
  getBarrierCount (Grid.clear g) = 0.
Proof.
  intros Hwf.
  assert (Hdata : Grid.data (Grid.clear g) = replicate (length (Grid.data g)) EMPTY).
  { unfold Grid.clear. cbn [Grid.data].
    generalize (Grid.data g). intros l. induction l as [|a l IH]; [reflexivity|].
    cbn. f_equal. exact IH. }
  assert (Hwf' : gridWf (Grid.clear g)).
  { destruct Hwf as (Hx & Hy & Hlen & _). unfold gridWf. rewrite Hdata.
    cbn [Grid.clear Grid.sizeX Grid.sizeY]. repeat split; auto.
    - rewrite length_replicate. exact Hlen.
    - apply Forall_replicate. unfold EMPTY. lia. }
  split; [exact Hwf'|]. split; [reflexivity|]. split.
  - intros loc Hb. apply isEmptyAt_iff.
    destruct (grid_at_Some (Grid.clear g) loc Hwf' Hb) as (v & Hv & _).
    rewrite Hv. f_equal.
    rewrite grid_at_data in Hv by auto. rewrite Hdata in Hv.
    apply lookup_replicate in Hv as [-> _]. reflexivity.
  - unfold getBarrierCount. rewrite Hdata, barrierCount_replicate; [reflexivity|].
    discriminate.
Qed.

Lemma grid_clear_empties_witness :
  getBarrierCount
    (Grid.clear (Grid.set (Grid.create 2 2) (Coord.mk 1 1) BARRIER)) = 0.
Proof.
  apply (grid_clear_empties (Grid.set (Grid.create 2 2) (Coord.mk 1 1) BARRIER)).
  apply grid_set_wf, grid_create_wf; lia.
Defined.

Lemma ringOffsets_elem r dx dy :
  0 <= r ->
  (In (dx, dy) (ringOffsets r) <-> Z.max (Z.abs dx) (Z.abs dy) = r).
Proof.
  intros Hr. unfold ringOffsets. rewrite filter_In, <- list_elem_of_In.
  rewrite squareOffsets_elem. cbn [fst snd].
  rewrite orb_true_iff, !Z.eqb_eq. lia.
Qed.

Lemma ring_cell center r loc :
  0 <= r ->
  (In loc (map (fun d : Z * Z =>
                  Coord.mk (Coord.x center + fst d) (Coord.y center + snd d))
             (ringOffsets r))
   <-> ringDistance loc center = r).
Proof.
  intros Hr. rewrite in_map_iff. unfold ringDistance. split.
  - intros ([dx dy] & <- & Hin). apply ringOffsets_elem in Hin; [|exact Hr].
    cbn [fst snd Coord.x Coord.y].
    replace (Coord.x center + dx - Coord.x center) with dx by lia.
    replace (Coord.y center + dy - Coord.y center) with dy by lia.
    exact Hin.
  - intros Hd. exists (Coord.x loc - Coord.x center, Coord.y loc - Coord.y center).
    split.
    + destruct loc as [x y]. cbn [fst snd Coord.x Coord.y]. f_equal; lia.
    + apply ringOffsets_elem; assumption.
Qed.

Lemma findInRing_Some g center r loc :
  0 <= r -> findInRing g center r = Some loc ->
  Grid.isInBounds g loc = true /\ Grid.isEmptyAt g loc = true /\
  ringDistance loc center = r.
Proof.
  intros Hr Hfind. unfold findInRing in Hfind.
  apply find_some in Hfind as [Hin Hok]. cbv beta in Hok.
  apply andb_true_iff in Hok as [Hb He].
  apply ring_cell in Hin; auto.
Qed.

Lemma findInRing_None g center r loc :
  0 <= r -> findInRing g center r = None ->
  Grid.isInBounds g loc = true -> ringDistance loc center = r ->
  Grid.isEmptyAt g loc = false.
Proof.
  intros Hr Hfind Hb Hd. unfold findInRing in Hfind.
  apply (ring_cell center r loc Hr) in Hd.
  pose proof (find_none _ _ Hfind loc Hd) as Hok.
  cbv beta in Hok. rewrite Hb in Hok. exact Hok.
Qed.

Lemma searchRings_Some n : forall r g center loc,
  searchRings n r g center = Some loc ->
  exists k, r <= k < r + Z.of_nat n /\ findInRing g center k = Some loc /\
            forall j, r <= j < k -> findInRing g center j = None.
Proof.
  induction n as [|n IH]; intros r g center loc Hs; [discriminate|].
  cbn [searchRings] in Hs.
  destruct (findInRing g center r) as [found|] eqn:Hring.
  - apply (inj Some) in Hs. subst found. exists r.
    split; [lia|]. split; [exact Hring|]. intros j Hj. lia.
  - destruct (IH _ _ _ _ Hs) as (k & Hk & Hfound & Hbefore).
    exists k. split; [lia|]. split; [exact Hfound|].
    intros j Hj. destruct (Z.eq_dec j r) as [->|Hne]; [exact Hring|].
    apply Hbefore. lia.
Qed.

Lemma searchRings_None n : forall r g center,
  searchRings n r g center = None ->
  forall j, r <= j < r + Z.of_nat n -> findInRing g center j = None.
Proof.
  induction n as [|n IH]; intros r g center Hs j Hj; [lia|].
  cbn [searchRings] in Hs.
  destruct (findInRing g center r) as [found|] eqn:Hring; [discriminate|].
  destruct (Z.eq_dec j r) as [->|Hne]; [exact Hring|].
  apply (IH _ _ _ Hs). lia.
Qed.

(** X8. [findEmptyLocation] searches the square rings around the centre
    from the nearest outward.  What it returns is an empty cell of the grid
    whose ring is between 1 and [maxRadius], so never the centre itself,
    and no cell of the grid on a nearer ring is empty.  It returns nothing
    exactly when no cell of the grid on the rings 1 to [maxRadius] is
    empty. *)
Theorem findEmptyLocation_nearest (g : Grid.t) (center : Coord.t) (maxRadius : Z) :
  match findEmptyLocation g center maxRadius with
  | Some loc =>
      Grid.isInBounds g loc = true /\ Grid.isEmptyAt g loc = true /\
      1 <= ringDistance loc center <= maxRadius /\ loc <> center /\
      (forall loc', Grid.isInBounds g loc' = true ->
         1 <= ringDistance loc' center < ringDistance loc center ->
         Grid.isEmptyAt g loc' = false)
  | None =>
      forall loc', Grid.isInBounds g loc' = true ->
        1 <= ringDistance loc' center <= maxRadius ->
        Grid.isEmptyAt g loc' = false
  end.
Proof.
  unfold findEmptyLocation.
  destruct (searchRings (Z.to_nat maxRadius) 1 g center) as [loc|] eqn:Hs.
  - apply searchRings_Some in Hs as (k & Hk & Hfound & Hbefore).
    apply findInRing_Some in Hfound as (Hb & He & Hd); [|lia].
    split; [exact Hb|]. split; [exact He|]. split; [lia|]. split.
    + intros ->. unfold ringDistance in Hd. lia.
    + intros loc' Hb' Hd'.
      apply (findInRing_None g center (ringDistance loc' center)); auto; [lia|].
      apply Hbefore. lia.
  - intros loc' Hb' Hd'.
    apply (findInRing_None g center (ringDistance loc' center)); auto; [lia|].
    apply (searchRings_None _ _ _ _ Hs). lia.
Qed.

(** ** The genetic operators *)

Section RandomGenomes.
Context {R : Type} `{RandomSource R}.

Lemma makeRandomGene_decoded (r : R) : gene_in_range (fst (makeRandomGene r)).
Proof.
  unfold makeRandomGene. destruct (Rng.next r) as [v r']. cbn [fst].
  apply uint32ToGene_in_range.
Qed.

Lemma makeRandomGenes_shape n : forall (r : R),
  length (fst (makeRandomGenes n r)) = n /\
  Forall gene_in_range (fst (makeRandomGenes n r)).
Proof.
  induction n as [|n IH]; intros r; cbn [makeRandomGenes].
  - split; [reflexivity | constructor].
  - pose proof (makeRandomGene_decoded r) as Hg.
    destruct (makeRandomGene r) as [g r1].
    destruct (IH r1) as [Hlen Hall]. destruct (makeRandomGenes n r1) as [gs r2].
    cbn [fst length] in *. split; [congruence | constructor; assumption].
Qed.

Lemma makeRandomGenes_counted n : forall (c : Counted R),
  makeRandomGenes n c =
    (fst (makeRandomGenes n (source c)),
     counted (snd (makeRandomGenes n (source c))) (n + draws c)).
Proof.
  induction n as [|n IH]; intros c; cbn [makeRandomGenes].
  - destruct c; reflexivity.
  - rewrite makeRandomGene_counted.
    destruct (makeRandomGene (source c)) as [g r1]. cbn [fst snd].
    rewrite IH. cbn [source draws].
    destruct (makeRandomGenes n r1) as [gs r2]. cbn [fst snd].
    f_equal. f_equal. lia.
Qed.

End RandomGenomes.

(** X9. [makeRandomGenome(rng, n)] returns exactly [n] genes, none when
    [n] is zero or negative, each of them in range, and asks the generator
    for exactly [n] words. *)
Theorem makeRandomGenome_shape {R : Type} `{RandomSource R}
    (c : Counted R) (n : Z) :
  let made := makeRandomGenome c n in
  length (fst made) = Z.to_nat n /\
  Forall gene_in_range (fst made) /\
  fst made = fst (makeRandomGenome (source c) n) /\
  source (snd made) = snd (makeRandomGenome (source c) n) /\
  draws (snd made) = (Z.to_nat n + draws c)%nat.
Proof.
  cbn zeta. unfold makeRandomGenome.
  destruct (makeRandomGenes_shape (Z.to_nat n) c) as [Hlen Hall].
  split; [exact Hlen|]. split; [exact Hall|].
  rewrite makeRandomGenes_counted. cbn [fst snd source draws]. auto.
Qed.

(** One bit of a 32-bit word flipped, as [applyPointMutations] computes
    it. *)
Lemma flip_bit val bit :
  0 <= val < 2 ^ 32 -> 0 <= bit < 32 ->
  JS.shru (JS.bxor val (JS.shl 1 bit)) 0 = Z.lxor val (2 ^ bit).
Proof.
  intros Hval Hbit. apply Z.bits_inj'. intros n Hn.
  rewrite testbit_shru, Z.add_0_r, Z.lxor_spec, Z.pow2_bits_eqb by lia.
  destruct (Z.ltb_spec n 32) as [Hlt|Hge]; bool_tidy.
  - rewrite testbit_bxor, testbit_shl by lia. f_equal.
    destruct (Z.leb_spec bit n), (Z.eqb_spec bit n); bool_tidy; try lia.
    + subst n. rewrite Z.sub_diag. reflexivity.
    + rewrite testbit_1 by lia. zbool. reflexivity.
  - rewrite (testbit_uint32_high val) by lia.
    destruct (Z.eqb_spec bit n); [lia | reflexivity].
Qed.

Lemma pow2_bit_range bit : 0 <= bit < 32 -> 0 <= 2 ^ bit < 2 ^ 32.
Proof.
  intros Hbit. split; [apply Z.pow_nonneg; lia|].
  apply Z.pow_lt_mono_r; lia.
Qed.

(** Each gene after [applyPointMutations] against the gene before. *)
Lemma applyPointMutations_flips genome : forall (r : PRNG.t) rate,
  Forall2 (fun g g' =>
             g' = g \/
             exists b, 0 <= b < 32 /\ gene_in_range g' /\
                       geneToUint32 g' = Z.lxor (geneToUint32 g) (2 ^ b))
    genome (fst (applyPointMutations genome r rate)).
Proof.
  induction genome as [|gene rest IH]; intros r rate; cbn [applyPointMutations].
  - constructor.
  - destruct (Rng.chance rate r) as [[|] r1].
    + pose proof (nextInt_range 32 r1 ltac:(lia)) as Hbit.
      destruct (Rng.nextInt 32 r1) as [bit r2]. cbn [fst] in Hbit.
      specialize (IH r2 rate).
      destruct (applyPointMutations rest r2 rate) as [rest' r3]. cbn [fst] in *.
      constructor; [|exact IH]. right. exists bit.
      split; [exact Hbit|]. split; [apply uint32ToGene_in_range|].
      pose proof (geneToUint32_range gene) as Hval.
      rewrite flip_bit by assumption.
      apply pack_unpack, lxor_uint32_range; [exact Hval|].
      apply pow2_bit_range, Hbit.
    + specialize (IH r1 rate).
      destruct (applyPointMutations rest r1 rate) as [rest' r3]. cbn [fst] in *.
      constructor; [left; reflexivity | exact IH].
Qed.

(** The genome after [applyPointMutations] against the genome before. *)
Lemma applyPointMutations_shape (genome : Genome) (r : PRNG.t)
    (rate : float) :
  let out := fst (applyPointMutations genome r rate) in
  length out = length genome /\
  Forall2 (fun g g' =>
             g' = g \/
             exists b, 0 <= b < 32 /\ gene_in_range g' /\
                       geneToUint32 g' = Z.lxor (geneToUint32 g) (2 ^ b))
    genome out /\
  (Forall gene_in_range genome -> Forall gene_in_range out).
Proof.
  cbn zeta. pose proof (applyPointMutations_flips genome r rate) as Hflips.
  split; [symmetry; eapply Forall2_length, Hflips|]. split; [exact Hflips|].
  intros Hall. induction Hflips as [|g g' l l' Hg Hrest IH]; [constructor|].
  apply Forall_cons in Hall as [Hin Hall]. constructor; [|apply IH, Hall].
  destruct Hg as [-> | (b & _ & Hr & _)]; assumption.
Qed.

(** X10. [applyPointMutations] keeps the length of the genome, and each
    gene is afterwards either the gene it was or an in-range gene whose
    packed word differs from the packed word of the gene it was in exactly
    one of the 32 bits.  In-range genomes stay in range. *)
Theorem applyPointMutations_flips_one_bit (genome : Genome) (r : PRNG.t)
    (rate : float) :
  let out := fst (applyPointMutations genome r rate) in
  length out = length genome /\
  Forall2 (fun g g' =>
             g' = g \/
             exists b, 0 <= b < 32 /\ gene_in_range g' /\
                       geneToUint32 g' = Z.lxor (geneToUint32 g) (2 ^ b))
    genome out /\
  (Forall gene_in_range genome -> Forall gene_in_range out).
Proof. apply applyPointMutations_shape. Qed.

(** The genome after [applyInsertionDeletion] against the genome before. *)
Lemma applyInsertionDeletion_shape (genome : Genome) (r : PRNG.t)
    (rate deletionRatio : float) (maxLength : Z) :
  let out := fst (applyInsertionDeletion genome r rate deletionRatio maxLength) in
  (out = genome \/
   (exists i, (i < length genome)%nat /\ (2 <= length genome)%nat /\
              out = delete i genome) \/
   (exists i g, (i <= length genome)%nat /\ Z.of_nat (length genome) < maxLength /\
                gene_in_range g /\ out = take i genome ++ g :: drop i genome)) /\
  (length genome - 1 <= length out <= length genome + 1)%nat /\
  (genome <> [] -> out <> []) /\
  Z.of_nat (length out) <= Z.max (Z.of_nat (length genome)) maxLength /\
  (Forall gene_in_range genome -> Forall gene_in_range out).
Proof.
  cbn zeta.
  assert (Hcases :
    let out := fst (applyInsertionDeletion genome r rate deletionRatio maxLength) in
    out = genome \/
    (exists i, (i < length genome)%nat /\ (2 <= length genome)%nat /\
               out = delete i genome) \/
    (exists i g, (i <= length genome)%nat /\ Z.of_nat (length genome) < maxLength /\
                 gene_in_range g /\ out = take i genome ++ g :: drop i genome)).
  { cbn zeta. unfold applyInsertionDeletion.
    destruct (length genome =? 0)%nat; [left; reflexivity|].
    destruct (Rng.chance rate r) as [[|] r1]; [|left; reflexivity].
    destruct (Rng.chance deletionRatio r1) as [[|] r2].
    - destruct (Z.ltb_spec 1 (Z.of_nat (length genome))) as [Hlen|];
        [|left; reflexivity].
      pose proof (nextInt_range (Z.of_nat (length genome)) r2 ltac:(lia)) as Hidx.
      destruct (Rng.nextInt (Z.of_nat (length genome)) r2) as [idx r3].
      cbn [fst] in *. right. left. exists (Z.to_nat idx).
      split; [lia|]. split; [lia | reflexivity].
    - destruct (Z.ltb_spec (Z.of_nat (length genome)) maxLength) as [Hlen|];
        [|left; reflexivity].
      pose proof (nextInt_range (Z.of_nat (length genome) + 1) r2 ltac:(lia)) as Hidx.
      destruct (Rng.nextInt (Z.of_nat (length genome) + 1) r2) as [idx r3].
      pose proof (makeRandomGene_decoded r3) as Hg.
      destruct (makeRandomGene r3) as [g r4].
      cbn [fst] in *. right. right. exists (Z.to_nat idx), g.
      split; [lia|]. split; [exact Hlen|]. split; [exact Hg | reflexivity]. }
  cbn zeta in Hcases. split; [exact Hcases|].
  destruct Hcases as [-> | [(i & Hi & Hlen & ->) | (i & g & Hi & Hlen & Hg & ->)]].
  - split; [lia|]. split; [auto|]. split; [lia | auto].
  - assert (Hdel : length (delete i genome) = (length genome - 1)%nat)
      by (apply length_delete, lookup_lt_is_Some_2, Hi).
    rewrite Hdel. split; [lia|]. split.
    + intros _ Hnil. apply (f_equal length) in Hnil. rewrite Hdel in Hnil.
      cbn in Hnil. lia.
    + split; [lia|]. intros Hall. apply Forall_delete, Hall.
  - assert (Hins : length (take i genome ++ g :: drop i genome)
                   = S (length genome)).
    { rewrite length_app, length_take. cbn [length]. rewrite length_drop. lia. }
    rewrite Hins. split; [lia|]. split.
    + intros _ Hnil. apply (f_equal length) in Hnil. rewrite Hins in Hnil.
      discriminate.
    + split; [lia|]. intros Hall. apply Forall_app. split.
      * apply Forall_take, Hall.
      * constructor; [exact Hg | apply Forall_drop, Hall].
Qed.

(** X11. [applyInsertionDeletion] changes a genome by at most one gene: it
    returns the genome as it is, or the genome without one of its genes
    (only when it has two or more), or the genome with one in-range gene
    inserted (only when it is shorter than [maxLength]).  So a genome that
    is not empty stays so, and the length stays within the larger of what
    it was and [maxLength]. *)
Theorem applyInsertionDeletion_one_gene (genome : Genome) (r : PRNG.t)
    (rate deletionRatio : float) (maxLength : Z) :
  let out := fst (applyInsertionDeletion genome r rate deletionRatio maxLength) in
  (out = genome \/
   (exists i, (i < length genome)%nat /\ (2 <= length genome)%nat /\
              out = delete i genome) \/
   (exists i g, (i <= length genome)%nat /\ Z.of_nat (length genome) < maxLength /\
                gene_in_range g /\ out = take i genome ++ g :: drop i genome)) /\
  (length genome - 1 <= length out <= length genome + 1)%nat /\
  (genome <> [] -> out <> []) /\
  Z.of_nat (length out) <= Z.max (Z.of_nat (length genome)) maxLength /\
  (Forall gene_in_range genome -> Forall gene_in_range out).
Proof. apply applyInsertionDeletion_shape. Qed.

(** The cuts of [crossover], for parents that are not empty. *)
Lemma crossover_cut_points p1 p2 (r : PRNG.t) :
  p1 <> [] -> p2 <> [] ->
  exists c1 c2, (c1 < length p1)%nat /\ (c2 < length p2)%nat /\
    fst (crossover p1 p2 r) = take (S c1) p1 ++ drop (S c2) p2.
Proof.
  intros Hp1 Hp2. unfold crossover.
  destruct p1 as [|g1 p1]; [contradiction|].
  destruct p2 as [|g2 p2]; [contradiction|].
  cbn [length Nat.eqb].
  pose proof (nextInt_range (Z.of_nat (S (length p1))) r ltac:(lia)) as H1.
  destruct (Rng.nextInt (Z.of_nat (S (length p1))) r) as [cross1 r1].
  pose proof (nextInt_range (Z.of_nat (S (length p2))) r1 ltac:(lia)) as H2.
  destruct (Rng.nextInt (Z.of_nat (S (length p2))) r1) as [cross2 r2].
  cbn [fst] in *.
  exists (Z.to_nat cross1), (Z.to_nat cross2).
  split; [cbn [length]; lia|]. split; [cbn [length]; lia|].
  replace (Z.to_nat (cross1 + 1)) with (S (Z.to_nat cross1)) by lia.
  replace (Z.to_nat (cross2 + 1)) with (S (Z.to_nat cross2)) by lia.
  cbn [take app length Nat.ltb Nat.leb]. reflexivity.
Qed.

Lemma crossover_counted p1 p2 (c : Counted PRNG.t) :
  p1 <> [] -> p2 <> [] ->
  fst (crossover p1 p2 c) = fst (crossover p1 p2 (source c)) /\
  source (snd (crossover p1 p2 c)) = snd (crossover p1 p2 (source c)) /\
  draws (snd (crossover p1 p2 c)) = (2 + draws c)%nat.
Proof.
  intros Hp1 Hp2. unfold crossover.
  destruct p1 as [|g1 p1]; [contradiction|].
  destruct p2 as [|g2 p2]; [contradiction|].
  cbn [length Nat.eqb].
  rewrite nextInt_counted. cbn [fst snd source draws].
  pose proof (nextInt_range (Z.of_nat (S (length p1))) (source c) ltac:(lia)) as H1.
  destruct (Rng.nextInt (Z.of_nat (S (length p1))) (source c)) as [cross1 r1].
  rewrite nextInt_counted. cbn [fst snd source draws].
  destruct (Rng.nextInt (Z.of_nat (S (length p2))) r1) as [cross2 r2].
  cbn [fst snd source draws] in *.
  replace (Z.to_nat (cross1 + 1)) with (S (Z.to_nat cross1)) by lia.
  cbn [take app length Nat.ltb Nat.leb fst snd source draws]. auto.
Qed.

(** X12. [crossover] of two parents that are not empty cuts each parent at
    a gene of its own and returns the first parent up to and including its
    cut followed by the second parent after its cut.  So the child starts
    with the first parent's first gene, has between one gene and one less
    than the two parents together, and the generator is asked for exactly
    two words: the random gene that stands in for an empty child is never
    made.  A parent that is empty makes [crossover] return the other one
    as it is, without a draw; two empty parents give an empty child. *)
Theorem crossover_cuts (p1 p2 : Genome) (c : Counted PRNG.t) :
  (p1 = [] -> crossover p1 p2 c = (p2, c)) /\
  (p2 = [] -> crossover p1 p2 c = (p1, c)) /\
  (p1 <> [] -> p2 <> [] ->
   let child := fst (crossover p1 p2 c) in
   (exists c1 c2, (c1 < length p1)%nat /\ (c2 < length p2)%nat /\
      child = take (S c1) p1 ++ drop (S c2) p2) /\
   (1 <= length child <= length p1 + length p2 - 1)%nat /\
   head child = head p1 /\
   child = fst (crossover p1 p2 (source c)) /\
   source (snd (crossover p1 p2 c)) = snd (crossover p1 p2 (source c)) /\
   draws (snd (crossover p1 p2 c)) = (2 + draws c)%nat).
Proof.
  split; [intros ->; reflexivity|]. split.
  { intros ->. unfold crossover. destruct p1; reflexivity. }
  intros Hp1 Hp2. cbn zeta.
  destruct (crossover_counted p1 p2 c Hp1 Hp2) as (Hfst & Hsrc & Hdraws).
  destruct (crossover_cut_points p1 p2 (source c) Hp1 Hp2) as (c1 & c2 & H1 & H2 & Hchild).
  rewrite Hfst, Hchild.
  split; [exists c1, c2; auto|]. split.
  - rewrite length_app, length_take, length_drop. lia.
  - split; [|auto]. destruct p1 as [|g1 p1]; [contradiction|]. reflexivity.
Qed.

Lemma crossover_cuts_witness :
  (1 <= length (fst (crossover [uint32ToGene 1; uint32ToGene 2] [uint32ToGene 3]
                       (counted (PRNG.create 1) 0))) <= 2)%nat.
Proof.
  destruct (crossover_cuts [uint32ToGene 1; uint32ToGene 2] [uint32ToGene 3]
              (counted (PRNG.create 1) 0)) as (_ & _ & Hcut).
  destruct (Hcut ltac:(discriminate) ltac:(discriminate)) as (_ & Hlen & _).
  cbn [length] in Hlen. lia.
Defined.

(** ** The spawner *)

Lemma selectParent_returns survivors params (r : PRNG.t) :
  survivors <> [] ->
  exists pr, selectParent survivors params r = Returns pr /\ In (fst pr) survivors.
Proof.
  intros Hne. unfold selectParent.
  assert (Hn : 0 < Z.of_nat (length survivors))
    by (destruct survivors; [contradiction | cbn [length]; lia]).
  destruct (negb _ || _).
  - pose proof (nextInt_range _ r Hn) as Hi.
    destruct (Rng.nextInt (Z.of_nat (length survivors)) r) as [i r1].
    cbn [fst] in Hi.
    destruct (elem_in_range survivors i Hi) as (a & Ha & ->).
    cbn [mbind Outcome_bind]. eexists. split; [reflexivity|]. cbn [fst].
    eapply list_elem_of_In, list_elem_of_lookup_2, Ha.
  - pose proof (nextInt_range _ r Hn) as Hi.
    destruct (Rng.nextInt (Z.of_nat (length survivors)) r) as [i r1].
    cbn [fst] in Hi.
    destruct (elem_in_range survivors i Hi) as (a & Ha & ->).
    cbn [mbind Outcome_bind].
    pose proof (nextInt_range _ r1 Hn) as Hj.
    destruct (Rng.nextInt (Z.of_nat (length survivors)) r1) as [j r2].
    cbn [fst] in Hj.
    destruct (elem_in_range survivors j Hj) as (b & Hb & ->).
    cbn [mbind Outcome_bind]. cbv zeta.
    eexists. split; [reflexivity|]. cbn [fst].
    destruct (PrimFloat.leb _ _);
      eapply list_elem_of_In, list_elem_of_lookup_2; eassumption.
Qed.

Lemma retryPartner_returns attempts survivors params :
  forall parent1 parent2 (r : PRNG.t),
  survivors <> [] -> In parent2 survivors ->
  exists pr, retryPartner attempts survivors params parent1 parent2 r = Returns pr /\
             In (fst pr) survivors.
Proof.
  induction attempts as [|k IH]; intros parent1 parent2 r Hne Hin;
    cbn [retryPartner].
  - eexists. split; [reflexivity | exact Hin].
  - destruct (_ =? _); [|eexists; split; [reflexivity | exact Hin]].
    destruct (selectParent_returns survivors params r Hne) as (pr & -> & Hpr).
    cbn [mbind Outcome_bind]. apply IH; assumption.
Qed.

Section CrossoverKeeps.
Context {R : Type} `{RandomSource R}.

Lemma crossover_in_range p1 p2 (r : R) :
  Forall gene_in_range p1 -> Forall gene_in_range p2 ->
  Forall gene_in_range (fst (crossover p1 p2 r)).
Proof.
  intros H1 H2. unfold crossover.
  destruct (length p1 =? 0)%nat; [exact H2|].
  destruct (length p2 =? 0)%nat; [exact H1|].
  destruct (Rng.nextInt _ r) as [cross1 r1].
  destruct (Rng.nextInt _ r1) as [cross2 r2].
  destruct (0 <? _)%nat.
  - cbn [fst]. apply Forall_app. split; [apply Forall_take, H1 | apply Forall_drop, H2].
  - pose proof (makeRandomGene_decoded r2) as Hg.
    destruct (makeRandomGene r2) as [g r3]. cbn [fst] in *.
    constructor; [exact Hg | constructor].
Qed.

Lemma crossover_nonempty p1 p2 (r : R) :
  p1 <> [] -> p2 <> [] -> fst (crossover p1 p2 r) <> [].
Proof.
  intros H1 H2. unfold crossover.
  destruct p1 as [|g1 p1]; [contradiction|].
  destruct p2 as [|g2 p2]; [contradiction|].
  cbn [length Nat.eqb].
  destruct (Rng.nextInt _ r) as [cross1 r1].
  destruct (Rng.nextInt _ r1) as [cross2 r2].
  destruct (Nat.ltb_spec 0 (length (take (Z.to_nat (cross1 + 1)) (g1 :: p1) ++
                                    drop (Z.to_nat (cross2 + 1)) (g2 :: p2))))
    as [Hlen|Hlen].
  - cbn [fst]. intros Hnil. rewrite Hnil in Hlen. cbn in Hlen. lia.
  - destruct (makeRandomGene r2) as [g r3]. cbn [fst]. discriminate.
Qed.

End CrossoverKeeps.

Lemma spawnChild_returns survivors params (r : PRNG.t) :
  survivors <> [] ->
  exists res, spawnChild survivors params r = Returns res /\
    (Forall (fun s => Forall gene_in_range (Indiv.genome s)) survivors ->
     Forall gene_in_range (fst res)) /\
    (Forall (fun s => Indiv.genome s <> []) survivors -> fst res <> []).
Proof.
  intros Hne. unfold spawnChild.
  assert (Hborn : exists born,
    (if SimParams.sexualReproduction params && (2 <=? Z.of_nat (length survivors))
     then
       p1 ← selectParent survivors params r;
       p2 ← selectParent survivors params (snd p1);
       p2' ← retryPartner 10 survivors params (fst p1) (fst p2) (snd p2);
       Returns (crossover (Indiv.genome (fst p1)) (Indiv.genome (fst p2')) (snd p2'))
     else
       p ← selectParent survivors params r;
       Returns (Indiv.genome (fst p), snd p)) = Returns born /\
    (Forall (fun s => Forall gene_in_range (Indiv.genome s)) survivors ->
     Forall gene_in_range (fst born)) /\
    (Forall (fun s => Indiv.genome s <> []) survivors -> fst born <> [])).
  { destruct (_ && _).
    - destruct (selectParent_returns survivors params r Hne) as (p1 & -> & Hp1).
      cbn [mbind Outcome_bind].
      destruct (selectParent_returns survivors params (snd p1) Hne)
        as (p2 & -> & Hp2).
      cbn [mbind Outcome_bind].
      destruct (retryPartner_returns 10 survivors params (fst p1) (fst p2) (snd p2)
                  Hne Hp2) as (p2' & -> & Hp2').
      cbn [mbind Outcome_bind]. eexists. split; [reflexivity|].
      split; intros Hall; rewrite Forall_forall in Hall;
        apply list_elem_of_In in Hp1, Hp2'.
      + apply crossover_in_range; apply Hall; assumption.
      + apply crossover_nonempty; apply Hall; assumption.
    - destruct (selectParent_returns survivors params r Hne) as (p & -> & Hp).
      cbn [mbind Outcome_bind]. eexists. split; [reflexivity|]. cbn [fst].
      split; intros Hall; rewrite Forall_forall in Hall;
        apply list_elem_of_In in Hp; apply Hall; assumption. }
  destruct Hborn as (born & -> & Hrange & Hfull).
  cbn [mbind Outcome_bind].
  match goal with
  | |- context [applyPointMutations ?g ?r0 ?rate] =>
      destruct (applyPointMutations_shape g r0 rate) as (Hlen & _ & Hkeep);
      destruct (applyPointMutations g r0 rate) as [g1 r1]
  end.
  cbn [fst] in Hlen, Hkeep.
  destruct (applyInsertionDeletion_shape g1 r1
              (SimParams.geneInsertionDeletionRate params)
              (SimParams.deletionRatio params)
              (SimParams.genomeMaxLength params))
    as (_ & _ & Hfull' & _ & Hkeep').
  eexists. split; [reflexivity|]. split.
  - intros Hall. apply Hkeep', Hkeep, Hrange, Hall.
  - intros Hall. apply Hfull'. intros ->. apply (Hfull Hall).
    apply nil_length_inv. symmetry. exact Hlen.
Qed.

Lemma spawnChildren_returns n survivors params : forall (r : PRNG.t),
  survivors <> [] ->
  exists res, spawnChildren n survivors params r = Returns res /\
    length (fst res) = n /\
    (Forall (fun s => Forall gene_in_range (Indiv.genome s)) survivors ->
     Forall (Forall gene_in_range) (fst res)) /\
    (Forall (fun s => Indiv.genome s <> []) survivors ->
     Forall (fun g => g <> []) (fst res)).
Proof.
  induction n as [|n IH]; intros r Hne; cbn [spawnChildren].
  - eexists. split; [reflexivity|]. cbn [fst length]. auto.
  - destruct (spawnChild_returns survivors params r Hne)
      as (child & -> & Hrange & Hfull).
    cbn [mbind Outcome_bind].
    destruct (IH (snd child) Hne) as (rest & -> & Hlen & Hranges & Hfulls).
    cbn [mbind Outcome_bind]. eexists. split; [reflexivity|].
    cbn [fst length]. split; [congruence|]. split; intros Hall; constructor; auto.
Qed.

Lemma spawnRandom_shape n params : forall (r : PRNG.t),
  length (fst (spawnRandom n params r)) = n /\
  Forall (Forall gene_in_range) (fst (spawnRandom n params r)).
Proof.
  induction n as [|n IH]; intros r; cbn [spawnRandom].
  - split; [reflexivity | constructor].
  - destruct (Rng.nextRange _ _ r) as [len r1].
    unfold makeRandomGenome.
    destruct (makeRandomGenes_shape (Z.to_nat len) r1) as [_ Hg].
    destruct (makeRandomGenes (Z.to_nat len) r1) as [g r2].
    destruct (IH r2) as [Hlen Hall].
    destruct (spawnRandom n params r2) as [gs r3].
    cbn [fst length] in *. split; [congruence | constructor; assumption].
Qed.

(** X13. [spawnNewGeneration] returns, without throwing, as many genomes
    as the population asks for (none for a population of zero or less).
    When the survivors' genes are in range, so are all genes of all the
    genomes it returns; and when there are survivors and none has an empty
    genome, no genome it returns is empty. *)
Theorem spawnNewGeneration_fills (survivors : list Indiv.t)
    (params : SimParams.t) (r : PRNG.t) :
  exists genomes r',
    spawnNewGeneration survivors params r = Returns (genomes, r') /\
    length genomes = Z.to_nat (SimParams.population params) /\
    (Forall (fun s => Forall gene_in_range (Indiv.genome s)) survivors ->
     Forall (Forall gene_in_range) genomes) /\
    (survivors <> [] -> Forall (fun s => Indiv.genome s <> []) survivors ->
     Forall (fun g => g <> []) genomes).
Proof.
  unfold spawnNewGeneration. destruct survivors as [|s survivors].
  - cbn [length Nat.eqb].
    destruct (spawnRandom_shape (Z.to_nat (SimParams.population params)) params r)
      as [Hlen Hall].
    destruct (spawnRandom _ params r) as [genomes r']. cbn [fst] in *.
    exists genomes, r'. split; [reflexivity|]. split; [exact Hlen|].
    split; [auto|]. intros Hne. contradiction.
  - cbn [length Nat.eqb].
    destruct (spawnChildren_returns (Z.to_nat (SimParams.population params))
                (s :: survivors) params r ltac:(discriminate))
      as ([genomes r'] & Hrun & Hlen & Hrange & Hfull).
    exists genomes, r'. cbn [fst] in *. auto.
Qed.

(** ** Similarity of genomes *)

Lemma filter_elem_of {A} (f : A -> bool) (l : list A) x :
  x ∈ List.filter f l <-> x ∈ l /\ f x = true.
Proof. rewrite !list_elem_of_In. apply filter_In. Qed.

(** The size of the part of a duplicate-free list that satisfies a test
    depends only on which elements the list has. *)
Lemma filter_length_set (f g : Z -> bool) (l k : list Z) :
  NoDup l -> NoDup k ->
  (forall x, x ∈ l /\ f x = true <-> x ∈ k /\ g x = true) ->
  length (List.filter f l) = length (List.filter g k).
Proof.
  intros Hl Hk Hsame. apply Permutation_length, NoDup_Permutation.
  - eapply sublist_NoDup; [exact Hl | apply filter_sublist].
  - eapply sublist_NoDup; [exact Hk | apply filter_sublist].
  - intros x. rewrite !filter_elem_of. apply Hsame.
Qed.

Lemma remove_dups_nil_length (l : list Z) :
  (length l =? 0)%nat = (length (remove_dups l) =? 0)%nat.
Proof.
  destruct l as [|a l]; [reflexivity|]. cbn [length Nat.eqb].
  destruct (remove_dups (a :: l)) as [|b k] eqn:Hk; [|reflexivity].
  assert (Ha : a ∈ remove_dups (a :: l)) by (apply elem_of_remove_dups; left).
  rewrite Hk in Ha. inversion Ha.
Qed.

(** The similarity written with the two sets of packed genes. *)
Lemma genomeSimilarity_sets g1 g2 :
  genomeSimilarity g1 g2 =
  let set1 := remove_dups (map geneToUint32 g1) in
  let set2 := remove_dups (map geneToUint32 g2) in
  if (length set1 =? 0)%nat && (length set2 =? 0)%nat then 1%float
  else if (length set1 =? 0)%nat || (length set2 =? 0)%nat then 0%float
  else
    let intersection :=
      Z.of_nat (length (List.filter (fun v => bool_decide (v ∈ set2)) set1)) in
    let union := Z.of_nat (length set1) + Z.of_nat (length set2) - intersection in
    if union =? 0 then 1%float
    else (Num.ofZ intersection / Num.ofZ union)%float.
Proof.
  unfold genomeSimilarity. cbv zeta.
  rewrite <- !remove_dups_nil_length, !length_map. reflexivity.
Qed.

(** X14. [genomeSimilarity] does not depend on the order of its two
    arguments, nor on the order or the repetition of the genes in either
    genome: genomes with the same set of packed genes are equally similar
    to any third one. *)
Theorem genomeSimilarity_symmetric (g1 g2 g1' : Genome) :
  genomeSimilarity g1 g2 = genomeSimilarity g2 g1 /\
  ((forall w, w ∈ map geneToUint32 g1 <-> w ∈ map geneToUint32 g1') ->
   genomeSimilarity g1 g2 = genomeSimilarity g1' g2).
Proof.
  split.
  - rewrite !genomeSimilarity_sets. cbv zeta.
    set (set1 := remove_dups (map geneToUint32 g1)).
    set (set2 := remove_dups (map geneToUint32 g2)).
    rewrite (andb_comm (length set1 =? 0)%nat), (orb_comm (length set1 =? 0)%nat).
    rewrite (filter_length_set (fun v => bool_decide (v ∈ set2))
               (fun v => bool_decide (v ∈ set1)) set1 set2);
      [| apply NoDup_remove_dups | apply NoDup_remove_dups |].
    + rewrite (Z.add_comm (Z.of_nat (length set1))). reflexivity.
    + intros x. rewrite !bool_decide_eq_true. tauto.
  - intros Hsame. rewrite !genomeSimilarity_sets. cbv zeta.
    set (set1 := remove_dups (map geneToUint32 g1)).
    set (set1' := remove_dups (map geneToUint32 g1')).
    set (set2 := remove_dups (map geneToUint32 g2)).
    assert (Hsets : forall x, x ∈ set1 <-> x ∈ set1').
    { intros x. unfold set1, set1'. rewrite !elem_of_remove_dups. apply Hsame. }
    assert (Hlen : length set1 = length set1').
    { apply Permutation_length, NoDup_Permutation;
        [apply NoDup_remove_dups | apply NoDup_remove_dups | exact Hsets]. }
    rewrite (filter_length_set (fun v => bool_decide (v ∈ set2))
               (fun v => bool_decide (v ∈ set2)) set1 set1');
      [| apply NoDup_remove_dups | apply NoDup_remove_dups |].
    + rewrite Hlen. reflexivity.
    + intros x. rewrite Hsets. tauto.
Qed.

Lemma genomeSimilarity_symmetric_witness :
  genomeSimilarity [uint32ToGene 1; uint32ToGene 2] [uint32ToGene 3]
  = genomeSimilarity [uint32ToGene 2; uint32ToGene 1; uint32ToGene 2]
      [uint32ToGene 3].
Proof.
  apply (genomeSimilarity_symmetric [uint32ToGene 1; uint32ToGene 2]
           [uint32ToGene 3] [uint32ToGene 2; uint32ToGene 1; uint32ToGene 2]).
  intros w. cbn [map]. rewrite !elem_of_cons. rewrite !elem_of_nil. tauto.
Defined.

(** ** A step neither makes nor removes a barrier *)

Lemma noNewBarriers_refl g : noNewBarriers g g.
Proof. intros k Hk. exact Hk. Qed.

Lemma noNewBarriers_trans g1 g2 g3 :
  noNewBarriers g1 g2 -> noNewBarriers g2 g3 -> noNewBarriers g1 g3.
Proof. intros H12 H23 k Hk. apply H12, H23, Hk. Qed.

Lemma grid_set_length g loc v :
  length (Grid.data (Grid.set g loc v)) = length (Grid.data g).
Proof.
  unfold Grid.set. destruct (_ <? 0); [reflexivity|].
  cbn [Grid.data]. apply length_insert.
Qed.

Lemma grid_set_noNewBarriers g loc v :
  gridWf g -> Grid.isInBounds g loc = true -> JS.ToUint16 v <> BARRIER ->
  noNewBarriers g (Grid.set g loc v).
Proof.
  intros Hwf Hb Hv k Hk. rewrite grid_set_data in Hk by auto.
  case_decide; [|exact Hk]. congruence.
Qed.

Lemma applyDeath_noNew deaths inds g record :
  gridWf g -> agrees inds g ->
  noNewBarriers g (applyDeath_grid (Peeps.applyDeath (deaths, inds, g) record)) /\
  length (Grid.data (applyDeath_grid (Peeps.applyDeath (deaths, inds, g) record)))
  = length (Grid.data g).
Proof.
  intros Hwf Hagree. unfold Peeps.applyDeath, applyDeath_grid.
  destruct (_ <? 0); [cbn; auto using noNewBarriers_refl|].
  destruct (mjoin _) as [indiv|] eqn:Hlook; [|cbn; auto using noNewBarriers_refl].
  apply mjoin_lookup_Some in Hlook.
  destruct (Indiv.alive indiv) eqn:Halive; [|cbn; auto using noNewBarriers_refl].
  destruct (Hagree _ indiv Hlook Halive) as (Hb & _ & _).
  cbn [snd]. split; [|apply grid_set_length].
  apply grid_set_noNewBarriers; auto; discriminate.
Qed.

Lemma applyMove_noNew inds g record :
  gridWf g -> agrees inds g ->
  noNewBarriers g (snd (Peeps.applyMove (inds, g) record)) /\
  length (Grid.data (snd (Peeps.applyMove (inds, g) record)))
  = length (Grid.data g).
Proof.
  intros Hwf Hagree. unfold Peeps.applyMove.
  destruct (Z.ltb_spec (MoveRecord.indivIndex record) 0) as [|Hi];
    [cbn; auto using noNewBarriers_refl|].
  destruct (mjoin _) as [indiv|] eqn:Hlook; [|cbn; auto using noNewBarriers_refl].
  apply mjoin_lookup_Some in Hlook.
  destruct (Indiv.alive indiv) eqn:Halive; [|cbn; auto using noNewBarriers_refl].
  destruct (Grid.isInBounds g (MoveRecord.newLoc record)) eqn:Hnb;
    [|cbn; auto using noNewBarriers_refl].
  destruct (Grid.isEmptyAt g (MoveRecord.newLoc record));
    [|cbn; auto using noNewBarriers_refl].
  destruct (Hagree _ indiv Hlook Halive) as (Hb & _ & Hn).
  cbn [fst snd andb]. split; [|rewrite !grid_set_length; reflexivity].
  eapply noNewBarriers_trans.
  - apply (grid_set_noNewBarriers g (Indiv.loc indiv) 0); auto; discriminate.
  - apply grid_set_noNewBarriers.
    + apply grid_set_wf, Hwf.
    + rewrite grid_set_inBounds. exact Hnb.
    + rewrite ToUint16_small; unfold BARRIER in *; lia.
Qed.

Lemma fold_applyDeath_noNew queue : forall deaths inds g,
  gridWf g -> agrees inds g ->
  noNewBarriers g
    (applyDeath_grid (fold_left Peeps.applyDeath queue (deaths, inds, g))) /\
  length (Grid.data
            (applyDeath_grid (fold_left Peeps.applyDeath queue (deaths, inds, g))))
  = length (Grid.data g).
Proof.
  induction queue as [|record queue IH]; intros deaths inds g Hwf Hagree.
  - cbn. auto using noNewBarriers_refl.
  - cbn [fold_left].
    destruct (applyDeath_invariant deaths inds g record Hwf Hagree)
      as (Hwf1 & Hagree1 & _).
    destruct (applyDeath_noNew deaths inds g record Hwf Hagree) as [Hno1 Hlen1].
    destruct (Peeps.applyDeath (deaths, inds, g) record) as [[d1 inds1] g1].
    unfold applyDeath_grid, applyDeath_inds in *. cbn [fst snd] in *.
    destruct (IH d1 inds1 g1 Hwf1 Hagree1) as [Hno Hlen].
    split; [eapply noNewBarriers_trans; eauto | congruence].
Qed.

Lemma fold_applyMove_noNew queue : forall inds g,
  gridWf g -> agrees inds g ->
  noNewBarriers g (snd (fold_left Peeps.applyMove queue (inds, g))) /\
  length (Grid.data (snd (fold_left Peeps.applyMove queue (inds, g))))
  = length (Grid.data g).
Proof.
  induction queue as [|record queue IH]; intros inds g Hwf Hagree.
  - cbn. auto using noNewBarriers_refl.
  - cbn [fold_left].
    destruct (applyMove_invariant inds g record Hwf Hagree) as (Hwf1 & Hagree1 & _).
    destruct (applyMove_noNew inds g record Hwf Hagree) as [Hno1 Hlen1].
    destruct (Peeps.applyMove (inds, g) record) as [inds1 g1].
    cbn [fst snd] in *.
    destruct (IH inds1 g1 Hwf1 Hagree1) as [Hno Hlen].
    split; [eapply noNewBarriers_trans; eauto | congruence].
Qed.

Lemma drains_noNew p g :
  gridWf g -> agrees (Peeps.individuals p) g ->
  let after_deaths := Peeps.drainDeathQueue p g in
  let after_moves :=
    Peeps.drainMoveQueue (snd (fst after_deaths)) (snd after_deaths) in
  noNewBarriers g (snd after_moves) /\
  length (Grid.data (snd after_moves)) = length (Grid.data g).
Proof.
  intros Hwf Hagree. cbn zeta. unfold Peeps.drainDeathQueue.
  destruct (fold_applyDeath_invariant (Peeps.deathQueue p) 0
              (Peeps.individuals p) g Hwf Hagree) as (Hwf1 & Hagree1 & _).
  destruct (fold_applyDeath_noNew (Peeps.deathQueue p) 0
              (Peeps.individuals p) g Hwf Hagree) as [Hno1 Hlen1].
  destruct (fold_left Peeps.applyDeath _ _) as [[d1 inds1] g1].
  unfold applyDeath_grid, applyDeath_inds in *. cbn [fst snd] in *.
  unfold Peeps.drainMoveQueue. cbn [Peeps.moveQueue Peeps.individuals].
  destruct (fold_applyMove_noNew (Peeps.moveQueue p) inds1 g1 Hwf1 Hagree1)
    as [Hno2 Hlen2].
  destruct (fold_left Peeps.applyMove _ _) as [inds2 g2].
  cbn [fst snd] in *.
  split; [eapply noNewBarriers_trans; eauto | congruence].
Qed.

(** Lists with the barrier sentinel at the same places count as many. *)
Lemma barrier_count_same (l : list Z) : forall l',
  length l = length l' ->
  (forall k, l !! k = Some BARRIER <-> l' !! k = Some BARRIER) ->
  length (List.filter (fun v => v =? BARRIER) l)
  = length (List.filter (fun v => v =? BARRIER) l').
Proof.
  induction l as [|a l IH]; intros [|b l'] Hlen Hsame; try discriminate;
    [reflexivity|].
  cbn [List.filter].
  assert (Htail : length (List.filter (fun v => v =? BARRIER) l)
                  = length (List.filter (fun v => v =? BARRIER) l')).
  { apply IH; [cbn in Hlen; lia|]. intros k. apply (Hsame (S k)). }
  pose proof (Hsame 0%nat) as Hhead. cbn in Hhead.
  destruct (Z.eqb_spec a BARRIER) as [->|Ha], (Z.eqb_spec b BARRIER) as [->|Hb];
    cbn [length]; try congruence.
  - exfalso. apply Hb. destruct Hhead as [Hh _].
    specialize (Hh eq_refl). congruence.
  - exfalso. apply Ha. destruct Hhead as [_ Hh].
    specialize (Hh eq_refl). congruence.
Qed.

(** A step leaves the barriers where they are. *)
Lemma stepOnce_same_barriers Math_sin Math_tanh Math_exp
    (sim : Simulator.t PRNG.t) :
  Reachable Math_sin Math_tanh Math_exp sim ->
  exists sim',
    stepOnce Math_sin Math_tanh Math_exp sim = Returns sim' /\
    getBarrierCount (Simulator.grid sim') = getBarrierCount (Simulator.grid sim) /\
    (forall loc, Grid.isBarrierAt (Simulator.grid sim') loc
                 = Grid.isBarrierAt (Simulator.grid sim) loc).
Proof.
  intros Hreach. apply Reachable_invariant in Hreach as Hinv.
  destruct (stepOnce_invariant Math_sin Math_tanh Math_exp sim Hinv)
    as (mid & _ & Hgrid & Hstep & Hmid & _ & Hkeep).
  exists (endOfStep mid). split; [exact Hstep|].
  destruct Hmid as (Hwf & Hagree & _).
  destruct (drains_noNew (Simulator.peeps mid) (Simulator.grid mid) Hwf Hagree)
    as [Hno Hlen].
  destruct (drains_keep_barriers (Simulator.peeps mid) (Simulator.grid mid)
              Hwf Hagree) as (_ & _ & Hsize).
  destruct (endOfStep_drains mid) as [_ Hg].
  rewrite <- Hg in Hno, Hlen, Hsize. rewrite Hgrid in Hno, Hlen, Hsize.
  split.
  - unfold getBarrierCount. f_equal. apply barrier_count_same; [exact Hlen|].
    intros k. split; [apply Hno | apply Hkeep].
  - intros loc.
    destruct (Grid.isBarrierAt (Simulator.grid sim) loc) eqn:Hb.
    + eapply keepsBarriers_isBarrierAt; eauto.
    + destruct (Grid.isBarrierAt (Simulator.grid (endOfStep mid)) loc) eqn:Hb';
        [|reflexivity].
      unfold Grid.isBarrierAt, Grid.at_, Grid.idx in Hb, Hb'. rewrite Hsize in Hb'.
      destruct (_ <? 0); [discriminate|].
      destruct (Grid.data (Simulator.grid (endOfStep mid)) !! _) as [v|] eqn:Hv;
        [|discriminate].
      apply Z.eqb_eq in Hb'. subst v. rewrite (Hno _ Hv) in Hb.
      discriminate Hb.
Qed.


(** The first generation of the example is a state of a run. *)
Lemma firstGeneration_reachable :
  exists sim, firstGeneration = Returns sim /\
    Reachable (fun v => v) (fun v => v) (fun v => v) sim.
Proof.
  unfold firstGeneration.
  destruct (Peeps.init twoGeneParams
              (Grid.set (Grid.create 8 8) (Coord.mk 3 3) BARRIER) (PRNG.create 1))
    as [[[peeps grid] r]| |] eqn:Hinit;
    [| vm_compute in Hinit; discriminate Hinit
     | vm_compute in Hinit; discriminate Hinit].
  eexists. split; [reflexivity|].
  apply (reach_init _ _ _ twoGeneParams
           (Grid.set (Grid.create 8 8) (Coord.mk 3 3) BARRIER) (PRNG.create 1)
           peeps grid r); [| vm_compute; reflexivity | vm_compute; discriminate
                          | exact Hinit].
  apply grid_set_wf, grid_create_wf; lia.
Qed.


(** ** Slots and indices *)

(** Both facts about the slots of a population: slot 0 holds [null], and an
    individual carries the index of its slot. *)
Lemma slots_insert inds n old new :
  inds !! n = Some (Some old) -> Indiv.index new = Indiv.index old ->
  inds !! 0%nat = Some None /\ allIndexed inds ->
  <[n := Some new]> inds !! 0%nat = Some None /\
  allIndexed (<[n := Some new]> inds).
Proof.
  intros Hold Hidx [Hnull Hall]. split.
  - rewrite list_lookup_insert_ne; [exact Hnull|].
    intros ->. rewrite Hold in Hnull. discriminate.
  - intros j x Hj.
    apply list_lookup_insert_Some in Hj as [(<- & Heq & _) | (_ & Hj)].
    + injection Heq as <-. rewrite Hidx. apply (Hall _ _ Hold).
    + apply (Hall _ _ Hj).
Qed.

Lemma slots_snoc inds indiv :
  Indiv.index indiv = Z.of_nat (length inds) ->
  inds !! 0%nat = Some None /\ allIndexed inds ->
  (inds ++ [Some indiv]) !! 0%nat = Some None /\
  allIndexed (inds ++ [Some indiv]).
Proof.
  intros Hidx [Hnull Hall]. split.
  - rewrite lookup_app_l; [exact Hnull|]. eapply lookup_lt_Some, Hnull.
  - intros j x Hj.
    apply lookup_snoc_Some in Hj as [[_ Hj] | [-> Heq]].
    + apply (Hall _ _ Hj).
    + injection Heq as <-. exact Hidx.
Qed.

Lemma createIndiv_index index genome loc params indiv :
  createIndiv index genome loc params = Returns indiv ->
  Indiv.index indiv = index.
Proof.
  unfold createIndiv.
  destruct (buildNeuralNet genome _) as [net| |]; cbn [mbind Outcome_bind];
    intros Heq; try discriminate Heq.
  apply (f_equal (fun o => match o with
                           | Returns i => Indiv.index i
                           | _ => index
                           end)) in Heq.
  cbn in Heq. congruence.
Qed.

Lemma initLoop_slots n : forall i params inds grid (r : PRNG.t) inds' grid' r',
  i = Z.of_nat (length inds) ->
  inds !! 0%nat = Some None /\ allIndexed inds ->
  Peeps.initLoop n i params inds grid r = Returns (inds', grid', r') ->
  inds' !! 0%nat = Some None /\ allIndexed inds'.
Proof.
  induction n as [|n IH]; intros i params inds grid r inds' grid' r' Hi Hslots Hrun.
  - cbn [Peeps.initLoop] in Hrun.
    apply Returns_triple in Hrun as (<- & _ & _). exact Hslots.
  - rewrite initLoop_eq in Hrun. cbv zeta in Hrun.
    set (lr := Rng.nextRange _ _ r) in Hrun.
    set (gr := makeRandomGenome (snd lr) (fst lr)) in *.
    set (fr := Peeps.findEmpty _ grid (snd gr)) in *.
    destruct (fst fr) as [loc|].
    + destruct (createIndiv i (fst gr) loc params) as [indiv| |] eqn:Hcreate;
        cbn [mbind Outcome_bind] in Hrun; try discriminate Hrun.
      apply createIndiv_index in Hcreate.
      refine (IH (i + 1) params (inds ++ [Some indiv]) _ _ inds' grid' r' _ _ Hrun).
      * rewrite length_app. cbn [length]. lia.
      * apply slots_snoc; [congruence | exact Hslots].
    + apply Returns_triple in Hrun as (<- & _ & _). exact Hslots.
Qed.

Lemma initFromLoop_slots genomes :
  forall i params inds grid (r : PRNG.t) inds' grid' r',
  i + 1 = Z.of_nat (length inds) ->
  inds !! 0%nat = Some None /\ allIndexed inds ->
  Peeps.initFromLoop genomes i params inds grid r = Returns (inds', grid', r') ->
  inds' !! 0%nat = Some None /\ allIndexed inds'.
Proof.
  induction genomes as [|genome genomes IH];
    intros i params inds grid r inds' grid' r' Hi Hslots Hrun.
  - cbn [Peeps.initFromLoop] in Hrun.
    apply Returns_triple in Hrun as (<- & _ & _). exact Hslots.
  - rewrite initFromLoop_eq in Hrun. cbv zeta in Hrun.
    destruct (i <? SimParams.population params);
      [|apply Returns_triple in Hrun as (<- & _ & _); exact Hslots].
    set (fr := Peeps.findEmpty _ grid r) in *.
    destruct (fst fr) as [loc|].
    + destruct (createIndiv (i + 1) genome loc params) as [indiv| |] eqn:Hcreate;
        cbn [mbind Outcome_bind] in Hrun; try discriminate Hrun.
      apply createIndiv_index in Hcreate.
      refine (IH (i + 1) params (inds ++ [Some indiv]) _ _ inds' grid' r' _ _ Hrun).
      * rewrite length_app. cbn [length]. lia.
      * apply slots_snoc; [congruence | exact Hslots].
    + apply Returns_triple in Hrun as (<- & _ & _). exact Hslots.
Qed.

Section ActionsIndex.
Context {R : Type} `{RandomSource R}.
Variable Math_exp : float -> float.

Lemma actionStep_index params grid threshold a level (st : ActState.t R) :
  Indiv.index (ActState.self (actionStep params grid threshold a level st))
  = Indiv.index (ActState.self st).
Proof.
  unfold actionStep.
  destruct a;
    repeat match goal with
           | |- context [if ?b then _ else _] => destruct b
           | |- context [Dir.random ?r] => destruct (Dir.random r)
           | |- context [livingAt ?g ?p ?l] =>
               destruct (livingAt g p l) as [[? ?]|]
           end;
    reflexivity.
Qed.

Lemma actionLoop_index params grid threshold actionLevels actions :
  forall a (st : ActState.t R),
  Indiv.index (ActState.self
                 (actionLoop params grid threshold actionLevels actions a st))
  = Indiv.index (ActState.self st).
Proof.
  induction actions as [|act actions IH]; intros a st; [reflexivity|].
  cbn [actionLoop]. rewrite IH. apply actionStep_index.
Qed.

Lemma executeActions_index indiv actionLevels params grid signals peeps (r : R) :
  Indiv.index (ActState.self
    (executeActions Math_exp indiv actionLevels params grid signals peeps r))
  = Indiv.index indiv.
Proof.
  unfold executeActions.
  match goal with
  | |- context [actionLoop ?p ?g ?t ?l ?acts ?a ?st0] =>
      pose proof (actionLoop_index p g t l acts a st0) as Hloop;
      remember (actionLoop p g t l acts a st0) as st eqn:Hst
  end.
  clear Hst. cbn [ActState.self] in Hloop.
  destruct (negb _ || negb _); [|exact Hloop].
  destruct (_ && _); [|exact Hloop].
  cbn [ActState.self Indiv.set_lastMoveDir Indiv.index]. exact Hloop.
Qed.

End ActionsIndex.

Lemma stepIndiv_slots Math_sin Math_tanh Math_exp step
    (sim sim' : Simulator.t PRNG.t) i :
  stepIndiv Math_sin Math_tanh Math_exp step sim i = Returns sim' ->
  Peeps.individuals (Simulator.peeps sim) !! 0%nat = Some None /\
  allIndexed (Peeps.individuals (Simulator.peeps sim)) ->
  Peeps.individuals (Simulator.peeps sim') !! 0%nat = Some None /\
  allIndexed (Peeps.individuals (Simulator.peeps sim')).
Proof.
  intros Hrun Hslots. unfold stepIndiv, Peeps.get in Hrun.
  assert (Hsame : Returns sim = Returns sim' ->
    Peeps.individuals (Simulator.peeps sim') !! 0%nat = Some None /\
    allIndexed (Peeps.individuals (Simulator.peeps sim'))).
  { intros Heq. apply (f_equal (fun o => match o with Returns s => s | _ => sim end))
      in Heq. cbn in Heq. subst sim'. exact Hslots. }
  destruct (Z.ltb_spec i 0) as [|Hi]; [auto|].
  destruct (mjoin (Peeps.individuals (Simulator.peeps sim) !! Z.to_nat i))
    as [indiv|] eqn:Hlook; [|auto].
  apply mjoin_lookup_Some in Hlook.
  destruct (Indiv.alive indiv); cbn [negb] in Hrun; [|auto].
  clear Hsame. unfold simStepIndiv in Hrun.
  destruct (getSensorValues _ _ _ _) as [sensorValues r'].
  destruct (feedForward Math_tanh (Indiv.nnet indiv) sensorValues)
    as [[levels nnet']| |]; cbn [mbind Outcome_bind fst snd] in Hrun;
    try discriminate Hrun.
  match type of Hrun with
  | context [executeActions ?e ?ind ?l ?p ?g ?s ?pp ?r] =>
      pose proof (executeActions_index e ind l p g s pp r) as Hidx;
      pose proof (executeActions_frame e ind l p g s pp r) as Hframe;
      remember (executeActions e ind l p g s pp r) as st eqn:Hst
  end.
  clear Hst. cbn zeta in Hframe. destruct Hframe as (Hinds & _).
  cbn [Indiv.set_nnet Indiv.index] in Hidx.
  apply (f_equal (fun o => match o with Returns s => s | _ => sim end)) in Hrun.
  cbn beta iota in Hrun. subst sim'.
  cbn [Simulator.peeps]. unfold Peeps.put.
  destruct (Z.ltb_spec i 0); [lia|].
  cbn [Peeps.individuals]. rewrite Hinds.
  apply (slots_insert _ _ indiv); [exact Hlook | | exact Hslots].
  cbn [Indiv.set_age Indiv.index]. exact Hidx.
Qed.

Lemma stepAll_slots Math_sin Math_tanh Math_exp step indices :
  forall (sim sim' : Simulator.t PRNG.t),
  stepAll Math_sin Math_tanh Math_exp step indices sim = Returns sim' ->
  Peeps.individuals (Simulator.peeps sim) !! 0%nat = Some None /\
  allIndexed (Peeps.individuals (Simulator.peeps sim)) ->
  Peeps.individuals (Simulator.peeps sim') !! 0%nat = Some None /\
  allIndexed (Peeps.individuals (Simulator.peeps sim')).
Proof.
  induction indices as [|i indices IH]; intros sim sim' Hrun Hslots.
  - cbn [stepAll] in Hrun.
    apply (f_equal (fun o => match o with Returns s => s | _ => sim end)) in Hrun.
    cbn in Hrun. subst sim'. exact Hslots.
  - cbn [stepAll] in Hrun.
    destruct (stepIndiv Math_sin Math_tanh Math_exp step sim i) as [sim1| |] eqn:H1;
      cbn [mbind Outcome_bind] in Hrun; try discriminate Hrun.
    apply (IH sim1 sim' Hrun). eapply stepIndiv_slots; eauto.
Qed.

Lemma applyDeath_slots deaths inds g record :
  inds !! 0%nat = Some None /\ allIndexed inds ->
  applyDeath_inds (Peeps.applyDeath (deaths, inds, g) record) !! 0%nat = Some None /\
  allIndexed (applyDeath_inds (Peeps.applyDeath (deaths, inds, g) record)).
Proof.
  intros Hslots. unfold Peeps.applyDeath, applyDeath_inds.
  destruct (_ <? 0); [exact Hslots|].
  destruct (mjoin _) as [indiv|] eqn:Hlook; [|exact Hslots].
  apply mjoin_lookup_Some in Hlook.
  destruct (Indiv.alive indiv); [|exact Hslots].
  cbn [fst snd]. apply (slots_insert _ _ indiv); auto.
Qed.

Lemma applyMove_slots inds g record :
  inds !! 0%nat = Some None /\ allIndexed inds ->
  fst (Peeps.applyMove (inds, g) record) !! 0%nat = Some None /\
  allIndexed (fst (Peeps.applyMove (inds, g) record)).
Proof.
  intros Hslots. unfold Peeps.applyMove.
  destruct (_ <? 0); [exact Hslots|].
  destruct (mjoin _) as [indiv|] eqn:Hlook; [|exact Hslots].
  apply mjoin_lookup_Some in Hlook.
  destruct (Indiv.alive indiv); [|exact Hslots].
  destruct (_ && _); [|exact Hslots].
  cbn [fst]. apply (slots_insert _ _ indiv); auto.
Qed.

Lemma fold_applyDeath_slots queue : forall deaths inds g,
  inds !! 0%nat = Some None /\ allIndexed inds ->
  applyDeath_inds (fold_left Peeps.applyDeath queue (deaths, inds, g)) !! 0%nat
    = Some None /\
  allIndexed (applyDeath_inds (fold_left Peeps.applyDeath queue (deaths, inds, g))).
Proof.
  induction queue as [|record queue IH]; intros deaths inds g Hslots;
    [exact Hslots|].
  cbn [fold_left].
  pose proof (applyDeath_slots deaths inds g record Hslots) as H1.
  destruct (Peeps.applyDeath (deaths, inds, g) record) as [[d1 inds1] g1].
  apply IH. exact H1.
Qed.

Lemma fold_applyMove_slots queue : forall inds g,
  inds !! 0%nat = Some None /\ allIndexed inds ->
  fst (fold_left Peeps.applyMove queue (inds, g)) !! 0%nat = Some None /\
  allIndexed (fst (fold_left Peeps.applyMove queue (inds, g))).
Proof.
  induction queue as [|record queue IH]; intros inds g Hslots; [exact Hslots|].
  cbn [fold_left].
  pose proof (applyMove_slots inds g record Hslots) as H1.
  destruct (Peeps.applyMove (inds, g) record) as [inds1 g1].
  apply IH. exact H1.
Qed.

Lemma endOfStep_slots {R : Type} (sim : Simulator.t R) :
  Peeps.individuals (Simulator.peeps sim) !! 0%nat = Some None /\
  allIndexed (Peeps.individuals (Simulator.peeps sim)) ->
  Peeps.individuals (Simulator.peeps (endOfStep sim)) !! 0%nat = Some None /\
  allIndexed (Peeps.individuals (Simulator.peeps (endOfStep sim))).
Proof.
  intros Hslots. destruct (endOfStep_drains sim) as [-> _].
  unfold Peeps.drainDeathQueue.
  pose proof (fold_applyDeath_slots (Peeps.deathQueue (Simulator.peeps sim)) 0
                (Peeps.individuals (Simulator.peeps sim)) (Simulator.grid sim)
                Hslots) as H1.
  destruct (fold_left Peeps.applyDeath _ _) as [[d1 inds1] g1].
  unfold applyDeath_inds in H1. cbn [fst snd] in *.
  unfold Peeps.drainMoveQueue. cbn [Peeps.moveQueue Peeps.individuals].
  pose proof (fold_applyMove_slots (Peeps.moveQueue (Simulator.peeps sim)) inds1 g1 H1)
    as H2.
  destruct (fold_left Peeps.applyMove _ _) as [inds2 g2].
  exact H2.
Qed.

Lemma slots_start : [None] !! 0%nat = Some (@None Indiv.t) /\ allIndexed [None].
Proof.
  split; [reflexivity|]. intros [|i] indiv Hi; cbn in Hi; discriminate.
Qed.

(** The states of [Reachable] are states of a run. *)
Lemma Reachable_Run Math_sin Math_tanh Math_exp sim :
  Reachable Math_sin Math_tanh Math_exp sim -> Run Math_sin Math_tanh Math_exp sim.
Proof.
  induction 1 as [params grid0 r peeps grid r' signals generation Hwf Hpop Hnn Hinit
                 |params genomes grid0 r peeps grid r' signals generation
                    Hwf Hpop Hnn Hgenomes Hinit
                 |sim sim' Hreach IH Hstep].
  - eapply run_init, Hinit.
  - eapply run_generation, Hinit.
  - eapply run_step; [exact IH | exact Hstep].
Qed.

Lemma Run_slots Math_sin Math_tanh Math_exp sim :
  Run Math_sin Math_tanh Math_exp sim ->
  Peeps.individuals (Simulator.peeps sim) !! 0%nat = Some None /\
  allIndexed (Peeps.individuals (Simulator.peeps sim)).
Proof.
  induction 1 as [params grid0 r peeps grid r' signals generation Hinit
                 |params genomes grid0 r peeps grid r' signals generation Hinit
                 |sim sim' Hrun IH Hstep].
  - unfold Peeps.init in Hinit.
    destruct (Peeps.initLoop _ _ _ _ _ _) as [[[inds g] r1]| |] eqn:Hloop;
      try discriminate.
    cbn [mbind Outcome_bind] in Hinit.
    apply Returns_triple in Hinit as (<- & _ & _).
    cbn [Simulator.peeps Peeps.individuals].
    apply (initLoop_slots (Z.to_nat (SimParams.population params)) 1 params
             [None] grid0 r inds g r1 eq_refl slots_start Hloop).
  - unfold Peeps.initFromGenomes in Hinit.
    destruct (Peeps.initFromLoop _ _ _ _ _ _) as [[[inds g] r1]| |] eqn:Hloop;
      try discriminate.
    cbn [mbind Outcome_bind] in Hinit.
    apply Returns_triple in Hinit as (<- & _ & _).
    cbn [Simulator.peeps Peeps.individuals].
    apply (initFromLoop_slots genomes 0 params [None] grid0 r inds g r1 eq_refl
             slots_start Hloop).
  - unfold stepOnce in Hstep.
    destruct (stepAll _ _ _ _ _ sim) as [mid| |] eqn:Hall;
      cbn [mbind Outcome_bind] in Hstep; try discriminate Hstep.
    apply (f_equal (fun o => match o with Returns s => s | _ => sim end)) in Hstep.
    cbn beta iota in Hstep. subst sim'.
    apply endOfStep_slots. eapply stepAll_slots; eauto.
Qed.





(** ** What one individual's turn asks of the generator and of the queues *)

Section SensorDraws.
Context {R : Type} `{RandomSource R}.
Variable Math_sin : float -> float.

Lemma getSensor_counted indiv s ctx (c : Counted R) :
  getSensor Math_sin indiv s ctx c =
    (fst (getSensor Math_sin indiv s ctx (source c)),
     counted (snd (getSensor Math_sin indiv s ctx (source c)))
             (sensorDraws s + draws c)).
Proof.
  destruct s; unfold getSensor; cbv zeta; cbn [sensorDraws Nat.add];
    try (rewrite next_counted; reflexivity);
    repeat match goal with
           | |- context [if ?b then _ else _] => destruct b
           | |- context [livingAt ?g ?p ?l] =>
               destruct (livingAt g p l) as [[? ?]|]
           | |- context [longProbeBarrier ?n ?g ?f ?l ?d] =>
               destruct (longProbeBarrier n g f l d)
           | |- context [shortProbeBarrier ?n ?g ?f ?l] =>
               destruct (shortProbeBarrier n g f l)
           | |- context [fold_left ?f ?l ?a] => destruct (fold_left f l a)
           end;
    destruct c; reflexivity.
Qed.

Lemma readSensors_counted indiv ctx sensors : forall c : Counted R,
  readSensors Math_sin sensors indiv ctx c =
    (fst (readSensors Math_sin sensors indiv ctx (source c)),
     counted (snd (readSensors Math_sin sensors indiv ctx (source c)))
             (sum_list (map sensorDraws sensors) + draws c)).
Proof.
  induction sensors as [|s sensors IH]; intros c.
  - destruct c; reflexivity.
  - cbn [readSensors map sum_list]. rewrite getSensor_counted.
    destruct (getSensor Math_sin indiv s ctx (source c)) as [v r1].
    cbn [fst snd]. rewrite IH. cbn [source draws].
    destruct (readSensors Math_sin sensors indiv ctx r1) as [vs r2].
    cbn [fst snd]. do 2 f_equal.
    change (sum_list (sensorDraws s :: map sensorDraws sensors))
      with (sensorDraws s + sum_list (map sensorDraws sensors))%nat.
    unfold id. lia.
Qed.

Lemma readSensors_length indiv ctx sensors : forall r : R,
  length (fst (readSensors Math_sin sensors indiv ctx r)) = length sensors.
Proof.
  induction sensors as [|s sensors IH]; intros r; [reflexivity|].
  cbn [readSensors].
  destruct (getSensor Math_sin indiv s ctx r) as [v r1].
  specialize (IH r1).
  destruct (readSensors Math_sin sensors indiv ctx r1) as [vs r2].
  cbn [fst length] in *. congruence.
Qed.

(** X18. Reading the sensors of an individual takes exactly one word from
    the generator, whatever the individual and whatever its network reads:
    the count goes up by one, and the values and the generator afterwards
    are those of the uncounted run.  The array has one value for each of
    the 21 sensors. *)
Theorem getSensorValues_draws_once indiv ctx (c : Counted R) :
  getSensorValues Math_sin indiv ctx c =
    (fst (getSensorValues Math_sin indiv ctx (source c)),
     counted (snd (getSensorValues Math_sin indiv ctx (source c)))
             (S (draws c))) /\
  Z.of_nat (length (fst (getSensorValues Math_sin indiv ctx (source c))))
  = NUM_SENSES.
Proof.
  unfold getSensorValues. split.
  - rewrite readSensors_counted. reflexivity.
  - rewrite readSensors_length. reflexivity.
Qed.

End SensorDraws.

Section ActionQueues.
Context {R : Type} `{RandomSource R}.
Variable Math_exp : float -> float.

Ltac action_cases :=
  repeat match goal with
         | |- context [if ?b then _ else _] => destruct b
         | |- context [Dir.random ?r] => destruct (Dir.random r)
         | |- context [livingAt ?g ?p ?l] =>
             destruct (livingAt g p l) as [[? ?]|]
         end.

Lemma actionLoop_app params grid threshold actionLevels l1 : forall l2 a
    (st : ActState.t R),
  actionLoop params grid threshold actionLevels (l1 ++ l2) a st =
  actionLoop params grid threshold actionLevels l2 (a + Z.of_nat (length l1))
    (actionLoop params grid threshold actionLevels l1 a st).
Proof.
  induction l1 as [|act l1 IH]; intros l2 a st.
  - cbn [app actionLoop length]. f_equal. cbn. lia.
  - cbn [app actionLoop length]. rewrite IH. f_equal. lia.
Qed.

(** What no action changes: the move queue and the heading. *)
Lemma actionStep_heading params grid threshold a level (st : ActState.t R) :
  Peeps.moveQueue (ActState.peeps (actionStep params grid threshold a level st))
  = Peeps.moveQueue (ActState.peeps st) /\
  Indiv.lastMoveDir (ActState.self (actionStep params grid threshold a level st))
  = Indiv.lastMoveDir (ActState.self st).
Proof.
  unfold actionStep. destruct a; action_cases; split; reflexivity.
Qed.

Lemma actionLoop_heading params grid threshold actionLevels actions :
  forall a (st : ActState.t R),
  Peeps.moveQueue
    (ActState.peeps (actionLoop params grid threshold actionLevels actions a st))
  = Peeps.moveQueue (ActState.peeps st) /\
  Indiv.lastMoveDir
    (ActState.self (actionLoop params grid threshold actionLevels actions a st))
  = Indiv.lastMoveDir (ActState.self st).
Proof.
  induction actions as [|act actions IH]; intros a st; [split; reflexivity|].
  cbn [actionLoop]. destruct (IH (a + 1)
    (actionStep params grid threshold act (f32get actionLevels a) st)) as [-> ->].
  apply actionStep_heading.
Qed.

(** Only KILL_FORWARD touches the population, only MOVE_RANDOM the
    generator. *)
Lemma actionStep_peeps params grid threshold a level (st : ActState.t R) :
  a <> Action.KILL_FORWARD ->
  ActState.peeps (actionStep params grid threshold a level st) = ActState.peeps st.
Proof.
  intros Ha. unfold actionStep. destruct a; try congruence; action_cases;
    reflexivity.
Qed.

Lemma actionStep_rng params grid threshold a level (st : ActState.t R) :
  a <> Action.MOVE_RANDOM ->
  ActState.rng (actionStep params grid threshold a level st) = ActState.rng st.
Proof.
  intros Ha. unfold actionStep. destruct a; try congruence; action_cases;
    reflexivity.
Qed.

Lemma actionLoop_peeps params grid threshold actionLevels actions :
  forall a (st : ActState.t R),
  Forall (fun act => act <> Action.KILL_FORWARD) actions ->
  ActState.peeps (actionLoop params grid threshold actionLevels actions a st)
  = ActState.peeps st.
Proof.
  induction actions as [|act actions IH]; intros a st Hall; [reflexivity|].
  cbn [actionLoop]. apply Forall_cons in Hall as [Hact Hall].
  rewrite IH by exact Hall. apply actionStep_peeps, Hact.
Qed.

Lemma actionLoop_rng params grid threshold actionLevels actions :
  forall a (st : ActState.t R),
  Forall (fun act => act <> Action.MOVE_RANDOM) actions ->
  ActState.rng (actionLoop params grid threshold actionLevels actions a st)
  = ActState.rng st.
Proof.
  induction actions as [|act actions IH]; intros a st Hall; [reflexivity|].
  cbn [actionLoop]. apply Forall_cons in Hall as [Hact Hall].
  rewrite IH by exact Hall. apply actionStep_rng, Hact.
Qed.

Lemma actions_around_kill :
  Action.all =
    [Action.MOVE_X; Action.MOVE_Y; Action.MOVE_FORWARD; Action.MOVE_RL;
     Action.MOVE_RANDOM; Action.SET_OSCILLATOR_PERIOD; Action.SET_LONGPROBE_DIST;
     Action.SET_RESPONSIVENESS; Action.EMIT_SIGNAL0]
    ++ [Action.KILL_FORWARD]
    ++ [Action.MOVE_EAST; Action.MOVE_WEST; Action.MOVE_NORTH; Action.MOVE_SOUTH;
        Action.MOVE_LEFT; Action.MOVE_RIGHT; Action.MOVE_REVERSE].
Proof. reflexivity. Qed.

Lemma actions_around_random :
  Action.all =
    [Action.MOVE_X; Action.MOVE_Y; Action.MOVE_FORWARD; Action.MOVE_RL]
    ++ [Action.MOVE_RANDOM]
    ++ [Action.SET_OSCILLATOR_PERIOD; Action.SET_LONGPROBE_DIST;
        Action.SET_RESPONSIVENESS; Action.EMIT_SIGNAL0; Action.KILL_FORWARD;
        Action.MOVE_EAST; Action.MOVE_WEST; Action.MOVE_NORTH; Action.MOVE_SOUTH;
        Action.MOVE_LEFT; Action.MOVE_RIGHT; Action.MOVE_REVERSE].
Proof. reflexivity. Qed.

Ltac none_is_it :=
  repeat first [apply Forall_nil_2 | apply Forall_cons_2; [discriminate|]].

(** The population after the loop over the actions: the one that
    KILL_FORWARD left. *)
Lemma actionLoop_all_peeps params grid threshold actionLevels (st : ActState.t R) :
  ActState.peeps (actionLoop params grid threshold actionLevels Action.all 0 st)
  = if SimParams.killEnable params &&
       PrimFloat.ltb (threshold * 0.5)%float (PrimFloat.abs (f32get actionLevels 9))
    then
      match livingAt grid (ActState.peeps st)
              (coordAdd (Indiv.loc (ActState.self st))
                 (Dir.asNormalizedCoord (Indiv.lastMoveDir (ActState.self st)))) with
      | Some (targetIdx, _) => Peeps.queueDeath (ActState.peeps st) targetIdx
      | None => ActState.peeps st
      end
    else ActState.peeps st.
Proof.
  rewrite actions_around_kill, !actionLoop_app.
  rewrite actionLoop_peeps by none_is_it.
  match goal with
  | |- context [actionLoop ?p ?g ?t ?l ?acts ?a st] =>
      pose proof (actionLoop_peeps p g t l acts a st ltac:(none_is_it)) as Hp;
      pose proof (actionLoop_heading p g t l acts a st) as [_ Hd];
      pose proof (actionLoop_frame p g t l acts a st) as (_ & _ & Hl & _);
      remember (actionLoop p g t l acts a st) as st9 eqn:Hst
  end.
  clear Hst. rewrite <- Hp, <- Hd, <- Hl.
  cbn [actionLoop length].
  change (0 + Z.of_nat 9) with 9.
  unfold actionStep. action_cases; reflexivity.
Qed.

(** The death queue after [executeActions]. *)
Lemma executeActions_deaths indiv actionLevels params grid signals peeps (r : R) :
  Peeps.deathQueue (ActState.peeps
    (executeActions Math_exp indiv actionLevels params grid signals peeps r))
  = match
      (if SimParams.killEnable params &&
          actionFires Math_exp indiv params actionLevels 9
       then livingAt grid peeps
              (coordAdd (Indiv.loc indiv)
                 (Dir.asNormalizedCoord (Indiv.lastMoveDir indiv)))
       else None)
    with
    | Some (targetIdx, _) => Peeps.deathQueue peeps ++ [DeathRecord.mk targetIdx]
    | None => Peeps.deathQueue peeps
    end.
Proof.
  unfold executeActions, actionFires.
  match goal with
  | |- context [actionLoop ?p ?g ?t ?l ?acts ?a ?st0] =>
      pose proof (actionLoop_all_peeps p g t l st0) as Hp;
      remember (actionLoop p g t l acts a st0) as st eqn:Hst
  end.
  clear Hst. cbn [ActState.peeps ActState.self] in Hp.
  assert (Hq : Peeps.deathQueue (ActState.peeps st)
    = match
        (if SimParams.killEnable params &&
            PrimFloat.ltb
              (responsivenessCurve Math_exp (Indiv.responsiveness indiv)
                 (SimParams.responsivenessCurveKFactor params) * 0.5)%float
              (PrimFloat.abs (f32get actionLevels 9))
         then livingAt grid peeps
                (coordAdd (Indiv.loc indiv)
                   (Dir.asNormalizedCoord (Indiv.lastMoveDir indiv)))
         else None)
      with
      | Some (targetIdx, _) => Peeps.deathQueue peeps ++ [DeathRecord.mk targetIdx]
      | None => Peeps.deathQueue peeps
      end).
  { rewrite Hp. destruct (_ && _); [|reflexivity].
    destruct (livingAt _ _ _) as [[? ?]|]; reflexivity. }
  destruct (negb _ || negb _); [|exact Hq].
  destruct (Grid.isInBounds _ _ && Grid.isEmptyAt _ _); [|exact Hq].
  exact Hq.
Qed.

(** The move queue and the heading after [executeActions]. *)
Lemma executeActions_moves indiv actionLevels params grid signals peeps (r : R) :
  let st := executeActions Math_exp indiv actionLevels params grid signals peeps r in
  (Peeps.moveQueue (ActState.peeps st) = Peeps.moveQueue peeps /\
   Indiv.lastMoveDir (ActState.self st) = Indiv.lastMoveDir indiv) \/
  (exists newLoc,
     Peeps.moveQueue (ActState.peeps st) =
       Peeps.moveQueue peeps ++ [MoveRecord.mk (Indiv.index indiv) newLoc] /\
     Grid.isInBounds grid newLoc = true /\
     Grid.isEmptyAt grid newLoc = true /\
     newLoc <> Indiv.loc indiv /\
     coordAdd (Indiv.loc indiv)
       (Dir.asNormalizedCoord (Indiv.lastMoveDir (ActState.self st))) = newLoc).
Proof.
  cbn zeta. unfold executeActions.
  match goal with
  | |- context [actionLoop ?p ?g ?t ?l ?acts ?a ?st0] =>
      pose proof (actionLoop_heading p g t l acts a st0) as [Hq Hd];
      pose proof (actionLoop_frame p g t l acts a st0) as (_ & _ & Hl & _);
      pose proof (actionLoop_index p g t l acts a st0) as Hi;
      remember (actionLoop p g t l acts a st0) as st eqn:Hst
  end.
  clear Hst. cbn [ActState.peeps ActState.self] in Hq, Hd, Hl, Hi.
  set (dx := if PrimFloat.ltb 0.5 (ActState.moveX st) then 1
             else if PrimFloat.ltb (ActState.moveX st) (-0.5) then -1 else 0).
  set (dy := if PrimFloat.ltb 0.5 (ActState.moveY st) then 1
             else if PrimFloat.ltb (ActState.moveY st) (-0.5) then -1 else 0).
  assert (Hdx : dx = -1 \/ dx = 0 \/ dx = 1).
  { subst dx. destruct (PrimFloat.ltb 0.5 (ActState.moveX st)); [lia|].
    destruct (PrimFloat.ltb (ActState.moveX st) _); lia. }
  assert (Hdy : dy = -1 \/ dy = 0 \/ dy = 1).
  { subst dy. destruct (PrimFloat.ltb 0.5 (ActState.moveY st)); [lia|].
    destruct (PrimFloat.ltb (ActState.moveY st) _); lia. }
  clearbody dx dy.
  destruct (negb (dx =? 0) || negb (dy =? 0)) eqn:Hmove; [|left; auto].
  destruct (Grid.isInBounds _ _) eqn:Hb; cbn [andb]; [|left; auto].
  destruct (Grid.isEmptyAt _ _) eqn:He; [|left; auto].
  right. rewrite Hl in Hb, He.
  exists (Coord.mk (Coord.x (Indiv.loc indiv) + dx) (Coord.y (Indiv.loc indiv) + dy)).
  cbn [ActState.peeps ActState.self Peeps.queueMove Peeps.moveQueue
       Indiv.set_lastMoveDir Indiv.lastMoveDir].
  rewrite Hq, Hi, Hl. split; [reflexivity|]. split; [exact Hb|].
  split; [exact He|]. split.
  - destruct (Indiv.loc indiv) as [x y]. cbn [Coord.x Coord.y].
    intros Heq. injection Heq as Hx Hy.
    assert (dx = 0) by lia. assert (dy = 0) by lia. subst dx dy.
    discriminate Hmove.
  - unfold coordAdd.
    destruct Hdx as [-> | [-> | ->]], Hdy as [-> | [-> | ->]];
      try reflexivity; discriminate Hmove.
Qed.

End ActionQueues.

(** X19. What [executeActions] adds to the two queues.  At most one
    move: either the move queue and the remembered heading are as before, or
    one record was added, which names the acting individual; its place is
    inside the grid, empty when asked for, different from where the
    individual stands, and it is the individual's place moved one cell along
    the heading that is remembered from then on.  A death in one case only:
    killing is enabled, the level of KILL_FORWARD is beyond half the
    threshold, and a living individual stands on the cell one step along the
    actor's heading; then that individual's index is added to the death
    queue, and nothing else. *)
Theorem executeActions_queues {R : Type} `{RandomSource R} Math_exp
    indiv actionLevels params grid signals peeps (r : R) :
  let st := executeActions Math_exp indiv actionLevels params grid signals peeps r in
  ((Peeps.moveQueue (ActState.peeps st) = Peeps.moveQueue peeps /\
    Indiv.lastMoveDir (ActState.self st) = Indiv.lastMoveDir indiv) \/
   (exists newLoc,
      Peeps.moveQueue (ActState.peeps st) =
        Peeps.moveQueue peeps ++ [MoveRecord.mk (Indiv.index indiv) newLoc] /\
      Grid.isInBounds grid newLoc = true /\
      Grid.isEmptyAt grid newLoc = true /\
      newLoc <> Indiv.loc indiv /\
      coordAdd (Indiv.loc indiv)
        (Dir.asNormalizedCoord (Indiv.lastMoveDir (ActState.self st))) = newLoc)) /\
  Peeps.deathQueue (ActState.peeps st)
  = match
      (if SimParams.killEnable params &&
          actionFires Math_exp indiv params actionLevels 9
       then livingAt grid peeps
              (coordAdd (Indiv.loc indiv)
                 (Dir.asNormalizedCoord (Indiv.lastMoveDir indiv)))
       else None)
    with
    | Some (targetIdx, _) => Peeps.deathQueue peeps ++ [DeathRecord.mk targetIdx]
    | None => Peeps.deathQueue peeps
    end.
Proof.
  cbn zeta. split; [apply executeActions_moves | apply executeActions_deaths].
Qed.

(** ** KILL_FORWARD before the first move *)

Lemma executeActions_kills_self {R : Type} `{RandomSource R} Math_exp
    indiv me actionLevels params grid signals peeps (r : R) :
  Indiv.lastMoveDir indiv = Compass.CENTER ->
  SimParams.killEnable params = true ->
  actionFires Math_exp indiv params actionLevels 9 = true ->
  livingAt grid peeps (Indiv.loc indiv) = Some (Indiv.index indiv, me) ->
  Peeps.deathQueue (ActState.peeps
    (executeActions Math_exp indiv actionLevels params grid signals peeps r))
  = Peeps.deathQueue peeps ++ [DeathRecord.mk (Indiv.index indiv)].
Proof.
  intros Hdir Hkill Hfires Hme.
  rewrite executeActions_deaths, Hkill, Hfires, Hdir. cbn [andb].
  replace (coordAdd (Indiv.loc indiv) (Dir.asNormalizedCoord Compass.CENTER))
    with (Indiv.loc indiv).
  - rewrite Hme. reflexivity.
  - unfold coordAdd. destruct (Indiv.loc indiv) as [x y].
    cbn [Dir.asNormalizedCoord Coord.x Coord.y]. rewrite !Z.add_0_r. reflexivity.
Qed.

(** X20. With the heading CENTER, which is the heading an individual is
    created with, the cell ahead is the individual's own cell: when killing
    is enabled and KILL_FORWARD fires, and the individual is the living
    occupant of its cell, the death that [executeActions] queues is its
    own. *)
Theorem kill_forward_before_first_move {R : Type} `{RandomSource R} Math_exp
    indiv me actionLevels params grid signals peeps (r : R) :
  Indiv.lastMoveDir indiv = Compass.CENTER ->
  SimParams.killEnable params = true ->
  actionFires Math_exp indiv params actionLevels 9 = true ->
  livingAt grid peeps (Indiv.loc indiv) = Some (Indiv.index indiv, me) ->
  Peeps.deathQueue (ActState.peeps
    (executeActions Math_exp indiv actionLevels params grid signals peeps r))
  = Peeps.deathQueue peeps ++ [DeathRecord.mk (Indiv.index indiv)].
Proof. apply executeActions_kills_self. Qed.

Lemma kill_forward_before_first_move_witness :
  Peeps.deathQueue (ActState.peeps
    (executeActions (fun v => v) (bareIndiv 1 (Coord.mk 0 0)) onlyKillForward
       killingParams (Simulator.grid twoNeighbours)
       (Simulator.signals twoNeighbours)
       (Peeps.mk (Peeps.individuals (Simulator.peeps twoNeighbours)) [] [])
       (PRNG.create 1)))
  = [DeathRecord.mk 1].
Proof.
  apply (kill_forward_before_first_move (fun v => v) (bareIndiv 1 (Coord.mk 0 0))
           (bareIndiv 1 (Coord.mk 0 0)) onlyKillForward killingParams
           (Simulator.grid twoNeighbours) (Simulator.signals twoNeighbours)
           (Peeps.mk (Peeps.individuals (Simulator.peeps twoNeighbours)) [] [])
           (PRNG.create 1));
    vm_compute; reflexivity.
Defined.

(** ** The generator in [executeActions] *)

Section ActionDraws.
Context {R : Type} `{RandomSource R}.
Variable Math_exp : float -> float.

Lemma random_counted (c : Counted R) :
  Dir.random c =
    (fst (Dir.random (source c)), counted (snd (Dir.random (source c))) (S (draws c))).
Proof.
  unfold Dir.random. rewrite next_counted.
  destruct (Rng.next (source c)); reflexivity.
Qed.

Lemma actionStep_counted params grid threshold a level
    (st : ActState.t (Counted R)) :
  uncounted (actionStep params grid threshold a level st)
  = actionStep params grid threshold a level (uncounted st).
Proof.
  destruct st as [mx my self sig pp c].
  destruct a; unfold actionStep, uncounted;
    cbn [ActState.moveX ActState.moveY ActState.self ActState.signals
         ActState.peeps ActState.rng];
    try rewrite random_counted;
    repeat match goal with
           | |- context [if ?b then _ else _] => destruct b
           | |- context [Dir.random ?r] => destruct (Dir.random r)
           | |- context [livingAt ?g ?p ?l] =>
               destruct (livingAt g p l) as [[? ?]|]
           end;
    reflexivity.
Qed.

Lemma actionLoop_counted params grid threshold actionLevels actions :
  forall a (st : ActState.t (Counted R)),
  uncounted (actionLoop params grid threshold actionLevels actions a st)
  = actionLoop params grid threshold actionLevels actions a (uncounted st).
Proof.
  induction actions as [|act actions IH]; intros a st; [reflexivity|].
  cbn [actionLoop]. rewrite IH, actionStep_counted. reflexivity.
Qed.

Lemma actionStep_random_draws params grid threshold level
    (st : ActState.t (Counted R)) :
  draws (ActState.rng
           (actionStep params grid threshold Action.MOVE_RANDOM level st))
  = ((if PrimFloat.ltb (threshold * 0.5)%float (PrimFloat.abs level)
      then 1 else 0) + draws (ActState.rng st))%nat.
Proof.
  unfold actionStep. rewrite random_counted.
  destruct (PrimFloat.ltb _ _); [|reflexivity].
  destruct (Dir.random (source (ActState.rng st))); reflexivity.
Qed.

Lemma executeActions_counted indiv actionLevels params grid signals peeps
    (c : Counted R) :
  uncounted (executeActions Math_exp indiv actionLevels params grid signals peeps c)
  = executeActions Math_exp indiv actionLevels params grid signals peeps (source c) /\
  draws (ActState.rng
           (executeActions Math_exp indiv actionLevels params grid signals peeps c))
  = ((if actionFires Math_exp indiv params actionLevels 4 then 1 else 0)
     + draws c)%nat.
Proof.
  unfold executeActions, actionFires. split.
  - match goal with
    | |- context [actionLoop ?p ?g ?t ?l ?acts ?a
                    (ActState.mk ?x ?y ?i ?s ?pp c)] =>
        pose proof (actionLoop_counted p g t l acts a (ActState.mk x y i s pp c))
          as Hloop;
        remember (actionLoop p g t l acts a (ActState.mk x y i s pp c))
          as stc eqn:Hstc
    end.
    clear Hstc. unfold uncounted at 2 in Hloop.
    cbn [ActState.moveX ActState.moveY ActState.self ActState.signals
         ActState.peeps ActState.rng] in Hloop.
    rewrite <- Hloop. clear Hloop. destruct stc as [mx my self sig pp [r n]].
    unfold uncounted.
    cbn [ActState.moveX ActState.moveY ActState.self ActState.signals
         ActState.peeps ActState.rng source].
    destruct (negb _ || negb _); [|reflexivity].
    destruct (_ && _); reflexivity.
  - match goal with
    | |- context [actionLoop ?p ?g ?t ?l Action.all 0 ?st0] =>
        assert (Hrng : draws (ActState.rng (actionLoop p g t l Action.all 0 st0))
                       = ((if PrimFloat.ltb (t * 0.5)%float
                                (PrimFloat.abs (f32get l 4))
                           then 1 else 0) + draws c)%nat);
        [|remember (actionLoop p g t l Action.all 0 st0) as st eqn:Hst]
    end.
    + rewrite actions_around_random, !actionLoop_app.
      rewrite actionLoop_rng
        by repeat first [apply Forall_nil_2 | apply Forall_cons_2; [discriminate|]].
      match goal with
      | |- context [actionLoop ?p ?g ?t ?l ?acts 0 ?st0] =>
          pose proof (actionLoop_rng p g t l acts 0 st0
            ltac:(repeat first [apply Forall_nil_2
                               | apply Forall_cons_2; [discriminate|]])) as Hpre;
          remember (actionLoop p g t l acts 0 st0) as st4 eqn:Hst4
      end.
      clear Hst4. cbn [ActState.rng] in Hpre.
      cbn [actionLoop length]. change (0 + Z.of_nat 4) with 4.
      rewrite actionStep_random_draws, Hpre. reflexivity.
    + clear Hst.
      destruct (negb _ || negb _); [|exact Hrng].
      destruct (Grid.isInBounds _ _ && Grid.isEmptyAt _ _); exact Hrng.
Qed.

(** X21. [executeActions] takes one word from the generator when
    MOVE_RANDOM fires and none otherwise; the outcome and the generator
    afterwards are those of the uncounted run. *)
Theorem executeActions_draws_for_random_move indiv actionLevels params grid
    signals peeps (c : Counted R) :
  uncounted (executeActions Math_exp indiv actionLevels params grid signals peeps c)
  = executeActions Math_exp indiv actionLevels params grid signals peeps (source c) /\
  draws (ActState.rng
           (executeActions Math_exp indiv actionLevels params grid signals peeps c))
  = ((if actionFires Math_exp indiv params actionLevels 4 then 1 else 0)
     + draws c)%nat.
Proof. apply executeActions_counted. Qed.

End ActionDraws.

(** ** What the death queue does to the population *)

Lemma living_after_kill l : forall n indiv,
  l !! n = Some (Some indiv) -> Indiv.alive indiv = true ->
  (length (omap livingOnly (<[n := Some (Peeps.kill indiv)]> l)) + 1
   = length (omap livingOnly l))%nat.
Proof.
  induction l as [|o l IH]; intros n indiv Hn Halive; [discriminate Hn|].
  destruct n as [|n].
  - cbn in Hn. injection Hn as ->. cbn [insert list_insert omap list_omap].
    cbn [livingOnly Peeps.kill Indiv.set_alive Indiv.alive]. rewrite Halive.
    cbn [length]. lia.
  - cbn in Hn. cbn [insert list_insert omap list_omap].
    specialize (IH n indiv Hn Halive). simpl in IH |- *.
    destruct (livingOnly o); simpl; [exact (f_equal S IH) | exact IH].
Qed.

Lemma getLiving_after_kill p n indiv :
  mjoin (Peeps.individuals p !! 0%nat) = None ->
  Peeps.individuals p !! n = Some (Some indiv) -> Indiv.alive indiv = true ->
  (length (Peeps.getLiving
             (Peeps.mk (<[n := Some (Peeps.kill indiv)]> (Peeps.individuals p))
                       (Peeps.deathQueue p) (Peeps.moveQueue p))) + 1
   = length (Peeps.getLiving p))%nat.
Proof.
  intros Hnull Hn Halive. unfold Peeps.getLiving. cbn [Peeps.individuals].
  destruct (Peeps.individuals p) as [|o l]; [discriminate Hn|].
  destruct n as [|n]; [cbn in Hn; injection Hn as ->; discriminate Hnull|].
  cbn [insert list_insert drop]. cbn in Hn.
  apply (living_after_kill l n indiv Hn Halive).
Qed.

(** The state the death queue is folded over, as a population. *)
Lemma applyDeath_counts deaths inds g record dq mq :
  mjoin (inds !! 0%nat) = None ->
  let st := Peeps.applyDeath (deaths, inds, g) record in
  mjoin (applyDeath_inds st !! 0%nat) = None /\
  length (applyDeath_inds st) = length inds /\
  fst (fst st) - deaths =
    Z.of_nat (length (Peeps.getLiving (Peeps.mk inds dq mq)))
    - Z.of_nat (length (Peeps.getLiving (Peeps.mk (applyDeath_inds st) dq mq))).
Proof.
  intros Hnull. cbn zeta. unfold Peeps.applyDeath, applyDeath_inds.
  destruct (_ <? 0); [cbn [fst snd]; split; [exact Hnull | split; [reflexivity | lia]]|].
  destruct (mjoin (inds !! Z.to_nat (DeathRecord.indivIndex record)))
    as [indiv|] eqn:Hlook;
    [|cbn [fst snd]; split; [exact Hnull | split; [reflexivity | lia]]].
  apply mjoin_lookup_Some in Hlook.
  destruct (Indiv.alive indiv) eqn:Halive;
    [|cbn [fst snd]; split; [exact Hnull | split; [reflexivity | lia]]].
  cbn [fst snd]. split; [|split].
  - rewrite list_lookup_insert_ne; [exact Hnull|].
    intros Heq. rewrite <- Heq, Hlook in Hnull. discriminate Hnull.
  - apply length_insert.
  - pose proof (getLiving_after_kill (Peeps.mk inds dq mq) _ indiv Hnull Hlook Halive)
      as Hcount.
    cbn [Peeps.individuals Peeps.deathQueue Peeps.moveQueue] in Hcount. lia.
Qed.

Lemma fold_applyDeath_counts dq mq queue : forall deaths inds g,
  mjoin (inds !! 0%nat) = None ->
  let st := fold_left Peeps.applyDeath queue (deaths, inds, g) in
  length (applyDeath_inds st) = length inds /\
  fst (fst st) - deaths =
    Z.of_nat (length (Peeps.getLiving (Peeps.mk inds dq mq)))
    - Z.of_nat (length (Peeps.getLiving (Peeps.mk (applyDeath_inds st) dq mq))).
Proof.
  induction queue as [|record queue IH]; intros deaths inds g Hnull.
  - cbn. split; [reflexivity | lia].
  - cbn [fold_left].
    destruct (applyDeath_counts deaths inds g record dq mq Hnull) as (H0 & Hlen & H1).
    destruct (Peeps.applyDeath (deaths, inds, g) record) as [[d1 inds1] g1].
    unfold applyDeath_inds in H0, H1, Hlen. cbn [fst snd] in H0, H1, Hlen.
    destruct (IH d1 inds1 g1 H0) as [Hlen' H2]. cbn zeta in H2, Hlen'.
    cbn zeta. split; [congruence | lia].
Qed.

Lemma applyDeath_dead deaths inds g record i :
  DeathRecord.indivIndex record = i \/ deadAt inds i ->
  deadAt (applyDeath_inds (Peeps.applyDeath (deaths, inds, g) record)) i.
Proof.
  unfold deadAt, Peeps.get, Peeps.applyDeath, applyDeath_inds.
  cbn [Peeps.individuals].
  intros Hcase indiv.
  destruct (Z.ltb_spec i 0) as [|Hi]; [discriminate|].
  destruct (Z.ltb_spec (DeathRecord.indivIndex record) 0) as [Hneg|Hr].
  { cbn [fst snd]. destruct Hcase as [Heq | Hdead]; [lia|].
    intros Hget. apply (Hdead indiv).
    destruct (Z.ltb_spec i 0); [lia | exact Hget]. }
  destruct (mjoin (inds !! Z.to_nat (DeathRecord.indivIndex record)))
    as [victim|] eqn:Hlook.
  - apply mjoin_lookup_Some in Hlook.
    destruct (Indiv.alive victim) eqn:Halive; cbn [fst snd].
    + destruct (decide (DeathRecord.indivIndex record = i)) as [Heq|Hne].
      * subst i. rewrite list_lookup_insert_eq by (eapply lookup_lt_Some, Hlook).
        cbn. intros Hget. apply (inj Some) in Hget. subst indiv. reflexivity.
      * rewrite list_lookup_insert_ne by lia.
        destruct Hcase as [Heq | Hdead]; [contradiction|].
        intros Hget. apply (Hdead indiv).
        destruct (Z.ltb_spec i 0); [lia | exact Hget].
    + intros Hget. destruct Hcase as [Heq | Hdead].
      * subst i. rewrite Hlook in Hget. cbn in Hget.
        apply (inj Some) in Hget. subst indiv. exact Halive.
      * apply (Hdead indiv). destruct (Z.ltb_spec i 0); [lia | exact Hget].
  - cbn [fst snd]. intros Hget. destruct Hcase as [Heq | Hdead].
    + subst i. rewrite Hlook in Hget. discriminate Hget.
    + apply (Hdead indiv). destruct (Z.ltb_spec i 0); [lia | exact Hget].
Qed.

Lemma fold_applyDeath_dead queue i : forall deaths inds g,
  i ∈ map DeathRecord.indivIndex queue \/ deadAt inds i ->
  deadAt (applyDeath_inds (fold_left Peeps.applyDeath queue (deaths, inds, g))) i.
Proof.
  induction queue as [|record queue IH]; intros deaths inds g Hcase.
  - destruct Hcase as [Hin | Hdead]; [|exact Hdead].
    cbn in Hin. apply elem_of_nil in Hin. contradiction.
  - cbn [fold_left].
    pose proof (applyDeath_dead deaths inds g record i) as Hstep.
    destruct (Peeps.applyDeath (deaths, inds, g) record) as [[d1 inds1] g1].
    unfold applyDeath_inds in Hstep at 1. cbn [fst snd] in Hstep.
    apply IH. destruct Hcase as [Hin | Hdead].
    + cbn [map] in Hin. apply elem_of_cons in Hin as [-> | Hin]; [|left; exact Hin].
      right. apply Hstep. left. reflexivity.
    + right. apply Hstep. right. exact Hdead.
Qed.

Lemma drainDeathQueue_spec p g :
  mjoin (Peeps.individuals p !! 0%nat) = None ->
  let out := Peeps.drainDeathQueue p g in
  let p' := snd (fst out) in
  Peeps.deathQueue p' = [] /\
  Peeps.moveQueue p' = Peeps.moveQueue p /\
  Peeps.getPopulationSize p' = Peeps.getPopulationSize p /\
  (forall i indiv, i ∈ map DeathRecord.indivIndex (Peeps.deathQueue p) ->
     Peeps.get p' i = Some indiv -> Indiv.alive indiv = false) /\
  (forall m, Z.of_nat m ∉ map DeathRecord.indivIndex (Peeps.deathQueue p) ->
     Peeps.individuals p' !! m = Peeps.individuals p !! m) /\
  fst (fst out) =
    Z.of_nat (length (Peeps.getLiving p)) - Z.of_nat (length (Peeps.getLiving p')).
Proof.
  intros Hnull. cbn zeta.
  pose proof (fold_applyDeath_counts [] (Peeps.moveQueue p) (Peeps.deathQueue p) 0
                (Peeps.individuals p) g Hnull) as [Hlen Hcount].
  pose proof (fun i H => fold_applyDeath_dead (Peeps.deathQueue p) i 0
                (Peeps.individuals p) g (or_introl H)) as Hdead.
  pose proof (fun m H => fold_applyDeath_other (Peeps.deathQueue p) m 0
                (Peeps.individuals p) g H) as Hother.
  cbn zeta in Hcount, Hlen. unfold Peeps.drainDeathQueue.
  destruct (fold_left Peeps.applyDeath _ _) as [[d1 inds1] g1].
  unfold applyDeath_inds in *. cbn [fst snd] in *.
  cbn [Peeps.deathQueue Peeps.moveQueue Peeps.individuals].
  split; [reflexivity|]. split; [reflexivity|]. split.
  { unfold Peeps.getPopulationSize. cbn [Peeps.individuals]. lia. }
  split; [|split].
  - intros i indiv Hin Hget. apply (Hdead i Hin indiv).
    unfold Peeps.get in *. cbn [Peeps.individuals] in *. exact Hget.
  - intros m Hm. apply Hother. apply Forall_forall. intros record Hrec Heq.
    apply Hm. rewrite <- Heq. apply list_elem_of_fmap. exists record.
    split; [reflexivity | exact Hrec].
  - unfold Peeps.getLiving in *. cbn [Peeps.individuals] in *. lia.
Qed.

(** X22. [drainDeathQueue] on a population whose slot 0 is [null]: both
    the death queue afterwards is empty and the move queue is kept; nobody
    the queue names is alive afterwards; whoever it does not name is as
    before; and the number it returns is the number of living individuals
    lost, however often and in whatever order an individual is named. *)
Theorem drainDeathQueue_kills_the_named p g :
  mjoin (Peeps.individuals p !! 0%nat) = None ->
  let out := Peeps.drainDeathQueue p g in
  let p' := snd (fst out) in
  Peeps.deathQueue p' = [] /\
  Peeps.moveQueue p' = Peeps.moveQueue p /\
  Peeps.getPopulationSize p' = Peeps.getPopulationSize p /\
  (forall i indiv, i ∈ map DeathRecord.indivIndex (Peeps.deathQueue p) ->
     Peeps.get p' i = Some indiv -> Indiv.alive indiv = false) /\
  (forall m, Z.of_nat m ∉ map DeathRecord.indivIndex (Peeps.deathQueue p) ->
     Peeps.individuals p' !! m = Peeps.individuals p !! m) /\
  fst (fst out) =
    Z.of_nat (length (Peeps.getLiving p)) - Z.of_nat (length (Peeps.getLiving p')).
Proof. apply drainDeathQueue_spec. Qed.

Lemma drainDeathQueue_kills_the_named_witness :
  fst (fst (Peeps.drainDeathQueue (Simulator.peeps twoNeighbours)
              (Simulator.grid twoNeighbours)))
  = Z.of_nat (length (Peeps.getLiving (Simulator.peeps twoNeighbours)))
    - Z.of_nat (length (Peeps.getLiving
                          (snd (fst (Peeps.drainDeathQueue
                                       (Simulator.peeps twoNeighbours)
                                       (Simulator.grid twoNeighbours)))))).
Proof.
  apply (drainDeathQueue_kills_the_named (Simulator.peeps twoNeighbours)
           (Simulator.grid twoNeighbours)).
  reflexivity.
Defined.

(** ** The shape of what [feedForward] returns *)

Lemma f32add_length arr i v : length (f32add arr i v) = length arr.
Proof.
  unfold f32add. destruct (i <? 0); [reflexivity | apply length_insert].
Qed.

Lemma propagate_lengths nnet sensorValues acc conn acc' :
  propagate nnet sensorValues acc conn = Returns acc' ->
  length (fst acc') = length (fst acc) /\ length (snd acc') = length (snd acc).
Proof.
  unfold propagate. destruct acc as [actionLevels neuronAccum].
  destruct (if Conn.sourceType conn =? SENSOR then _ else _) as [sourceOutput| |];
    cbn [mbind Outcome_bind]; try discriminate.
  destruct (Conn.sinkType conn =? ACTION); intros Heq;
    apply (f_equal (fun o => match o with
                             | Returns a => a
                             | _ => (actionLevels, neuronAccum)
                             end)) in Heq;
    cbn beta iota in Heq; subst acc'; cbn [fst snd];
    rewrite ?f32add_length; split; reflexivity.
Qed.

Lemma propagateAll_lengths nnet sensorValues conns : forall acc acc',
  propagateAll nnet sensorValues conns acc = Returns acc' ->
  length (fst acc') = length (fst acc) /\ length (snd acc') = length (snd acc).
Proof.
  induction conns as [|conn conns IH]; intros acc acc' Hrun.
  - cbn [propagateAll] in Hrun.
    apply (f_equal (fun o => match o with Returns a => a | _ => acc end)) in Hrun.
    cbn beta iota in Hrun. subst acc'. split; reflexivity.
  - cbn [propagateAll] in Hrun.
    destruct (propagate nnet sensorValues acc conn) as [acc1| |] eqn:H1;
      cbn [mbind Outcome_bind] in Hrun; try discriminate Hrun.
    apply propagate_lengths in H1 as [Ha Hn].
    destruct (IH acc1 acc' Hrun) as [Ha' Hn']. split; congruence.
Qed.

Lemma feedForward_returns_shape Math_tanh nnet sensorValues :
  wired nnet ->
  exists levels nnet',
    feedForward Math_tanh nnet sensorValues = Returns (levels, nnet') /\
    Z.of_nat (length levels) = NUM_ACTIONS /\
    connections nnet' = connections nnet /\
    length (neurons nnet') = length (neurons nnet) /\
    forall i n, neurons nnet !! i = Some n ->
      exists n', neurons nnet' !! i = Some n' /\
                 driven n' = driven n /\
                 (driven n = false -> n' = n).
Proof.
  intros Hw. unfold feedForward.
  destruct (propagateAll_returns nnet sensorValues (connections nnet)
              (replicate (Z.to_nat NUM_ACTIONS) 0%float,
               replicate (length (neurons nnet)) 0%float) Hw)
    as [[actionLevels neuronAccum] Hrun].
  rewrite Hrun. apply propagateAll_lengths in Hrun as [Ha _].
  cbn [fst snd] in Ha. rewrite length_replicate in Ha.
  cbn [mbind Outcome_bind]. eexists _, _. split; [reflexivity|].
  split; [rewrite length_map, Ha; reflexivity|].
  cbn [connections neurons]. split; [reflexivity|].
  unfold activate. split; [apply length_imap|].
  intros i n Hi. rewrite list_lookup_imap, Hi. cbn [fmap option_fmap option_map].
  destruct (driven n) eqn:Hd.
  - eexists. split; [reflexivity|]. split; [reflexivity | discriminate].
  - exists n. split; [reflexivity|]. split; [exact Hd | reflexivity].
Qed.

(** X23. On a network whose connections read only neurons that exist,
    [feedForward] returns: the action levels are 17 numbers whatever the
    connections name as their sinks, the connections are those of the
    network, and every neuron is still there with its [driven] flag; a
    neuron that is not driven keeps its output. *)
Theorem feedForward_shape Math_tanh nnet sensorValues :
  wired nnet ->
  exists levels nnet',
    feedForward Math_tanh nnet sensorValues = Returns (levels, nnet') /\
    Z.of_nat (length levels) = NUM_ACTIONS /\
    connections nnet' = connections nnet /\
    length (neurons nnet') = length (neurons nnet) /\
    forall i n, neurons nnet !! i = Some n ->
      exists n', neurons nnet' !! i = Some n' /\
                 driven n' = driven n /\
                 (driven n = false -> n' = n).
Proof. apply feedForward_returns_shape. Qed.

Lemma feedForward_shape_witness :
  exists levels nnet',
    feedForward (fun v => v) loopedNet [0.75%float] = Returns (levels, nnet') /\
    Z.of_nat (length levels) = NUM_ACTIONS /\
    levels !! 3%nat = Some 1%float /\
    connections nnet' = connections loopedNet /\
    neurons nnet' = [mkNeuron 0.25%float true; mkNeuron 0.25%float false].
Proof.
  assert (Hwired : wired loopedNet).
  { unfold wired, loopedNet. cbn [connections neurons length].
    repeat first [apply Forall_nil_2 | apply Forall_cons_2];
      cbn; intros; try lia; try contradiction. }
  destruct (feedForward_shape (fun v => v) loopedNet [0.75%float] Hwired)
    as (levels & nnet' & Hrun & Hlen & Hconn & _ & Hneurons).
  exists levels, nnet'. split; [exact Hrun|]. split; [exact Hlen|].
  assert (Hvalue :
    feedForward (fun v => v) loopedNet [0.75%float]
    = Returns (0%float :: 0%float :: 0%float :: 1%float
                 :: replicate (Z.to_nat 13) 0%float,
               mkNet (connections loopedNet)
                 [mkNeuron 0.25%float true; mkNeuron 0.25%float false]))
    by (vm_compute; reflexivity).
  rewrite Hvalue in Hrun. injection Hrun as <- <-.
  split; [reflexivity|]. split; [reflexivity|]. reflexivity.
Defined.

(** ** survival.ts: who survives *)

Lemma filter_sublist_impl {A} (f g : A -> bool) l :
  (forall x, x ∈ l -> f x = true -> g x = true) ->
  List.filter f l `sublist_of` List.filter g l.
Proof.
  induction l as [|x l IH]; intros Himp; cbn; [constructor|].
  assert (IH' : List.filter f l `sublist_of` List.filter g l).
  { apply IH. intros y Hy. apply Himp. right. exact Hy. }
  destruct (f x) eqn:Hf.
  - rewrite (Himp x (list_elem_of_here _ _) Hf). constructor. exact IH'.
  - destruct (g x); [constructor|]; exact IH'.
Qed.

Lemma getLiving_alive p indiv :
  indiv ∈ Peeps.getLiving p -> Indiv.alive indiv = true.
Proof.
  unfold Peeps.getLiving. intros Hin.
  apply list_elem_of_omap in Hin as (o & _ & Ho).
  destruct o as [ind|]; [|discriminate Ho].
  destruct (Indiv.alive ind) eqn:Halive; [|discriminate Ho].
  injection Ho as <-. exact Halive.
Qed.

Section WhoSurvives.
Variable Math_sqrt : float -> float.

Lemma getSurvivors_facts params grid peeps :
  (forall cl, getSurvivors Math_sqrt cl params grid peeps
                `sublist_of` Peeps.getLiving peeps) /\
  (forall cl indiv, indiv ∈ getSurvivors Math_sqrt cl params grid peeps ->
     Indiv.alive indiv = true) /\
  getSurvivors Math_sqrt [] params grid peeps = Peeps.getLiving peeps /\
  (forall cl n, SurvivalCriteria.OTHER n ∈ cl ->
     getSurvivors Math_sqrt cl params grid peeps = Peeps.getLiving peeps) /\
  (forall cl cl', cl <> [] -> (forall c, c ∈ cl -> c ∈ cl') ->
     getSurvivors Math_sqrt cl params grid peeps
       `sublist_of` getSurvivors Math_sqrt cl' params grid peeps).
Proof.
  split; [|split; [|split; [|split]]].
  - intros cl. apply filter_sublist.
  - intros cl indiv Hin. apply filter_elem_of in Hin as [Hin _].
    eapply getLiving_alive, Hin.
  - unfold getSurvivors. apply filter_all, forallb_forall. reflexivity.
  - intros cl n Hin. unfold getSurvivors. apply filter_all, forallb_forall.
    intros indiv _. apply orb_true_iff. right. apply existsb_exists.
    exists (SurvivalCriteria.OTHER n). split; [|reflexivity].
    apply list_elem_of_In, Hin.
  - intros cl cl' Hne Hincl. apply filter_sublist_impl.
    intros indiv _ Hsurv. apply orb_true_iff in Hsurv as [Hempty | Hsome].
    + destruct cl; [contradiction | discriminate Hempty].
    + apply orb_true_iff. right. apply existsb_exists.
      apply existsb_exists in Hsome as (c & Hc & Hs). exists c.
      split; [|exact Hs]. apply list_elem_of_In, Hincl, list_elem_of_In, Hc.
Qed.

(** X24. [getSurvivors] returns living individuals only, in the order of
    [getLiving].  With no criterion, or with one the [switch] does not
    know, everyone alive survives; from one criterion on, adding criteria
    can only add survivors. *)
Theorem getSurvivors_selects_the_living params grid peeps :
  (forall cl, getSurvivors Math_sqrt cl params grid peeps
                `sublist_of` Peeps.getLiving peeps) /\
  (forall cl indiv, indiv ∈ getSurvivors Math_sqrt cl params grid peeps ->
     Indiv.alive indiv = true) /\
  getSurvivors Math_sqrt [] params grid peeps = Peeps.getLiving peeps /\
  (forall cl n, SurvivalCriteria.OTHER n ∈ cl ->
     getSurvivors Math_sqrt cl params grid peeps = Peeps.getLiving peeps) /\
  (forall cl cl', cl <> [] -> (forall c, c ∈ cl -> c ∈ cl') ->
     getSurvivors Math_sqrt cl params grid peeps
       `sublist_of` getSurvivors Math_sqrt cl' params grid peeps).
Proof. apply getSurvivors_facts. Qed.

(** The visitor of [survivePairs], once it has seen a neighbour, keeps
    saying so. *)
Lemma pairs_visit_true indiv grid offsets :
  fold_left
    (fun acc (d : Z * Z) =>
       if inCircle 1.5 (fst d) (snd d)
       then
         let loc := Coord.mk (Coord.x (Indiv.loc indiv) + fst d)
                             (Coord.y (Indiv.loc indiv) + snd d) in
         if Grid.isInBounds grid loc
         then
           if negb (Coord.x loc =? Coord.x (Indiv.loc indiv)) ||
              negb (Coord.y loc =? Coord.y (Indiv.loc indiv))
           then if Grid.isOccupiedAt grid loc then true else acc
           else acc
         else acc
       else acc)
    offsets true = true.
Proof.
  induction offsets as [|d offsets IH]; [reflexivity|].
  cbn [fold_left]. cbv zeta.
  repeat match goal with
         | |- context [if ?b then _ else _] => destruct b
         end; exact IH.
Qed.

Lemma pairs_visit_hit indiv grid offsets d :
  d ∈ offsets ->
  inCircle 1.5 (fst d) (snd d) = true ->
  Grid.isInBounds grid (Coord.mk (Coord.x (Indiv.loc indiv) + fst d)
                                 (Coord.y (Indiv.loc indiv) + snd d)) = true ->
  d <> (0, 0) ->
  Grid.isOccupiedAt grid (Coord.mk (Coord.x (Indiv.loc indiv) + fst d)
                                   (Coord.y (Indiv.loc indiv) + snd d)) = true ->
  forall acc,
  fold_left
    (fun acc (d : Z * Z) =>
       if inCircle 1.5 (fst d) (snd d)
       then
         let loc := Coord.mk (Coord.x (Indiv.loc indiv) + fst d)
                             (Coord.y (Indiv.loc indiv) + snd d) in
         if Grid.isInBounds grid loc
         then
           if negb (Coord.x loc =? Coord.x (Indiv.loc indiv)) ||
              negb (Coord.y loc =? Coord.y (Indiv.loc indiv))
           then if Grid.isOccupiedAt grid loc then true else acc
           else acc
         else acc
       else acc)
    offsets acc = true.
Proof.
  intros Hin Hcircle Hb Hne Hocc.
  induction offsets as [|d' offsets IH]; intros acc.
  - apply elem_of_nil in Hin. contradiction.
  - apply elem_of_cons in Hin as [<- | Hin].
    + cbn [fold_left]. cbv zeta. rewrite Hcircle, Hb, Hocc.
      cbn [Coord.x Coord.y].
      replace (negb (Coord.x (Indiv.loc indiv) + fst d =? Coord.x (Indiv.loc indiv))
               || negb (Coord.y (Indiv.loc indiv) + snd d =? Coord.y (Indiv.loc indiv)))
        with true.
      * apply pairs_visit_true.
      * symmetry. apply orb_true_iff.
        destruct d as [dx dy]. cbn [fst snd].
        destruct (Z.eqb_spec (Coord.x (Indiv.loc indiv) + dx) (Coord.x (Indiv.loc indiv)));
          [|left; reflexivity].
        destruct (Z.eqb_spec (Coord.y (Indiv.loc indiv) + dy) (Coord.y (Indiv.loc indiv)));
          [|right; reflexivity].
        exfalso. apply Hne. f_equal; lia.
    + cbn [fold_left]. apply IH, Hin.
Qed.

Lemma contact_then_pairs indiv grid peeps :
  surviveContact indiv grid = true -> survivePairs indiv grid peeps = true.
Proof.
  unfold surviveContact, survivePairs, visitNeighborhood. intros Hcontact.
  apply existsb_exists in Hcontact as (d & Hd & Hhit).
  apply andb_true_iff in Hhit as [Hb Hocc].
  apply (pairs_visit_hit indiv grid _ d); try assumption.
  - change (loopRadius 1.5) with 1. apply list_elem_of_In in Hd.
    destruct d as [dx dy]. apply squareOffsets_elem.
    repeat (apply elem_of_cons in Hd as [Hd | Hd]; [injection Hd as -> ->; lia|]).
    apply elem_of_nil in Hd. contradiction.
  - cbn [In] in Hd.
    destruct Hd as [<- | [<- | [<- | [<- | []]]]]; vm_compute; reflexivity.
  - cbn [In] in Hd.
    destruct Hd as [<- | [<- | [<- | [<- | []]]]]; discriminate.
Qed.

Lemma pairs_visit_none indiv grid :
  (forall loc, Grid.isInBounds grid loc = true -> loc <> Indiv.loc indiv ->
               Grid.isOccupiedAt grid loc = false) ->
  forall offsets,
  fold_left
    (fun acc (d : Z * Z) =>
       if inCircle 1.5 (fst d) (snd d)
       then
         let loc := Coord.mk (Coord.x (Indiv.loc indiv) + fst d)
                             (Coord.y (Indiv.loc indiv) + snd d) in
         if Grid.isInBounds grid loc
         then
           if negb (Coord.x loc =? Coord.x (Indiv.loc indiv)) ||
              negb (Coord.y loc =? Coord.y (Indiv.loc indiv))
           then if Grid.isOccupiedAt grid loc then true else acc
           else acc
         else acc
       else acc)
    offsets false = false.
Proof.
  intros Halone offsets.
  induction offsets as [|d offsets IH]; [reflexivity|].
  cbn [fold_left]. cbv zeta.
  destruct (inCircle 1.5 (fst d) (snd d)); [|exact IH].
  destruct (Grid.isInBounds grid _) eqn:Hb; [|exact IH].
  destruct (negb _ || negb _) eqn:Hne; [|exact IH].
  rewrite Halone; [exact IH | exact Hb |].
  intros Heq. rewrite Heq in Hne. cbn [Coord.x Coord.y] in Hne.
  rewrite !Z.eqb_refl in Hne. discriminate Hne.
Qed.

Lemma survival_order indiv params grid peeps :
  (survives Math_sqrt indiv SurvivalCriteria.AGAINST_ANY_WALL params grid peeps = true ->
   survives Math_sqrt indiv SurvivalCriteria.TOUCH_ANY_WALL params grid peeps = true) /\
  (survives Math_sqrt indiv SurvivalCriteria.CONTACT params grid peeps = true ->
   survives Math_sqrt indiv SurvivalCriteria.PAIRS params grid peeps = true) /\
  ((forall loc, Grid.isInBounds grid loc = true -> loc <> Indiv.loc indiv ->
                Grid.isOccupiedAt grid loc = false) ->
   survives Math_sqrt indiv SurvivalCriteria.PAIRS params grid peeps = false /\
   survives Math_sqrt indiv SurvivalCriteria.CONTACT params grid peeps = false).
Proof.
  cbn [survives]. split; [|split].
  - unfold surviveAgainstAnyWall, surviveTouchAnyWall. intros Hwall.
    repeat (apply orb_true_iff in Hwall as [Hwall | Hwall]);
      apply Z.eqb_eq in Hwall; rewrite Hwall.
    + reflexivity.
    + replace (SimParams.sizeX params - 2 <=? SimParams.sizeX params - 1)
        with true by (symmetry; apply Z.leb_le; lia).
      rewrite orb_true_r. reflexivity.
    + rewrite orb_true_r. reflexivity.
    + replace (SimParams.sizeY params - 2 <=? SimParams.sizeY params - 1)
        with true by (symmetry; apply Z.leb_le; lia).
      rewrite orb_true_r. reflexivity.
  - apply contact_then_pairs.
  - intros Halone. split.
    + unfold survivePairs, visitNeighborhood. apply pairs_visit_none, Halone.
    + unfold surviveContact. cbn [existsb fst snd].
      repeat match goal with
             | |- context [Grid.isInBounds grid ?l && _] =>
                 destruct (Grid.isInBounds grid l) eqn:?; cbn [andb orb];
                 [rewrite (Halone l); [cbn [orb] | assumption |] |]
             end; try reflexivity;
        intros Heq; apply (f_equal Coord.x) in Heq as Hx;
        apply (f_equal Coord.y) in Heq as Hy; cbn [Coord.x Coord.y] in Hx, Hy; lia.
Qed.

(** X25. How the criteria are ordered: whoever is against a wall touches
    a wall, and whoever has a contact on one of the four sides has a pair.
    An individual with no other individual on any cell of the grid has
    neither; barriers are no company. *)
Theorem survival_criteria_order indiv params grid peeps :
  (survives Math_sqrt indiv SurvivalCriteria.AGAINST_ANY_WALL params grid peeps = true ->
   survives Math_sqrt indiv SurvivalCriteria.TOUCH_ANY_WALL params grid peeps = true) /\
  (survives Math_sqrt indiv SurvivalCriteria.CONTACT params grid peeps = true ->
   survives Math_sqrt indiv SurvivalCriteria.PAIRS params grid peeps = true) /\
  ((forall loc, Grid.isInBounds grid loc = true -> loc <> Indiv.loc indiv ->
                Grid.isOccupiedAt grid loc = false) ->
   survives Math_sqrt indiv SurvivalCriteria.PAIRS params grid peeps = false /\
   survives Math_sqrt indiv SurvivalCriteria.CONTACT params grid peeps = false).
Proof. apply survival_order. Qed.

End WhoSurvives.

(** ** barriers.ts: what drawing barriers does to a grid *)

Lemma barriersAdded_refl g : barriersAdded g g.
Proof. repeat split; auto. Qed.

Lemma barriersAdded_trans g1 g2 g3 :
  barriersAdded g1 g2 -> barriersAdded g2 g3 -> barriersAdded g1 g3.
Proof.
  intros (Hx & Hy & Hl & Hc) (Hx' & Hy' & Hl' & Hc').
  split; [congruence|]. split; [congruence|]. split; [congruence|].
  intros k v Hk. destruct (Hc k v Hk) as [H2 | H2].
  - apply (Hc' k v H2).
  - destruct (Hc' k BARRIER H2) as [H3 | H3]; right; exact H3.
Qed.

Lemma setBarrier_added g loc : barriersAdded g (setBarrier g loc).
Proof.
  unfold setBarrier. destruct (Grid.isInBounds g loc); [|apply barriersAdded_refl].
  unfold Grid.set. destruct (_ <? 0); [apply barriersAdded_refl|].
  split; [reflexivity|]. split; [reflexivity|]. cbn [Grid.data].
  split; [apply length_insert|].
  intros k v Hk.
  destruct (decide (k = Z.to_nat (Grid.idx g (Coord.x loc) (Coord.y loc))))
    as [->|Hne].
  - right. rewrite list_lookup_insert_eq by (eapply lookup_lt_Some, Hk).
    reflexivity.
  - left. rewrite list_lookup_insert_ne by congruence. exact Hk.
Qed.

Lemma fold_added {A} (f : Grid.t -> A -> Grid.t) l :
  (forall g a, barriersAdded g (f g a)) ->
  forall g, barriersAdded g (fold_left f l g).
Proof.
  intros Hf. induction l as [|a l IH]; intros g; [apply barriersAdded_refl|].
  cbn [fold_left]. eapply barriersAdded_trans; [apply Hf | apply IH].
Qed.

Lemma barrierDisc_added radius cx cy g :
  barriersAdded g (barrierDisc radius cx cy g).
Proof.
  unfold barrierDisc. apply fold_added. intros g' d.
  destruct (_ <=? _); [apply setBarrier_added | apply barriersAdded_refl].
Qed.

Lemma bars_added g :
  barriersAdded g (createVerticalBarConstant g) /\
  barriersAdded g (createHorizontalBarConstant g) /\
  barriersAdded g (createFiveBlocks g).
Proof.
  split; [|split].
  - apply fold_added. intros. apply setBarrier_added.
  - apply fold_added. intros. apply setBarrier_added.
  - apply fold_added. intros g' pos. apply fold_added. intros.
    apply setBarrier_added.
Qed.

Lemma spotsColumn_added fuel spotRadius spacing cx : forall cy g g',
  spotsColumn fuel spotRadius spacing cx cy g = Returns g' -> barriersAdded g g'.
Proof.
  induction fuel as [|fuel IH]; intros cy g g' Hrun; [discriminate Hrun|].
  cbn [spotsColumn] in Hrun. destruct (cy <? Grid.sizeY g).
  - eapply barriersAdded_trans; [apply barrierDisc_added | eapply IH, Hrun].
  - injection Hrun as <-. apply barriersAdded_refl.
Qed.

Lemma spotsRows_added fuel spotRadius spacing : forall cx g g',
  spotsRows fuel spotRadius spacing cx g = Returns g' -> barriersAdded g g'.
Proof.
  induction fuel as [|fuel IH]; intros cx g g' Hrun; [discriminate Hrun|].
  cbn [spotsRows] in Hrun. destruct (cx <? Grid.sizeX g).
  - destruct (spotsColumn (S fuel) spotRadius spacing cx spacing g)
      as [g1| |] eqn:Hcol; cbn [mbind Outcome_bind] in Hrun;
      try discriminate Hrun.
    eapply barriersAdded_trans; [eapply spotsColumn_added, Hcol | eapply IH, Hrun].
  - injection Hrun as <-. apply barriersAdded_refl.
Qed.

Lemma spotsColumn_no_throw fuel spotRadius spacing cx : forall cy g,
  spotsColumn fuel spotRadius spacing cx cy g <> Throws.
Proof.
  induction fuel as [|fuel IH]; intros cy g; [discriminate|].
  cbn [spotsColumn]. destruct (cy <? Grid.sizeY g); [apply IH | discriminate].
Qed.

Lemma spotsRows_no_throw fuel spotRadius spacing : forall cx g,
  spotsRows fuel spotRadius spacing cx g <> Throws.
Proof.
  induction fuel as [|fuel IH]; intros cx g; [discriminate|].
  cbn [spotsRows]. destruct (cx <? Grid.sizeX g); [|discriminate].
  destruct (spotsColumn (S fuel) spotRadius spacing cx spacing g) as [g1| |] eqn:Hcol;
    cbn [mbind Outcome_bind]; [apply IH | | discriminate].
  exfalso. eapply spotsColumn_no_throw, Hcol.
Qed.

Lemma barriersAdded_keeps g g' : barriersAdded g g' -> keepsBarriers g g'.
Proof.
  intros (_ & _ & _ & Hc) k Hk. destruct (Hc k BARRIER Hk); assumption.
Qed.

Lemma barriersAdded_wf g g' : gridWf g -> barriersAdded g g' -> gridWf g'.
Proof.
  intros (Hx & Hy & Hlen & Hr) (Hx' & Hy' & Hl & Hc).
  split; [lia|]. split; [lia|]. split; [rewrite Hx', Hy'; congruence|].
  apply Forall_lookup. intros k v' Hk.
  destruct (lookup_lt_is_Some_2 (Grid.data g) k) as [v Hv].
  { rewrite <- Hl. eapply lookup_lt_Some, Hk. }
  destruct (Hc k v Hv) as [H' | H']; rewrite H' in Hk; injection Hk as <-.
  - exact (Forall_lookup_1 _ _ _ _ Hr Hv).
  - unfold BARRIER. lia.
Qed.

Lemma barriersAdded_inBounds g g' loc :
  barriersAdded g g' -> Grid.isInBounds g' loc = Grid.isInBounds g loc.
Proof. intros (Hx & Hy & _). unfold Grid.isInBounds. rewrite Hx, Hy. reflexivity. Qed.

Section BarrierFrame.
Context {R : Type} `{RandomSource R}.

Lemma islands_added n islandRadius : forall g (r : R),
  barriersAdded g (fst (islands n islandRadius g r)).
Proof.
  induction n as [|n IH]; intros g r; [apply barriersAdded_refl|].
  cbn [islands].
  destruct (Rng.nextInt _ r) as [kx r1].
  match goal with
  | |- context [Rng.nextInt ?m r1] => destruct (Rng.nextInt m r1) as [ky r2]
  end.
  eapply barriersAdded_trans; [apply barrierDisc_added | apply IH].
Qed.

Lemma createBarrier_adds fuel g barrierType (r : R) :
  match createBarrier fuel g barrierType r with
  | Returns (g', r') =>
      barriersAdded g g' /\ keepsBarriers g g' /\ (gridWf g -> gridWf g') /\
      (forall loc, Grid.isInBounds g' loc = Grid.isInBounds g loc) /\
      match barrierType with
      | BarrierType.NONE | BarrierType.OTHER _ => g' = g /\ r' = r
      | BarrierType.VERTICAL_BAR_CONSTANT | BarrierType.FIVE_BLOCKS
      | BarrierType.HORIZONTAL_BAR_CONSTANT | BarrierType.SPOTS => r' = r
      | _ => True
      end
  | Throws => False
  | Diverges => barrierType = BarrierType.SPOTS
  end.
Proof.
  assert (Hall : forall g' (r' : R) (P : Prop),
            barriersAdded g g' -> P ->
            barriersAdded g g' /\ keepsBarriers g g' /\ (gridWf g -> gridWf g') /\
            (forall loc, Grid.isInBounds g' loc = Grid.isInBounds g loc) /\ P).
  { intros g' r' P Hadd HP. split; [exact Hadd|].
    split; [apply barriersAdded_keeps, Hadd|].
    split; [intros Hwf; eapply barriersAdded_wf; eauto|].
    split; [intros loc; apply barriersAdded_inBounds, Hadd | exact HP]. }
  destruct (bars_added g) as (Hv & Hh & Hf).
  destruct barrierType; cbn [createBarrier].
  - apply (Hall g r); [apply barriersAdded_refl | auto].
  - apply (Hall _ r); [exact Hv | reflexivity].
  - unfold createVerticalBarRandom. destruct (Rng.nextInt _ r) as [k r'].
    apply (Hall _ r'); [|exact I].
    apply fold_added. intros. apply setBarrier_added.
  - apply (Hall _ r); [exact Hf | reflexivity].
  - apply (Hall _ r); [exact Hh | reflexivity].
  - unfold createFloatingIslands.
    pose proof (islands_added 5
                  (Z.max 2 (Z.min (Grid.sizeX g) (Grid.sizeY g) / 12)) g r) as Hi.
    destruct (islands 5 _ g r) as [g' r']. apply (Hall _ r'); [exact Hi | exact I].
  - unfold createSpots.
    destruct (spotsRows fuel _ _ _ g) as [g'| |] eqn:Hrows;
      cbn [mbind Outcome_bind].
    + apply (Hall _ r); [eapply spotsRows_added, Hrows | reflexivity].
    + exfalso. eapply spotsRows_no_throw, Hrows.
    + reflexivity.
  - apply (Hall g r); [apply barriersAdded_refl | auto].
Qed.

(** X26. [createBarrier] never throws, and runs on only for SPOTS.  When
    it returns, the grid has the sizes it had, a cell holds what it held or
    a barrier, the barriers that were there are there, and a grid that was
    the array of its constructor still is.  NONE and a type the [switch]
    does not know leave the grid and the generator as they were; only the
    random bar and the islands use the generator. *)
Theorem createBarrier_only_adds_barriers fuel g barrierType (r : R) :
  match createBarrier fuel g barrierType r with
  | Returns (g', r') =>
      barriersAdded g g' /\ keepsBarriers g g' /\ (gridWf g -> gridWf g') /\
      (forall loc, Grid.isInBounds g' loc = Grid.isInBounds g loc) /\
      match barrierType with
      | BarrierType.NONE | BarrierType.OTHER _ => g' = g /\ r' = r
      | BarrierType.VERTICAL_BAR_CONSTANT | BarrierType.FIVE_BLOCKS
      | BarrierType.HORIZONTAL_BAR_CONSTANT | BarrierType.SPOTS => r' = r
      | _ => True
      end
  | Throws => False
  | Diverges => barrierType = BarrierType.SPOTS
  end.
Proof. apply createBarrier_adds. Qed.

End BarrierFrame.

(** ** The two bars, cell by cell *)

Lemma setBarrier_at g loc loc' :
  gridWf g -> Grid.isInBounds g loc' = true ->
  Grid.at_ (setBarrier g loc) loc' =
    if decide (loc = loc') then Some BARRIER else Grid.at_ g loc'.
Proof.
  intros Hwf Hb. unfold setBarrier. case_decide as Heq.
  - subst loc'. rewrite Hb. rewrite grid_at_set_same by assumption. reflexivity.
  - destruct (Grid.isInBounds g loc) eqn:Hloc; [|reflexivity].
    apply grid_at_set_other; assumption.
Qed.

Lemma setBarriers_at {A} (h : A -> Coord.t) l : forall g loc',
  gridWf g -> Grid.isInBounds g loc' = true ->
  Grid.at_ (fold_left (fun g a => setBarrier g (h a)) l g) loc' =
    if decide (loc' ∈ h <$> l) then Some BARRIER else Grid.at_ g loc'.
Proof.
  induction l as [|a l IH]; intros g loc' Hwf Hb.
  - cbn [fold_left]. case_decide as Hin; [|reflexivity].
    apply elem_of_nil in Hin. contradiction.
  - cbn [fold_left]. rewrite IH.
    + rewrite setBarrier_at by assumption. rewrite fmap_cons.
      repeat case_decide; try reflexivity.
      * exfalso. match goal with Hn : ~ _ ∈ _ :: _ |- _ => apply Hn end.
        right. assumption.
      * exfalso. match goal with Hn : ~ _ ∈ _ :: _ |- _ => apply Hn end.
        subst. left.
      * match goal with Hc : _ ∈ _ :: _ |- _ =>
          apply elem_of_cons in Hc as [Hc | Hc] end; [congruence | contradiction].
    + eapply barriersAdded_wf; [exact Hwf | apply setBarrier_added].
    + rewrite (barriersAdded_inBounds g); [exact Hb | apply setBarrier_added].
Qed.

Lemma bars_cells g loc :
  gridWf g -> Grid.isInBounds g loc = true ->
  Grid.at_ (createVerticalBarConstant g) loc =
    (if (Coord.x loc =? Grid.sizeX g / 2) &&
        (Grid.sizeY g / 4 <=? Coord.y loc) &&
        (Coord.y loc <? Grid.sizeY g - Grid.sizeY g / 4)
     then Some BARRIER else Grid.at_ g loc) /\
  Grid.at_ (createHorizontalBarConstant g) loc =
    (if (Coord.y loc =? Grid.sizeY g / 2) &&
        (Grid.sizeX g / 4 <=? Coord.x loc) &&
        (Coord.x loc <? Grid.sizeX g - Grid.sizeX g / 4)
     then Some BARRIER else Grid.at_ g loc).
Proof.
  intros Hwf Hb. unfold createVerticalBarConstant, createHorizontalBarConstant.
  cbv zeta. split.
  - rewrite (setBarriers_at (fun y => Coord.mk (Grid.sizeX g / 2) y)) by assumption.
    case_decide as Hin.
    + apply list_elem_of_fmap in Hin as (y & -> & Hy). apply elem_of_seqZ in Hy.
      cbn [Coord.x Coord.y]. rewrite Z.eqb_refl.
      destruct (Z.leb_spec (Grid.sizeY g / 4) y); [|lia].
      destruct (Z.ltb_spec y (Grid.sizeY g - Grid.sizeY g / 4)); [|lia].
      reflexivity.
    + destruct (Z.eqb_spec (Coord.x loc) (Grid.sizeX g / 2)) as [Hx|]; [|reflexivity].
      destruct (Z.leb_spec (Grid.sizeY g / 4) (Coord.y loc)); [|reflexivity].
      destruct (Z.ltb_spec (Coord.y loc) (Grid.sizeY g - Grid.sizeY g / 4));
        [|reflexivity].
      exfalso. apply Hin. apply list_elem_of_fmap. exists (Coord.y loc).
      split; [destruct loc; cbn in *; congruence | apply elem_of_seqZ; lia].
  - rewrite (setBarriers_at (fun x => Coord.mk x (Grid.sizeY g / 2))) by assumption.
    case_decide as Hin.
    + apply list_elem_of_fmap in Hin as (x & -> & Hx). apply elem_of_seqZ in Hx.
      cbn [Coord.x Coord.y]. rewrite Z.eqb_refl.
      destruct (Z.leb_spec (Grid.sizeX g / 4) x); [|lia].
      destruct (Z.ltb_spec x (Grid.sizeX g - Grid.sizeX g / 4)); [|lia].
      reflexivity.
    + destruct (Z.eqb_spec (Coord.y loc) (Grid.sizeY g / 2)) as [Hy|]; [|reflexivity].
      destruct (Z.leb_spec (Grid.sizeX g / 4) (Coord.x loc)); [|reflexivity].
      destruct (Z.ltb_spec (Coord.x loc) (Grid.sizeX g - Grid.sizeX g / 4));
        [|reflexivity].
      exfalso. apply Hin. apply list_elem_of_fmap. exists (Coord.x loc).
      split; [destruct loc; cbn in *; congruence | apply elem_of_seqZ; lia].
Qed.

(** X27. The two constant bars, cell by cell, on a grid that is the array
    of its constructor: the vertical bar makes a barrier of the cells of
    column floor(sizeX / 2) from row floor(sizeY / 4) up to, not including,
    row sizeY - floor(sizeY / 4); the horizontal bar does the same with
    rows and columns exchanged; every other cell is as it was. *)
Theorem constant_bars_cell_by_cell g loc :
  gridWf g -> Grid.isInBounds g loc = true ->
  Grid.at_ (createVerticalBarConstant g) loc =
    (if (Coord.x loc =? Grid.sizeX g / 2) &&
        (Grid.sizeY g / 4 <=? Coord.y loc) &&
        (Coord.y loc <? Grid.sizeY g - Grid.sizeY g / 4)
     then Some BARRIER else Grid.at_ g loc) /\
  Grid.at_ (createHorizontalBarConstant g) loc =
    (if (Coord.y loc =? Grid.sizeY g / 2) &&
        (Grid.sizeX g / 4 <=? Coord.x loc) &&
        (Coord.x loc <? Grid.sizeX g - Grid.sizeX g / 4)
     then Some BARRIER else Grid.at_ g loc).
Proof. apply bars_cells. Qed.

Lemma constant_bars_cell_by_cell_witness :
  Grid.at_ (createVerticalBarConstant (Grid.create 8 8)) (Coord.mk 4 3)
    = Some BARRIER /\
  Grid.at_ (createHorizontalBarConstant (Grid.create 8 8)) (Coord.mk 4 3)
    = Some 0.
Proof.
  apply (constant_bars_cell_by_cell (Grid.create 8 8) (Coord.mk 4 3)).
  - apply grid_create_wf; lia.
  - reflexivity.
Defined.

(** ** The loops of [createSpots] *)

Lemma spotsColumn_runs_on fuel spotRadius cx : forall cy g,
  cy < Grid.sizeY g -> spotsColumn fuel spotRadius 0 cx cy g = Diverges.
Proof.
  induction fuel as [|fuel IH]; intros cy g Hcy; [reflexivity|].
  cbn [spotsColumn]. destruct (Z.ltb_spec cy (Grid.sizeY g)); [|lia].
  rewrite Z.add_0_r. apply IH.
  rewrite (proj1 (proj2 (barrierDisc_added spotRadius cx cy g))). exact Hcy.
Qed.

Lemma spotsColumn_returns spotRadius spacing cx fuel : forall cy g,
  1 <= spacing -> (Z.to_nat (Grid.sizeY g - cy) < fuel)%nat ->
  exists g', spotsColumn fuel spotRadius spacing cx cy g = Returns g' /\
             barriersAdded g g'.
Proof.
  induction fuel as [|fuel IH]; intros cy g Hs Hfuel; [lia|].
  cbn [spotsColumn]. destruct (Z.ltb_spec cy (Grid.sizeY g)).
  - destruct (barrierDisc_added spotRadius cx cy g) as (Hx & Hy & Hrest).
    destruct (IH (cy + spacing) (barrierDisc spotRadius cx cy g) Hs)
      as (g' & Hrun & Hadd); [rewrite Hy; lia|].
    exists g'. split; [exact Hrun|].
    eapply barriersAdded_trans; [apply barrierDisc_added | exact Hadd].
  - exists g. split; [reflexivity | apply barriersAdded_refl].
Qed.

Lemma spotsRows_returns spotRadius spacing fuel : forall cx g,
  1 <= spacing ->
  (Z.to_nat (Grid.sizeX g - cx) + Z.to_nat (Grid.sizeY g) < fuel)%nat ->
  exists g', spotsRows fuel spotRadius spacing cx g = Returns g' /\
             barriersAdded g g'.
Proof.
  induction fuel as [|fuel IH]; intros cx g Hs Hfuel; [lia|].
  cbn [spotsRows]. destruct (Z.ltb_spec cx (Grid.sizeX g)).
  - destruct (spotsColumn_returns spotRadius spacing cx (S fuel) spacing g Hs)
      as (g1 & Hcol & Hadd1); [lia|].
    rewrite Hcol. cbn [mbind Outcome_bind].
    destruct Hadd1 as (Hx & Hy & Hrest).
    destruct (IH (cx + spacing) g1 Hs) as (g' & Hrun & Hadd); [rewrite Hx, Hy; lia|].
    exists g'. split; [exact Hrun|].
    eapply barriersAdded_trans; [|exact Hadd]. split; [exact Hx|]. split; [exact Hy|].
    exact Hrest.
  - exists g. split; [reflexivity | apply barriersAdded_refl].
Qed.

Lemma createSpots_loops g :
  (1 <= Grid.sizeX g -> 1 <= Grid.sizeY g ->
   Z.min (Grid.sizeX g) (Grid.sizeY g) < 4 ->
   forall fuel, createSpots fuel g = Diverges) /\
  (4 <= Z.min (Grid.sizeX g) (Grid.sizeY g) ->
   forall fuel, (Z.to_nat (Grid.sizeX g) + Z.to_nat (Grid.sizeY g) < fuel)%nat ->
   exists g', createSpots fuel g = Returns g' /\ barriersAdded g g').
Proof.
  unfold createSpots. split.
  - intros Hx Hy Hmin fuel.
    rewrite (Z.div_small (Z.min (Grid.sizeX g) (Grid.sizeY g)) 4) by lia.
    destruct fuel as [|fuel]; [reflexivity|].
    cbn [spotsRows]. destruct (Z.ltb_spec 0 (Grid.sizeX g)); [|lia].
    rewrite spotsColumn_runs_on by lia. reflexivity.
  - intros Hmin fuel Hfuel. apply spotsRows_returns.
    + apply Z.div_le_lower_bound; lia.
    + assert (0 <= Z.min (Grid.sizeX g) (Grid.sizeY g) / 4)
        by (apply Z.div_pos; lia).
      lia.
Qed.

(** X28. [createSpots] on a grid whose smaller side is 1, 2 or 3 cells
    never returns: the spacing of the spots is floor(min / 4) = 0, and the
    loops advance by the spacing.  From a smaller side of 4 cells on, it
    returns, having only added barriers. *)
Theorem createSpots_needs_four_cells g :
  (1 <= Grid.sizeX g -> 1 <= Grid.sizeY g ->
   Z.min (Grid.sizeX g) (Grid.sizeY g) < 4 ->
   forall fuel, createSpots fuel g = Diverges) /\
  (4 <= Z.min (Grid.sizeX g) (Grid.sizeY g) ->
   forall fuel, (Z.to_nat (Grid.sizeX g) + Z.to_nat (Grid.sizeY g) < fuel)%nat ->
   exists g', createSpots fuel g = Returns g' /\ barriersAdded g g').
Proof. apply createSpots_loops. Qed.

Lemma createSpots_needs_four_cells_witness :
  createSpots 100 (Grid.create 3 3) = Diverges /\
  exists g', createSpots 100 (Grid.create 8 8) = Returns g'.
Proof.
  split.
  - apply (createSpots_needs_four_cells (Grid.create 3 3)); cbn; lia.
  - destruct (createSpots_needs_four_cells (Grid.create 8 8)) as [_ Hret].
    destruct (Hret ltac:(cbn; lia) 100%nat ltac:(cbn; lia)) as (g' & Hrun & _).
    exists g'. exact Hrun.
Defined.

(** ** genome.ts and analysis.ts: the diversity of a population *)

Lemma diversityLoop_counted n genomes :
  (2 <= length genomes)%nat ->
  forall total (c : Counted PRNG.t),
  exists d r',
    diversityLoop n genomes total (source c) = Returns (d, r') /\
    diversityLoop n genomes total c = Returns (d, counted r' (2 * n + draws c)).
Proof.
  intros Hlen. induction n as [|n IH]; intros total c.
  - exists total, (source c). split; [reflexivity|]. destruct c; reflexivity.
  - cbn [diversityLoop]. rewrite nextInt_counted.
    pose proof (nextInt_range (Z.of_nat (length genomes)) (source c) ltac:(lia)) as Hi.
    destruct (Rng.nextInt (Z.of_nat (length genomes)) (source c)) as [i r1].
    cbn [fst snd] in *. rewrite nextInt_counted. cbn [source draws].
    pose proof (nextInt_range (Z.of_nat (length genomes) - 1) r1 ltac:(lia)) as Hj.
    destruct (Rng.nextInt (Z.of_nat (length genomes) - 1) r1) as [j0 r2].
    cbn [fst snd] in *.
    destruct (elem_in_range genomes i ltac:(lia)) as (a & _ & ->).
    destruct (elem_in_range genomes (if i <=? j0 then j0 + 1 else j0))
      as (b & _ & ->); [destruct (i <=? j0); lia|].
    cbn [mbind Outcome_bind].
    destruct (IH (total + (1 - genomeSimilarity a b))%float
                 (counted r2 (S (S (draws c))))) as (d & r' & Hu & Hc).
    cbn [source draws] in Hu, Hc.
    exists d, r'. split; [exact Hu|]. rewrite Hc. do 3 f_equal. lia.
Qed.

Lemma geneticDiversity_counted genomes sampleSize (c : Counted PRNG.t) :
  let n := Z.of_nat (length genomes) in
  exists d r',
    geneticDiversity genomes (source c) sampleSize = Returns (d, r') /\
    geneticDiversity genomes c sampleSize =
      Returns (d, counted r'
                    ((if n <? 2 then 0
                      else 2 * Z.to_nat (Z.min sampleSize (n * (n - 1) / 2)))
                     + draws c)) /\
    (n < 2 -> d = 0%float /\ r' = source c).
Proof.
  cbn zeta. unfold geneticDiversity.
  destruct (Z.ltb_spec (Z.of_nat (length genomes)) 2) as [Hlt|Hge].
  - exists 0%float, (source c). split; [reflexivity|].
    split; [destruct c; reflexivity | auto].
  - set (samples := Z.min sampleSize _).
    destruct (diversityLoop_counted (Z.to_nat samples) genomes ltac:(lia)
                0%float c) as (d & r' & Hu & Hc).
    rewrite Hu, Hc. cbn [mbind Outcome_bind fst snd].
    eexists _, _. split; [reflexivity|]. split; [reflexivity | lia].
Qed.

Lemma computeGenerationStats_counted generation allIndividuals survivors
    killDeaths (c : Counted PRNG.t) :
  exists stats r' n,
    computeGenerationStats generation allIndividuals survivors killDeaths (source c)
      = Returns (stats, r') /\
    computeGenerationStats generation allIndividuals survivors killDeaths c
      = Returns (stats, counted r' (n + draws c)) /\
    (n <= 200)%nat /\
    GenerationStats.population stats
      = Z.of_nat (length (omap livingOnly allIndividuals)) /\
    GenerationStats.survivors stats = Z.of_nat (length survivors) /\
    GenerationStats.killDeaths stats = killDeaths.
Proof.
  unfold computeGenerationStats.
  destruct (fold_left genomeLengths _ _) as [[totalLength maxLen] minLen].
  destruct (geneticDiversity_counted
              (map Indiv.genome (omap livingOnly allIndividuals)) 100 c)
    as (d & r' & Hu & Hc & _).
  cbn zeta in Hc. rewrite Hu, Hc. cbn [mbind Outcome_bind fst snd].
  eexists _, _, _. split; [reflexivity|]. split; [reflexivity|].
  split; [|cbn; auto].
  destruct (_ <? 2); lia.
Qed.

(** X29. [geneticDiversity] never reads outside the array of genomes: it
    returns.  With fewer than two genomes the result is 0 and the generator
    is not touched; otherwise it takes two words for each of
    min(sampleSize, n (n - 1) / 2) samples.  So [computeGenerationStats],
    which is given the generator of the simulation, returns too, and moves
    that generator on by up to 200 words. *)
Theorem geneticDiversity_draws_two_per_sample genomes sampleSize
    generation allIndividuals survivors killDeaths (c : Counted PRNG.t) :
  let n := Z.of_nat (length genomes) in
  (exists d r',
     geneticDiversity genomes (source c) sampleSize = Returns (d, r') /\
     geneticDiversity genomes c sampleSize =
       Returns (d, counted r'
                     ((if n <? 2 then 0
                       else 2 * Z.to_nat (Z.min sampleSize (n * (n - 1) / 2)))
                      + draws c)) /\
     (n < 2 -> d = 0%float /\ r' = source c)) /\
  (exists stats r' k,
     computeGenerationStats generation allIndividuals survivors killDeaths (source c)
       = Returns (stats, r') /\
     computeGenerationStats generation allIndividuals survivors killDeaths c
       = Returns (stats, counted r' (k + draws c)) /\
     (k <= 200)%nat /\
     GenerationStats.population stats
       = Z.of_nat (length (omap livingOnly allIndividuals)) /\
     GenerationStats.survivors stats = Z.of_nat (length survivors) /\
     GenerationStats.killDeaths stats = killDeaths).
Proof.
  cbn zeta. split.
  - apply geneticDiversity_counted.
  - apply computeGenerationStats_counted.
Qed.

(** ** A whole generation *)

(** The genomes of the population: in range when made, never written
    afterwards. *)
Lemma inrange_insert inds n old new :
  inds !! n = Some (Some old) -> Indiv.genome new = Indiv.genome old ->
  allInRange inds -> allInRange (<[n := Some new]> inds).
Proof.
  intros Hold Hg Hall j x Hj.
  apply list_lookup_insert_Some in Hj as [(<- & Heq & _) | (_ & Hj)].
  - injection Heq as <-. rewrite Hg. apply (Hall _ _ Hold).
  - apply (Hall _ _ Hj).
Qed.

Lemma inrange_snoc inds indiv :
  Forall gene_in_range (Indiv.genome indiv) ->
  allInRange inds -> allInRange (inds ++ [Some indiv]).
Proof.
  intros Hg Hall j x Hj.
  apply lookup_snoc_Some in Hj as [[_ Hj] | [-> Heq]].
  - apply (Hall _ _ Hj).
  - injection Heq as <-. exact Hg.
Qed.

Lemma inrange_start : allInRange [None].
Proof. intros [|i] indiv Hi; cbn in Hi; discriminate. Qed.

Lemma createIndiv_genome index genome loc params indiv :
  createIndiv index genome loc params = Returns indiv ->
  Indiv.genome indiv = genome.
Proof.
  unfold createIndiv.
  destruct (buildNeuralNet genome _) as [net| |]; cbn [mbind Outcome_bind];
    intros Heq; try discriminate Heq.
  apply (f_equal (fun o => match o with
                           | Returns i => Indiv.genome i
                           | _ => genome
                           end)) in Heq.
  cbn in Heq. congruence.
Qed.

Lemma initLoop_inrange n : forall i params inds grid (r : PRNG.t) inds' grid' r',
  allInRange inds ->
  Peeps.initLoop n i params inds grid r = Returns (inds', grid', r') ->
  allInRange inds'.
Proof.
  induction n as [|n IH]; intros i params inds grid r inds' grid' r' Hall Hrun.
  - cbn [Peeps.initLoop] in Hrun.
    apply Returns_triple in Hrun as (<- & _ & _). exact Hall.
  - rewrite initLoop_eq in Hrun. cbv zeta in Hrun.
    set (lr := Rng.nextRange _ _ r) in Hrun.
    pose proof (makeRandomGenes_in_range (Z.to_nat (fst lr)) (snd lr)) as Hgenome.
    fold (makeRandomGenome (snd lr) (fst lr)) in Hgenome.
    set (gr := makeRandomGenome (snd lr) (fst lr)) in *.
    set (fr := Peeps.findEmpty _ grid (snd gr)) in *.
    destruct (fst fr) as [loc|].
    + destruct (createIndiv i (fst gr) loc params) as [indiv| |] eqn:Hcreate;
        cbn [mbind Outcome_bind] in Hrun; try discriminate Hrun.
      apply createIndiv_genome in Hcreate.
      refine (IH (i + 1) params (inds ++ [Some indiv]) _ _ inds' grid' r' _ Hrun).
      apply inrange_snoc; [rewrite Hcreate; exact Hgenome | exact Hall].
    + apply Returns_triple in Hrun as (<- & _ & _). exact Hall.
Qed.

Lemma initFromLoop_inrange genomes :
  forall i params inds grid (r : PRNG.t) inds' grid' r',
  Forall (Forall gene_in_range) genomes -> allInRange inds ->
  Peeps.initFromLoop genomes i params inds grid r = Returns (inds', grid', r') ->
  allInRange inds'.
Proof.
  induction genomes as [|genome genomes IH];
    intros i params inds grid r inds' grid' r' Hgenomes Hall Hrun.
  - cbn [Peeps.initFromLoop] in Hrun.
    apply Returns_triple in Hrun as (<- & _ & _). exact Hall.
  - apply Forall_cons in Hgenomes as [Hgenome Hgenomes].
    rewrite initFromLoop_eq in Hrun. cbv zeta in Hrun.
    destruct (i <? SimParams.population params);
      [|apply Returns_triple in Hrun as (<- & _ & _); exact Hall].
    set (fr := Peeps.findEmpty _ grid r) in *.
    destruct (fst fr) as [loc|].
    + destruct (createIndiv (i + 1) genome loc params) as [indiv| |] eqn:Hcreate;
        cbn [mbind Outcome_bind] in Hrun; try discriminate Hrun.
      apply createIndiv_genome in Hcreate.
      refine (IH (i + 1) params (inds ++ [Some indiv]) _ _ inds' grid' r'
                Hgenomes _ Hrun).
      apply inrange_snoc; [rewrite Hcreate; exact Hgenome | exact Hall].
    + apply Returns_triple in Hrun as (<- & _ & _). exact Hall.
Qed.

(** [initFromGenomes] returns. *)
Lemma initFromLoop_returns genomes :
  forall i params inds grid (r : PRNG.t),
  1 <= SimParams.maxNumberNeurons params ->
  Forall (Forall gene_in_range) genomes ->
  exists res, Peeps.initFromLoop genomes i params inds grid r = Returns res.
Proof.
  induction genomes as [|genome genomes IH];
    intros i params inds grid r Hnn Hgenomes.
  - eexists. reflexivity.
  - apply Forall_cons in Hgenomes as [Hgenome Hgenomes].
    rewrite initFromLoop_eq. cbv zeta.
    destruct (i <? SimParams.population params); [|eexists; reflexivity].
    set (fr := Peeps.findEmpty _ grid r).
    destruct (fst fr) as [loc|]; [|eexists; reflexivity].
    destruct (createIndiv_wired (i + 1) genome loc params Hnn
                (Forall_ids_nonneg _ Hgenome)) as (indiv & -> & _).
    cbn [mbind Outcome_bind].
    exact (IH (i + 1) params (inds ++ [Some indiv])
              (Grid.set grid loc (i + 1)) (snd fr) Hnn Hgenomes).
Qed.

Section ActionsGenome.
Context {R : Type} `{RandomSource R}.
Variable Math_exp : float -> float.

Lemma actionStep_genome params grid threshold a level (st : ActState.t R) :
  Indiv.genome (ActState.self (actionStep params grid threshold a level st))
  = Indiv.genome (ActState.self st).
Proof.
  unfold actionStep.
  destruct a;
    repeat match goal with
           | |- context [if ?b then _ else _] => destruct b
           | |- context [Dir.random ?r] => destruct (Dir.random r)
           | |- context [livingAt ?g ?p ?l] =>
               destruct (livingAt g p l) as [[? ?]|]
           end;
    reflexivity.
Qed.

Lemma actionLoop_genome params grid threshold actionLevels actions :
  forall a (st : ActState.t R),
  Indiv.genome (ActState.self
                  (actionLoop params grid threshold actionLevels actions a st))
  = Indiv.genome (ActState.self st).
Proof.
  induction actions as [|act actions IH]; intros a st; [reflexivity|].
  cbn [actionLoop]. rewrite IH. apply actionStep_genome.
Qed.

Lemma executeActions_genome indiv actionLevels params grid signals peeps (r : R) :
  Indiv.genome (ActState.self
    (executeActions Math_exp indiv actionLevels params grid signals peeps r))
  = Indiv.genome indiv.
Proof.
  unfold executeActions.
  match goal with
  | |- context [actionLoop ?p ?g ?t ?l ?acts ?a ?st0] =>
      pose proof (actionLoop_genome p g t l acts a st0) as Hloop;
      remember (actionLoop p g t l acts a st0) as st eqn:Hst
  end.
  clear Hst. cbn [ActState.self] in Hloop.
  destruct (negb _ || negb _); [|exact Hloop].
  destruct (_ && _); [|exact Hloop].
  cbn [ActState.self Indiv.set_lastMoveDir Indiv.genome]. exact Hloop.
Qed.

End ActionsGenome.

Lemma stepIndiv_inrange Math_sin Math_tanh Math_exp step
    (sim sim' : Simulator.t PRNG.t) i :
  stepIndiv Math_sin Math_tanh Math_exp step sim i = Returns sim' ->
  allInRange (Peeps.individuals (Simulator.peeps sim)) ->
  allInRange (Peeps.individuals (Simulator.peeps sim')) /\
  Simulator.params sim' = Simulator.params sim /\
  Simulator.generation sim' = Simulator.generation sim.
Proof.
  intros Hrun Hall. unfold stepIndiv, Peeps.get in Hrun.
  assert (Hsame : Returns sim = Returns sim' ->
    allInRange (Peeps.individuals (Simulator.peeps sim')) /\
    Simulator.params sim' = Simulator.params sim /\
    Simulator.generation sim' = Simulator.generation sim).
  { intros Heq. apply (f_equal (fun o => match o with Returns s => s | _ => sim end))
      in Heq. cbn in Heq. subst sim'. auto. }
  destruct (Z.ltb_spec i 0) as [|Hi]; [auto|].
  destruct (mjoin (Peeps.individuals (Simulator.peeps sim) !! Z.to_nat i))
    as [indiv|] eqn:Hlook; [|auto].
  apply mjoin_lookup_Some in Hlook.
  destruct (Indiv.alive indiv); cbn [negb] in Hrun; [|auto].
  clear Hsame. unfold simStepIndiv in Hrun.
  destruct (getSensorValues _ _ _ _) as [sensorValues r'].
  destruct (feedForward Math_tanh (Indiv.nnet indiv) sensorValues)
    as [[levels nnet']| |]; cbn [mbind Outcome_bind fst snd] in Hrun;
    try discriminate Hrun.
  match type of Hrun with
  | context [executeActions ?e ?ind ?l ?p ?g ?s ?pp ?r] =>
      pose proof (executeActions_genome e ind l p g s pp r) as Hgen;
      pose proof (executeActions_frame e ind l p g s pp r) as Hframe;
      remember (executeActions e ind l p g s pp r) as st eqn:Hst
  end.
  clear Hst. cbn zeta in Hframe. destruct Hframe as (Hinds & _).
  cbn [Indiv.set_nnet Indiv.genome] in Hgen.
  apply (f_equal (fun o => match o with Returns s => s | _ => sim end)) in Hrun.
  cbn beta iota in Hrun. subst sim'.
  cbn [Simulator.peeps Simulator.params Simulator.generation].
  split; [|split; reflexivity]. unfold Peeps.put.
  destruct (Z.ltb_spec i 0); [lia|].
  cbn [Peeps.individuals]. rewrite Hinds.
  apply (inrange_insert _ _ indiv); [exact Hlook | | exact Hall].
  cbn [Indiv.set_age Indiv.genome]. exact Hgen.
Qed.

Lemma stepAll_inrange Math_sin Math_tanh Math_exp step indices :
  forall (sim sim' : Simulator.t PRNG.t),
  stepAll Math_sin Math_tanh Math_exp step indices sim = Returns sim' ->
  allInRange (Peeps.individuals (Simulator.peeps sim)) ->
  allInRange (Peeps.individuals (Simulator.peeps sim')) /\
  Simulator.params sim' = Simulator.params sim /\
  Simulator.generation sim' = Simulator.generation sim.
Proof.
  induction indices as [|i indices IH]; intros sim sim' Hrun Hall.
  - cbn [stepAll] in Hrun.
    apply (f_equal (fun o => match o with Returns s => s | _ => sim end)) in Hrun.
    cbn in Hrun. subst sim'. auto.
  - cbn [stepAll] in Hrun.
    destruct (stepIndiv Math_sin Math_tanh Math_exp step sim i) as [sim1| |] eqn:H1;
      cbn [mbind Outcome_bind] in Hrun; try discriminate Hrun.
    destruct (stepIndiv_inrange _ _ _ _ _ _ _ H1 Hall) as (Hall1 & Hp1 & Hg1).
    destruct (IH sim1 sim' Hrun Hall1) as (Hall2 & Hp2 & Hg2).
    split; [exact Hall2|]. split; congruence.
Qed.

Lemma applyDeath_inrange deaths inds g record :
  allInRange inds ->
  allInRange (applyDeath_inds (Peeps.applyDeath (deaths, inds, g) record)).
Proof.
  intros Hall. unfold Peeps.applyDeath, applyDeath_inds.
  destruct (_ <? 0); [exact Hall|].
  destruct (mjoin _) as [indiv|] eqn:Hlook; [|exact Hall].
  apply mjoin_lookup_Some in Hlook.
  destruct (Indiv.alive indiv); [|exact Hall].
  cbn [fst snd]. apply (inrange_insert _ _ indiv); auto.
Qed.

Lemma applyMove_inrange inds g record :
  allInRange inds -> allInRange (fst (Peeps.applyMove (inds, g) record)).
Proof.
  intros Hall. unfold Peeps.applyMove.
  destruct (_ <? 0); [exact Hall|].
  destruct (mjoin _) as [indiv|] eqn:Hlook; [|exact Hall].
  apply mjoin_lookup_Some in Hlook.
  destruct (Indiv.alive indiv); [|exact Hall].
  destruct (_ && _); [|exact Hall].
  cbn [fst]. apply (inrange_insert _ _ indiv); auto.
Qed.

Lemma fold_applyDeath_inrange queue : forall deaths inds g,
  allInRange inds ->
  allInRange (applyDeath_inds (fold_left Peeps.applyDeath queue (deaths, inds, g))).
Proof.
  induction queue as [|record queue IH]; intros deaths inds g Hall; [exact Hall|].
  cbn [fold_left].
  pose proof (applyDeath_inrange deaths inds g record Hall) as H1.
  destruct (Peeps.applyDeath (deaths, inds, g) record) as [[d1 inds1] g1].
  apply IH. exact H1.
Qed.

Lemma fold_applyMove_inrange queue : forall inds g,
  allInRange inds ->
  allInRange (fst (fold_left Peeps.applyMove queue (inds, g))).
Proof.
  induction queue as [|record queue IH]; intros inds g Hall; [exact Hall|].
  cbn [fold_left].
  pose proof (applyMove_inrange inds g record Hall) as H1.
  destruct (Peeps.applyMove (inds, g) record) as [inds1 g1].
  apply IH. exact H1.
Qed.

Lemma endOfStep_inrange {R : Type} (sim : Simulator.t R) :
  allInRange (Peeps.individuals (Simulator.peeps sim)) ->
  allInRange (Peeps.individuals (Simulator.peeps (endOfStep sim))) /\
  Simulator.params (endOfStep sim) = Simulator.params sim /\
  Simulator.generation (endOfStep sim) = Simulator.generation sim.
Proof.
  intros Hall. split.
  - destruct (endOfStep_drains sim) as [-> _].
    unfold Peeps.drainDeathQueue.
    pose proof (fold_applyDeath_inrange (Peeps.deathQueue (Simulator.peeps sim)) 0
                  (Peeps.individuals (Simulator.peeps sim)) (Simulator.grid sim)
                  Hall) as H1.
    destruct (fold_left Peeps.applyDeath _ _) as [[d1 inds1] g1].
    unfold applyDeath_inds in H1. cbn [fst snd] in *.
    unfold Peeps.drainMoveQueue. cbn [Peeps.moveQueue Peeps.individuals].
    pose proof (fold_applyMove_inrange (Peeps.moveQueue (Simulator.peeps sim))
                  inds1 g1 H1) as H2.
    destruct (fold_left Peeps.applyMove _ _) as [inds2 g2].
    exact H2.
  - unfold endOfStep.
    destruct (Peeps.drainDeathQueue _ _) as [[deaths peeps1] grid1].
    destruct (Peeps.drainMoveQueue peeps1 grid1) as [peeps2 grid2].
    split; reflexivity.
Qed.

(** What every state of a run has besides the invariant of a step: genes in
    range, and the two bounds on the parameters it started with. *)
Lemma Reachable_inrange Math_sin Math_tanh Math_exp sim :
  Reachable Math_sin Math_tanh Math_exp sim ->
  allInRange (Peeps.individuals (Simulator.peeps sim)) /\
  SimParams.population (Simulator.params sim) < BARRIER /\
  1 <= SimParams.maxNumberNeurons (Simulator.params sim).
Proof.
  induction 1 as [params grid0 r peeps grid r' signals generation Hwf Hpop Hnn Hinit
                 |params genomes grid0 r peeps grid r' signals generation
                    Hwf Hpop Hnn Hgenomes Hinit
                 |sim sim' Hreach IH Hstep].
  - cbn [Simulator.params]. split; [|split; assumption].
    unfold Peeps.init in Hinit.
    destruct (Peeps.initLoop _ _ _ _ _ _) as [[[inds g] r1]| |] eqn:Hloop;
      try discriminate.
    cbn [mbind Outcome_bind] in Hinit.
    apply Returns_triple in Hinit as (<- & _ & _).
    cbn [Simulator.peeps Peeps.individuals].
    apply (initLoop_inrange (Z.to_nat (SimParams.population params)) 1 params
             [None] grid0 r inds g r1 inrange_start Hloop).
  - cbn [Simulator.params]. split; [|split; assumption].
    unfold Peeps.initFromGenomes in Hinit.
    destruct (Peeps.initFromLoop _ _ _ _ _ _) as [[[inds g] r1]| |] eqn:Hloop;
      try discriminate.
    cbn [mbind Outcome_bind] in Hinit.
    apply Returns_triple in Hinit as (<- & _ & _).
    cbn [Simulator.peeps Peeps.individuals].
    apply (initFromLoop_inrange genomes 0 params [None] grid0 r inds g r1
             Hgenomes inrange_start Hloop).
  - destruct IH as (Hall & Hpop & Hnn). unfold stepOnce in Hstep.
    destruct (stepAll _ _ _ _ _ sim) as [mid| |] eqn:Hmid;
      cbn [mbind Outcome_bind] in Hstep; try discriminate Hstep.
    apply (f_equal (fun o => match o with Returns s => s | _ => sim end)) in Hstep.
    cbn beta iota in Hstep. subst sim'.
    destruct (stepAll_inrange _ _ _ _ _ _ _ Hmid Hall) as (Hall1 & Hp1 & _).
    destruct (endOfStep_inrange mid Hall1) as (Hall2 & Hp2 & _).
    rewrite Hp2, Hp1. auto.
Qed.

Lemma stepOnce_generation Math_sin Math_tanh Math_exp (sim sim' : Simulator.t PRNG.t) :
  Reachable Math_sin Math_tanh Math_exp sim ->
  stepOnce Math_sin Math_tanh Math_exp sim = Returns sim' ->
  Simulator.params sim' = Simulator.params sim /\
  Simulator.generation sim' = Simulator.generation sim.
Proof.
  intros Hreach Hstep. apply Reachable_inrange in Hreach as (Hall & _).
  unfold stepOnce in Hstep.
  destruct (stepAll _ _ _ _ _ sim) as [mid| |] eqn:Hmid;
    cbn [mbind Outcome_bind] in Hstep; try discriminate Hstep.
  apply (f_equal (fun o => match o with Returns s => s | _ => sim end)) in Hstep.
  cbn beta iota in Hstep. subst sim'.
  destruct (stepAll_inrange _ _ _ _ _ _ _ Hmid Hall) as (Hall1 & Hp1 & Hg1).
  destruct (endOfStep_inrange mid Hall1) as (_ & Hp2 & Hg2).
  split; congruence.
Qed.

Lemma stepsOfGeneration_reachable Math_sin Math_tanh Math_exp n :
  forall sim : Simulator.t PRNG.t,
  Reachable Math_sin Math_tanh Math_exp sim ->
  exists sim',
    stepsOfGeneration Math_sin Math_tanh Math_exp n sim = Returns sim' /\
    Reachable Math_sin Math_tanh Math_exp sim' /\
    Simulator.params sim' = Simulator.params sim /\
    Simulator.generation sim' = Simulator.generation sim.
Proof.
  induction n as [|n IH]; intros sim Hreach.
  - exists sim. cbn [stepsOfGeneration]. auto.
  - cbn [stepsOfGeneration].
    destruct (stepOnce_invariant Math_sin Math_tanh Math_exp sim
                (Reachable_invariant _ _ _ _ Hreach))
      as (mid & _ & _ & Hstep & _).
    pose proof (reach_step _ _ _ _ _ Hreach Hstep) as Hreach1.
    destruct (stepOnce_generation _ _ _ _ _ Hreach Hstep) as [Hp1 Hg1].
    rewrite Hstep. cbn [mbind Outcome_bind].
    destruct (IH _ Hreach1) as (sim' & Hrun & Hreach' & Hp & Hg).
    exists sim'. split; [exact Hrun|]. split; [exact Hreach'|]. split; congruence.
Qed.

Lemma grid_clear_wf g : gridWf g -> gridWf (Grid.clear g).
Proof.
  intros (Hx & Hy & Hlen & _). unfold gridWf, Grid.clear.
  cbn [Grid.sizeX Grid.sizeY Grid.data].
  split; [exact Hx|]. split; [exact Hy|]. split; [rewrite length_map; exact Hlen|].
  apply Forall_forall. intros v Hv. apply list_elem_of_fmap in Hv as (w & -> & _).
  unfold EMPTY. lia.
Qed.

Lemma getLiving_slot p indiv :
  indiv ∈ Peeps.getLiving p ->
  exists i, Peeps.individuals p !! i = Some (Some indiv).
Proof.
  unfold Peeps.getLiving. intros Hin.
  apply list_elem_of_omap in Hin as (o & Ho & Hlive).
  destruct o as [ind|]; [|discriminate Hlive].
  cbn in Hlive. destruct (Indiv.alive ind); [|discriminate Hlive].
  injection Hlive as <-.
  apply list_elem_of_lookup in Ho as [k Hk]. rewrite lookup_drop in Hk.
  eexists. exact Hk.
Qed.

Section GenerationCloses.
Variables Math_sin Math_tanh Math_exp Math_sqrt : float -> float.

Lemma endGeneration_reachable fuel barrierType survivalCriteria
    (sim : Simulator.t PRNG.t) :
  Reachable Math_sin Math_tanh Math_exp sim ->
  barrierType <> BarrierType.SPOTS ->
  exists stats sim',
    endGeneration Math_sqrt fuel barrierType survivalCriteria sim
      = Returns (stats, sim') /\
    Reachable Math_sin Math_tanh Math_exp (resetCounters sim') /\
    Simulator.params sim' = Simulator.params sim /\
    Simulator.generation sim' = Simulator.generation sim + 1 /\
    Simulator.simStep sim' = 0 /\
    GenerationStats.killDeaths stats = Simulator.killDeaths sim.
Proof.
  intros Hreach Hbt.
  destruct (Reachable_invariant _ _ _ _ Hreach) as (Hwf & _ & _).
  destruct (Reachable_inrange _ _ _ _ Hreach) as (Hall & Hpop & Hnn).
  unfold endGeneration. cbv zeta.
  set (survivors := getSurvivors Math_sqrt survivalCriteria (Simulator.params sim)
                      (Simulator.grid sim) (Simulator.peeps sim)).
  assert (Hsurv : Forall (fun s => Forall gene_in_range (Indiv.genome s)) survivors).
  { apply Forall_forall. intros s Hs. subst survivors.
    apply filter_elem_of in Hs as [Hs _].
    apply getLiving_slot in Hs as [i Hi]. apply (Hall _ _ Hi). }
  clearbody survivors.
  destruct (computeGenerationStats_counted (Simulator.generation sim)
              (map (Peeps.get (Simulator.peeps sim))
                 (seqZ 1 (Peeps.getPopulationSize (Simulator.peeps sim))))
              survivors (Simulator.killDeaths sim) (counted (Simulator.rng sim) 0))
    as (stats & r1 & k & Hstats & _ & _ & _ & _ & Hkd).
  cbn [source] in Hstats. rewrite Hstats. cbn [mbind Outcome_bind fst snd].
  assert (Hspawn : exists genomes r2,
            spawnNewGeneration survivors (Simulator.params sim) r1
              = Returns (genomes, r2) /\
            Forall (Forall gene_in_range) genomes).
  { unfold spawnNewGeneration. destruct survivors as [|s survivors].
    - cbn [length Nat.eqb].
      destruct (spawnRandom_shape
                  (Z.to_nat (SimParams.population (Simulator.params sim)))
                  (Simulator.params sim) r1) as [_ Hrange].
      destruct (spawnRandom _ (Simulator.params sim) r1) as [genomes r2].
      exists genomes, r2. split; [reflexivity | exact Hrange].
    - cbn [length Nat.eqb].
      destruct (spawnChildren_returns
                  (Z.to_nat (SimParams.population (Simulator.params sim)))
                  (s :: survivors) (Simulator.params sim) r1 ltac:(discriminate))
        as ([genomes r2] & Hrun & _ & Hrange & _).
      exists genomes, r2. split; [exact Hrun | exact (Hrange Hsurv)]. }
  destruct Hspawn as (genomes & r2 & Hspawn & Hgenomes).
  rewrite Hspawn. cbn [mbind Outcome_bind fst snd].
  pose proof (createBarrier_adds fuel (Grid.clear (Simulator.grid sim))
                barrierType r2) as Hbar.
  destruct (createBarrier fuel (Grid.clear (Simulator.grid sim)) barrierType r2)
    as [[g0 r3]| |]; [|contradiction|contradiction].
  destruct Hbar as (_ & _ & Hwf0 & _).
  specialize (Hwf0 (grid_clear_wf _ Hwf)).
  cbn [mbind Outcome_bind fst snd]. unfold Peeps.initFromGenomes.
  destruct (initFromLoop_returns genomes 0 (Simulator.params sim) [None] g0 r3
              Hnn Hgenomes) as ([[inds g] r4] & Hinit).
  rewrite Hinit. cbn [mbind Outcome_bind].
  eexists _, _. split; [reflexivity|].
  unfold resetCounters.
  cbn [Simulator.params Simulator.grid Simulator.peeps Simulator.signals
       Simulator.rng Simulator.generation Simulator.simStep].
  split; [|auto].
  apply (reach_generation _ _ _ (Simulator.params sim) genomes g0 r3
           (Peeps.mk inds [] []) g r4); try assumption.
  unfold Peeps.initFromGenomes. rewrite Hinit. reflexivity.
Qed.

Lemma runGeneration_reachable fuel barrierType survivalCriteria
    (sim : Simulator.t PRNG.t) :
  Reachable Math_sin Math_tanh Math_exp (resetCounters sim) ->
  barrierType <> BarrierType.SPOTS ->
  exists stats sim',
    runGeneration Math_sin Math_tanh Math_exp Math_sqrt fuel barrierType
      survivalCriteria sim = Returns (stats, sim') /\
    Reachable Math_sin Math_tanh Math_exp (resetCounters sim') /\
    Simulator.params sim' = Simulator.params sim /\
    Simulator.generation sim' = Simulator.generation sim + 1 /\
    Simulator.simStep sim' = 0 /\
    GenerationStats.generation stats = Simulator.generation sim.
Proof.
  intros Hreach Hbt. unfold runGeneration.
  destruct (stepsOfGeneration_reachable Math_sin Math_tanh Math_exp
              (Z.to_nat (SimParams.stepsPerGeneration (Simulator.params sim)))
              _ Hreach) as (mid & Hsteps & Hmid & Hp & Hg).
  rewrite Hsteps. cbn [mbind Outcome_bind].
  destruct (endGeneration_reachable fuel barrierType survivalCriteria mid Hmid Hbt)
    as (stats & sim' & Hend & Hreach' & Hp' & Hg' & Hs' & _).
  exists stats, sim'. split; [exact Hend|]. split; [exact Hreach'|].
  cbn [resetCounters Simulator.params Simulator.generation] in Hp, Hg.
  split; [congruence|]. split; [congruence|]. split; [exact Hs'|].
  revert Hend. unfold endGeneration. cbv zeta.
  destruct (computeGenerationStats _ _ _ _ _) as [[st r1]| |] eqn:Hst;
    cbn [mbind Outcome_bind]; try discriminate.
  destruct (spawnNewGeneration _ _ _) as [[genomes r2]| |];
    cbn [mbind Outcome_bind]; try discriminate.
  destruct (createBarrier _ _ _ _) as [[g0 r3]| |];
    cbn [mbind Outcome_bind]; try discriminate.
  destruct (Peeps.initFromGenomes _ _ _ _) as [[[peeps' grid'] r']| |];
    cbn [mbind Outcome_bind fst snd]; try discriminate.
  intros Heq.
  apply (f_equal (fun o => match o with
                           | Returns x => GenerationStats.generation (fst x)
                           | _ => 0
                           end)) in Heq.
  cbn beta iota in Heq. cbn [fst] in Heq. rewrite <- Heq.
  unfold computeGenerationStats in Hst.
  destruct (fold_left genomeLengths _ _) as [[totalLength maxLen] minLen].
  destruct (geneticDiversity _ _ _) as [[d rd]| |];
    cbn [mbind Outcome_bind] in Hst; try discriminate Hst.
  apply (f_equal (fun o => match o with
                           | Returns x => GenerationStats.generation (fst x)
                           | _ => 0
                           end)) in Hst.
  cbn in Hst. congruence.
Qed.


End GenerationCloses.

Lemma firstGeneration_start :
  exists sim, firstGeneration = Returns sim /\
    Reachable (fun v => v) (fun v => v) (fun v => v) (resetCounters sim) /\
    Simulator.params sim = twoGeneParams.
Proof.
  unfold firstGeneration.
  destruct (Peeps.init twoGeneParams
              (Grid.set (Grid.create 8 8) (Coord.mk 3 3) BARRIER) (PRNG.create 1))
    as [[[peeps grid] r]| |] eqn:Hinit;
    [| vm_compute in Hinit; discriminate Hinit
     | vm_compute in Hinit; discriminate Hinit].
  eexists. split; [reflexivity|]. split; [|reflexivity]. unfold resetCounters.
  cbn [Simulator.params Simulator.grid Simulator.peeps Simulator.signals
       Simulator.rng Simulator.generation].
  apply (reach_init _ _ _ twoGeneParams
           (Grid.set (Grid.create 8 8) (Coord.mk 3 3) BARRIER) (PRNG.create 1)
           peeps grid r); [| vm_compute; reflexivity | vm_compute; discriminate
                          | exact Hinit].
  apply grid_set_wf, grid_create_wf; lia.
Qed.


(** ** The long probes leave the grid

    Along a heading that is not CENTER no more locations in a row lie inside
    the grid than the grid is long; so the loops of the two long probes have
    ended by the turn [probeSteps] gives them for [Infinity], and further
    turns change nothing. *)
Lemma aheadBy_next loc fwd j :
  aheadBy (coordAdd loc fwd) fwd j = aheadBy loc fwd (j + 1).
Proof. unfold aheadBy, coordAdd. cbn [Coord.x Coord.y]. f_equal; lia. Qed.

Lemma aheadBy_one loc fwd : aheadBy loc fwd 1 = coordAdd loc fwd.
Proof. unfold aheadBy, coordAdd. f_equal; lia. Qed.

Lemma longProbePop_stops grid fwd n : forall loc count,
  (forall j, 1 <= j <= Z.of_nat n ->
     Grid.isInBounds grid (aheadBy loc fwd j) = true) \/
  (forall k, longProbePop (n + k) grid fwd loc count
             = longProbePop n grid fwd loc count).
Proof.
  induction n as [|n IH]; intros loc count.
  - left. intros j Hj. lia.
  - cbn [longProbePop Nat.add].
    destruct (Grid.isInBounds grid (coordAdd loc fwd)) eqn:Hb; cbn [negb];
      [|right; reflexivity].
    destruct (Grid.isBarrierAt grid (coordAdd loc fwd)); [right; reflexivity|].
    destruct (IH (coordAdd loc fwd)
                (if Grid.isOccupiedAt grid (coordAdd loc fwd)
                 then count + 1 else count)) as [Hall | Hsame];
      [left | right; exact Hsame].
    intros j Hj. destruct (Z.eq_dec j 1) as [->|Hne].
    + rewrite aheadBy_one. exact Hb.
    + replace j with (j - 1 + 1) by lia. rewrite <- aheadBy_next.
      apply Hall. lia.
Qed.

Lemma longProbeBarrier_stops grid fwd n : forall loc d,
  (forall j, 1 <= j <= Z.of_nat n ->
     Grid.isInBounds grid (aheadBy loc fwd j) = true) \/
  (exists d', forall k, longProbeBarrier (n + k) grid fwd loc d = Some d').
Proof.
  induction n as [|n IH]; intros loc d.
  - left. intros j Hj. lia.
  - cbn [longProbeBarrier Nat.add].
    destruct (Grid.isInBounds grid (coordAdd loc fwd)) eqn:Hb; cbn [negb orb];
      [|right; exists d; reflexivity].
    destruct (Grid.isBarrierAt grid (coordAdd loc fwd));
      [right; exists d; reflexivity|].
    destruct (IH (coordAdd loc fwd) (d + 1)) as [Hall | Hsame];
      [left | right; exact Hsame].
    intros j Hj. destruct (Z.eq_dec j 1) as [->|Hne].
    + rewrite aheadBy_one. exact Hb.
    + replace j with (j - 1 + 1) by lia. rewrite <- aheadBy_next.
      apply Hall. lia.
Qed.

(** No row of locations inside the grid is longer than the grid. *)
Lemma row_leaves_grid grid fwd loc :
  coordIsZero fwd = false ->
  ~ (forall j,
       1 <= j <= Z.of_nat (S (Z.to_nat (Z.max (Grid.sizeX grid) (Grid.sizeY grid)))) ->
       Grid.isInBounds grid (aheadBy loc fwd j) = true).
Proof.
  intros Hfwd Hall.
  set (m := Z.max (Grid.sizeX grid) (Grid.sizeY grid)) in *.
  pose proof (Hall 1 ltac:(lia)) as H1.
  pose proof (Hall (Z.of_nat (S (Z.to_nat m))) ltac:(lia)) as Hn.
  unfold Grid.isInBounds, aheadBy in H1, Hn. cbn [Coord.x Coord.y] in H1, Hn.
  rewrite !andb_true_iff in H1, Hn.
  destruct H1 as [[[H1a H1b] H1c] H1d], Hn as [[[Hna Hnb] Hnc] Hnd].
  apply Z.leb_le in H1a, H1c, Hna, Hnc. apply Z.ltb_lt in H1b, H1d, Hnb, Hnd.
  unfold coordIsZero in Hfwd. apply andb_false_iff in Hfwd.
  assert (Hm : Z.of_nat (S (Z.to_nat m)) = m + 1) by (unfold m in *; lia).
  rewrite Hm in *.
  assert (Hmx : Grid.sizeX grid <= m) by (unfold m; lia).
  assert (Hmy : Grid.sizeY grid <= m) by (unfold m; lia).
  destruct Hfwd as [Hx | Hy].
  - apply Z.eqb_neq in Hx. nia.
  - apply Z.eqb_neq in Hy. nia.
Qed.

Lemma longProbe_turns grid fwd loc k :
  coordIsZero fwd = false ->
  let n := probeSteps grid infinity in
  (forall count, longProbePop (n + k) grid fwd loc count
                 = longProbePop n grid fwd loc count) /\
  (forall d, exists d', longProbeBarrier n grid fwd loc d = Some d' /\
                        longProbeBarrier (n + k) grid fwd loc d = Some d').
Proof.
  intros Hfwd n.
  assert (Hn : n = S (Z.to_nat (Z.max (Grid.sizeX grid) (Grid.sizeY grid))))
    by reflexivity.
  split.
  - intros count.
    destruct (longProbePop_stops grid fwd n loc count) as [Hall | Hsame];
      [|apply Hsame].
    exfalso. apply (row_leaves_grid grid fwd loc Hfwd). rewrite <- Hn. exact Hall.
  - intros d.
    destruct (longProbeBarrier_stops grid fwd n loc d) as [Hall | [d' Hsame]].
    + exfalso. apply (row_leaves_grid grid fwd loc Hfwd). rewrite <- Hn.
      exact Hall.
    + exists d'. split; [|apply Hsame].
      specialize (Hsame 0%nat). rewrite Nat.add_0_r in Hsame. exact Hsame.
Qed.

(* ================================================================== *)
(** * Part IV: a population beyond the cell tags                      *)
(* ================================================================== *)

(** The grid is a [Uint16Array]: the index 65535 is stored as the barrier
    sentinel and the index 65536 as the empty tag.  Nothing in [init] or in
    the parameters keeps the population below them.  This part follows one
    step of the crowd of 65536 individuals, in which only individual 65535
    has a connection. *)

Lemma upFrom_snoc n : forall i,
  upFrom i (S n) = upFrom i n ++ [i + Z.of_nat n].
Proof.
  induction n as [|n IH]; intros i.
  - cbn [upFrom app]. f_equal. lia.
  - change (upFrom i (S (S n))) with (i :: upFrom (i + 1) (S n)).
    rewrite IH. cbn [upFrom app]. do 2 f_equal. f_equal. lia.
Qed.

Lemma upFrom_length n : forall i, length (upFrom i n) = n.
Proof.
  induction n as [|n IH]; intros i; cbn [upFrom length]; [|rewrite IH];
    reflexivity.
Qed.

Lemma crowdIndiv_created i :
  createIndiv i (crowdGenome i) (cellLoc (i - 1)) crowdParams
  = Returns (crowdIndiv i).
Proof.
  unfold crowdIndiv, crowdGenome. destruct (i =? 65535); reflexivity.
Qed.

(** The crowd with its first [k] individuals placed. *)
Lemma placeAll_cells : forall n k total rest,
  (k + n <= total)%nat -> (total + rest = Z.to_nat (256 * 257))%nat ->
  placeAll ((fun i => (crowdGenome i, cellLoc (i - 1)))
              <$> upFrom (Z.of_nat k + 1) n)
    (Z.of_nat k + 1) crowdParams
    (None :: ((fun i => Some (crowdIndiv i)) <$> upFrom 1 k))
    (Grid.mk 256 257
       ((JS.ToUint16 <$> upFrom 1 k) ++ replicate (total - k + rest) 0))
  = Some (None :: ((fun i => Some (crowdIndiv i)) <$> upFrom 1 (k + n)),
          Grid.mk 256 257
            ((JS.ToUint16 <$> upFrom 1 (k + n))
               ++ replicate (total - (k + n) + rest) 0)).
Proof.
  induction n as [|n IH]; intros k total rest Hk Htotal.
  - cbn [upFrom fmap list_fmap placeAll]. rewrite Nat.add_0_r. reflexivity.
  - cbn [upFrom fmap list_fmap placeAll].
    replace (Z.of_nat k + 1 - 1) with (Z.of_nat k) by lia.
    assert (Hidx : Grid.idx (Grid.mk 256 257
                     ((JS.ToUint16 <$> upFrom 1 k)
                        ++ replicate (total - k + rest) 0))
                     (Coord.x (cellLoc (Z.of_nat k)))
                     (Coord.y (cellLoc (Z.of_nat k))) = Z.of_nat k).
    { unfold Grid.idx, cellLoc. cbn [Grid.sizeX Coord.x Coord.y].
      pose proof (Z.div_mod (Z.of_nat k) 256 ltac:(lia)). lia. }
    assert (Hlen : length (JS.ToUint16 <$> upFrom 1 k) = k)
      by (rewrite length_fmap; apply upFrom_length).
    assert (Hempty : Grid.isEmptyAt (Grid.mk 256 257
                       ((JS.ToUint16 <$> upFrom 1 k)
                          ++ replicate (total - k + rest) 0))
                       (cellLoc (Z.of_nat k)) = true).
    { unfold Grid.isEmptyAt, Grid.at_. rewrite Hidx.
      destruct (Z.ltb_spec (Z.of_nat k) 0); [lia|].
      rewrite Nat2Z.id. cbn [Grid.data].
      rewrite lookup_app_r by lia. rewrite Hlen, Nat.sub_diag.
      replace (total - k + rest)%nat with (S (total - S k + rest)) by lia.
      reflexivity. }
    rewrite Hempty.
    replace (createIndiv (Z.of_nat k + 1) (crowdGenome (Z.of_nat k + 1))
               (cellLoc (Z.of_nat k)) crowdParams)
      with (Returns (crowdIndiv (Z.of_nat k + 1))).
    2:{ rewrite <- crowdIndiv_created. do 2 f_equal. lia. }
    replace (Z.of_nat k + 1 + 1) with (Z.of_nat (S k) + 1) by lia.
    replace ((None :: ((fun i => Some (crowdIndiv i)) <$> upFrom 1 k))
               ++ [Some (crowdIndiv (Z.of_nat k + 1))])
      with (None :: ((fun i => Some (crowdIndiv i)) <$> upFrom 1 (S k))).
    2:{ rewrite upFrom_snoc, fmap_app. cbn [fmap list_fmap app].
        replace (1 + Z.of_nat k) with (Z.of_nat k + 1) by lia. reflexivity. }
    replace (Grid.set _ (cellLoc (Z.of_nat k)) (Z.of_nat k + 1))
      with (Grid.mk 256 257
              ((JS.ToUint16 <$> upFrom 1 (S k))
                 ++ replicate (total - S k + rest) 0)).
    2:{ unfold Grid.set. rewrite Hidx.
        destruct (Z.ltb_spec (Z.of_nat k) 0); [lia|].
        rewrite Nat2Z.id. cbn [Grid.sizeX Grid.sizeY Grid.data]. f_equal.
        rewrite upFrom_snoc, fmap_app, <- app_assoc.
        replace (total - k + rest)%nat with (S (total - S k + rest)) by lia.
        rewrite insert_app_r_alt by lia. rewrite Hlen, Nat.sub_diag.
        cbn [fmap list_fmap app replicate]. f_equal.
        replace (1 + Z.of_nat k) with (Z.of_nat k + 1) by lia. reflexivity. }
    rewrite (IH (S k) total rest) by lia.
    replace (S k + n)%nat with (k + S n)%nat by lia. reflexivity.
Qed.

(** The crowd is what the loop of [init] builds on the empty grid when the
    genomes and the cells it draws are those of [crowdDraws]. *)
Lemma crowd_placed :
  placeAll crowdDraws 1 crowdParams [None] (Grid.create 256 257)
  = Some (crowdInds, crowdGrid).
Proof.
  pose proof (placeAll_cells (Z.to_nat 65536) 0 (Z.to_nat 65536) (Z.to_nat 256)
                ltac:(lia) ltac:(lia)) as Hplaced.
  cbn [upFrom fmap list_fmap app Nat.add Z.of_nat Z.add] in Hplaced.
  rewrite Nat.sub_0_r, Nat.sub_diag in Hplaced.
  unfold crowdDraws, crowdInds, crowdGrid, crowdCells, Grid.create.
  replace (Z.to_nat (256 * 257)) with (Z.to_nat 65536 + Z.to_nat 256)%nat by lia.
  exact Hplaced.
Qed.

Section Quiet.
Context {R : Type} `{RandomSource R}.

Lemma quiet_actions indiv grid signals peeps (r : R) :
  Indiv.responsiveness indiv = 0.5%float ->
  executeActions (fun v => v) indiv zeroLevels crowdParams grid signals peeps r
  = ActState.mk 0%float 0%float (quietSelf indiv) signals peeps r.
Proof.
  intros Hresp. unfold executeActions. rewrite Hresp.
  vm_compute. reflexivity.
Qed.
End Quiet.

Section Idle.
Context {R : Type} `{RandomSource R}.

Lemma idle_turn step grid inds dq mq signals (r : R) gen st kd i indiv :
  inds !! i = Some (Some indiv) -> idle indiv ->
  exists indiv' r',
    stepIndiv (fun v => v) (fun v => v) (fun v => v) step
      (Simulator.mk crowdParams grid (Peeps.mk inds dq mq) signals r gen st kd)
      (Z.of_nat i)
    = Returns (Simulator.mk crowdParams grid
                 (Peeps.mk (<[i := Some indiv']> inds) dq mq) signals r' gen st kd) /\
    Indiv.alive indiv' = true /\ Indiv.loc indiv' = Indiv.loc indiv.
Proof.
  intros Hi (Halive & Hconn & Hresp).
  unfold stepIndiv, Peeps.get.
  cbn [Simulator.peeps Simulator.params Simulator.grid Simulator.signals
       Simulator.rng Simulator.generation Simulator.simStep Simulator.killDeaths
       Peeps.individuals].
  destruct (Z.ltb_spec (Z.of_nat i) 0) as [|_]; [lia|].
  rewrite Nat2Z.id, Hi. cbn [mjoin option_join option_bind]. 
  rewrite Halive. cbn [negb].
  unfold simStepIndiv.
  destruct (getSensorValues _ indiv _ r) as [sv r'].
  unfold feedForward. rewrite Hconn.
  cbn [propagateAll mbind Outcome_bind fst snd].
  change (map (fun v => Num.fround v) (replicate (Z.to_nat NUM_ACTIONS) 0%float))
    with zeroLevels.
  rewrite quiet_actions by exact Hresp.
  cbn [ActState.self ActState.peeps ActState.signals ActState.rng].
  unfold Peeps.put.
  destruct (Z.ltb_spec (Z.of_nat i) 0) as [|_]; [lia|].
  rewrite Nat2Z.id. cbn [Peeps.individuals Peeps.deathQueue Peeps.moveQueue].
  eexists _, r'. split; [reflexivity|]. split; [exact Halive|reflexivity].
Qed.

Lemma idle_all step grid dq mq signals gen st kd : forall n a inds (r : R),
  (forall j, (a <= j < a + n)%nat ->
     exists indiv, inds !! S j = Some (Some indiv) /\ idle indiv) ->
  exists inds' r',
    stepAll (fun v => v) (fun v => v) (fun v => v) step
      ((fun i : nat => Z.of_nat i + 1) <$> seq a n)
      (Simulator.mk crowdParams grid (Peeps.mk inds dq mq) signals r gen st kd)
    = Returns (Simulator.mk crowdParams grid (Peeps.mk inds' dq mq) signals r'
                 gen st kd) /\
    forall k, (k <= a \/ a + n < k)%nat -> inds' !! k = inds !! k.
Proof.
  induction n as [|n IH]; intros a inds r Hidle.
  - exists inds, r. split; [reflexivity|]. reflexivity.
  - destruct (Hidle a ltac:(lia)) as (indiv & Hi & Hindiv).
    destruct (idle_turn step grid inds dq mq signals r gen st kd (S a) indiv
                Hi Hindiv) as (indiv' & r1 & Hturn & _ & _).
    destruct (IH (S a) (<[S a := Some indiv']> inds) r1) as (inds' & r' & Hrest & Hsame).
    { intros j Hj. destruct (Hidle j ltac:(lia)) as (x & Hx & Hidlex).
      exists x. split; [|exact Hidlex].
      rewrite list_lookup_insert_ne by lia. exact Hx. }
    exists inds', r'. split.
    + cbn [seq fmap list_fmap stepAll].
      replace (Z.of_nat a + 1) with (Z.of_nat (S a)) by lia.
      rewrite Hturn. cbn [mbind Outcome_bind]. exact Hrest.
    + intros k Hk. rewrite Hsame by lia.
      apply list_lookup_insert_ne. lia.
Qed.

End Idle.

Lemma east_thinks sv :
  feedForward (fun v => v) eastNet sv = Returns (eastLevels (f32get sv 0), eastNet).
Proof. reflexivity. Qed.

Section East.
Context {R : Type} `{RandomSource R}.

Lemma readSensors_cons Math_sin s rest indiv ctx (r : R) :
  fst (readSensors Math_sin (s :: rest) indiv ctx r)
  = Num.fround (fst (getSensor Math_sin indiv s ctx r))
    :: fst (readSensors Math_sin rest indiv ctx
              (snd (getSensor Math_sin indiv s ctx r))).
Proof.
  cbn [readSensors]. destruct (getSensor Math_sin indiv s ctx r) as [v r1].
  cbn [fst snd].
  destruct (readSensors Math_sin rest indiv ctx r1) as [vs r2]. reflexivity.
Qed.

Lemma getSensorValues_LOC_X Math_sin indiv ctx (r : R) :
  f32get (fst (getSensorValues Math_sin indiv ctx r)) 0
  = Num.fround (Num.ofZ (Coord.x (Indiv.loc indiv))
                / Num.ofZ (SimParams.sizeX (SensorContext.params ctx) - 1)).
Proof.
  unfold getSensorValues, Sensor.all. rewrite readSensors_cons. reflexivity.
Qed.

Lemma east_actions indiv grid signals peeps (r : R) :
  Indiv.responsiveness indiv = 0.5%float ->
  Grid.isInBounds grid (eastward indiv) = true ->
  Grid.isEmptyAt grid (eastward indiv) = true ->
  executeActions (fun v => v) indiv
    (eastLevels (Num.fround (Num.ofZ 254 / Num.ofZ 255))) crowdParams grid signals peeps r
  = ActState.mk 1%float 0%float
      (Indiv.set_lastMoveDir Compass.E (quietSelf indiv)) signals
      (Peeps.queueMove peeps (Indiv.index indiv) (eastward indiv)) r.
Proof.
  intros Hresp Hb Hempty. unfold executeActions. rewrite Hresp.
  assert (Hloop :
    actionLoop crowdParams grid
      (responsivenessCurve (fun v => v) 0.5 (SimParams.responsivenessCurveKFactor crowdParams))
      (eastLevels (Num.fround (Num.ofZ 254 / Num.ofZ 255))) Action.all 0
      (ActState.mk 0%float 0%float indiv signals peeps r)
    = ActState.mk 1%float 0%float (quietSelf indiv) signals peeps r).
  { vm_compute. reflexivity. }
  rewrite Hloop.
  cbn [ActState.moveX ActState.moveY ActState.self ActState.signals
       ActState.peeps ActState.rng].
  change (PrimFloat.ltb 0.5 1) with true.
  change (PrimFloat.ltb 0.5 0) with false.
  change (PrimFloat.ltb 0 (-0.5)) with false.
  cbv iota.
  change (negb (1 =? 0) || negb (0 =? 0)) with true. cbv iota.
  change (Indiv.loc (quietSelf indiv)) with (Indiv.loc indiv).
  fold (eastward indiv). rewrite Hb, Hempty. cbn [andb].
  reflexivity.
Qed.

Lemma mover_turn step grid inds dq mq signals (r : R) gen st kd :
  inds !! Z.to_nat 65535 = Some (Some (crowdIndiv 65535)) ->
  Grid.isInBounds grid (Coord.mk 255 255) = true ->
  Grid.isEmptyAt grid (Coord.mk 255 255) = true ->
  exists indiv' r',
    stepIndiv (fun v => v) (fun v => v) (fun v => v) step
      (Simulator.mk crowdParams grid (Peeps.mk inds dq mq) signals r gen st kd)
      65535
    = Returns (Simulator.mk crowdParams grid
                 (Peeps.mk (<[Z.to_nat 65535 := Some indiv']> inds) dq
                    (mq ++ [MoveRecord.mk 65535 (Coord.mk 255 255)]))
                 signals r' gen st kd) /\
    Indiv.alive indiv' = true /\ Indiv.loc indiv' = Coord.mk 254 255.
Proof.
  intros Hi Hb Hempty.
  unfold stepIndiv, Peeps.get.
  cbn [Simulator.peeps Simulator.params Simulator.grid Simulator.signals
       Simulator.rng Simulator.generation Simulator.simStep Simulator.killDeaths
       Peeps.individuals].
  change (65535 <? 0) with false. cbv iota.
  rewrite Hi. cbn [mjoin option_join option_bind].
  change (Indiv.alive (crowdIndiv 65535)) with true. cbn [negb].
  unfold simStepIndiv.
  match goal with
  | |- context [getSensorValues ?s ?i ?c r] =>
      pose proof (getSensorValues_LOC_X s i c r) as Hx;
      destruct (getSensorValues s i c r) as [sv r']
  end.
  cbn [fst] in Hx.
  change (Indiv.nnet (crowdIndiv 65535)) with eastNet.
  rewrite east_thinks. cbn [mbind Outcome_bind fst snd].
  rewrite Hx.
  change (Num.fround (Num.ofZ (Coord.x (Indiv.loc (crowdIndiv 65535)))
                      / Num.ofZ (SimParams.sizeX (SensorContext.params _) - 1)))
    with (Num.fround (Num.ofZ 254 / Num.ofZ 255)).
  rewrite east_actions; [|reflexivity|exact Hb|exact Hempty].
  cbn [ActState.self ActState.peeps ActState.signals ActState.rng].
  unfold Peeps.put, Peeps.queueMove.
  change (65535 <? 0) with false. cbv iota.
  cbn [Peeps.individuals Peeps.deathQueue Peeps.moveQueue].
  eexists _, r'. split; [reflexivity|]. split; reflexivity.
Qed.

End East.

Lemma upFrom_lookup n : forall i k,
  (k < n)%nat -> upFrom i n !! k = Some (i + Z.of_nat k).
Proof.
  induction n as [|n IH]; intros i k Hk; [lia|].
  destruct k as [|k]; cbn [upFrom].
  - cbn. f_equal. lia.
  - change ((i :: upFrom (i + 1) n) !! S k) with (upFrom (i + 1) n !! k).
    rewrite IH by lia. f_equal. lia.
Qed.



Lemma lookup_cons_S {A} (x : A) l k : (x :: l) !! S k = l !! k.
Proof. reflexivity. Qed.

Lemma crowdInds_lookup j :
  (1 <= j <= Z.to_nat 65536)%nat ->
  crowdInds !! j = Some (Some (crowdIndiv (Z.of_nat j))).
Proof.
  intros Hj. unfold crowdInds. destruct j as [|k]; [lia|].
  generalize dependent (Z.to_nat 65536). intros n Hj.
  rewrite (lookup_cons_S (A := option Indiv.t)).
  rewrite list_lookup_fmap, upFrom_lookup by lia.
  cbn [fmap option_fmap option_map]. do 3 f_equal. lia.
Qed.

Lemma crowdIndiv_idle i : i <> 65535 -> idle (crowdIndiv i).
Proof.
  intros Hi. unfold idle, crowdIndiv, crowdGenome.
  cbn [Indiv.alive Indiv.nnet Indiv.responsiveness connections].
  destruct (Z.eqb_spec i 65535); [contradiction|]. auto.
Qed.

Lemma stepAll_app {R : Type} `{RandomSource R} Math_sin Math_tanh Math_exp step l1 :
  forall l2 (sim : Simulator.t R),
  stepAll Math_sin Math_tanh Math_exp step (l1 ++ l2) sim
  = (sim' ← stepAll Math_sin Math_tanh Math_exp step l1 sim;
     stepAll Math_sin Math_tanh Math_exp step l2 sim').
Proof.
  induction l1 as [|i l1 IH]; intros l2 sim; [reflexivity|].
  cbn [app stepAll].
  destruct (stepIndiv Math_sin Math_tanh Math_exp step sim i) as [sim1| |];
    cbn [mbind Outcome_bind]; [apply IH|reflexivity|reflexivity].
Qed.

Lemma crowd_turns :
  seqZ 1 65536
  = ((fun i : nat => Z.of_nat i + 1) <$> seq 0 (Z.to_nat 65534)) ++ [65535; 65536].
Proof.
  unfold seqZ.
  replace (Z.to_nat 65536) with (Z.to_nat 65534 + 2)%nat by lia.
  rewrite seq_app, fmap_app. f_equal.
Qed.

Lemma crowd_cells :
  Grid.isBarrierAt crowdGrid (Coord.mk 254 255) = true /\
  Grid.isBarrierAt crowdGrid (Coord.mk 255 255) = false /\
  Grid.isInBounds crowdGrid (Coord.mk 255 255) = true /\
  Grid.isEmptyAt crowdGrid (Coord.mk 255 255) = true /\
  Grid.isBarrierAt movedGrid (Coord.mk 254 255) = false /\
  Grid.isBarrierAt movedGrid (Coord.mk 255 255) = true.
Proof. vm_compute. repeat split. Qed.

Lemma crowd_step :
  exists inds r',
    stepOnce (fun v => v) (fun v => v) (fun v => v) crowd
    = Returns (Simulator.mk crowdParams movedGrid (Peeps.mk inds [] [])
                 (fadeAll 1 (Signals.create 256 257 1)) r' 0 (0 + 1) (0 + 0)) /\
    exists a b,
      inds !! Z.to_nat 65535 = Some (Some a) /\
      inds !! Z.to_nat 65536 = Some (Some b) /\
      Indiv.alive a = true /\ Indiv.alive b = true /\
      Indiv.loc a = Coord.mk 255 255 /\ Indiv.loc b = Coord.mk 255 255.
Proof.
  destruct crowd_cells as (_ & _ & Hb & Hempty & _).
  unfold stepOnce, crowd.
  cbn [Simulator.simStep Simulator.peeps].
  assert (Hsize : Peeps.getPopulationSize (Peeps.mk crowdInds [] []) = 65536).
  { unfold Peeps.getPopulationSize, crowdInds.
    cbn [Peeps.individuals length]. rewrite length_fmap, upFrom_length. lia. }
  rewrite Hsize, crowd_turns, stepAll_app.
  destruct (idle_all 0 crowdGrid [] [] (Signals.create 256 257 1) 0 0 0
              (Z.to_nat 65534) 0%nat crowdInds (PRNG.create 1))
    as (inds1 & r1 & Hturns & Hsame1).
  { intros j Hj. exists (crowdIndiv (Z.of_nat (S j))).
    split; [apply crowdInds_lookup; lia | apply crowdIndiv_idle; lia]. }
  rewrite Hturns. cbn [mbind Outcome_bind stepAll].
  assert (Hm1 : inds1 !! Z.to_nat 65535 = Some (Some (crowdIndiv 65535))).
  { rewrite Hsame1 by lia. rewrite crowdInds_lookup by lia.
    do 3 f_equal; lia. }
  destruct (mover_turn 0 crowdGrid inds1 [] [] (Signals.create 256 257 1) r1 0 0 0
              Hm1 Hb Hempty) as (m' & r2 & Hmover & Hmalive & Hmloc).
  rewrite Hmover. cbn [mbind Outcome_bind app].
  set (inds2 := <[Z.to_nat 65535 := Some m']> inds1).
  assert (Hl1 : inds2 !! Z.to_nat 65536 = Some (Some (crowdIndiv 65536))).
  { unfold inds2. rewrite list_lookup_insert_ne by lia.
    rewrite Hsame1 by lia. rewrite crowdInds_lookup by lia.
    do 3 f_equal; lia. }
  destruct (idle_turn 0 crowdGrid inds2 []
              [MoveRecord.mk 65535 (Coord.mk 255 255)]
              (Signals.create 256 257 1) r2 0 0 0 (Z.to_nat 65536)
              (crowdIndiv 65536) Hl1 (crowdIndiv_idle 65536 ltac:(lia)))
    as (l' & r3 & Hlast & Hlalive & Hlloc).
  replace (Z.of_nat (Z.to_nat 65536)) with 65536 in Hlast by lia.
  rewrite Hlast. cbn [mbind Outcome_bind stepAll].
  set (inds3 := <[Z.to_nat 65536 := Some l']> inds2).
  assert (Hm3 : inds3 !! Z.to_nat 65535 = Some (Some m')).
  { unfold inds3, inds2. rewrite list_lookup_insert_ne by lia.
    apply list_lookup_insert_eq. apply lookup_lt_Some in Hm1. exact Hm1. }
  assert (Hl3 : inds3 !! Z.to_nat 65536 = Some (Some l')).
  { unfold inds3. apply list_lookup_insert_eq.
    apply lookup_lt_Some in Hl1. exact Hl1. }
  unfold endOfStep, Peeps.drainDeathQueue, Peeps.drainMoveQueue.
  cbn [Simulator.peeps Simulator.grid Simulator.params Simulator.signals
       Simulator.rng Simulator.generation Simulator.simStep Simulator.killDeaths
       Peeps.individuals Peeps.deathQueue Peeps.moveQueue fold_left].
  unfold Peeps.applyMove.
  cbn [MoveRecord.indivIndex MoveRecord.newLoc].
  change (65535 <? 0) with false. cbv iota.
  rewrite Hm3. cbn [mjoin option_join option_bind]. rewrite Hmalive, Hb, Hempty.
  cbn [andb]. rewrite Hmloc.
  exists (<[Z.to_nat 65535 := Some (Peeps.moveTo m' (Coord.mk 255 255))]> inds3), r3.
  split; [reflexivity|].
  exists (Peeps.moveTo m' (Coord.mk 255 255)), l'.
  split; [apply list_lookup_insert_eq; apply lookup_lt_Some in Hm3; exact Hm3|].
  split; [rewrite list_lookup_insert_ne by lia; exact Hl3|].
  split; [exact Hmalive|]. split; [exact Hlalive|].
  split; [reflexivity|]. rewrite Hlloc. reflexivity.
Qed.


(** C5, as the claim words it, fails in the crowd.  The cell of individual
    65536 holds the empty tag, so the move of individual 65535 onto it is
    queued by [executeActions] and carried out by the move drain: after both
    drains the two living individuals stand on the same cell. *)
Lemma crowd_step_shares_a_cell :
  exists sim',
    stepOnce (fun v => v) (fun v => v) (fun v => v) crowd = Returns sim' /\
    ~ noSharedCell (Peeps.individuals (Simulator.peeps sim')).
Proof.
  destruct crowd_step as (inds & r' & Hstep & a & b & Ha & Hb & Haa & Hba & Hla & Hlb).
  eexists. split; [exact Hstep|].
  cbn [Simulator.peeps Peeps.individuals]. intros Hshared.
  specialize (Hshared _ _ a b Ha Hb Haa Hba ltac:(congruence)). lia.
Qed.
